(** * Tomasulo scheduling core (tomasulo.c): shallow embedding and properties

    The C file keeps the whole pipeline in file-scope variables and advances
    it once per cycle through five stage functions.  Here the variables are
    the fields of one [state] record, every stage is a function on [state],
    and the two ways the C code can stop abnormally ([assert(false)], a
    request to the trace beyond its end) are explicit results.

    Conventions.
    - An [instruction_t*] is [option ptr]: [None] is [NULL], [Some p] points
      to the record at position [p] of the trace table, which is what
      [get_instr(trace, p)] hands out.  The records live in [mem].
    - C [int]s that carry data (cycles, program indices, register ids,
      counters) are [Z]; array subscripts and the queue cursors, which the
      code keeps inside the array bounds, are [nat].  No counter comes near
      the range of a 32-bit [int] in a run, so wrap-around is not modelled.
    - The debugging macros and the [inst]/[pc] fields they print are left
      out. *)

From Stdlib Require Import ZArith Lia Bool.
From stdpp Require Import base decidable option list functions.

Local Open Scope Z_scope.

(** ** Parameters of the algorithm *)

Definition INSTR_QUEUE_SIZE : nat := 10.
Definition RESERV_INT_SIZE : nat := 4.
Definition RESERV_FP_SIZE : nat := 2.
Definition FU_INT_SIZE : nat := 2.
Definition FU_FP_SIZE : nat := 1.
Definition FU_INT_LATENCY : Z := 4.
Definition FU_FP_LATENCY : Z := 9.

Arguments INSTR_QUEUE_SIZE : simpl never.

(** ** The target machine

    Modelled from the spec: machine.h, regs.h and instr.h are not part of
    the sources.  What tomasulo.c takes from them is the size of the
    register file, the register id [DNA] that marks an absent operand, the
    flag word of an opcode and the flag bits it tests. *)
Class Machine := {
  MD_TOTAL_REGS : nat;
  DNA : Z;
  MD_OP_FLAGS : Z -> Z;
  F_ICOMP : Z;
  F_FCOMP : Z;
  F_UNCOND : Z;
  F_COND : Z;
  F_LOAD : Z;
  F_STORE : Z;
  F_TRAP : Z;
  F_CALL : Z
}.

(** ** Instruction records *)

Definition ptr := Z.

Record instruction_t := mk_instr {
  op : Z;
  index : Z;
  r_out : Z * Z;
  r_in : Z * Z * Z;
  Q : option ptr * option ptr * option ptr;
  tom_dispatch_cycle : Z;
  tom_issue_cycle : Z;
  tom_execute_cycle : Z;
  tom_cdb_cycle : Z
}.

(** [a[i]] for the two small fixed arrays of a record. *)
Definition at2 {A} (a : A * A) (i : nat) : A :=
  match i with O => fst a | _ => snd a end.

Definition at3 {A} (a : A * A * A) (i : nat) : A :=
  match i with O => fst (fst a) | 1%nat => snd (fst a) | _ => snd a end.

Definition put3 {A} (a : A * A * A) (i : nat) (x : A) : A * A * A :=
  match i with
  | O => (x, snd (fst a), snd a)
  | 1%nat => (fst (fst a), x, snd a)
  | _ => (fst (fst a), snd (fst a), x)
  end.

Arguments at2 : simpl never.
Arguments at3 : simpl never.
Arguments put3 : simpl never.

Definition set_Q (q : option ptr * option ptr * option ptr) (i : instruction_t) :=
  mk_instr (op i) (index i) (r_out i) (r_in i) q
           (tom_dispatch_cycle i) (tom_issue_cycle i) (tom_execute_cycle i) (tom_cdb_cycle i).

Definition set_tom_dispatch_cycle (c : Z) (i : instruction_t) :=
  mk_instr (op i) (index i) (r_out i) (r_in i) (Q i)
           c (tom_issue_cycle i) (tom_execute_cycle i) (tom_cdb_cycle i).

Definition set_tom_issue_cycle (c : Z) (i : instruction_t) :=
  mk_instr (op i) (index i) (r_out i) (r_in i) (Q i)
           (tom_dispatch_cycle i) c (tom_execute_cycle i) (tom_cdb_cycle i).

Definition set_tom_execute_cycle (c : Z) (i : instruction_t) :=
  mk_instr (op i) (index i) (r_out i) (r_in i) (Q i)
           (tom_dispatch_cycle i) (tom_issue_cycle i) c (tom_cdb_cycle i).

Definition set_tom_cdb_cycle (c : Z) (i : instruction_t) :=
  mk_instr (op i) (index i) (r_out i) (r_in i) (Q i)
           (tom_dispatch_cycle i) (tom_issue_cycle i) (tom_execute_cycle i) c.

(** Pointer comparison [a == b]. *)
Definition ptr_eqb (a b : option ptr) : bool :=
  match a, b with
  | None, None => true
  | Some x, Some y => x =? y
  | _, _ => false
  end.

(** ** Results of a stage *)

Inductive result (A : Type) : Type :=
| Ok (a : A)
| AssertFail               (* assert(false) *)
| OutOfTrace (idx : Z)     (* get_instr asked for an index beyond the trace *)
| BadReg (r : Z)           (* map_table subscripted outside the register file *)
| NullDeref.               (* a NULL instruction pointer was dereferenced *)

Arguments Ok {A} a.
Arguments AssertFail {A}.
Arguments OutOfTrace {A} idx.
Arguments BadReg {A} r.
Arguments NullDeref {A}.

Definition bind {A B} (r : result A) (k : A -> result B) : result B :=
  match r with
  | Ok a => k a
  | AssertFail => AssertFail
  | OutOfTrace i => OutOfTrace i
  | BadReg r => BadReg r
  | NullDeref => NullDeref
  end.

Notation "'do' x <- r ; k" := (bind r (fun x => k))
  (at level 20, x name, r at level 100, k at level 200).
Notation "'do' ' p <- r ; k" := (bind r (fun x => match x with p => k end))
  (at level 20, p pattern, r at level 100, k at level 200).

(** ** The simulator's variables *)

Record state := mk_state {
  doneCount : Z;
  instr_queue : list (option ptr);
  instr_queue_size : nat;
  ifq_head : nat;
  ifq_tail : nat;
  reservINT : list (option ptr);
  reservFP : list (option ptr);
  fuINT : list (option ptr);
  fuFP : list (option ptr);
  commonDataBus : option ptr;
  map_table : list (option ptr);
  fetch_index : Z;
  mem : ptr -> instruction_t
}.

Definition set_doneCount (v : Z) (s : state) :=
  mk_state v (instr_queue s) (instr_queue_size s) (ifq_head s) (ifq_tail s)
           (reservINT s) (reservFP s) (fuINT s) (fuFP s) (commonDataBus s)
           (map_table s) (fetch_index s) (mem s).

Definition set_queue (q : list (option ptr)) (sz hd tl : nat) (s : state) :=
  mk_state (doneCount s) q sz hd tl
           (reservINT s) (reservFP s) (fuINT s) (fuFP s) (commonDataBus s)
           (map_table s) (fetch_index s) (mem s).

Definition set_reservINT (v : list (option ptr)) (s : state) :=
  mk_state (doneCount s) (instr_queue s) (instr_queue_size s) (ifq_head s) (ifq_tail s)
           v (reservFP s) (fuINT s) (fuFP s) (commonDataBus s)
           (map_table s) (fetch_index s) (mem s).

Definition set_reservFP (v : list (option ptr)) (s : state) :=
  mk_state (doneCount s) (instr_queue s) (instr_queue_size s) (ifq_head s) (ifq_tail s)
           (reservINT s) v (fuINT s) (fuFP s) (commonDataBus s)
           (map_table s) (fetch_index s) (mem s).

Definition set_fuINT (v : list (option ptr)) (s : state) :=
  mk_state (doneCount s) (instr_queue s) (instr_queue_size s) (ifq_head s) (ifq_tail s)
           (reservINT s) (reservFP s) v (fuFP s) (commonDataBus s)
           (map_table s) (fetch_index s) (mem s).

Definition set_fuFP (v : list (option ptr)) (s : state) :=
  mk_state (doneCount s) (instr_queue s) (instr_queue_size s) (ifq_head s) (ifq_tail s)
           (reservINT s) (reservFP s) (fuINT s) v (commonDataBus s)
           (map_table s) (fetch_index s) (mem s).

Definition set_commonDataBus (v : option ptr) (s : state) :=
  mk_state (doneCount s) (instr_queue s) (instr_queue_size s) (ifq_head s) (ifq_tail s)
           (reservINT s) (reservFP s) (fuINT s) (fuFP s) v
           (map_table s) (fetch_index s) (mem s).

Definition set_map_table (v : list (option ptr)) (s : state) :=
  mk_state (doneCount s) (instr_queue s) (instr_queue_size s) (ifq_head s) (ifq_tail s)
           (reservINT s) (reservFP s) (fuINT s) (fuFP s) (commonDataBus s)
           v (fetch_index s) (mem s).

Definition set_fetch_index (v : Z) (s : state) :=
  mk_state (doneCount s) (instr_queue s) (instr_queue_size s) (ifq_head s) (ifq_tail s)
           (reservINT s) (reservFP s) (fuINT s) (fuFP s) (commonDataBus s)
           (map_table s) v (mem s).

Definition set_mem (v : ptr -> instruction_t) (s : state) :=
  mk_state (doneCount s) (instr_queue s) (instr_queue_size s) (ifq_head s) (ifq_tail s)
           (reservINT s) (reservFP s) (fuINT s) (fuFP s) (commonDataBus s)
           (map_table s) (fetch_index s) v.

(** [a[i]] of a pool: [None] when the slot holds [NULL] (or [i] is outside
    the array, which the loops below never ask for). *)
Definition slot (a : list (option ptr)) (i : nat) : option ptr := mjoin (a !! i).

(** [map_table[r]]: [None] when [r] is outside the register file. *)
Definition reg_read (mt : list (option ptr)) (r : Z) : option (option ptr) :=
  if r <? 0 then None else mt !! Z.to_nat r.

Definition reg_write (mt : list (option ptr)) (r : Z) (v : option ptr) : list (option ptr) :=
  <[Z.to_nat r := v]> mt.

Section Tomasulo.
Context `{M : Machine}.

(** ** Identifying instructions *)

(** C truth value of [MD_OP_FLAGS(op) & f]. *)
Definition has_flag (o f : Z) : bool := negb (Z.land (MD_OP_FLAGS o) f =? 0).

Definition IS_UNCOND_CTRL (o : Z) : bool := has_flag o F_CALL || has_flag o F_UNCOND.
Definition IS_COND_CTRL (o : Z) : bool := has_flag o F_COND.
Definition IS_FCOMP (o : Z) : bool := has_flag o F_FCOMP.
Definition IS_ICOMP (o : Z) : bool := has_flag o F_ICOMP.
Definition IS_LOAD (o : Z) : bool := has_flag o F_LOAD.
Definition IS_STORE (o : Z) : bool := has_flag o F_STORE.
Definition IS_TRAP (o : Z) : bool := has_flag o F_TRAP.
Definition USES_INT_FU (o : Z) : bool := IS_ICOMP o || IS_LOAD o || IS_STORE o.
Definition USES_FP_FU (o : Z) : bool := IS_FCOMP o.
Definition WRITES_CDB (o : Z) : bool := IS_ICOMP o || IS_LOAD o || IS_FCOMP o.

(** ** is_simulation_done *)

Definition is_simulation_done (sim_insn : Z) (st : state) : bool :=
  doneCount st =? sim_insn.

(** ** CDB_To_retire *)

(** One round of the first loop:
    [if (map_table[r] == commonDataBus) map_table[r] = NULL;]
    with [r = commonDataBus->r_out[i]]. *)
Definition retire_map (b : ptr) (r : Z) (mt : list (option ptr))
  : result (list (option ptr)) :=
  match reg_read mt r with
  | None => BadReg r
  | Some e => Ok (if ptr_eqb e (Some b) then reg_write mt r None else mt)
  end.

(** The inner [j] loop on one record:
    [if (Q[j] != NULL && Q[j] == commonDataBus) Q[j] = NULL;] *)
Definition retire_Q_slot (b : ptr) (q : option ptr) : option ptr :=
  if negb (ptr_eqb q None) && ptr_eqb q (Some b) then None else q.

Definition retire_Q (b : ptr) (i : instruction_t) : instruction_t :=
  set_Q (retire_Q_slot b (at3 (Q i) 0),
         retire_Q_slot b (at3 (Q i) 1),
         retire_Q_slot b (at3 (Q i) 2)) i.

(** The outer [i] loop over one bank of reservation stations. *)
Fixpoint retire_reserv (b : ptr) (rs : list (option ptr)) (m : ptr -> instruction_t)
  : ptr -> instruction_t :=
  match rs with
  | [] => m
  | None :: rs' => retire_reserv b rs' m
  | Some x :: rs' => retire_reserv b rs' (<[x := retire_Q b (m x)]> m)
  end.

Definition CDB_To_retire (current_cycle : Z) (st : state) : result state :=
  match commonDataBus st with
  | None => Ok st
  | Some b =>
      do mt1 <- retire_map b (at2 (r_out (mem st b)) 0) (map_table st);
      do mt2 <- retire_map b (at2 (r_out (mem st b)) 1) mt1;
      let m1 := retire_reserv b (reservINT st) (mem st) in
      let m2 := retire_reserv b (reservFP st) m1 in
      Ok (set_doneCount (doneCount st + 1)
           (set_commonDataBus None
             (set_mem m2 (set_map_table mt2 st))))
  end.

(** ** free_stations *)

(** [for (i...) if (a[i] == instr) { a[i] = NULL; break; }] *)
Fixpoint free_slot (p : ptr) (a : list (option ptr)) : list (option ptr) :=
  match a with
  | [] => []
  | s :: a' => if ptr_eqb s (Some p) then None :: a' else s :: free_slot p a'
  end.

Definition free_stations (instr : ptr) (st : state) : result state :=
  let o := op (mem st instr) in
  if USES_INT_FU o then
    Ok (set_reservINT (free_slot instr (reservINT st))
         (set_fuINT (free_slot instr (fuINT st)) st))
  else if USES_FP_FU o then
    Ok (set_reservFP (free_slot instr (reservFP st))
         (set_fuFP (free_slot instr (fuFP st)) st))
  else AssertFail.

(** ** execute_To_CDB *)

(** The locals [oldest] and [oldest_instr] travel with the state. *)
Definition cdb_loop : Type := state * Z * option ptr.

(** Body of the loop over [fuINT], at subscript [i]. *)
Definition execute_int_slot (current_cycle : Z) (i : nat) (a : cdb_loop)
  : result cdb_loop :=
  let '(st, oldest, oldest_instr) := a in
  match slot (fuINT st) i with
  | None => Ok a
  | Some x =>
      if current_cycle >=? tom_execute_cycle (mem st x) + FU_INT_LATENCY then
        if IS_STORE (op (mem st x)) then
          do st' <- free_stations x st;
          Ok (set_doneCount (doneCount st' + 1) st', oldest, oldest_instr)
        else if (oldest =? -1) || (index (mem st x) <? oldest) then
          Ok (st, index (mem st x), Some x)
        else Ok a
      else Ok a
  end.

Fixpoint execute_int_loop (current_cycle : Z) (subs : list nat) (a : cdb_loop)
  : result cdb_loop :=
  match subs with
  | [] => Ok a
  | i :: subs' =>
      do a' <- execute_int_slot current_cycle i a;
      execute_int_loop current_cycle subs' a'
  end.

(** The test on [fuFP[0]]. *)
Definition execute_fp_slot (current_cycle : Z) (a : cdb_loop) : cdb_loop :=
  let '(st, oldest, oldest_instr) := a in
  match slot (fuFP st) 0 with
  | None => a
  | Some x =>
      if current_cycle >=? tom_execute_cycle (mem st x) + FU_FP_LATENCY then
        if (oldest =? -1) || (index (mem st x) <? oldest) then
          (st, index (mem st x), Some x)
        else a
      else a
  end.

Definition execute_To_CDB (current_cycle : Z) (st : state) : result state :=
  do a <- execute_int_loop current_cycle (seq 0 FU_INT_SIZE) (st, -1, None);
  let '(st1, _, oldest_instr) := execute_fp_slot current_cycle a in
  match oldest_instr with
  | None => Ok st1
  | Some w =>
      let st2 := set_mem (<[w := set_tom_cdb_cycle current_cycle (mem st1 w)]> (mem st1)) st1 in
      do st3 <- free_stations w st2;
      Ok (set_commonDataBus (Some w) st3)
  end.

(** ** issue_To_execute *)

(** The condition of the scan: the slot is occupied, its instruction has
    no execute cycle yet and waits for no producer. *)
Definition ready (m : ptr -> instruction_t) (s : option ptr) : bool :=
  match s with
  | None => false
  | Some x =>
      (tom_execute_cycle (m x) =? 0)
      && ptr_eqb (at3 (Q (m x)) 0) None
      && ptr_eqb (at3 (Q (m x)) 1) None
      && ptr_eqb (at3 (Q (m x)) 2) None
  end.

(** The [while (j < RESERV_INT_SIZE)] scan.  [found] and [oldest_rs_int]
    are one [option nat]: [None] is [found == false]. *)
Definition scan_int_step (m : ptr -> instruction_t) (rs : list (option ptr))
  (acc : option nat) (j : nat) : option nat :=
  if ready m (slot rs j) then
    match acc with
    | None => Some j
    | Some o =>
        match slot rs j, slot rs o with
        | Some x, Some y => if index (m x) <? index (m y) then Some j else Some o
        | _, _ => Some o
        end
    end
  else acc.

Definition oldest_rs_int (m : ptr -> instruction_t) (rs : list (option ptr)) : option nat :=
  fold_left (scan_int_step m rs) (seq 0 RESERV_INT_SIZE) None.

(** The [while (j < RESERV_FP_SIZE)] scan; it compares dispatch cycles
    with [<=]. *)
Definition scan_fp_step (m : ptr -> instruction_t) (rs : list (option ptr))
  (acc : option nat) (j : nat) : option nat :=
  if ready m (slot rs j) then
    match acc with
    | None => Some j
    | Some o =>
        match slot rs j, slot rs o with
        | Some x, Some y =>
            if tom_dispatch_cycle (m x) <=? tom_dispatch_cycle (m y) then Some j else Some o
        | _, _ => Some o
        end
    end
  else acc.

Definition oldest_rs_fp (m : ptr -> instruction_t) (rs : list (option ptr)) : option nat :=
  fold_left (scan_fp_step m rs) (seq 0 RESERV_FP_SIZE) None.

(** Body of the loop over [fuINT], at subscript [i]. *)
Definition issue_int_slot (current_cycle : Z) (st : state) (i : nat) : state :=
  match fuINT st !! i with
  | Some None =>
      match oldest_rs_int (mem st) (reservINT st) with
      | Some j =>
          match slot (reservINT st) j with
          | Some x =>
              set_fuINT (<[i := Some x]> (fuINT st))
                (set_mem (<[x := set_tom_execute_cycle current_cycle (mem st x)]> (mem st)) st)
          | None => st
          end
      | None => st
      end
  | _ => st
  end.

(** Body of the loop over [fuFP], at subscript [i]. *)
Definition issue_fp_slot (current_cycle : Z) (st : state) (i : nat) : state :=
  match fuFP st !! i with
  | Some None =>
      match oldest_rs_fp (mem st) (reservFP st) with
      | Some j =>
          match slot (reservFP st) j with
          | Some x =>
              set_fuFP (<[i := Some x]> (fuFP st))
                (set_mem (<[x := set_tom_execute_cycle current_cycle (mem st x)]> (mem st)) st)
          | None => st
          end
      | None => st
      end
  | _ => st
  end.

Definition issue_To_execute (current_cycle : Z) (st : state) : state :=
  let st1 := fold_left (issue_int_slot current_cycle) (seq 0 FU_INT_SIZE) st in
  fold_left (issue_fp_slot current_cycle) (seq 0 FU_FP_SIZE) st1.

(** ** map_operands *)

(** Round [i] of the first loop. *)
Definition map_source (instr : ptr) (i : nat) (mt : list (option ptr))
  (m : ptr -> instruction_t) : result (ptr -> instruction_t) :=
  let r := at3 (r_in (m instr)) i in
  if r =? DNA then Ok m
  else match reg_read mt r with
       | None => BadReg r
       | Some e => Ok (<[instr := set_Q (put3 (Q (m instr)) i e) (m instr)]> m)
       end.

(** Round [i] of the second loop. *)
Definition map_dest (instr : ptr) (i : nat) (m : ptr -> instruction_t)
  (mt : list (option ptr)) : result (list (option ptr)) :=
  let r := at2 (r_out (m instr)) i in
  if r =? DNA then Ok mt
  else match reg_read mt r with
       | None => BadReg r
       | Some _ => Ok (reg_write mt r (Some instr))
       end.

Definition map_operands (instr : ptr) (st : state) : result state :=
  do m1 <- map_source instr 0 (map_table st) (mem st);
  do m2 <- map_source instr 1 (map_table st) m1;
  do m3 <- map_source instr 2 (map_table st) m2;
  do mt1 <- map_dest instr 0 m3 (map_table st);
  do mt2 <- map_dest instr 1 m3 mt1;
  Ok (set_map_table mt2 (set_mem m3 st)).

(** ** dispatch_To_issue *)

(** Subscript of the first [NULL] slot, where the [for] loop stops. *)
Fixpoint first_free (a : list (option ptr)) : option nat :=
  match a with
  | [] => None
  | None :: _ => Some O
  | Some _ :: a' => S <$> first_free a'
  end.

(** What both reservation-station branches do once a free slot is found. *)
Definition issue_head (current_cycle : Z) (head_instr : ptr) (st : state) : result state :=
  let st1 := set_mem (<[head_instr := set_tom_issue_cycle current_cycle (mem st head_instr)]> (mem st)) st in
  let st2 := set_queue (instr_queue st1) (instr_queue_size st1 - 1)%nat
                       ((ifq_head st1 + 1) `mod` INSTR_QUEUE_SIZE)%nat (ifq_tail st1) st1 in
  map_operands head_instr st2.

Definition dispatch_To_issue (current_cycle : Z) (st : state) : result state :=
  if (0 <? instr_queue_size st)%nat then
    match slot (instr_queue st) (ifq_head st) with
    | None => NullDeref
    | Some head_instr =>
        let o := op (mem st head_instr) in
        if IS_UNCOND_CTRL o || IS_COND_CTRL o then
          Ok (set_doneCount (doneCount st + 1)
               (set_queue (instr_queue st) (instr_queue_size st - 1)%nat
                          ((ifq_head st + 1) `mod` INSTR_QUEUE_SIZE)%nat (ifq_tail st) st))
        else if USES_FP_FU o then
          match first_free (firstn RESERV_FP_SIZE (reservFP st)) with
          | Some i =>
              issue_head current_cycle head_instr
                (set_reservFP (<[i := Some head_instr]> (reservFP st)) st)
          | None => Ok st
          end
        else if USES_INT_FU o then
          match first_free (firstn RESERV_INT_SIZE (reservINT st)) with
          | Some i =>
              issue_head current_cycle head_instr
                (set_reservINT (<[i := Some head_instr]> (reservINT st)) st)
          | None => Ok st
          end
        else AssertFail
    end
  else Ok st.

(** ** fetch *)

(** Modelled from the spec: [get_instr] belongs to instr.h, which is not
    part of the sources.  The trace holds the instructions 1 to
    [sim_num_insn]; a request for any other index has no defined answer
    and is the result [OutOfTrace]. *)
Definition get_instr (sim_num_insn : Z) (idx : Z) : result ptr :=
  if (1 <=? idx) && (idx <=? sim_num_insn) then Ok idx else OutOfTrace idx.

(** The [do ... while (IS_TRAP(new_instr->op))] loop.  [rounds] bounds the
    recursion: [fetch] passes the number of instructions left in the
    trace, and a loop that has used them all asks [get_instr] for an index
    beyond the trace in its next round, before [rounds] is looked at. *)
Fixpoint fetch_loop (rounds : nat) (sim_num_insn : Z) (st : state) : result (ptr * state) :=
  let st1 := set_fetch_index (fetch_index st + 1) st in
  do new_instr <- get_instr sim_num_insn (fetch_index st1);
  if IS_TRAP (op (mem st1 new_instr)) then
    let st2 := set_doneCount (doneCount st1 + 1) st1 in
    match rounds with
    | O => OutOfTrace (fetch_index st2 + 1)
    | S rounds' => fetch_loop rounds' sim_num_insn st2
    end
  else Ok (new_instr, st1).

Definition fetch (sim_num_insn : Z) (st : state) : result state :=
  do '(new_instr, st1) <- fetch_loop (Z.to_nat (sim_num_insn - fetch_index st)) sim_num_insn st;
  Ok (set_queue (<[ifq_tail st1 := Some new_instr]> (instr_queue st1))
                (instr_queue_size st1) (ifq_head st1) (ifq_tail st1) st1).

(** ** fetch_To_dispatch *)

Definition fetch_To_dispatch (sim_num_insn : Z) (current_cycle : Z) (st : state)
  : result state :=
  if (instr_queue_size st <? INSTR_QUEUE_SIZE)%nat && (fetch_index st <? sim_num_insn) then
    do st1 <- fetch sim_num_insn st;
    match slot (instr_queue st1) (ifq_tail st1) with
    | None => NullDeref
    | Some x =>
        Ok (set_queue (instr_queue st1) (instr_queue_size st1 + 1)%nat (ifq_head st1)
                      ((ifq_tail st1 + 1) `mod` INSTR_QUEUE_SIZE)%nat
             (set_mem (<[x := set_tom_dispatch_cycle current_cycle (mem st1 x)]> (mem st1)) st1))
    end
  else Ok st.

(** ** runTomasulo *)

(** The state on entry to the [while] loop: the file-scope initialisers,
    then the five clearing loops, with [table] the records of the trace. *)
Definition init_state (table : ptr -> instruction_t) : state :=
  mk_state 0 (replicate INSTR_QUEUE_SIZE None) 0 0 0
           (replicate RESERV_INT_SIZE None) (replicate RESERV_FP_SIZE None)
           (replicate FU_INT_SIZE None) (replicate FU_FP_SIZE None)
           None (replicate MD_TOTAL_REGS None) 0 table.

(** The five stage calls of one pass through the loop body. *)
Definition stages (sim_num_insn : Z) (cycle : Z) (st : state) : result state :=
  do st1 <- CDB_To_retire cycle st;
  do st2 <- execute_To_CDB cycle st1;
  do st3 <- Ok (issue_To_execute cycle st2);
  do st4 <- dispatch_To_issue cycle st3;
  fetch_To_dispatch sim_num_insn cycle st4.

(** The [while (true)] loop; [fuel] bounds the number of passes and
    [None] is a loop still running when the fuel is used up. *)
Fixpoint run_loop (fuel : nat) (sim_num_insn : Z) (cycle : Z) (st : state)
  : option (result (Z * state)) :=
  match fuel with
  | O => None
  | S fuel' =>
      match stages sim_num_insn cycle st with
      | Ok st' =>
          let cycle' := cycle + 1 in
          if is_simulation_done sim_num_insn st' then Some (Ok (cycle', st'))
          else run_loop fuel' sim_num_insn cycle' st'
      | AssertFail => Some AssertFail
      | OutOfTrace i => Some (OutOfTrace i)
      | BadReg r => Some (BadReg r)
      | NullDeref => Some NullDeref
      end
  end.

Definition runTomasulo (fuel : nat) (sim_num_insn : Z) (table : ptr -> instruction_t)
  : option (result Z) :=
  match run_loop fuel sim_num_insn 1 (init_state table) with
  | None => None
  | Some r => Some (do x <- r; Ok (fst x))
  end.

End Tomasulo.

(** * Notions used in the statements *)

Section Notions.
Context `{M : Machine}.

(** The program index and the dispatch cycle of the occupant of slot [j]. *)
Definition slot_index (m : ptr -> instruction_t) (rs : list (option ptr)) (j : nat) : Z :=
  match slot rs j with Some x => index (m x) | None => 0 end.

Definition slot_dispatch (m : ptr -> instruction_t) (rs : list (option ptr)) (j : nat) : Z :=
  match slot rs j with Some x => tom_dispatch_cycle (m x) | None => 0 end.

(** [x] occupies a slot of the pool [a]. *)
Definition holds (a : list (option ptr)) (x : ptr) : Prop := ∃ i, slot a i = Some x.

(** No instruction occupies two slots of the pool. *)
Definition inj_pool (a : list (option ptr)) : Prop :=
  ∀ i j x, slot a i = Some x → slot a j = Some x → i = j.

Definition in_RS (st : state) (x : ptr) : Prop :=
  holds (reservINT st) x ∨ holds (reservFP st) x.

Definition in_FU (st : state) (x : ptr) : Prop :=
  holds (fuINT st) x ∨ holds (fuFP st) x.

Definition on_bus (st : state) (x : ptr) : Prop := commonDataBus st = Some x.

(** [x] is the [k]-th instruction of the queue, counted from its head. *)
Definition queued (st : state) (k : nat) (x : ptr) : Prop :=
  (k < instr_queue_size st)%nat ∧
  slot (instr_queue st) ((ifq_head st + k) `mod` INSTR_QUEUE_SIZE)%nat = Some x.

Definition in_queue (st : state) (x : ptr) : Prop := ∃ k, queued st k x.

(** The occupant [x] of functional-unit slot [i] has had its latency at
    cycle [c]. *)
Definition finished_int (st : state) (c : Z) (i : nat) (x : ptr) : Prop :=
  (i < FU_INT_SIZE)%nat ∧ slot (fuINT st) i = Some x ∧
  tom_execute_cycle (mem st x) + FU_INT_LATENCY <= c.

Definition finished_fp (st : state) (c : Z) (x : ptr) : Prop :=
  slot (fuFP st) 0 = Some x ∧ tom_execute_cycle (mem st x) + FU_FP_LATENCY <= c.

(** The instructions that contend for the bus at cycle [c]: occupants of a
    functional unit, of either bank, that have had their latency and are
    not stores. *)
Definition cdb_candidate (st : state) (c : Z) (x : ptr) : Prop :=
  ((∃ i, finished_int st c i x) ∨ finished_fp st c x) ∧
  IS_STORE (op (mem st x)) = false.

(** Invariant of the loop over [fuINT] in [execute_To_CDB], before round
    [k], for a stage that started in [st0]: the locals name the lowest
    program index among the finished occupants that are not stores in the
    slots below [k], and the slots from [k] on are as in [st0]. *)
Definition cdb_loop_inv (st0 : state) (c : Z) (k : nat) (a : cdb_loop) : Prop :=
  let '(st, oldest, oldest_instr) := a in
  mem st = mem st0 ∧ fuFP st = fuFP st0 ∧ reservFP st = reservFP st0 ∧
  commonDataBus st = commonDataBus st0 ∧
  (∀ j, (k <= j)%nat → slot (fuINT st) j = slot (fuINT st0) j) ∧
  match oldest_instr with
  | None =>
      oldest = -1 ∧
      ∀ j y, (j < k)%nat → finished_int st0 c j y → IS_STORE (op (mem st0 y)) = true
  | Some w =>
      oldest = index (mem st0 w) ∧
      (∃ j, (j < k)%nat ∧ finished_int st0 c j w) ∧
      IS_STORE (op (mem st0 w)) = false ∧
      ∀ j y, (j < k)%nat → finished_int st0 c j y →
             IS_STORE (op (mem st0 y)) = false →
             index (mem st0 w) <= index (mem st0 y)
  end.

(** [x] sits in at most one of the queue, the reservation stations, the
    functional units and the bus. *)
Definition in_at_most_one_structure (st : state) (x : ptr) : Prop :=
  ¬ (in_queue st x ∧ in_RS st x) ∧ ¬ (in_queue st x ∧ in_FU st x) ∧
  ¬ (in_queue st x ∧ on_bus st x) ∧ ¬ (in_RS st x ∧ in_FU st x) ∧
  ¬ (in_RS st x ∧ on_bus st x) ∧ ¬ (in_FU st x ∧ on_bus st x).

(** Taking the head off the queue. *)
Definition pop_head (st : state) : state :=
  set_queue (instr_queue st) (instr_queue_size st - 1)%nat
            ((ifq_head st + 1) `mod` INSTR_QUEUE_SIZE)%nat (ifq_tail st) st.

(** Putting [x] at the tail of the queue. *)
Definition push_tail (x : ptr) (st : state) : state :=
  set_queue (<[ifq_tail st := Some x]> (instr_queue st))
            (instr_queue_size st + 1)%nat (ifq_head st)
            ((ifq_tail st + 1) `mod` INSTR_QUEUE_SIZE)%nat st.

(** ** Runs *)

(** Stage call number [k] of the loop body, counted from 0. *)
Definition stage (sim_num_insn cycle : Z) (k : nat) (st : state) : result state :=
  match k with
  | 0%nat => CDB_To_retire cycle st
  | 1%nat => execute_To_CDB cycle st
  | 2%nat => Ok (issue_To_execute cycle st)
  | 3%nat => dispatch_To_issue cycle st
  | _ => fetch_To_dispatch sim_num_insn cycle st
  end.

(** The first [k] stage calls of a pass. *)
Fixpoint first_stages (sim_num_insn cycle : Z) (k : nat) (st : state) : result state :=
  match k with
  | O => Ok st
  | S k' =>
      do s <- first_stages sim_num_insn cycle k' st;
      stage sim_num_insn cycle k' s
  end.

(** The value of [cycle] after [n] passes: 1 on entry, one more after
    each pass. *)
Definition cycle_after (n : nat) : Z := 1 + Z.of_nat n.

(** The variables after [n] passes through the loop body; the pass after
    them runs with [cycle = cycle_after n]. *)
Fixpoint passes (n : nat) (sim_num_insn : Z) (table : ptr -> instruction_t)
  : result state :=
  match n with
  | O => Ok (init_state table)
  | S n' =>
      do s <- passes n' sim_num_insn table;
      stages sim_num_insn (cycle_after n') s
  end.

(** [st] is a point of the run: the variables after [n] passes and the
    first [k] stage calls of the next pass, the loop not having been left
    before. *)
Definition at_point (sim_num_insn : Z) (table : ptr -> instruction_t)
  (n k : nat) (st : state) : Prop :=
  (k <= 5)%nat ∧
  (∀ m s, (1 <= m <= n)%nat → passes m sim_num_insn table = Ok s →
          is_simulation_done sim_num_insn s = false) ∧
  ∃ s, passes n sim_num_insn table = Ok s ∧
       first_stages sim_num_insn (cycle_after n) k s = Ok st.

(** The loop has not been left after any of the first [n] passes. *)
Definition still_running (sim_num_insn : Z) (table : ptr -> instruction_t) (n : nat) : bool :=
  forallb (fun m => match passes m sim_num_insn table with
                    | Ok s => negb (is_simulation_done sim_num_insn s)
                    | _ => true
                    end) (seq 1 n).

(** ** Well-formed traces *)

(** What the simulator takes for granted about a record of the trace: the
    scheduling fields are still clear, the program index is not negative,
    the opcode asks for at most one kind of functional unit and belongs to
    one of the classes the stages know, the register ids fit the register
    file, and a store has no destination register. *)
Definition valid_reg (r : Z) : Prop := 0 <= r < Z.of_nat MD_TOTAL_REGS.

Record wf_instr (i : instruction_t) : Prop := {
  wf_Q : Q i = (None, None, None);
  wf_execute : tom_execute_cycle i = 0;
  wf_index : 0 <= index i;
  wf_one_unit : USES_INT_FU (op i) && USES_FP_FU (op i) = false;
  wf_class :
    IS_TRAP (op i) || IS_UNCOND_CTRL (op i) || IS_COND_CTRL (op i)
    || USES_INT_FU (op i) || USES_FP_FU (op i) = true;
  wf_r_in : ∀ j, (j < 3)%nat → valid_reg (at3 (r_in i) j);
  wf_r_out : ∀ j, (j < 2)%nat → valid_reg (at2 (r_out i) j);
  wf_store : IS_STORE (op i) = true → r_out i = (DNA, DNA)
}.

Definition wf_trace (sim_num_insn : Z) (table : ptr -> instruction_t) : Prop :=
  valid_reg DNA ∧ ∀ p, 1 <= p <= sim_num_insn → wf_instr (table p).

(** ** The invariant of the structures *)

(** The fields of a record that no stage writes. *)
Definition same_code (i j : instruction_t) : Prop :=
  op i = op j ∧ index i = index j ∧ r_in i = r_in j ∧ r_out i = r_out j.

Record safe (sim_num_insn : Z) (table : ptr -> instruction_t) (st : state) : Prop := {
  safe_len_queue : length (instr_queue st) = INSTR_QUEUE_SIZE;
  safe_len_reservINT : length (reservINT st) = RESERV_INT_SIZE;
  safe_len_reservFP : length (reservFP st) = RESERV_FP_SIZE;
  safe_len_fuINT : length (fuINT st) = FU_INT_SIZE;
  safe_len_fuFP : length (fuFP st) = FU_FP_SIZE;
  safe_head : (ifq_head st < INSTR_QUEUE_SIZE)%nat;
  safe_size : (instr_queue_size st <= INSTR_QUEUE_SIZE)%nat;
  safe_tail :
    ifq_tail st = ((ifq_head st + instr_queue_size st) `mod` INSTR_QUEUE_SIZE)%nat;
  safe_code : ∀ p, same_code (mem st p) (table p);
  safe_queue_full : ∀ k, (k < instr_queue_size st)%nat → ∃ x, queued st k x;
  safe_queue_order :
    ∀ k1 k2 x1 x2, queued st k1 x1 → queued st k2 x2 → (k1 < k2)%nat → x1 < x2;
  safe_queue_range :
    ∀ k x, queued st k x → 1 <= x <= fetch_index st ∧ x <= sim_num_insn;
  safe_queue_young : ∀ k x y, queued st k x → in_RS st y ∨ on_bus st y → y < x;
  safe_flight_range :
    ∀ y, in_RS st y ∨ on_bus st y → 1 <= y <= fetch_index st ∧ y <= sim_num_insn;
  safe_rs_int_inj : inj_pool (reservINT st);
  safe_rs_fp_inj : inj_pool (reservFP st);
  safe_rs_int_class : ∀ x, holds (reservINT st) x → USES_INT_FU (op (table x)) = true;
  safe_rs_fp_class :
    ∀ x, holds (reservFP st) x →
         USES_INT_FU (op (table x)) = false ∧ USES_FP_FU (op (table x)) = true;
  safe_fu_int_inj : inj_pool (fuINT st);
  safe_fu_fp_inj : inj_pool (fuFP st);
  safe_fu_int_rs : ∀ x, holds (fuINT st) x → holds (reservINT st) x;
  safe_fu_fp_rs : ∀ x, holds (fuFP st) x → holds (reservFP st) x;
  safe_fu_exec : ∀ x, in_FU st x → tom_execute_cycle (mem st x) ≠ 0;
  safe_bus_free : ∀ b, on_bus st b → ¬ in_RS st b;
  safe_bus_class : ∀ b, on_bus st b → IS_STORE (op (table b)) = false
}.

(** What the loops of [execute_To_CDB] keep besides: the structures are
    sound, and the instruction held in [oldest_instr] sits in a functional
    unit. *)
Definition cdb_loop_safe (sim_num_insn : Z) (table : ptr -> instruction_t)
  (a : cdb_loop) : Prop :=
  let '(st, _, oldest_instr) := a in
  safe sim_num_insn table st ∧
  ∀ w, oldest_instr = Some w →
       (holds (fuINT st) w ∧ IS_STORE (op (mem st w)) = false) ∨ holds (fuFP st) w.

(** ** Counting retired instructions *)

(** Slot [i] of [fuINT] holds a store that has had its latency. *)
Definition finished_store (st : state) (c : Z) (i : nat) : bool :=
  match slot (fuINT st) i with
  | Some x =>
      (tom_execute_cycle (mem st x) + FU_INT_LATENCY <=? c) && IS_STORE (op (mem st x))
  | None => false
  end.

(** The number of such slots below [k]. *)
Definition finished_stores (st : state) (c : Z) (k : nat) : nat :=
  length (List.filter (finished_store st c) (seq 0 k)).

(** What the loop over [fuINT] has counted before round [k]. *)
Definition cdb_loop_count (st0 : state) (c : Z) (k : nat) (a : cdb_loop) : Prop :=
  let '(st, _, _) := a in
  mem st = mem st0 ∧ commonDataBus st = commonDataBus st0 ∧
  (∀ j, (k <= j)%nat → slot (fuINT st) j = slot (fuINT st0) j) ∧
  doneCount st = doneCount st0 + Z.of_nat (finished_stores st0 c k).

(** What stage call [k] adds to [doneCount]: the instruction on the bus
    for [CDB_To_retire], the finished stores for [execute_To_CDB], the
    head of the queue when it is a control instruction for
    [dispatch_To_issue], the traps skipped for [fetch_To_dispatch]. *)
Definition counted_by_stage (c : Z) (k : nat) (st st' : state) : Z :=
  match k with
  | 0%nat => match commonDataBus st with Some _ => 1 | None => 0 end
  | 1%nat => Z.of_nat (finished_stores st c FU_INT_SIZE)
  | 2%nat => 0
  | 3%nat =>
      match slot (instr_queue st) (ifq_head st) with
      | Some h =>
          if (0 <? instr_queue_size st)%nat
             && (IS_UNCOND_CTRL (op (mem st h)) || IS_COND_CTRL (op (mem st h)))
          then 1 else 0
      | None => 0
      end
  | _ => Z.max 0 (fetch_index st' - fetch_index st - 1)
  end.

(** No instruction is recorded as the producer of the register id DNA. *)
Definition DNA_unassigned (mt : list (option ptr)) : Prop :=
  ∀ e, reg_read mt DNA = Some e → e = None.

(** The number of occupied slots of a pool. *)
Fixpoint occupancy (a : list (option ptr)) : nat :=
  match a with
  | [] => 0
  | Some _ :: a' => S (occupancy a')
  | None :: a' => occupancy a'
  end.

(** The instructions in flight: queued, in a reservation station or on
    the bus. *)
Definition in_flight (st : state) : Z :=
  Z.of_nat (instr_queue_size st) + Z.of_nat (occupancy (reservINT st))
  + Z.of_nat (occupancy (reservFP st))
  + match commonDataBus st with Some _ => 1 | None => 0 end.

(** Every instruction fetched so far is counted as retired or in flight. *)
Definition accounted (st : state) : Prop :=
  0 <= doneCount st ∧ doneCount st + in_flight st = fetch_index st.

(** The value returned is the value [cycle] has in the stage call that
    takes [doneCount] to the instruction count. *)
Definition returns_cycle_of_last_retirement (sim_num_insn : Z)
  (table : ptr -> instruction_t) : Prop :=
  ∀ fuel r n k st st',
    runTomasulo fuel sim_num_insn table = Some (Ok r) →
    at_point sim_num_insn table n k st → (k < 5)%nat →
    stage sim_num_insn (cycle_after n) k st = Ok st' →
    doneCount st ≠ sim_num_insn → doneCount st' = sim_num_insn →
    r = cycle_after n.

(** ** What a run needs to go on *)

(** The trace does not end in a trap: its last instruction is one that
    [fetch] hands to the queue. *)
Definition ends_outside_trap (sim_num_insn : Z) (table : ptr -> instruction_t) : Prop :=
  0 <= sim_num_insn ∧
  (0 < sim_num_insn → IS_TRAP (op (table sim_num_insn)) = false).

(** Besides [safe]: the producer map has the size of the register file;
    queued instructions are no traps; the records of the instructions
    not yet in a reservation station are as the trace gave them; an
    occupant of a reservation station has an execute cycle only once it is
    in a functional unit; an await-slot names an older instruction that is
    still in a reservation station or on the bus and is no store; and the
    producer map names, for a register other than DNA, an instruction that
    writes it and is in a reservation station or on the bus. *)
Record live (sim_num_insn : Z) (table : ptr -> instruction_t) (st : state) : Prop := {
  live_safe : safe sim_num_insn table st;
  live_map_len : length (map_table st) = MD_TOTAL_REGS;
  live_queue_code : ∀ k x, queued st k x → IS_TRAP (op (table x)) = false;
  live_pristine :
    ∀ x, in_queue st x ∨ fetch_index st < x <= sim_num_insn →
         tom_execute_cycle (mem st x) = 0 ∧ Q (mem st x) = (None, None, None);
  live_idle : ∀ x, in_RS st x → ¬ in_FU st x → tom_execute_cycle (mem st x) = 0;
  live_Q :
    ∀ x j p, in_RS st x → (j < 3)%nat → at3 (Q (mem st x)) j = Some p →
             p < x ∧ (in_RS st p ∨ on_bus st p) ∧ IS_STORE (op (table p)) = false;
  live_map :
    ∀ r p, reg_read (map_table st) r = Some (Some p) →
           (in_RS st p ∨ on_bus st p) ∧ r ≠ DNA ∧
           (r = at2 (r_out (table p)) 0 ∨ r = at2 (r_out (table p)) 1);
  live_fetch : 0 <= fetch_index st <= sim_num_insn
}.

(** ** The measure of what is left to do *)

(** An occupant of a reservation station weighs 12 while it waits, and
    once it executes 2 more than the cycles it still needs at time [t]. *)
Definition weight (lat t : Z) (i : instruction_t) : Z :=
  if tom_execute_cycle i =? 0 then 12
  else 2 + Z.max 0 (tom_execute_cycle i + lat - t).

Fixpoint pool_weight (lat t : Z) (m : ptr -> instruction_t) (a : list (option ptr)) : Z :=
  match a with
  | [] => 0
  | Some x :: a' => weight lat t (m x) + pool_weight lat t m a'
  | None :: a' => pool_weight lat t m a'
  end.

(** An instruction not yet fetched weighs 14, a queued one 13, one on the
    bus 1. *)
Definition potential (sim_num_insn t : Z) (st : state) : Z :=
  14 * (sim_num_insn - fetch_index st)
  + 13 * Z.of_nat (instr_queue_size st)
  + pool_weight FU_INT_LATENCY t (mem st) (reservINT st)
  + pool_weight FU_FP_LATENCY t (mem st) (reservFP st)
  + match commonDataBus st with Some _ => 1 | None => 0 end.

(** ** Frames of the stages *)

(** The fields no loop of [execute_To_CDB] writes, and the pools, which
    only lose occupants. *)
Definition execute_frame (st0 st : state) : Prop :=
  map_table st = map_table st0 ∧ instr_queue st = instr_queue st0 ∧
  instr_queue_size st = instr_queue_size st0 ∧ ifq_head st = ifq_head st0 ∧
  ifq_tail st = ifq_tail st0 ∧ fetch_index st = fetch_index st0 ∧
  (∀ p, same_code (mem st p) (mem st0 p) ∧
        Q (mem st p) = Q (mem st0 p) ∧
        tom_execute_cycle (mem st p) = tom_execute_cycle (mem st0 p)) ∧
  (∀ i y, slot (fuINT st) i = Some y → slot (fuINT st0) i = Some y) ∧
  (∀ i y, slot (fuFP st) i = Some y → slot (fuFP st0) i = Some y) ∧
  (∀ i y, slot (reservINT st) i = Some y → slot (reservINT st0) i = Some y) ∧
  (∀ i y, slot (reservFP st) i = Some y → slot (reservFP st0) i = Some y).

(** [issue_To_execute] writes functional units and execute cycles only. *)
Definition issue_frame (st0 st : state) : Prop :=
  map_table st = map_table st0 ∧ instr_queue st = instr_queue st0 ∧
  instr_queue_size st = instr_queue_size st0 ∧ ifq_head st = ifq_head st0 ∧
  ifq_tail st = ifq_tail st0 ∧ fetch_index st = fetch_index st0 ∧
  reservINT st = reservINT st0 ∧ reservFP st = reservFP st0 ∧
  commonDataBus st = commonDataBus st0 ∧ doneCount st = doneCount st0 ∧
  ∀ p, same_code (mem st p) (mem st0 p) ∧ Q (mem st p) = Q (mem st0 p).

(** The loop over [fuINT] has, before round [k], emptied the slots of the
    stores that had had their latency in the slots below [k]. *)
Definition cdb_loop_stores (st0 : state) (c : Z) (k : nat) (a : cdb_loop) : Prop :=
  let '(st, _, _) := a in
  mem st = mem st0 ∧
  (∀ j, (k <= j)%nat → slot (fuINT st) j = slot (fuINT st0) j) ∧
  execute_frame st0 st ∧
  ∀ j x, (j < k)%nat → finished_store st0 c j = true → slot (fuINT st0) j = Some x →
         ¬ holds (fuINT st) x ∧ ¬ holds (reservINT st) x.

(** A store in an integer unit has not yet had its latency when
    [execute_To_CDB] is over, and has had it for at most this cycle
    before. *)
Definition store_timing (table : ptr -> instruction_t) (c : Z) (k : nat) (st : state) : Prop :=
  ∀ x, holds (fuINT st) x → IS_STORE (op (table x)) = true →
       if decide (2 <= k)%nat
       then c < tom_execute_cycle (mem st x) + FU_INT_LATENCY
       else c <= tom_execute_cycle (mem st x) + FU_INT_LATENCY.

End Notions.

(** * Notions for the further properties *)

Section MoreNotions.
Context `{M : Machine}.

(** [r] is a destination register of [i] that [map_operands] records:
    one of the two [r_out] fields, other than DNA. *)
Definition writes (i : instruction_t) (r : Z) : Prop :=
  r ≠ DNA ∧ (r = at2 (r_out i) 0 ∨ r = at2 (r_out i) 1).

(** The latency [execute_To_CDB] waits for: that of the integer units for
    the occupants of [fuINT], that of the floating-point unit for the
    occupant of [fuFP]. *)
Definition latency_of (o : Z) : Z :=
  if USES_INT_FU o then FU_INT_LATENCY else FU_FP_LATENCY.

(** What the pointers of the stations and of the producer map stand for:
    an instruction in a functional unit waits for no producer; no trap is
    in a station or on the bus; an await-slot names a writer of the source
    register it belongs to; and the producer the map names for a register
    is the youngest writer of it in a station or on the bus. *)
Record orderly (table : ptr -> instruction_t) (st : state) : Prop := {
  ord_quiet : ∀ x, in_FU st x → Q (mem st x) = (None, None, None);
  ord_code : ∀ x, in_RS st x ∨ on_bus st x → IS_TRAP (op (table x)) = false;
  ord_Q :
    ∀ x j p, in_RS st x → (j < 3)%nat → at3 (Q (mem st x)) j = Some p →
             writes (table p) (at3 (r_in (table x)) j);
  ord_map :
    ∀ r p y, reg_read (map_table st) r = Some (Some p) →
             in_RS st y ∨ on_bus st y → writes (table y) r → y <= p
}.

(** The cycles recorded in the records, after [k] stage calls of the pass
    with [cycle = c]: every stage an instruction has passed has taken a
    cycle of its own, and the bus holds the instruction that took it in
    the last call of [execute_To_CDB]. *)
Definition timed (c : Z) (k : nat) (st : state) : Prop :=
  (∀ x, in_queue st x →
        1 <= tom_dispatch_cycle (mem st x) ∧
        if decide (k <= 4)%nat then tom_dispatch_cycle (mem st x) < c
        else tom_dispatch_cycle (mem st x) <= c) ∧
  (∀ x, in_RS st x →
        1 <= tom_dispatch_cycle (mem st x) < tom_issue_cycle (mem st x) ∧
        if decide (k <= 3)%nat then tom_issue_cycle (mem st x) < c
        else tom_issue_cycle (mem st x) <= c) ∧
  (∀ x, in_FU st x →
        tom_issue_cycle (mem st x) < tom_execute_cycle (mem st x) ∧
        if decide (k <= 2)%nat then tom_execute_cycle (mem st x) < c
        else tom_execute_cycle (mem st x) <= c) ∧
  (∀ x, on_bus st x →
        1 <= tom_dispatch_cycle (mem st x) < tom_issue_cycle (mem st x) ∧
        tom_issue_cycle (mem st x) < tom_execute_cycle (mem st x) ∧
        tom_execute_cycle (mem st x) + latency_of (op (mem st x))
          <= tom_cdb_cycle (mem st x) ∧
        tom_cdb_cycle (mem st x) = if decide (k = 0)%nat then c - 1 else c).

(** The cycle fields of two records agree, but for [tom_cdb_cycle]. *)
Definition same_stamps (i j : instruction_t) : Prop :=
  tom_dispatch_cycle i = tom_dispatch_cycle j ∧
  tom_issue_cycle i = tom_issue_cycle j ∧
  tom_execute_cycle i = tom_execute_cycle j.

(** What a call of [issue_To_execute] with [cycle = c] may change from
    [st] to [st']: an occupied unit keeps its occupant; an instruction new
    in a unit was in a reservation station with no execute cycle and no
    producer to wait for, and has [c] for its execute cycle; no other
    execute cycle is written. *)
Definition issued (c : Z) (st st' : state) : Prop :=
  (∀ i x, slot (fuINT st) i = Some x → slot (fuINT st') i = Some x) ∧
  (∀ i x, slot (fuFP st) i = Some x → slot (fuFP st') i = Some x) ∧
  (∀ x, in_FU st' x →
        in_FU st x ∨
        (in_RS st x ∧ tom_execute_cycle (mem st x) = 0 ∧
         Q (mem st x) = (None, None, None) ∧ tom_execute_cycle (mem st' x) = c)) ∧
  (∀ p, tom_execute_cycle (mem st' p) = tom_execute_cycle (mem st p) ∨
        (tom_execute_cycle (mem st p) = 0 ∧ tom_execute_cycle (mem st' p) = c)).

End MoreNotions.

(** * The records the run leaves *)

Section Results.
Context `{M : Machine}.

(** What the record [i] of an instruction that is no trap holds in a pass
    with [cycle = c], once the instruction has left the queue, the
    stations and the bus; [t] is the record the trace gave.  A control
    instruction has been given a dispatch cycle and nothing else; any
    other instruction has its dispatch, issue and execute cycles in this
    order, a store left with the latency of the integer units behind it
    and without a bus cycle, and any other instruction took the bus after
    the latency of its unit and was retired in a later cycle. *)
Definition done_record (c : Z) (t i : instruction_t) : Prop :=
  same_code i t ∧ Q i = (None, None, None) ∧
  1 <= tom_dispatch_cycle i ∧
  if IS_UNCOND_CTRL (op t) || IS_COND_CTRL (op t)
  then tom_dispatch_cycle i < c ∧
       i = set_tom_dispatch_cycle (tom_dispatch_cycle i) t
  else tom_dispatch_cycle i < tom_issue_cycle i ∧
       tom_issue_cycle i < tom_execute_cycle i ∧
       if IS_STORE (op t)
       then tom_execute_cycle i + FU_INT_LATENCY <= c ∧
            tom_cdb_cycle i = tom_cdb_cycle t
       else tom_execute_cycle i + latency_of (op t) <= tom_cdb_cycle i ∧
            tom_cdb_cycle i < c.

(** The records in a pass with [cycle = c]: those of the traps and of the
    instructions not yet fetched are as the trace gave them; a queued
    instruction has been given a dispatch cycle and nothing else; no
    control instruction is in a station or on the bus; no bus cycle has
    been written for the occupant of a station; the instruction on the
    bus waits for nothing; and the instructions that have left are as
    [done_record] tells. *)
Record results (table : ptr -> instruction_t) (c : Z) (st : state) : Prop := {
  res_untouched :
    ∀ x, x < 1 ∨ fetch_index st < x ∨ IS_TRAP (op (table x)) = true →
         mem st x = table x;
  res_queue :
    ∀ x, in_queue st x →
         mem st x = set_tom_dispatch_cycle (tom_dispatch_cycle (mem st x)) (table x);
  res_rs :
    ∀ x, in_RS st x →
         tom_cdb_cycle (mem st x) = tom_cdb_cycle (table x) ∧
         IS_UNCOND_CTRL (op (table x)) || IS_COND_CTRL (op (table x)) = false;
  res_bus :
    ∀ x, on_bus st x →
         Q (mem st x) = (None, None, None) ∧
         IS_UNCOND_CTRL (op (table x)) || IS_COND_CTRL (op (table x)) = false;
  res_done :
    ∀ x, 1 <= x <= fetch_index st → IS_TRAP (op (table x)) = false →
         ¬ in_queue st x → ¬ in_RS st x → ¬ on_bus st x →
         done_record c (table x) (mem st x)
}.

(** In a pass with [cycle = c], after [k] stage calls: the fetched
    instructions that are no traps have dispatch cycles that grow with
    their place in the trace; those of them that are no control
    instructions leave the queue in the order of the trace, and have
    issue cycles that grow with it.  No dispatch cycle is later than [c],
    nor is the issue cycle of an instruction that has left the queue. *)
Record in_order (table : ptr -> instruction_t) (c : Z) (k : nat) (st : state) : Prop := {
  io_dispatched :
    ∀ x, 1 <= x <= fetch_index st → IS_TRAP (op (table x)) = false →
         if decide (k <= 4)%nat then tom_dispatch_cycle (mem st x) < c
         else tom_dispatch_cycle (mem st x) <= c;
  io_issued :
    ∀ x, 1 <= x <= fetch_index st → IS_TRAP (op (table x)) = false →
         IS_UNCOND_CTRL (op (table x)) || IS_COND_CTRL (op (table x)) = false →
         ¬ in_queue st x →
         if decide (k <= 3)%nat then tom_issue_cycle (mem st x) < c
         else tom_issue_cycle (mem st x) <= c;
  io_dispatch :
    ∀ x y, 1 <= x → x < y → y <= fetch_index st →
           IS_TRAP (op (table x)) = false → IS_TRAP (op (table y)) = false →
           tom_dispatch_cycle (mem st x) < tom_dispatch_cycle (mem st y);
  io_issue :
    ∀ x y, 1 <= x → x < y → y <= fetch_index st →
           IS_TRAP (op (table x)) = false → IS_TRAP (op (table y)) = false →
           IS_UNCOND_CTRL (op (table x)) || IS_COND_CTRL (op (table x)) = false →
           IS_UNCOND_CTRL (op (table y)) || IS_COND_CTRL (op (table y)) = false →
           ¬ in_queue st y →
           ¬ in_queue st x ∧ tom_issue_cycle (mem st x) < tom_issue_cycle (mem st y)
}.

End Results.


(** * A machine and traces to run the simulator on *)

(** Flag bits in the layout of SimpleScalar's machine.h; an opcode of the
    example traces is its own flag word. *)
Definition pisa : Machine := {|
  MD_TOTAL_REGS := 70;
  DNA := 0;
  MD_OP_FLAGS := fun o => o;
  F_ICOMP := 1;
  F_FCOMP := 2;
  F_UNCOND := 8;
  F_COND := 16;
  F_LOAD := 64;
  F_STORE := 128;
  F_TRAP := 2048;
  F_CALL := 32768
|}.

Definition OP_ICOMP : Z := 1.
Definition OP_FCOMP : Z := 2.
Definition OP_BRANCH : Z := 16.
Definition OP_LOAD : Z := 64.
Definition OP_STORE : Z := 128.
Definition OP_TRAP : Z := 2048.

(** A record as the trace holds it before the run. *)
Definition fresh (o idx : Z) (outs : Z * Z) (ins : Z * Z * Z) : instruction_t :=
  mk_instr o idx outs ins (None, None, None) 0 0 0 0.

(** The table of a trace: instruction [p] of the list, counted from 1;
    what it answers outside the trace is never looked at. *)
Definition table_of (l : list instruction_t) : ptr -> instruction_t :=
  fun p => nth (Z.to_nat (p - 1)) l (fresh 0 0 (0, 0) (0, 0, 0)).

(** The state a result carries, for results known to be [Ok]. *)
Definition the_state (r : result state) : state :=
  match r with
  | Ok s => s
  | _ => @init_state pisa (table_of [])
  end.

(** r3 <- r1 + r2; r3 <- r3 + 1; store r3; f40 <- f41; branch on r3. *)
Definition trace_mix : list instruction_t :=
  [ fresh OP_ICOMP 1 (3, 0) (1, 2, 0);
    fresh OP_ICOMP 2 (3, 0) (3, 0, 0);
    fresh OP_STORE 3 (0, 0) (3, 1, 0);
    fresh OP_FCOMP 4 (40, 0) (41, 0, 0);
    fresh OP_BRANCH 5 (0, 0) (3, 0, 0) ].

(** One integer computation. *)
Definition trace_one : list instruction_t :=
  [ fresh OP_ICOMP 1 (3, 0) (1, 2, 0) ].

(** One conditional branch. *)
Definition trace_branch : list instruction_t :=
  [ fresh OP_BRANCH 1 (0, 0) (3, 0, 0) ].

(** A trace that is one trap, and a trace that ends in a trap. *)
Definition trace_trap : list instruction_t :=
  [ fresh OP_TRAP 1 (0, 0) (0, 0, 0) ].

Definition trace_ends_in_trap : list instruction_t :=
  [ fresh OP_ICOMP 1 (3, 0) (1, 2, 0);
    fresh OP_TRAP 2 (0, 0) (0, 0, 0) ].

(** The variables of a run at a point, for points the run reaches. *)
Definition point_state (sim_num_insn : Z) (l : list instruction_t) (n k : nat) : state :=
  the_state (do s <- @passes pisa n sim_num_insn (table_of l);
             @first_stages pisa sim_num_insn (cycle_after n) k s).

(** A floating-point computation and three integer computations, none of
    which waits for another: instructions 1 and 4 have had their latency
    in the same cycle. *)
Definition trace_contend : list instruction_t :=
  [ fresh OP_FCOMP 1 (40, 0) (41, 0, 0);
    fresh OP_ICOMP 2 (4, 0) (1, 2, 0);
    fresh OP_ICOMP 3 (5, 0) (1, 2, 0);
    fresh OP_ICOMP 4 (6, 0) (1, 2, 0) ].

(** * Properties *)

Section Properties.
Context `{M : Machine}.

(** ** The error monad *)

Lemma bind_Ok {A B} (r : result A) (k : A → result B) (b : B) :
  bind r k = Ok b → ∃ a, r = Ok a ∧ k a = Ok b.
Proof. destruct r; simpl; intros H; try discriminate. eauto. Qed.

(** ** Arrays and pointers *)

Lemma ptr_eqb_eq (a b : option ptr) : ptr_eqb a b = true ↔ a = b.
Proof.
  destruct a as [x|], b as [y|]; simpl; split; intros H; try congruence.
  - apply Z.eqb_eq in H. congruence.
  - injection H as ->. apply Z.eqb_refl.
Qed.

Lemma ptr_eqb_neq (a b : option ptr) : ptr_eqb a b = false ↔ a ≠ b.
Proof.
  rewrite <- ptr_eqb_eq. destruct (ptr_eqb a b); split; congruence.
Qed.

Lemma ptr_eqb_refl (a : option ptr) : ptr_eqb a a = true.
Proof. by apply ptr_eqb_eq. Qed.

Lemma reg_read_is_Some (mt : list (option ptr)) (r : Z) :
  is_Some (reg_read mt r) ↔ 0 <= r ∧ (Z.to_nat r < length mt)%nat.
Proof.
  unfold reg_read. destruct (Z.ltb_spec r 0) as [Hr|Hr].
  - split; [intros [? ?]; discriminate | lia].
  - rewrite lookup_lt_is_Some. intuition lia.
Qed.

Lemma reg_write_length (mt : list (option ptr)) r v :
  length (reg_write mt r v) = length mt.
Proof. apply length_insert. Qed.

Lemma reg_read_write_eq (mt : list (option ptr)) r v :
  is_Some (reg_read mt r) → reg_read (reg_write mt r v) r = Some v.
Proof.
  intros H. apply reg_read_is_Some in H as [H0 Hl].
  unfold reg_read, reg_write. destruct (Z.ltb_spec r 0); [lia|].
  by apply list_lookup_insert_eq.
Qed.

Lemma reg_read_write_ne (mt : list (option ptr)) r r' v :
  0 <= r → r' ≠ r → reg_read (reg_write mt r v) r' = reg_read mt r'.
Proof.
  intros H0 Hne. unfold reg_read, reg_write.
  destruct (Z.ltb_spec r' 0); [done|].
  apply list_lookup_insert_ne. lia.
Qed.

(** ** map_operands *)

Lemma map_source_eq instr i mt m m' :
  map_source instr i mt m = Ok m' →
  (at3 (r_in (m instr)) i = DNA ∧ m' = m) ∨
  (at3 (r_in (m instr)) i ≠ DNA ∧
   ∃ e, reg_read mt (at3 (r_in (m instr)) i) = Some e ∧
        m' = <[instr := set_Q (put3 (Q (m instr)) i e) (m instr)]> m).
Proof.
  unfold map_source. destruct (Z.eqb_spec (at3 (r_in (m instr)) i) DNA) as [E|E].
  - intros [= <-]. by left.
  - destruct (reg_read mt _) as [e|] eqn:R; [|discriminate].
    intros [= <-]. right. eauto.
Qed.

Lemma map_dest_eq instr i m mt mt' :
  map_dest instr i m mt = Ok mt' →
  (at2 (r_out (m instr)) i = DNA ∧ mt' = mt) ∨
  (at2 (r_out (m instr)) i ≠ DNA ∧
   is_Some (reg_read mt (at2 (r_out (m instr)) i)) ∧
   mt' = reg_write mt (at2 (r_out (m instr)) i) (Some instr)).
Proof.
  unfold map_dest. destruct (Z.eqb_spec (at2 (r_out (m instr)) i) DNA) as [E|E].
  - intros [= <-]. by left.
  - destruct (reg_read mt _) as [e|] eqn:R; [|discriminate].
    intros [= <-]. right. eauto.
Qed.

(** What [map_operands] leaves alone: the other records, and in the
    record of [instr] everything but [Q]. *)
Lemma map_source_frame instr i mt m m' :
  map_source instr i mt m = Ok m' →
  (∀ p, p ≠ instr → m' p = m p) ∧
  op (m' instr) = op (m instr) ∧ index (m' instr) = index (m instr) ∧
  r_in (m' instr) = r_in (m instr) ∧ r_out (m' instr) = r_out (m instr) ∧
  tom_dispatch_cycle (m' instr) = tom_dispatch_cycle (m instr) ∧
  tom_issue_cycle (m' instr) = tom_issue_cycle (m instr) ∧
  tom_execute_cycle (m' instr) = tom_execute_cycle (m instr) ∧
  tom_cdb_cycle (m' instr) = tom_cdb_cycle (m instr).
Proof.
  intros H. apply map_source_eq in H as [[_ ->]|(_ & e & _ & ->)].
  - done.
  - split.
    + intros p Hp. by rewrite fn_lookup_insert_ne.
    + by rewrite fn_lookup_insert.
Qed.

Lemma map_source_Q instr i mt m m' j :
  map_source instr i mt m = Ok m' → j ≠ i → (i < 3)%nat → (j < 3)%nat →
  at3 (Q (m' instr)) j = at3 (Q (m instr)) j.
Proof.
  intros H Hj Hi Hj3. apply map_source_eq in H as [[_ ->]|(_ & e & _ & ->)]; [done|].
  rewrite fn_lookup_insert. simpl.
  destruct i as [|[|[|i]]], j as [|[|[|j]]]; unfold at3, put3; simpl; try done; lia.
Qed.

Lemma map_source_Q_same instr i mt m m' :
  map_source instr i mt m = Ok m' → (i < 3)%nat →
  if decide (at3 (r_in (m instr)) i = DNA)
  then at3 (Q (m' instr)) i = at3 (Q (m instr)) i
  else reg_read mt (at3 (r_in (m instr)) i) = Some (at3 (Q (m' instr)) i).
Proof.
  intros H Hi. apply map_source_eq in H as [[E ->]|(E & e & R & ->)];
    case_decide; try done.
  rewrite fn_lookup_insert, R. simpl.
  destruct i as [|[|[|i]]]; unfold at3, put3; simpl; try done; lia.
Qed.

Lemma map_operands_eq instr st st' :
  map_operands instr st = Ok st' →
  ∃ m1 m2 m3 mt1 mt2,
    map_source instr 0 (map_table st) (mem st) = Ok m1 ∧
    map_source instr 1 (map_table st) m1 = Ok m2 ∧
    map_source instr 2 (map_table st) m2 = Ok m3 ∧
    map_dest instr 0 m3 (map_table st) = Ok mt1 ∧
    map_dest instr 1 m3 mt1 = Ok mt2 ∧
    st' = set_map_table mt2 (set_mem m3 st).
Proof.
  unfold map_operands. intros H.
  apply bind_Ok in H as (m1 & E1 & H). apply bind_Ok in H as (m2 & E2 & H).
  apply bind_Ok in H as (m3 & E3 & H). apply bind_Ok in H as (mt1 & E4 & H).
  apply bind_Ok in H as (mt2 & E5 & H).
  injection H as <-. by exists m1, m2, m3, mt1, mt2.
Qed.

(** [map_operands] touches no record but the one of [instr], and there
    only [Q]. *)
Lemma map_operands_frame instr st st' :
  map_operands instr st = Ok st' →
  (∀ p, p ≠ instr → mem st' p = mem st p) ∧
  op (mem st' instr) = op (mem st instr) ∧
  index (mem st' instr) = index (mem st instr) ∧
  r_in (mem st' instr) = r_in (mem st instr) ∧
  r_out (mem st' instr) = r_out (mem st instr) ∧
  tom_dispatch_cycle (mem st' instr) = tom_dispatch_cycle (mem st instr) ∧
  tom_issue_cycle (mem st' instr) = tom_issue_cycle (mem st instr) ∧
  tom_execute_cycle (mem st' instr) = tom_execute_cycle (mem st instr) ∧
  tom_cdb_cycle (mem st' instr) = tom_cdb_cycle (mem st instr).
Proof.
  intros H. apply map_operands_eq in H as (m1 & m2 & m3 & mt1 & mt2 & E1 & E2 & E3 & _ & _ & ->).
  apply map_source_frame in E1 as (F1 & A1), E2 as (F2 & A2), E3 as (F3 & A3).
  simpl. split.
  - intros p Hp. rewrite F3, F2, F1; done.
  - destruct A1 as (?&?&?&?&?&?&?&?), A2 as (?&?&?&?&?&?&?&?), A3 as (?&?&?&?&?&?&?&?).
    repeat split; congruence.
Qed.

(** The await-slot of source [i] after [map_operands]. *)
Lemma map_operands_Q instr st st' i :
  map_operands instr st = Ok st' → (i < 3)%nat →
  if decide (at3 (r_in (mem st instr)) i = DNA)
  then at3 (Q (mem st' instr)) i = at3 (Q (mem st instr)) i
  else reg_read (map_table st) (at3 (r_in (mem st instr)) i)
       = Some (at3 (Q (mem st' instr)) i).
Proof.
  intros H Hi.
  apply map_operands_eq in H as (m1 & m2 & m3 & mt1 & mt2 & E1 & E2 & E3 & _ & _ & ->).
  simpl.
  pose proof (map_source_frame _ _ _ _ _ E1) as (_ & _ & _ & R1 & _).
  pose proof (map_source_frame _ _ _ _ _ E2) as (_ & _ & _ & R2 & _).
  pose proof (map_source_Q_same _ _ _ _ _ E1 ltac:(lia)) as S1.
  pose proof (map_source_Q_same _ _ _ _ _ E2 ltac:(lia)) as S2.
  pose proof (map_source_Q_same _ _ _ _ _ E3 ltac:(lia)) as S3.
  rewrite R1 in S2. rewrite R2, R1 in S3.
  destruct i as [|[|[|i]]]; [| | |lia].
  - rewrite (map_source_Q _ _ _ _ _ 0%nat E3), (map_source_Q _ _ _ _ _ 0%nat E2) by lia.
    exact S1.
  - rewrite (map_source_Q _ _ _ _ _ 1%nat E3) by lia.
    rewrite <- (map_source_Q _ _ _ _ _ 1%nat E1) by lia. exact S2.
  - rewrite <- (map_source_Q _ _ _ _ _ 2%nat E1), <- (map_source_Q _ _ _ _ _ 2%nat E2) by lia.
    exact S3.
Qed.

(** The producer map after [map_operands]. *)
Lemma map_operands_map instr st st' r :
  map_operands instr st = Ok st' →
  reg_read (map_table st') r =
    if decide (r ≠ DNA ∧ (r = at2 (r_out (mem st instr)) 0 ∨ r = at2 (r_out (mem st instr)) 1))
    then Some (Some instr)
    else reg_read (map_table st) r.
Proof.
  intros H.
  pose proof (map_operands_frame _ _ _ H) as (_ & _ & _ & _ & RO & _).
  apply map_operands_eq in H as (m1 & m2 & m3 & mt1 & mt2 & E1 & E2 & E3 & D0 & D1 & ->).
  simpl in *. rewrite <- RO.
  apply map_dest_eq in D0 as [[A0 ->]|(A0 & S0 & ->)];
    apply map_dest_eq in D1 as [[A1 ->]|(A1 & S1 & ->)].
  - case_decide as C; [|done]. destruct C as [? [?|?]]; congruence.
  - pose proof S1 as S1'. apply reg_read_is_Some in S1' as [? ?].
    case_decide as C.
    + destruct C as [Hr [C|C]]; [congruence|]. subst r. by apply reg_read_write_eq.
    + apply reg_read_write_ne; [done|]. intros ->. apply C. auto.
  - pose proof S0 as S0'. apply reg_read_is_Some in S0' as [? ?].
    case_decide as C.
    + destruct C as [Hr [C|C]]; [|congruence]. subst r. by apply reg_read_write_eq.
    + apply reg_read_write_ne; [done|]. intros ->. apply C. auto.
  - pose proof S0 as S0'. apply reg_read_is_Some in S0' as [? ?].
    pose proof S1 as S1'. apply reg_read_is_Some in S1' as [? ?].
    destruct (decide (r = at2 (r_out (m3 instr)) 1)) as [->|N1].
    + rewrite reg_read_write_eq by done. case_decide as C; [done|].
      exfalso. apply C. auto.
    + rewrite reg_read_write_ne by done.
      destruct (decide (r = at2 (r_out (m3 instr)) 0)) as [->|N0].
      * rewrite reg_read_write_eq by done. case_decide as C; [done|].
        exfalso. apply C. auto.
      * rewrite reg_read_write_ne by done. case_decide as C; [|done].
        destruct C as [_ [?|?]]; congruence.
Qed.

(** C7: [map_operands] first copies, for every source register other than
    DNA, the producer-map entry as it is before the call (NULL when the
    operand is ready) into the await-slot [Q[i]] of the instruction, and
    leaves [Q[i]] alone for a DNA source; then it makes the instruction
    the producer of every destination register other than DNA, and changes
    no other entry.  A source register that is also a destination thus
    waits for the producer recorded before the call, not for the
    instruction itself. *)
Theorem map_operands_records_prior_producer instr st st' :
  map_operands instr st = Ok st' →
  (∀ i, (i < 3)%nat → at3 (r_in (mem st instr)) i ≠ DNA →
     reg_read (map_table st) (at3 (r_in (mem st instr)) i)
     = Some (at3 (Q (mem st' instr)) i)) ∧
  (∀ i, (i < 3)%nat → at3 (r_in (mem st instr)) i = DNA →
     at3 (Q (mem st' instr)) i = at3 (Q (mem st instr)) i) ∧
  (∀ j, (j < 2)%nat → at2 (r_out (mem st instr)) j ≠ DNA →
     reg_read (map_table st') (at2 (r_out (mem st instr)) j) = Some (Some instr)) ∧
  (∀ r, (r = DNA ∨ (r ≠ at2 (r_out (mem st instr)) 0 ∧ r ≠ at2 (r_out (mem st instr)) 1)) →
     reg_read (map_table st') r = reg_read (map_table st) r) ∧
  (∀ i j, (i < 3)%nat → (j < 2)%nat →
     at3 (r_in (mem st instr)) i ≠ DNA →
     at3 (r_in (mem st instr)) i = at2 (r_out (mem st instr)) j →
     Some (at3 (Q (mem st' instr)) i) = reg_read (map_table st) (at2 (r_out (mem st instr)) j) ∧
     reg_read (map_table st') (at2 (r_out (mem st instr)) j) = Some (Some instr)).
Proof.
  intros H.
  assert (HQ : ∀ i, (i < 3)%nat → at3 (r_in (mem st instr)) i ≠ DNA →
     reg_read (map_table st) (at3 (r_in (mem st instr)) i)
     = Some (at3 (Q (mem st' instr)) i)).
  { intros i Hi Hne. pose proof (map_operands_Q _ _ _ i H Hi) as P.
    by rewrite decide_False in P. }
  assert (HD : ∀ j, (j < 2)%nat → at2 (r_out (mem st instr)) j ≠ DNA →
     reg_read (map_table st') (at2 (r_out (mem st instr)) j) = Some (Some instr)).
  { intros j Hj Hne. rewrite (map_operands_map _ _ _ _ H).
    rewrite decide_True; [done|]. split; [done|].
    destruct j as [|[|j]]; [by left|by right|lia]. }
  split; [exact HQ|]. split.
  { intros i Hi He. pose proof (map_operands_Q _ _ _ i H Hi) as P.
    by rewrite decide_True in P. }
  split; [exact HD|]. split.
  { intros r Hr. rewrite (map_operands_map _ _ _ _ H).
    rewrite decide_False; [done|]. intros [? [?|?]]; destruct Hr as [?|[? ?]]; congruence. }
  intros i j Hi Hj Hne He. split.
  - rewrite <- He. symmetry. by apply HQ.
  - apply HD; [done|]. by rewrite <- He.
Qed.

(** ** The scans of issue_To_execute *)

Lemma ready_occupied m s : ready m s = true → ∃ x, s = Some x.
Proof. destruct s; [eauto | discriminate]. Qed.

(** Invariant of the integer scan after the slots below [n]. *)
Lemma scan_int_prefix m rs n :
  match fold_left (scan_int_step m rs) (seq 0 n) None with
  | None => ∀ j, (j < n)%nat → ready m (slot rs j) = false
  | Some o =>
      (o < n)%nat ∧ ready m (slot rs o) = true ∧
      ∀ j, (j < n)%nat → ready m (slot rs j) = true →
           slot_index m rs o <= slot_index m rs j
  end.
Proof.
  induction n as [|n IH].
  - simpl. intros j Hj. lia.
  - rewrite seq_S, fold_left_app. simpl.
    destruct (fold_left (scan_int_step m rs) (seq 0 n) None) as [o|].
    + destruct IH as (Ho & Ro & Min). unfold scan_int_step at 1.
      destruct (ready m (slot rs n)) eqn:Rn.
      * destruct (ready_occupied _ _ Rn) as [x Ex], (ready_occupied _ _ Ro) as [y Ey].
        rewrite Ex, Ey.
        destruct (Z.ltb_spec (index (m x)) (index (m y))) as [Hlt|Hge].
        -- split; [lia|]. split; [done|]. intros j Hj Rj.
           destruct (decide (j = n)) as [->|Hne]; [lia|].
           specialize (Min j ltac:(lia) Rj).
           unfold slot_index in *. rewrite Ex. rewrite Ey in Min. lia.
        -- split; [lia|]. split; [done|]. intros j Hj Rj.
           destruct (decide (j = n)) as [->|Hne].
           ++ unfold slot_index. rewrite Ex, Ey. lia.
           ++ apply Min; [lia|done].
      * split; [lia|]. split; [done|]. intros j Hj Rj.
        destruct (decide (j = n)) as [->|Hne]; [congruence|]. apply Min; [lia|done].
    + unfold scan_int_step at 1. destruct (ready m (slot rs n)) eqn:Rn.
      * split; [lia|]. split; [done|]. intros j Hj Rj.
        destruct (decide (j = n)) as [->|Hne]; [lia|].
        rewrite IH in Rj by lia. discriminate.
      * intros j Hj. destruct (decide (j = n)) as [->|Hne]; [done|]. apply IH. lia.
Qed.

(** Invariant of the floating-point scan after the slots below [n]. *)
Lemma scan_fp_prefix m rs n :
  match fold_left (scan_fp_step m rs) (seq 0 n) None with
  | None => ∀ j, (j < n)%nat → ready m (slot rs j) = false
  | Some o =>
      (o < n)%nat ∧ ready m (slot rs o) = true ∧
      ∀ j, (j < n)%nat → ready m (slot rs j) = true →
           slot_dispatch m rs o <= slot_dispatch m rs j
  end.
Proof.
  induction n as [|n IH].
  - simpl. intros j Hj. lia.
  - rewrite seq_S, fold_left_app. simpl.
    destruct (fold_left (scan_fp_step m rs) (seq 0 n) None) as [o|].
    + destruct IH as (Ho & Ro & Min). unfold scan_fp_step at 1.
      destruct (ready m (slot rs n)) eqn:Rn.
      * destruct (ready_occupied _ _ Rn) as [x Ex], (ready_occupied _ _ Ro) as [y Ey].
        rewrite Ex, Ey.
        destruct (Z.leb_spec (tom_dispatch_cycle (m x)) (tom_dispatch_cycle (m y))) as [Hle|Hgt].
        -- split; [lia|]. split; [done|]. intros j Hj Rj.
           destruct (decide (j = n)) as [->|Hne]; [lia|].
           specialize (Min j ltac:(lia) Rj).
           unfold slot_dispatch in *. rewrite Ex. rewrite Ey in Min. lia.
        -- split; [lia|]. split; [done|]. intros j Hj Rj.
           destruct (decide (j = n)) as [->|Hne].
           ++ unfold slot_dispatch. rewrite Ex, Ey. lia.
           ++ apply Min; [lia|done].
      * split; [lia|]. split; [done|]. intros j Hj Rj.
        destruct (decide (j = n)) as [->|Hne]; [congruence|]. apply Min; [lia|done].
    + unfold scan_fp_step at 1. destruct (ready m (slot rs n)) eqn:Rn.
      * split; [lia|]. split; [done|]. intros j Hj Rj.
        destruct (decide (j = n)) as [->|Hne]; [lia|].
        rewrite IH in Rj by lia. discriminate.
      * intros j Hj. destruct (decide (j = n)) as [->|Hne]; [done|]. apply IH. lia.
Qed.

Lemma oldest_rs_int_Some m rs o :
  oldest_rs_int m rs = Some o →
  (o < RESERV_INT_SIZE)%nat ∧ ready m (slot rs o) = true ∧
  ∀ j, (j < RESERV_INT_SIZE)%nat → ready m (slot rs j) = true →
       slot_index m rs o <= slot_index m rs j.
Proof.
  unfold oldest_rs_int. intros H.
  pose proof (scan_int_prefix m rs RESERV_INT_SIZE) as P. by rewrite H in P.
Qed.

Lemma oldest_rs_int_None m rs :
  oldest_rs_int m rs = None ↔
  ∀ j, (j < RESERV_INT_SIZE)%nat → ready m (slot rs j) = false.
Proof.
  unfold oldest_rs_int.
  pose proof (scan_int_prefix m rs RESERV_INT_SIZE) as P.
  destruct (fold_left _ _ _) as [o|]; split; try done.
  intros H. destruct P as (Ho & Ro & _). rewrite H in Ro by done. discriminate.
Qed.

Lemma oldest_rs_fp_Some m rs o :
  oldest_rs_fp m rs = Some o →
  (o < RESERV_FP_SIZE)%nat ∧ ready m (slot rs o) = true ∧
  ∀ j, (j < RESERV_FP_SIZE)%nat → ready m (slot rs j) = true →
       slot_dispatch m rs o <= slot_dispatch m rs j.
Proof.
  unfold oldest_rs_fp. intros H.
  pose proof (scan_fp_prefix m rs RESERV_FP_SIZE) as P. by rewrite H in P.
Qed.

Lemma oldest_rs_fp_None m rs :
  oldest_rs_fp m rs = None ↔
  ∀ j, (j < RESERV_FP_SIZE)%nat → ready m (slot rs j) = false.
Proof.
  unfold oldest_rs_fp.
  pose proof (scan_fp_prefix m rs RESERV_FP_SIZE) as P.
  destruct (fold_left _ _ _) as [o|]; split; try done.
  intros H. destruct P as (Ho & Ro & _). rewrite H in Ro by done. discriminate.
Qed.

(** C5: among the occupied reservation-station slots whose instruction
    has no execution-start cycle and three empty await-slots, the integer
    scan selects one with the lowest program index and the floating-point
    scan one with the lowest recorded dispatch cycle; each scan selects
    nothing exactly when its bank has no such slot. *)
Theorem oldest_ready_selection (m : ptr → instruction_t) (rsINT rsFP : list (option ptr)) :
  (∀ o, oldest_rs_int m rsINT = Some o →
     (o < RESERV_INT_SIZE)%nat ∧ ready m (slot rsINT o) = true ∧
     ∀ j, (j < RESERV_INT_SIZE)%nat → ready m (slot rsINT j) = true →
          slot_index m rsINT o <= slot_index m rsINT j) ∧
  (oldest_rs_int m rsINT = None ↔
     ∀ j, (j < RESERV_INT_SIZE)%nat → ready m (slot rsINT j) = false) ∧
  (∀ o, oldest_rs_fp m rsFP = Some o →
     (o < RESERV_FP_SIZE)%nat ∧ ready m (slot rsFP o) = true ∧
     ∀ j, (j < RESERV_FP_SIZE)%nat → ready m (slot rsFP j) = true →
          slot_dispatch m rsFP o <= slot_dispatch m rsFP j) ∧
  (oldest_rs_fp m rsFP = None ↔
     ∀ j, (j < RESERV_FP_SIZE)%nat → ready m (slot rsFP j) = false).
Proof.
  split; [apply oldest_rs_int_Some|]. split; [apply oldest_rs_int_None|].
  split; [apply oldest_rs_fp_Some|apply oldest_rs_fp_None].
Qed.

(** ** Pools *)

Lemma slot_insert (a : list (option ptr)) i v j :
  slot (<[i := v]> a) j = if decide (i = j ∧ (i < length a)%nat) then v else slot a j.
Proof.
  unfold slot. case_decide as C.
  - destruct C as [<- Hi]. by rewrite list_lookup_insert_eq.
  - destruct (decide (i = j)) as [<-|Hne].
    + rewrite list_insert_ge; [done|]. lia.
    + by rewrite list_lookup_insert_ne.
Qed.

Lemma slot_Some_lt (a : list (option ptr)) i x : slot a i = Some x → (i < length a)%nat.
Proof.
  unfold slot. intros H. apply lookup_lt_is_Some.
  destruct (a !! i); [eauto | discriminate].
Qed.

Lemma slot_lookup (a : list (option ptr)) i : (i < length a)%nat → a !! i = Some (slot a i).
Proof.
  intros H. unfold slot. apply lookup_lt_is_Some in H as [v ->]. done.
Qed.

Lemma slot_replicate_None n i : slot (replicate n None) i = None.
Proof.
  unfold slot. destruct (replicate n None !! i) as [v|] eqn:E; [|done].
  apply lookup_replicate in E as [-> _]. done.
Qed.

Lemma slot_cons_S s (a : list (option ptr)) i : slot (s :: a) (S i) = slot a i.
Proof. done. Qed.

(** [free_slot] clears the first slot that holds [p], if there is one. *)
Lemma free_slot_spec p a :
  ((∀ i, slot a i ≠ Some p) ∧ free_slot p a = a) ∨
  (∃ i, slot a i = Some p ∧ (∀ j, (j < i)%nat → slot a j ≠ Some p) ∧
        free_slot p a = <[i := None]> a).
Proof.
  induction a as [|s a IH]; simpl.
  - left. split; [|done]. intros i. unfold slot. by rewrite lookup_nil.
  - destruct (ptr_eqb s (Some p)) eqn:E.
    + apply ptr_eqb_eq in E as ->. right. exists 0%nat. split; [done|].
      split; [intros j Hj; lia | done].
    + apply ptr_eqb_neq in E. destruct IH as [[Hn ->]|(i & Hi & Hlt & ->)].
      * left. split; [|done]. intros [|i]; [done|]. rewrite slot_cons_S. apply Hn.
      * right. exists (S i). split; [done|]. split; [|done].
        intros [|j] Hj; [done|]. rewrite slot_cons_S. apply Hlt. lia.
Qed.

Lemma free_slot_length p a : length (free_slot p a) = length a.
Proof.
  destruct (free_slot_spec p a) as [[_ ->]|(i & _ & _ & ->)]; [done|].
  apply length_insert.
Qed.

(** Slots beyond an occurrence of [p] are not touched. *)
Lemma free_slot_later p a i j :
  slot a i = Some p → (i < j)%nat → slot (free_slot p a) j = slot a j.
Proof.
  intros Hi Hj. destruct (free_slot_spec p a) as [[_ ->]|(i0 & H0 & Hlt & ->)]; [done|].
  rewrite slot_insert. case_decide as C; [|done]. destruct C as [-> _].
  destruct (decide (i < j)%nat) as [L|L]; [|lia]. exfalso. by apply (Hlt i).
Qed.

(** A slot of the cleared pool holds what it held before. *)
Lemma free_slot_slot p a j y :
  slot (free_slot p a) j = Some y → slot a j = Some y.
Proof.
  destruct (free_slot_spec p a) as [[_ ->]|(i0 & H0 & Hlt & ->)]; [done|].
  rewrite slot_insert. case_decide; [discriminate | done].
Qed.

Lemma free_slot_other p a j y :
  slot a j = Some y → y ≠ p → slot (free_slot p a) j = Some y.
Proof.
  intros Hj Hne. destruct (free_slot_spec p a) as [[_ ->]|(i0 & H0 & Hlt & ->)]; [done|].
  rewrite slot_insert. case_decide as C; [|done]. destruct C as [-> _]. congruence.
Qed.

Lemma free_slot_holds p a y : holds (free_slot p a) y → holds a y.
Proof. intros [j Hj]. exists j. by eapply free_slot_slot. Qed.

Lemma free_slot_holds_other p a y : holds a y → y ≠ p → holds (free_slot p a) y.
Proof. intros [j Hj] Hne. exists j. by apply free_slot_other. Qed.

Lemma free_slot_inj p a : inj_pool a → inj_pool (free_slot p a).
Proof.
  intros Hinj i j x Hi Hj. apply free_slot_slot in Hi, Hj. by eapply Hinj.
Qed.

(** In a pool without duplicates the instruction is gone after
    [free_slot]. *)
Lemma free_slot_gone p a : inj_pool a → ¬ holds (free_slot p a) p.
Proof.
  intros Hinj [j Hj].
  destruct (free_slot_spec p a) as [[Hn E]|(i0 & H0 & Hlt & E)]; rewrite E in Hj.
  - by apply (Hn j).
  - rewrite slot_insert in Hj. case_decide as C; [discriminate|].
    apply C. split; [by eapply Hinj | by eapply slot_Some_lt].
Qed.

Lemma first_free_spec a i :
  first_free a = Some i → slot a i = None ∧ (i < length a)%nat.
Proof.
  revert i. induction a as [|[x|] a IH]; intros i; simpl.
  - discriminate.
  - destruct (first_free a) as [i'|]; simpl; [|discriminate].
    intros [= <-]. rewrite slot_cons_S. destruct (IH i' eq_refl). split; [done|lia].
  - intros [= <-]. split; [done|lia].
Qed.

Lemma first_free_None a :
  first_free a = None → ∀ i, (i < length a)%nat → ∃ x, slot a i = Some x.
Proof.
  induction a as [|[x|] a IH]; simpl.
  - intros _ i Hi. lia.
  - destruct (first_free a) as [i'|]; simpl; [discriminate|].
    intros _ [|i] Hi; [by exists x|]. rewrite slot_cons_S. apply IH; [done|lia].
  - discriminate.
Qed.

(** ** The circular queue *)

Lemma queue_mod_shift (h k : nat) :
  (((h + 1) `mod` INSTR_QUEUE_SIZE + k) `mod` INSTR_QUEUE_SIZE
   = (h + S k) `mod` INSTR_QUEUE_SIZE)%nat.
Proof.
  rewrite Nat.Div0.add_mod_idemp_l. f_equal. lia.
Qed.

Lemma queue_mod_window (a b : nat) :
  (a <= b < a + INSTR_QUEUE_SIZE)%nat →
  (a `mod` INSTR_QUEUE_SIZE = b `mod` INSTR_QUEUE_SIZE)%nat → a = b.
Proof.
  unfold INSTR_QUEUE_SIZE. intros Hab E.
  pose proof (Nat.div_mod_eq a 10). pose proof (Nat.div_mod_eq b 10). lia.
Qed.

Lemma queue_mod_lt (a : nat) : (a `mod` INSTR_QUEUE_SIZE < INSTR_QUEUE_SIZE)%nat.
Proof. apply Nat.mod_upper_bound. done. Qed.

Lemma queued_pop_head st k x :
  (0 < instr_queue_size st)%nat →
  queued (pop_head st) k x ↔ queued st (S k) x.
Proof.
  intros Hsz. unfold queued, pop_head.
  cbn [instr_queue_size ifq_head instr_queue set_queue]. rewrite queue_mod_shift.
  split; intros [? ?]; (split; [lia|done]).
Qed.

Lemma queued_push_tail st x k y :
  length (instr_queue st) = INSTR_QUEUE_SIZE →
  (instr_queue_size st < INSTR_QUEUE_SIZE)%nat →
  ifq_tail st = ((ifq_head st + instr_queue_size st) `mod` INSTR_QUEUE_SIZE)%nat →
  queued (push_tail x st) k y ↔
  queued st k y ∨ (k = instr_queue_size st ∧ y = x).
Proof.
  intros Hlen Hsz Htl. unfold queued, push_tail.
  cbn [instr_queue_size ifq_head instr_queue set_queue]. rewrite slot_insert, Htl.
  assert (Hw : ∀ k', (k' <= instr_queue_size st)%nat →
     ((ifq_head st + instr_queue_size st) `mod` INSTR_QUEUE_SIZE
      = (ifq_head st + k') `mod` INSTR_QUEUE_SIZE)%nat → k' = instr_queue_size st).
  { intros k' Hk' E. symmetry in E. apply queue_mod_window in E; lia. }
  split.
  - intros [Hk Hy]. case_decide as C.
    + destruct C as [C _]. apply Hw in C; [|lia]. injection Hy as <-. by right.
    + left. split; [|done]. destruct (decide (k = instr_queue_size st)) as [->|]; [|lia].
      exfalso. apply C. split; [done|]. rewrite Hlen. apply queue_mod_lt.
  - intros [[Hk Hy]|[-> ->]].
    + split; [lia|]. case_decide as C; [|done].
      destruct C as [C _]. apply Hw in C; lia.
    + split; [lia|]. case_decide as C; [done|].
      exfalso. apply C. split; [done|]. rewrite Hlen. apply queue_mod_lt.
Qed.

(** ** The cycle counter *)

Lemma cycle_after_S n : cycle_after (S n) = cycle_after n + 1.
Proof. unfold cycle_after. lia. Qed.

Lemma cycle_after_pos n : cycle_after n ≠ 0.
Proof. unfold cycle_after. lia. Qed.

(** ** free_stations and execute_To_CDB *)

Lemma IS_STORE_USES_INT_FU o : IS_STORE o = true → USES_INT_FU o = true.
Proof. unfold USES_INT_FU. intros ->. by rewrite orb_true_r. Qed.

Lemma USES_INT_FU_false_not_store o : USES_INT_FU o = false → IS_STORE o = false.
Proof.
  intros H. destruct (IS_STORE o) eqn:E; [|done].
  apply IS_STORE_USES_INT_FU in E. congruence.
Qed.

Lemma free_stations_Ok x st st' :
  free_stations x st = Ok st' →
  (USES_INT_FU (op (mem st x)) = true ∧
   st' = set_reservINT (free_slot x (reservINT st)) (set_fuINT (free_slot x (fuINT st)) st)) ∨
  (USES_INT_FU (op (mem st x)) = false ∧ USES_FP_FU (op (mem st x)) = true ∧
   st' = set_reservFP (free_slot x (reservFP st)) (set_fuFP (free_slot x (fuFP st)) st)).
Proof.
  unfold free_stations. destruct (USES_INT_FU _) eqn:EI.
  - intros [= <-]. by left.
  - destruct (USES_FP_FU _) eqn:EF; [|discriminate]. intros [= <-]. by right.
Qed.

(** The three things a round of the loop over [fuINT] can do. *)
Lemma execute_int_slot_cases c i st o oi a' :
  execute_int_slot c i (st, o, oi) = Ok a' →
  (a' = (st, o, oi) ∧
   ∀ x, slot (fuINT st) i = Some x →
        tom_execute_cycle (mem st x) + FU_INT_LATENCY <= c →
        IS_STORE (op (mem st x)) = false ∧ o ≠ -1 ∧ o <= index (mem st x)) ∨
  (∃ x st1, slot (fuINT st) i = Some x ∧
        tom_execute_cycle (mem st x) + FU_INT_LATENCY <= c ∧
        IS_STORE (op (mem st x)) = true ∧
        free_stations x st = Ok st1 ∧
        st1 = set_reservINT (free_slot x (reservINT st))
                (set_fuINT (free_slot x (fuINT st)) st) ∧
        a' = (set_doneCount (doneCount st1 + 1) st1, o, oi)) ∨
  (∃ x, slot (fuINT st) i = Some x ∧
        tom_execute_cycle (mem st x) + FU_INT_LATENCY <= c ∧
        IS_STORE (op (mem st x)) = false ∧
        (o = -1 ∨ index (mem st x) < o) ∧
        a' = (st, index (mem st x), Some x)).
Proof.
  unfold execute_int_slot. destruct (slot (fuINT st) i) as [x|] eqn:Ex.
  - destruct (Z.geb_spec c (tom_execute_cycle (mem st x) + FU_INT_LATENCY)) as [Hc|Hc].
    + destruct (IS_STORE (op (mem st x))) eqn:Es.
      * intros H. apply bind_Ok in H as (st1 & F & H). injection H as <-.
        pose proof F as F'. apply free_stations_Ok in F as [[_ ->]|[E _]].
        -- right. left. exists x, (set_reservINT (free_slot x (reservINT st))
                                     (set_fuINT (free_slot x (fuINT st)) st)).
           repeat split; try done; lia.
        -- apply IS_STORE_USES_INT_FU in Es. congruence.
      * destruct (Z.eqb_spec o (-1)) as [Ho|Ho]; simpl.
        -- intros [= <-]. right. right. exists x. repeat split; solve [done | lia | auto].
        -- destruct (Z.ltb_spec (index (mem st x)) o) as [Hlt|Hge].
           ++ intros [= <-]. right. right. exists x. repeat split; solve [done | lia | auto].
           ++ intros [= <-]. left. split; [done|]. intros ? [= <-] _. done.
    + intros [= <-]. left. split; [done|]. intros ? [= <-] ?. lia.
  - intros [= <-]. left. split; [done|]. intros ? [=].
Qed.

(** A round keeps the loop invariant. *)
Lemma execute_int_slot_inv st0 c k a a' :
  (∀ j y, finished_int st0 c j y → IS_STORE (op (mem st0 y)) = false →
          index (mem st0 y) ≠ -1) →
  (k < FU_INT_SIZE)%nat →
  cdb_loop_inv st0 c k a →
  execute_int_slot c k a = Ok a' →
  cdb_loop_inv st0 c (S k) a'.
Proof.
  intros Hidx Hk Hinv H. destruct a as [[st o] oi].
  destruct Hinv as (Em & Ef & Er & Eb & Hs & Hloc).
  assert (Hk' : slot (fuINT st) k = slot (fuINT st0) k) by (apply Hs; lia).
  apply execute_int_slot_cases in H as [[-> Hno]|[(x & st1 & Ex & Hc & Es & _ & -> & ->)|(x & Ex & Hc & Es & Ho & ->)]];
    rewrite Hk' in *; unfold cdb_loop_inv; simpl;
    set (m := mem st) in *; clearbody m; subst m.
  - (* nothing happens in this round *)
    repeat split; try done. { intros j Hj. apply Hs. lia. }
    destruct oi as [w|].
    + destruct Hloc as (-> & (j0 & Hj0 & Fj0) & Ws & Hmin).
      split; [done|]. split; [exists j0; split; [lia|done]|]. split; [done|].
      intros j y Hj Fy Sy. destruct (decide (j = k)) as [->|Hne].
      * destruct Fy as (_ & Sl & Cy). by destruct (Hno y Sl Cy) as (_ & _ & Hle).
      * apply (Hmin j); [lia|done..].
    + destruct Hloc as (-> & Hst). split; [done|].
      intros j y Hj Fy. destruct (decide (j = k)) as [->|Hne].
      * destruct Fy as (_ & Sl & Cy). by destruct (Hno y Sl Cy) as (_ & ? & _).
      * apply (Hst j); [lia|done].
  - (* a finished store leaves its slots *)
    repeat split; try done.
    { intros j Hj. rewrite <- Hs by lia. apply (free_slot_later _ _ k); [|lia].
      by rewrite Hk'. }
    destruct oi as [w|].
    + destruct Hloc as (-> & (j0 & Hj0 & Fj0) & Ws & Hmin).
      split; [done|]. split; [exists j0; split; [lia|done]|]. split; [done|].
      intros j y Hj Fy Sy. destruct (decide (j = k)) as [->|Hne].
      * destruct Fy as (_ & Sl & _). rewrite Ex in Sl. injection Sl as <-. congruence.
      * apply (Hmin j); [lia|done..].
    + destruct Hloc as (-> & Hst). split; [done|].
      intros j y Hj Fy. destruct (decide (j = k)) as [->|Hne].
      * destruct Fy as (_ & Sl & _). rewrite Ex in Sl. by injection Sl as <-.
      * apply (Hst j); [lia|done].
  - (* a finished instruction that is older than the one held so far *)
    assert (Fx : finished_int st0 c k x) by done.
    repeat split; try done. { intros j Hj. apply Hs. lia. }
    { exists k. split; [lia|done]. }
    intros j y Hj Fy Sy. destruct (decide (j = k)) as [->|Hne].
    + destruct Fy as (_ & Sl & _). rewrite Ex in Sl. injection Sl as <-. lia.
    + destruct oi as [w|].
      * destruct Hloc as (-> & (j1 & _ & F1) & Ws & Hmin).
        specialize (Hmin j y ltac:(lia) Fy Sy).
        destruct Ho as [Ho|Ho]; [|lia].
        exfalso. exact (Hidx j1 w F1 Ws Ho).
      * destruct Hloc as (-> & Hst). specialize (Hst j y ltac:(lia) Fy). congruence.
Qed.

Lemma execute_int_loop_inv st0 c n k a a' :
  (∀ j y, finished_int st0 c j y → IS_STORE (op (mem st0 y)) = false →
          index (mem st0 y) ≠ -1) →
  (k + n <= FU_INT_SIZE)%nat →
  cdb_loop_inv st0 c k a →
  execute_int_loop c (seq k n) a = Ok a' →
  cdb_loop_inv st0 c (k + n) a'.
Proof.
  intros Hidx. revert k a. induction n as [|n IH]; intros k a Hk Hinv H; simpl in H.
  - injection H as <-. by rewrite Nat.add_0_r.
  - apply bind_Ok in H as (a1 & H1 & H).
    replace (k + S n)%nat with (S k + n)%nat by lia.
    apply (IH (S k) a1); [lia| |done].
    eapply execute_int_slot_inv; [done|lia|done..].
Qed.

Lemma cdb_loop_inv_start st0 c : cdb_loop_inv st0 c 0 (st0, -1, None).
Proof. repeat split; try done. intros j y Hj. lia. Qed.

(** The locals after the test on [fuFP[0]]: the bus goes to a contender
    with the lowest program index, if there is a contender. *)
Lemma execute_fp_slot_winner st0 c a st1 o oi :
  (∀ x, cdb_candidate st0 c x → index (mem st0 x) ≠ -1) →
  (∀ x, slot (fuFP st0) 0 = Some x → IS_STORE (op (mem st0 x)) = false) →
  cdb_loop_inv st0 c FU_INT_SIZE a →
  execute_fp_slot c a = (st1, o, oi) →
  st1 = fst (fst a) ∧
  match oi with
  | None => ∀ x, ¬ cdb_candidate st0 c x
  | Some w =>
      cdb_candidate st0 c w ∧
      ∀ y, cdb_candidate st0 c y → index (mem st0 w) <= index (mem st0 y)
  end.
Proof.
  intros Hidx Hfp Hinv H. destruct a as [[st o0] oi0].
  destruct Hinv as (Em & Ef & Er & Eb & Hs & Hloc).
  unfold execute_fp_slot in H. rewrite Ef, Em in H. simpl.
  assert (Hint : ∀ j y, finished_int st0 c j y → (j < FU_INT_SIZE)%nat)
    by (by intros j y [? _]).
  destruct (slot (fuFP st0) 0) as [x|] eqn:Ex.
  - destruct (Z.geb_spec c (tom_execute_cycle (mem st0 x) + FU_FP_LATENCY)) as [Hc|Hc].
    + assert (Cx : cdb_candidate st0 c x).
      { split; [right; split; [done|lia] | by apply Hfp]. }
      destruct oi0 as [w|].
      * destruct Hloc as (-> & (j0 & Hj0 & Fj0) & Ws & Hmin).
        assert (Cw : cdb_candidate st0 c w) by (split; [left; eauto | done]).
        destruct (Z.eqb_spec (index (mem st0 w)) (-1)) as [E|E];
          [by apply Hidx in Cw|]. simpl in H.
        destruct (Z.ltb_spec (index (mem st0 x)) (index (mem st0 w))) as [Hlt|Hge];
          injection H as <- <- <-; (split; [done|]); (split; [done|]);
          intros y [[[j Fy]|[Sy _]] Ny].
        -- specialize (Hmin j y (Hint _ _ Fy) Fy Ny). lia.
        -- rewrite Ex in Sy. injection Sy as <-. lia.
        -- by apply (Hmin j y (Hint _ _ Fy)).
        -- rewrite Ex in Sy. by injection Sy as <-.
      * destruct Hloc as (-> & Hst). simpl in H. injection H as <- <- <-.
        split; [done|]. split; [done|]. intros y [[[j Fy]|[Sy _]] Ny].
        -- specialize (Hst j y (Hint _ _ Fy) Fy). congruence.
        -- rewrite Ex in Sy. injection Sy as <-. lia.
    + injection H as <- <- <-. split; [done|]. destruct oi0 as [w|].
      * destruct Hloc as (-> & (j0 & Hj0 & Fj0) & Ws & Hmin).
        split; [split; [left; eauto | done]|].
        intros y [[[j Fy]|[Sy Cy]] Ny].
        -- by apply (Hmin j y (Hint _ _ Fy)).
        -- rewrite Ex in Sy. injection Sy as <-. lia.
      * destruct Hloc as (-> & Hst). intros y [[[j Fy]|[Sy Cy]] Ny].
        -- specialize (Hst j y (Hint _ _ Fy) Fy). congruence.
        -- rewrite Ex in Sy. injection Sy as <-. lia.
  - injection H as <- <- <-. split; [done|]. destruct oi0 as [w|].
    + destruct Hloc as (-> & (j0 & Hj0 & Fj0) & Ws & Hmin).
      split; [split; [left; eauto | done]|].
      intros y [[[j Fy]|[Sy Cy]] Ny]; [|congruence].
      by apply (Hmin j y (Hint _ _ Fy)).
    + destruct Hloc as (-> & Hst). intros y [[[j Fy]|[Sy Cy]] Ny]; [|congruence].
      specialize (Hst j y (Hint _ _ Fy) Fy). congruence.
Qed.

Lemma free_stations_bus x st st' :
  free_stations x st = Ok st' → commonDataBus st' = commonDataBus st.
Proof. intros H. by apply free_stations_Ok in H as [[_ ->]|(_ & _ & ->)]. Qed.

(** The arbitration of one call of [execute_To_CDB]. *)
Lemma execute_To_CDB_winner c st st' :
  (∀ x, cdb_candidate st c x → index (mem st x) ≠ -1) →
  (∀ x, slot (fuFP st) 0 = Some x → IS_STORE (op (mem st x)) = false) →
  execute_To_CDB c st = Ok st' →
  ((∀ x, ¬ cdb_candidate st c x) ∧ commonDataBus st' = commonDataBus st) ∨
  (∃ w, commonDataBus st' = Some w ∧ cdb_candidate st c w ∧
        ∀ y, cdb_candidate st c y → index (mem st w) <= index (mem st y)).
Proof.
  intros Hidx Hfp H. unfold execute_To_CDB in H.
  apply bind_Ok in H as (a & Hloop & H).
  assert (Hinv : cdb_loop_inv st c FU_INT_SIZE a).
  { apply (execute_int_loop_inv st c FU_INT_SIZE 0 (st, -1, None)); try done.
    - intros j y Fy Ny. apply Hidx. split; [left; eauto | done].
    - apply cdb_loop_inv_start. }
  destruct (execute_fp_slot c a) as [[st1 o] oi] eqn:Efp.
  destruct (execute_fp_slot_winner _ _ _ _ _ _ Hidx Hfp Hinv Efp) as (-> & Hw).
  destruct a as [[st1 o1] oi1]. destruct Hinv as (_ & _ & _ & Eb & _). simpl in *.
  destruct oi as [w|].
  - apply bind_Ok in H as (st3 & F & H). injection H as <-.
    right. exists w. by destruct Hw.
  - injection H as <-. by left.
Qed.

(** ** The invariant of the structures is kept by every stage *)

Lemma same_code_refl i : same_code i i.
Proof. done. Qed.

Lemma same_code_trans i j k : same_code i j → same_code j k → same_code i k.
Proof. intros (?&?&?&?) (?&?&?&?). repeat split; congruence. Qed.

(** [safe] looks at the pools, the queue, the bus, [fetch_index], and in
    the records at the code and the execute cycle. *)
Lemma safe_ext N table st st' :
  safe N table st →
  instr_queue st' = instr_queue st →
  instr_queue_size st' = instr_queue_size st →
  ifq_head st' = ifq_head st →
  ifq_tail st' = ifq_tail st →
  reservINT st' = reservINT st →
  reservFP st' = reservFP st →
  fuINT st' = fuINT st →
  fuFP st' = fuFP st →
  commonDataBus st' = commonDataBus st →
  fetch_index st' = fetch_index st →
  (∀ p, same_code (mem st' p) (mem st p)) →
  (∀ p, tom_execute_cycle (mem st' p) = tom_execute_cycle (mem st p)) →
  safe N table st'.
Proof.
  intros [] E1 E2 E3 E4 E5 E6 E7 E8 E9 E10 Hc He.
  split; unfold queued, in_RS, in_FU, on_bus in *;
    rewrite ?E1, ?E2, ?E3, ?E4, ?E5, ?E6, ?E7, ?E8, ?E9, ?E10; try done.
  - intros p. eapply same_code_trans; [apply Hc|done].
  - intros x Hx. rewrite He. auto.
Qed.

Lemma retire_Q_frame b i :
  same_code (retire_Q b i) i ∧
  tom_execute_cycle (retire_Q b i) = tom_execute_cycle i.
Proof. done. Qed.

Lemma retire_reserv_frame b rs m p :
  same_code (retire_reserv b rs m p) (m p) ∧
  tom_execute_cycle (retire_reserv b rs m p) = tom_execute_cycle (m p).
Proof.
  revert m. induction rs as [|[x|] rs IH]; intros m; simpl; [done| |apply IH].
  destruct (IH (<[x := retire_Q b (m x)]> m)) as [C E].
  destruct (decide (x = p)) as [->|Hne].
  - rewrite fn_lookup_insert in C, E. split; [|done].
    eapply same_code_trans; [exact C|]. apply retire_Q_frame.
  - by rewrite fn_lookup_insert_ne in C, E.
Qed.

Lemma CDB_To_retire_Ok c st st' :
  CDB_To_retire c st = Ok st' →
  (commonDataBus st = None ∧ st' = st) ∨
  (∃ b mt1 mt2,
     commonDataBus st = Some b ∧
     retire_map b (at2 (r_out (mem st b)) 0) (map_table st) = Ok mt1 ∧
     retire_map b (at2 (r_out (mem st b)) 1) mt1 = Ok mt2 ∧
     st' = set_doneCount (doneCount st + 1)
             (set_commonDataBus None
               (set_mem (retire_reserv b (reservFP st)
                           (retire_reserv b (reservINT st) (mem st)))
                 (set_map_table mt2 st)))).
Proof.
  unfold CDB_To_retire. destruct (commonDataBus st) as [b|].
  - intros H. apply bind_Ok in H as (mt1 & E1 & H). apply bind_Ok in H as (mt2 & E2 & H).
    injection H as <-. right. by exists b, mt1, mt2.
  - intros [= <-]. by left.
Qed.

Lemma safe_bus_None N table st :
  safe N table st → safe N table (set_commonDataBus None st).
Proof.
  intros []. split; try done.
  - intros k x y Hq [Hy|Hy]; [|done]. exact (safe_queue_young0 k x y Hq (or_introl Hy)).
  - intros y [Hy|Hy]; [|done]. exact (safe_flight_range0 y (or_introl Hy)).
Qed.

Lemma safe_CDB_To_retire N table c st st' :
  safe N table st → CDB_To_retire c st = Ok st' → safe N table st'.
Proof.
  intros Hs H. apply CDB_To_retire_Ok in H as [[_ ->]|(b & mt1 & mt2 & Eb & _ & _ & ->)]; [done|].
  apply (safe_ext N table (set_commonDataBus None st)); try done.
  - by apply safe_bus_None.
  - intros p. simpl.
    eapply same_code_trans; [apply retire_reserv_frame|apply retire_reserv_frame].
  - intros p. simpl.
    destruct (retire_reserv_frame b (reservFP st) (retire_reserv b (reservINT st) (mem st)) p) as [_ ->].
    apply retire_reserv_frame.
Qed.

(** *** free_stations *)

Lemma in_RS_free_stations x st st' y :
  free_stations x st = Ok st' → in_RS st' y → in_RS st y.
Proof.
  intros H. apply free_stations_Ok in H as [[_ ->]|(_ & _ & ->)];
    intros [Hy|Hy]; simpl in Hy;
    solve [by left | by right | left; by apply free_slot_holds in Hy
          | right; by apply free_slot_holds in Hy].
Qed.

Lemma in_FU_free_stations x st st' y :
  free_stations x st = Ok st' → in_FU st' y → in_FU st y.
Proof.
  intros H. apply free_stations_Ok in H as [[_ ->]|(_ & _ & ->)];
    intros [Hy|Hy]; simpl in Hy;
    solve [by left | by right | left; by apply free_slot_holds in Hy
          | right; by apply free_slot_holds in Hy].
Qed.

Lemma safe_free_stations N table x st st' :
  safe N table st → free_stations x st = Ok st' → safe N table st'.
Proof.
  intros [] H.
  assert (HRS : ∀ y, in_RS st' y → in_RS st y)
    by (intros y; by apply (in_RS_free_stations x)).
  assert (HFU : ∀ y, in_FU st' y → in_FU st y)
    by (intros y; by apply (in_FU_free_stations x)).
  assert (Hq : ∀ k y, queued st' k y → queued st k y).
  { by apply free_stations_Ok in H as [[_ ->]|(_ & _ & ->)]. }
  assert (Hb : ∀ y, on_bus st' y → on_bus st y).
  { by apply free_stations_Ok in H as [[_ ->]|(_ & _ & ->)]. }
  assert (Hf : ∀ y, in_RS st' y ∨ on_bus st' y → in_RS st y ∨ on_bus st y).
  { intros y [?|?]; [left|right]; auto. }
  assert (Hm : mem st' = mem st ∧ fetch_index st' = fetch_index st).
  { by apply free_stations_Ok in H as [[_ ->]|(_ & _ & ->)]. }
  destruct Hm as [Hm Hfi].
  split; rewrite ?Hm, ?Hfi.
  - by apply free_stations_Ok in H as [[_ ->]|(_ & _ & ->)].
  - apply free_stations_Ok in H as [[_ ->]|(_ & _ & ->)]; simpl;
      by rewrite ?free_slot_length.
  - apply free_stations_Ok in H as [[_ ->]|(_ & _ & ->)]; simpl;
      by rewrite ?free_slot_length.
  - apply free_stations_Ok in H as [[_ ->]|(_ & _ & ->)]; simpl;
      by rewrite ?free_slot_length.
  - apply free_stations_Ok in H as [[_ ->]|(_ & _ & ->)]; simpl;
      by rewrite ?free_slot_length.
  - by apply free_stations_Ok in H as [[_ ->]|(_ & _ & ->)].
  - by apply free_stations_Ok in H as [[_ ->]|(_ & _ & ->)].
  - by apply free_stations_Ok in H as [[_ ->]|(_ & _ & ->)].
  - done.
  - apply free_stations_Ok in H as [[_ ->]|(_ & _ & ->)]; exact safe_queue_full0.
  - intros k1 k2 x1 x2 H1 H2. eapply safe_queue_order0; eauto.
  - intros k y Hy. eapply safe_queue_range0; eauto.
  - intros k y z Hy Hz. eapply safe_queue_young0; eauto.
  - intros y Hy. eapply safe_flight_range0; eauto.
  - apply free_stations_Ok in H as [[_ ->]|(_ & _ & ->)]; simpl;
      [by apply free_slot_inj | done].
  - apply free_stations_Ok in H as [[_ ->]|(_ & _ & ->)]; simpl;
      [done | by apply free_slot_inj].
  - intros y Hy. apply safe_rs_int_class0.
    apply free_stations_Ok in H as [[_ ->]|(_ & _ & ->)]; simpl in Hy;
      [by eapply free_slot_holds | done].
  - intros y Hy. apply safe_rs_fp_class0.
    apply free_stations_Ok in H as [[_ ->]|(_ & _ & ->)]; simpl in Hy;
      [done | by eapply free_slot_holds].
  - apply free_stations_Ok in H as [[_ ->]|(_ & _ & ->)]; simpl;
      [by apply free_slot_inj | done].
  - apply free_stations_Ok in H as [[_ ->]|(_ & _ & ->)]; simpl;
      [done | by apply free_slot_inj].
  - intros y Hy.
    apply free_stations_Ok in H as [[_ ->]|(_ & _ & ->)]; simpl in *; [|by auto].
    assert (y ≠ x) by (intros ->; exact (free_slot_gone _ _ safe_fu_int_inj0 Hy)).
    apply free_slot_holds_other; [|done]. apply safe_fu_int_rs0. by eapply free_slot_holds.
  - intros y Hy.
    apply free_stations_Ok in H as [[_ ->]|(_ & _ & ->)]; simpl in *; [by auto|].
    assert (y ≠ x) by (intros ->; exact (free_slot_gone _ _ safe_fu_fp_inj0 Hy)).
    apply free_slot_holds_other; [|done]. apply safe_fu_fp_rs0. by eapply free_slot_holds.
  - intros y Hy. auto.
  - intros b Hy Hr. eapply safe_bus_free0; eauto.
  - intros b Hy. auto.
Qed.

Lemma safe_set_doneCount N table v st :
  safe N table st → safe N table (set_doneCount v st).
Proof. intros Hs. by apply (safe_ext N table st). Qed.

(** *** execute_To_CDB *)

Lemma safe_bus_Some N table st w :
  safe N table st → ¬ in_RS st w → IS_STORE (op (table w)) = false →
  (∀ k x, queued st k x → w < x) →
  1 <= w <= fetch_index st ∧ w <= N →
  safe N table (set_commonDataBus (Some w) st).
Proof.
  intros [] Hn Hs Hq Hr. split; try done.
  - intros k x y Hx [Hy|Hy].
    + exact (safe_queue_young0 k x y Hx (or_introl Hy)).
    + injection Hy as <-. by eapply Hq.
  - intros y [Hy|Hy].
    + exact (safe_flight_range0 y (or_introl Hy)).
    + by injection Hy as <-.
  - intros b Hb. by injection Hb as <-.
  - intros b Hb. by injection Hb as <-.
Qed.

Lemma execute_int_slot_safe N table c i a a' :
  cdb_loop_safe N table a → execute_int_slot c i a = Ok a' → cdb_loop_safe N table a'.
Proof.
  destruct a as [[st o] oi]. intros [Hs Hw] H.
  apply execute_int_slot_cases in H
    as [[-> _]|[(x & st1 & Ex & Hc & Es & F & E1 & ->)|(x & Ex & Hc & Es & Ho & ->)]].
  - done.
  - split.
    + apply safe_set_doneCount. by eapply safe_free_stations.
    + intros w ->. subst st1. simpl.
      destruct (Hw w eq_refl) as [[Hh Hns]|Hh]; [left|by right]. split; [|done].
      apply free_slot_holds_other; [done|]. intros ->. congruence.
  - split; [done|]. intros w [= <-]. left. split; [by exists i|done].
Qed.

Lemma execute_int_loop_safe N table c l a a' :
  cdb_loop_safe N table a → execute_int_loop c l a = Ok a' → cdb_loop_safe N table a'.
Proof.
  revert a. induction l as [|i l IH]; intros a Hs H; simpl in H.
  - by injection H as <-.
  - apply bind_Ok in H as (a1 & H1 & H). apply (IH a1); [|done].
    by eapply execute_int_slot_safe.
Qed.

Lemma execute_fp_slot_safe N table c a :
  cdb_loop_safe N table a → cdb_loop_safe N table (execute_fp_slot c a).
Proof.
  destruct a as [[st o] oi]. intros [Hs Hw]. unfold execute_fp_slot.
  destruct (slot (fuFP st) 0) as [x|] eqn:Ex; [|done].
  destruct (_ >=? _); [|done]. destruct (_ || _); [|done].
  split; [done|]. intros w [= <-]. right. by exists 0%nat.
Qed.

(** The shape of a call of [execute_To_CDB]: the loops, then the winner,
    if any, moves to the bus. *)
Lemma execute_To_CDB_Ok c st st' :
  execute_To_CDB c st = Ok st' →
  ∃ a st1 o oi,
    execute_int_loop c (seq 0 FU_INT_SIZE) (st, -1, None) = Ok a ∧
    execute_fp_slot c a = (st1, o, oi) ∧
    match oi with
    | None => st' = st1
    | Some w =>
        ∃ st3,
          free_stations w
            (set_mem (<[w := set_tom_cdb_cycle c (mem st1 w)]> (mem st1)) st1) = Ok st3 ∧
          st' = set_commonDataBus (Some w) st3
    end.
Proof.
  unfold execute_To_CDB. intros H. apply bind_Ok in H as (a & Hloop & H).
  destruct (execute_fp_slot c a) as [[st1 o] oi] eqn:Efp.
  exists a, st1, o, oi. split; [done|]. split; [done|].
  destruct oi as [w|].
  - apply bind_Ok in H as (st3 & F & H). injection H as <-. by exists st3.
  - by injection H as <-.
Qed.

Lemma safe_execute_To_CDB N table c st st' :
  safe N table st → execute_To_CDB c st = Ok st' → safe N table st'.
Proof.
  intros Hs H.
  apply execute_To_CDB_Ok in H as (a & st1 & o & oi & Hloop & Hfp & H).
  assert (H1 : cdb_loop_safe N table (st1, o, oi)).
  { rewrite <- Hfp. apply execute_fp_slot_safe.
    eapply execute_int_loop_safe; [|done]. split; [done|]. intros w [=]. }
  destruct H1 as [Hs1 Hw]. destruct oi as [w|]; [|by subst].
  destruct H as (st3 & F & ->).
  set (st2 := set_mem (<[w := set_tom_cdb_cycle c (mem st1 w)]> (mem st1)) st1) in *.
  assert (Hs2 : safe N table st2).
  { apply (safe_ext N table st1); try done; intros p; simpl;
      (destruct (decide (w = p)) as [->|Hne];
       [by rewrite fn_lookup_insert | by rewrite fn_lookup_insert_ne]). }
  assert (Hcode : op (mem st2 w) = op (table w)) by apply Hs2.
  assert (Hcode1 : op (mem st1 w) = op (table w)) by apply Hs1.
  assert (Hrs : in_RS st1 w).
  { destruct (Hw w eq_refl) as [[Hh _]|Hh];
      [left; by apply Hs1 | right; by apply Hs1]. }
  apply safe_bus_Some.
  - by eapply safe_free_stations.
  - intros Hin.
    apply free_stations_Ok in F as [[Ei ->]|(Ei & Ef & ->)]; rewrite Hcode in Ei.
    + destruct Hin as [Hin|Hin]; simpl in Hin.
      * by apply (free_slot_gone w (reservINT st1)); [apply Hs1|].
      * apply Hs1 in Hin as [? _]. congruence.
    + destruct Hin as [Hin|Hin]; simpl in Hin.
      * apply Hs1 in Hin. congruence.
      * by apply (free_slot_gone w (reservFP st1)); [apply Hs1|].
  - destruct (Hw w eq_refl) as [[_ Hns]|Hh]; [by rewrite <- Hcode1|].
    apply Hs1 in Hh. apply Hs1 in Hh as [Hi _].
    by apply USES_INT_FU_false_not_store.
  - intros k x Hq. apply (safe_queue_young N table st1 Hs1 k x w); [|by left].
    by apply free_stations_Ok in F as [[_ ->]|(_ & _ & ->)].
  - replace (fetch_index st3) with (fetch_index st1)
      by (by apply free_stations_Ok in F as [[_ ->]|(_ & _ & ->)]).
    apply Hs1. by left.
Qed.

(** *** issue_To_execute *)

Lemma ready_Some m x :
  ready m (Some x) = true →
  tom_execute_cycle (m x) = 0 ∧ Q (m x) = (None, None, None).
Proof.
  unfold ready. rewrite !andb_true_iff, Z.eqb_eq, !ptr_eqb_eq.
  unfold at3. destruct (Q (m x)) as [[q0 q1] q2]. simpl.
  intros [[[? ->] ->] ->]. done.
Qed.

Lemma issue_int_slot_cases c st i :
  issue_int_slot c st i = st ∨
  ∃ j x, fuINT st !! i = Some None ∧ oldest_rs_int (mem st) (reservINT st) = Some j ∧
         slot (reservINT st) j = Some x ∧
         issue_int_slot c st i =
           set_fuINT (<[i := Some x]> (fuINT st))
             (set_mem (<[x := set_tom_execute_cycle c (mem st x)]> (mem st)) st).
Proof.
  unfold issue_int_slot. destruct (fuINT st !! i) as [[y|]|] eqn:Ei; try by left.
  destruct (oldest_rs_int _ _) as [j|] eqn:Ej; [|by left].
  destruct (slot (reservINT st) j) as [x|] eqn:Ex; [|by left].
  right. by exists j, x.
Qed.

Lemma issue_fp_slot_cases c st i :
  issue_fp_slot c st i = st ∨
  ∃ j x, fuFP st !! i = Some None ∧ oldest_rs_fp (mem st) (reservFP st) = Some j ∧
         slot (reservFP st) j = Some x ∧
         issue_fp_slot c st i =
           set_fuFP (<[i := Some x]> (fuFP st))
             (set_mem (<[x := set_tom_execute_cycle c (mem st x)]> (mem st)) st).
Proof.
  unfold issue_fp_slot. destruct (fuFP st !! i) as [[y|]|] eqn:Ei; try by left.
  destruct (oldest_rs_fp _ _) as [j|] eqn:Ej; [|by left].
  destruct (slot (reservFP st) j) as [x|] eqn:Ex; [|by left].
  right. by exists j, x.
Qed.

Lemma inj_pool_insert a i x :
  inj_pool a → ¬ holds a x → inj_pool (<[i := Some x]> a).
Proof.
  intros Hinj Hn j1 j2 y. rewrite !slot_insert.
  repeat case_decide; intros H1 H2; try (by eapply Hinj).
  - lia.
  - injection H1 as <-. exfalso. apply Hn. by exists j2.
  - injection H2 as <-. exfalso. apply Hn. by exists j1.
Qed.

Lemma holds_insert a i v y :
  holds (<[i := v]> a) y → v = Some y ∨ holds a y.
Proof.
  intros [j Hj]. rewrite slot_insert in Hj. case_decide; [by left|right; by exists j].
Qed.

(** Starting the execution of a ready occupant of a reservation station. *)
Lemma safe_start_int N table c st i x :
  c ≠ 0 → safe N table st →
  holds (reservINT st) x → tom_execute_cycle (mem st x) = 0 →
  safe N table (set_fuINT (<[i := Some x]> (fuINT st))
                  (set_mem (<[x := set_tom_execute_cycle c (mem st x)]> (mem st)) st)).
Proof.
  intros Hc Hs Hx He. pose proof Hs as [].
  assert (Hn : ¬ in_FU st x) by (intros Hin; by apply safe_fu_exec0 in Hin).
  split; try done.
  - simpl. by rewrite length_insert.
  - intros p. simpl. destruct (decide (x = p)) as [->|Hne].
    + rewrite fn_lookup_insert. apply safe_code0.
    + rewrite fn_lookup_insert_ne by done. apply safe_code0.
  - simpl. apply inj_pool_insert; [done|]. intros Hh. apply Hn. by left.
  - intros y Hy. simpl in Hy. apply holds_insert in Hy as [[= <-]|Hy]; [done|auto].
  - intros y Hy. simpl.
    assert (y = x ∨ (y ≠ x ∧ in_FU st y)) as [->|[Hne Hin]].
    { destruct (decide (y = x)) as [->|Hne]; [by left|right]. split; [done|].
      destruct Hy as [Hy|Hy]; [|by right]. simpl in Hy.
      apply holds_insert in Hy as [[= <-]|Hy]; [done|by left]. }
    + by rewrite fn_lookup_insert.
    + rewrite fn_lookup_insert_ne by done. auto.
Qed.

Lemma safe_start_fp N table c st i x :
  c ≠ 0 → safe N table st →
  holds (reservFP st) x → tom_execute_cycle (mem st x) = 0 →
  safe N table (set_fuFP (<[i := Some x]> (fuFP st))
                  (set_mem (<[x := set_tom_execute_cycle c (mem st x)]> (mem st)) st)).
Proof.
  intros Hc Hs Hx He. pose proof Hs as [].
  assert (Hn : ¬ in_FU st x) by (intros Hin; by apply safe_fu_exec0 in Hin).
  split; try done.
  - simpl. by rewrite length_insert.
  - intros p. simpl. destruct (decide (x = p)) as [->|Hne].
    + rewrite fn_lookup_insert. apply safe_code0.
    + rewrite fn_lookup_insert_ne by done. apply safe_code0.
  - simpl. apply inj_pool_insert; [done|]. intros Hh. apply Hn. by right.
  - intros y Hy. simpl in Hy. apply holds_insert in Hy as [[= <-]|Hy]; [done|auto].
  - intros y Hy. simpl.
    assert (y = x ∨ (y ≠ x ∧ in_FU st y)) as [->|[Hne Hin]].
    { destruct (decide (y = x)) as [->|Hne]; [by left|right]. split; [done|].
      destruct Hy as [Hy|Hy]; [by left|]. simpl in Hy.
      apply holds_insert in Hy as [[= <-]|Hy]; [done|by right]. }
    + by rewrite fn_lookup_insert.
    + rewrite fn_lookup_insert_ne by done. auto.
Qed.

Lemma safe_issue_int_slot N table c st i :
  c ≠ 0 → safe N table st → safe N table (issue_int_slot c st i).
Proof.
  intros Hc Hs. destruct (issue_int_slot_cases c st i) as [->|(j & x & _ & Ej & Ex & ->)]; [done|].
  apply oldest_rs_int_Some in Ej as (_ & Hr & _). rewrite Ex in Hr.
  apply ready_Some in Hr as [He _].
  apply safe_start_int; try done. by exists j.
Qed.

Lemma safe_issue_fp_slot N table c st i :
  c ≠ 0 → safe N table st → safe N table (issue_fp_slot c st i).
Proof.
  intros Hc Hs. destruct (issue_fp_slot_cases c st i) as [->|(j & x & _ & Ej & Ex & ->)]; [done|].
  apply oldest_rs_fp_Some in Ej as (_ & Hr & _). rewrite Ex in Hr.
  apply ready_Some in Hr as [He _].
  apply safe_start_fp; try done. by exists j.
Qed.

Lemma fold_left_preserves {A B} (P : A → Prop) (f : A → B → A) l a :
  (∀ a b, P a → P (f a b)) → P a → P (fold_left f l a).
Proof.
  intros Hf. revert a. induction l as [|b l IH]; intros a Ha; simpl; [done|].
  apply IH. by apply Hf.
Qed.

Lemma safe_issue_To_execute N table c st :
  c ≠ 0 → safe N table st → safe N table (issue_To_execute c st).
Proof.
  intros Hc Hs. unfold issue_To_execute.
  apply fold_left_preserves; [intros; by apply safe_issue_fp_slot|].
  apply fold_left_preserves; [intros; by apply safe_issue_int_slot|done].
Qed.

(** *** dispatch_To_issue *)

Lemma safe_pop_head N table st :
  safe N table st → (0 < instr_queue_size st)%nat → safe N table (pop_head st).
Proof.
  intros [] Hsz. split; try done.
  - apply queue_mod_lt.
  - cbn [pop_head instr_queue_size set_queue]. lia.
  - cbn [pop_head instr_queue_size ifq_head ifq_tail set_queue].
    rewrite queue_mod_shift, safe_tail0. f_equal. lia.
  - intros k Hk. cbn [pop_head instr_queue_size set_queue] in Hk.
    destruct (safe_queue_full0 (S k) ltac:(lia)) as [x Hx].
    exists x. by apply queued_pop_head.
  - intros k1 k2 x1 x2 H1%queued_pop_head H2%queued_pop_head Hlt; try done.
    apply (safe_queue_order0 (S k1) (S k2)); [done..|lia].
  - intros k x Hx%queued_pop_head; [|done]. by apply (safe_queue_range0 (S k)).
  - intros k x y Hx%queued_pop_head Hy; [|done]. by apply (safe_queue_young0 (S k) x y).
Qed.

Lemma holds_insert_mono (a : list (option ptr)) i v x :
  slot a i = None → holds a x → holds (<[i := v]> a) x.
Proof.
  intros Hi [j Hj]. exists j. rewrite slot_insert. case_decide as C; [|done].
  destruct C as [-> _]. congruence.
Qed.

Lemma safe_admit_int N table st h i :
  safe N table st → slot (reservINT st) i = None →
  ¬ in_RS st h → ¬ on_bus st h → (∀ k x, queued st k x → h < x) →
  1 <= h <= fetch_index st ∧ h <= N →
  USES_INT_FU (op (table h)) = true →
  safe N table (set_reservINT (<[i := Some h]> (reservINT st)) st).
Proof.
  intros [] Hi Hn Hb Hq Hr Hc.
  assert (Hin : ∀ y, in_RS (set_reservINT (<[i := Some h]> (reservINT st)) st) y →
                     y = h ∨ in_RS st y).
  { intros y [Hy|Hy]; [|right; by right]. simpl in Hy.
    apply holds_insert in Hy as [[= <-]|Hy]; [by left|right; by left]. }
  split; try done.
  - simpl. by rewrite length_insert.
  - intros k x y Hx [[->|Hy]%Hin|Hy]; [by eapply Hq| |].
    + exact (safe_queue_young0 k x y Hx (or_introl Hy)).
    + exact (safe_queue_young0 k x y Hx (or_intror Hy)).
  - intros y [[->|Hy]%Hin|Hy]; [done| |].
    + exact (safe_flight_range0 y (or_introl Hy)).
    + exact (safe_flight_range0 y (or_intror Hy)).
  - simpl. apply inj_pool_insert; [done|]. intros Hh. apply Hn. by left.
  - intros x Hx. simpl in Hx. apply holds_insert in Hx as [[= <-]|Hx]; [done|auto].
  - intros x Hx. simpl. apply holds_insert_mono; [done|]. auto.
  - intros b Hbus [->|Hy]%Hin; [done|]. by apply (safe_bus_free0 b).
Qed.

Lemma safe_admit_fp N table st h i :
  safe N table st → slot (reservFP st) i = None →
  ¬ in_RS st h → ¬ on_bus st h → (∀ k x, queued st k x → h < x) →
  1 <= h <= fetch_index st ∧ h <= N →
  USES_INT_FU (op (table h)) = false ∧ USES_FP_FU (op (table h)) = true →
  safe N table (set_reservFP (<[i := Some h]> (reservFP st)) st).
Proof.
  intros [] Hi Hn Hb Hq Hr Hc.
  assert (Hin : ∀ y, in_RS (set_reservFP (<[i := Some h]> (reservFP st)) st) y →
                     y = h ∨ in_RS st y).
  { intros y [Hy|Hy]; [right; by left|]. simpl in Hy.
    apply holds_insert in Hy as [[= <-]|Hy]; [by left|right; by right]. }
  split; try done.
  - simpl. by rewrite length_insert.
  - intros k x y Hx [[->|Hy]%Hin|Hy]; [by eapply Hq| |].
    + exact (safe_queue_young0 k x y Hx (or_introl Hy)).
    + exact (safe_queue_young0 k x y Hx (or_intror Hy)).
  - intros y [[->|Hy]%Hin|Hy]; [done| |].
    + exact (safe_flight_range0 y (or_introl Hy)).
    + exact (safe_flight_range0 y (or_intror Hy)).
  - simpl. apply inj_pool_insert; [done|]. intros Hh. apply Hn. by right.
  - intros x Hx. simpl in Hx. apply holds_insert in Hx as [[= <-]|Hx]; [done|auto].
  - intros x Hx. simpl. apply holds_insert_mono; [done|]. auto.
  - intros b Hbus [->|Hy]%Hin; [done|]. by apply (safe_bus_free0 b).
Qed.

(** What [issue_head] does besides taking the head off the queue: it
    writes the producer map and, in the records, issue cycles and
    await-slots. *)
Lemma issue_head_Ok c h st st' :
  issue_head c h st = Ok st' →
  ∃ m mt,
    st' = set_map_table mt (set_mem m (pop_head st)) ∧
    ∀ p, same_code (m p) (mem st p) ∧
         tom_execute_cycle (m p) = tom_execute_cycle (mem st p).
Proof.
  unfold issue_head. intros H.
  pose proof (map_operands_frame _ _ _ H) as (Fo & F1 & F2 & F3 & F4 & _ & _ & F5 & _).
  apply map_operands_eq in H as (m1 & m2 & m3 & mt1 & mt2 & _ & _ & _ & _ & _ & ->).
  exists m3, mt2. split; [done|]. intros p. simpl in *.
  destruct (decide (p = h)) as [->|Hne].
  - rewrite fn_lookup_insert in *. by repeat split.
  - rewrite Fo by done. by rewrite fn_lookup_insert_ne.
Qed.

Lemma first_free_firstn n a i :
  first_free (firstn n a) = Some i → slot a i = None.
Proof.
  intros H. apply first_free_spec in H as [Hs Hl]. unfold slot in *.
  rewrite length_take in Hl. by rewrite lookup_take_lt in Hs by lia.
Qed.

Lemma dispatch_To_issue_Ok c st st' :
  (ifq_head st < INSTR_QUEUE_SIZE)%nat →
  dispatch_To_issue c st = Ok st' →
  (instr_queue_size st = 0%nat ∧ st' = st) ∨
  ∃ h, queued st 0 h ∧
    let o := op (mem st h) in
    ((IS_UNCOND_CTRL o || IS_COND_CTRL o = true ∧
      st' = set_doneCount (doneCount st + 1) (pop_head st)) ∨
     (IS_UNCOND_CTRL o || IS_COND_CTRL o = false ∧ USES_FP_FU o = true ∧
      first_free (firstn RESERV_FP_SIZE (reservFP st)) = None ∧ st' = st) ∨
     (IS_UNCOND_CTRL o || IS_COND_CTRL o = false ∧ USES_FP_FU o = true ∧
      ∃ i, first_free (firstn RESERV_FP_SIZE (reservFP st)) = Some i ∧
           issue_head c h (set_reservFP (<[i := Some h]> (reservFP st)) st) = Ok st') ∨
     (IS_UNCOND_CTRL o || IS_COND_CTRL o = false ∧ USES_FP_FU o = false ∧
      USES_INT_FU o = true ∧
      first_free (firstn RESERV_INT_SIZE (reservINT st)) = None ∧ st' = st) ∨
     (IS_UNCOND_CTRL o || IS_COND_CTRL o = false ∧ USES_FP_FU o = false ∧
      USES_INT_FU o = true ∧
      ∃ i, first_free (firstn RESERV_INT_SIZE (reservINT st)) = Some i ∧
           issue_head c h (set_reservINT (<[i := Some h]> (reservINT st)) st) = Ok st')).
Proof.
  intros Hhd. unfold dispatch_To_issue.
  destruct (Nat.ltb_spec 0 (instr_queue_size st)) as [Hsz|Hsz];
    [|intros [= <-]; left; split; [lia|done]].
  destruct (slot (instr_queue st) (ifq_head st)) as [h|] eqn:Eh; [|discriminate].
  intros H. right. exists h. split.
  { split; [done|]. by rewrite Nat.add_0_r, Nat.mod_small. }
  simpl. destruct (IS_UNCOND_CTRL _ || IS_COND_CTRL _) eqn:Ec.
  - injection H as <-. by left.
  - right. destruct (USES_FP_FU _) eqn:Ef.
    + destruct (first_free (firstn RESERV_FP_SIZE _)) as [i|] eqn:Ei.
      * right. left. repeat split; try done. by exists i.
      * injection H as <-. by left.
    + destruct (USES_INT_FU _) eqn:Eu; [|discriminate].
      destruct (first_free (firstn RESERV_INT_SIZE _)) as [i|] eqn:Ei.
      * do 3 right. repeat split; try done. by exists i.
      * injection H as <-. right. right. by left.
Qed.

Lemma safe_queue_head_fresh N table st h :
  safe N table st → queued st 0 h →
  ¬ in_RS st h ∧ ¬ on_bus st h ∧
  (∀ k x, queued (pop_head st) k x → h < x) ∧
  (0 < instr_queue_size st)%nat.
Proof.
  intros Hs Hh. assert (Hsz : (0 < instr_queue_size st)%nat) by apply Hh.
  split; [|split; [|split; [|done]]].
  - intros Hin. pose proof (safe_queue_young _ _ _ Hs 0%nat h h Hh (or_introl Hin)). lia.
  - intros Hin. pose proof (safe_queue_young _ _ _ Hs 0%nat h h Hh (or_intror Hin)). lia.
  - intros k x Hx%queued_pop_head; [|done].
    apply (safe_queue_order _ _ _ Hs 0%nat (S k)); [done..|lia].
Qed.

Lemma safe_dispatch_To_issue N table c st st' :
  wf_trace N table → safe N table st →
  dispatch_To_issue c st = Ok st' → safe N table st'.
Proof.
  intros [_ Hwf] Hs H.
  apply dispatch_To_issue_Ok in H as [[_ ->]|(h & Hh & H)]; [done| |by apply Hs].
  destruct (safe_queue_head_fresh _ _ _ _ Hs Hh) as (Hn & Hb & Hq & Hsz).
  assert (Hcode : op (mem st h) = op (table h)) by apply Hs.
  assert (Hr : 1 <= h <= fetch_index st ∧ h <= N) by (by eapply safe_queue_range).
  pose proof (safe_pop_head _ _ _ Hs Hsz) as Hp.
  simpl in H. rewrite Hcode in H.
  destruct H as [[_ ->]|[(_ & _ & _ & ->)|[(_ & Ef & i & Ei & H)|[(_ & _ & _ & _ & ->)|(_ & Ef & Eu & i & Ei & H)]]]];
    try done.
  - by apply safe_set_doneCount.
  - apply issue_head_Ok in H as (m & mt & -> & Hm).
    apply (safe_ext N table (set_reservFP (<[i := Some h]> (reservFP st)) (pop_head st)));
      try done; [|intros p; apply Hm..].
    apply (safe_admit_fp N table (pop_head st) h i); try done.
    + by apply first_free_firstn in Ei.
    + split; [|done]. destruct (Hwf h ltac:(lia)) as [_ _ _ Hone _ _ _ _].
      rewrite Ef, andb_true_r in Hone. done.
  - apply issue_head_Ok in H as (m & mt & -> & Hm).
    apply (safe_ext N table (set_reservINT (<[i := Some h]> (reservINT st)) (pop_head st)));
      try done; [|intros p; apply Hm..].
    apply (safe_admit_int N table (pop_head st) h i); try done.
    by apply first_free_firstn in Ei.
Qed.

(** *** fetch_To_dispatch *)

(** The [do ... while] loop stops at the first instruction after
    [fetch_index] that is no trap, which lies inside the trace, and has
    counted the traps before it. *)
Lemma fetch_loop_Ok rounds N st new st1 :
  fetch_loop rounds N st = Ok (new, st1) →
  ∃ d, st1 = set_doneCount d (set_fetch_index new st) ∧
       fetch_index st < new ∧ 1 <= new <= N ∧
       IS_TRAP (op (mem st new)) = false ∧
       d = doneCount st + (new - fetch_index st - 1) ∧
       ∀ p, fetch_index st < p < new → IS_TRAP (op (mem st p)) = true.
Proof.
  revert st. induction rounds as [|rounds IH]; intros st; simpl;
    unfold get_instr;
    destruct (Z.leb_spec 1 (fetch_index st + 1)) as [H1|H1]; simpl; try discriminate;
    (destruct (Z.leb_spec (fetch_index st + 1) N) as [H2|H2]; simpl; try discriminate);
    destruct (IS_TRAP (op (mem st (fetch_index st + 1)))) eqn:Et; try discriminate.
  - intros [= <- <-]. exists (doneCount st).
    repeat split; first [done | lia | by destruct st | intros; lia].
  - intros H. apply IH in H as (d & -> & Hlt & Hr & Hnt & -> & Htr). simpl in *.
    exists (doneCount st + 1 + (new - (fetch_index st + 1) - 1)).
    repeat split; try done; try lia.
    intros p Hp. destruct (decide (p = fetch_index st + 1)) as [->|Hne]; [done|].
    apply Htr. lia.
  - intros [= <- <-]. exists (doneCount st).
    repeat split; first [done | lia | by destruct st | intros; lia].
Qed.

Lemma fetch_To_dispatch_Ok N c st st' :
  length (instr_queue st) = INSTR_QUEUE_SIZE →
  (ifq_tail st < INSTR_QUEUE_SIZE)%nat →
  fetch_To_dispatch N c st = Ok st' →
  ((INSTR_QUEUE_SIZE <= instr_queue_size st)%nat ∨ N <= fetch_index st) ∧ st' = st ∨
  ∃ new d,
    (instr_queue_size st < INSTR_QUEUE_SIZE)%nat ∧
    fetch_index st < new ∧ 1 <= new <= N ∧
    IS_TRAP (op (mem st new)) = false ∧
    d = doneCount st + (new - fetch_index st - 1) ∧
    (∀ p, fetch_index st < p < new → IS_TRAP (op (mem st p)) = true) ∧
    st' = set_mem (<[new := set_tom_dispatch_cycle c (mem st new)]> (mem st))
            (set_doneCount d (set_fetch_index new (push_tail new st))).
Proof.
  intros Hlen Htl. unfold fetch_To_dispatch.
  destruct (Nat.ltb_spec (instr_queue_size st) INSTR_QUEUE_SIZE) as [Hsz|Hsz];
    [|intros [= <-]; left; split; [by left|done]].
  destruct (Z.ltb_spec (fetch_index st) N) as [Hfi|Hfi];
    [|intros [= <-]; left; split; [by right|done]].
  simpl. intros H. apply bind_Ok in H as (st1 & Hf & H).
  unfold fetch in Hf. apply bind_Ok in Hf as ([new st0] & Hl & Hf).
  injection Hf as <-.
  apply fetch_loop_Ok in Hl as (d & -> & Hlt & Hr & Hnt & Hd & Htr).
  simpl in H. unfold slot in H. rewrite list_lookup_insert_eq in H by lia.
  simpl in H. injection H as <-.
  right. exists new, d. repeat split; try done; lia.
Qed.

Lemma safe_fetch_To_dispatch N table c st st' :
  safe N table st → fetch_To_dispatch N c st = Ok st' → safe N table st'.
Proof.
  intros Hs H. pose proof Hs as [].
  apply fetch_To_dispatch_Ok in H as [[_ ->]|(new & d & Hsz & Hlt & Hr & _ & _ & _ & ->)];
    [done| |done|rewrite safe_tail0; apply queue_mod_lt].
  apply (safe_ext N table (set_fetch_index new (push_tail new st))); try done;
    [|intros p; simpl; (destruct (decide (new = p)) as [->|Hne];
       [by rewrite fn_lookup_insert | by rewrite fn_lookup_insert_ne])..].
  assert (Hq : ∀ k y, queued (set_fetch_index new (push_tail new st)) k y ↔
                      queued st k y ∨ (k = instr_queue_size st ∧ y = new)).
  { intros k y. by apply (queued_push_tail st new k y). }
  split; try done.
  - cbn. by rewrite length_insert.
  - cbn. lia.
  - cbn. rewrite safe_tail0, Nat.Div0.add_mod_idemp_l. f_equal. lia.
  - intros k Hk. cbn in Hk.
    destruct (decide (k = instr_queue_size st)) as [->|Hne].
    + exists new. apply Hq. by right.
    + destruct (safe_queue_full0 k ltac:(lia)) as [x Hx]. exists x. apply Hq. by left.
  - intros k1 k2 x1 x2 [H1|[-> ->]]%Hq [H2|[-> ->]]%Hq Hk.
    + by eapply safe_queue_order0.
    + apply safe_queue_range0 in H1. lia.
    + destruct H2 as [? _]. lia.
    + lia.
  - intros k x [Hx|[-> ->]]%Hq; cbn; [|lia].
    apply safe_queue_range0 in Hx. lia.
  - intros k x y [Hx|[-> ->]]%Hq Hy.
    + by eapply safe_queue_young0.
    + apply safe_flight_range0 in Hy. lia.
  - intros y Hy. apply safe_flight_range0 in Hy. cbn. lia.
Qed.

(** *** Runs *)

Lemma holds_replicate_None n x : ¬ holds (replicate n None) x.
Proof. intros [i Hi]. by rewrite slot_replicate_None in Hi. Qed.

Lemma inj_pool_replicate_None n : inj_pool (replicate n None).
Proof. intros i j x Hi. by rewrite slot_replicate_None in Hi. Qed.

Lemma safe_init N table : safe N table (init_state table).
Proof.
  assert (Hq : ∀ k x, ¬ queued (init_state table) k x).
  { intros k x [Hk _]. simpl in Hk. lia. }
  assert (Hr : ∀ x, ¬ in_RS (init_state table) x).
  { intros x [H|H]; by apply holds_replicate_None in H. }
  assert (Hf : ∀ x, ¬ in_FU (init_state table) x).
  { intros x [H|H]; by apply holds_replicate_None in H. }
  split; try done; try apply inj_pool_replicate_None.
  - unfold INSTR_QUEUE_SIZE. simpl. lia.
  - unfold INSTR_QUEUE_SIZE. simpl. lia.
  - intros k Hk. simpl in Hk. lia.
  - intros k1 k2 x1 x2 H1. by apply Hq in H1.
  - intros k x H1. by apply Hq in H1.
  - intros k x y H1. by apply Hq in H1.
  - intros y [Hy|Hy]; [by apply Hr in Hy|done].
  - intros x Hx. by apply holds_replicate_None in Hx.
  - intros x Hx. by apply holds_replicate_None in Hx.
  - intros x Hx. by apply holds_replicate_None in Hx.
  - intros x Hx. by apply holds_replicate_None in Hx.
  - intros x Hx. by apply Hf in Hx.
Qed.

Lemma safe_stage N table c k st st' :
  wf_trace N table → c ≠ 0 → safe N table st →
  stage N c k st = Ok st' → safe N table st'.
Proof.
  intros Hwf Hc Hs H. destruct k as [|[|[|[|k]]]]; simpl in H.
  - by eapply safe_CDB_To_retire.
  - by eapply safe_execute_To_CDB.
  - injection H as <-. by apply safe_issue_To_execute.
  - by eapply safe_dispatch_To_issue.
  - by eapply safe_fetch_To_dispatch.
Qed.

Lemma safe_first_stages N table c k st st' :
  wf_trace N table → c ≠ 0 → safe N table st →
  first_stages N c k st = Ok st' → safe N table st'.
Proof.
  intros Hwf Hc Hs. revert st'. induction k as [|k IH]; intros st' H; simpl in H.
  - by injection H as <-.
  - apply bind_Ok in H as (s & H1 & H2).
    apply (safe_stage N table c k s st' Hwf Hc); [by apply IH|done].
Qed.

Lemma stages_first_stages N c st : stages N c st = first_stages N c 5 st.
Proof.
  unfold stages. simpl.
  destruct (CDB_To_retire c st) as [s1| | | |]; simpl; [|done..].
  destruct (execute_To_CDB c s1) as [s2| | | |]; simpl; done.
Qed.

Lemma safe_passes N table n st :
  wf_trace N table → passes n N table = Ok st → safe N table st.
Proof.
  intros Hwf. revert st. induction n as [|n IH]; intros st H; simpl in H.
  - injection H as <-. apply safe_init.
  - apply bind_Ok in H as (s & H1 & H2). rewrite stages_first_stages in H2.
    apply (safe_first_stages N table (cycle_after n) 5 s st Hwf);
      [unfold cycle_after; lia|by apply IH|done].
Qed.

(** The structures are sound at every point of a run over a well-formed
    trace. *)
Lemma safe_at_point N table n k st :
  wf_trace N table → at_point N table n k st → safe N table st.
Proof.
  intros Hwf (_ & _ & s & Hp & Hk).
  apply (safe_first_stages N table (cycle_after n) k s st Hwf);
    [unfold cycle_after; lia|by eapply safe_passes|done].
Qed.

(** ** What the stages leave alone *)

Lemma execute_frame_refl st : execute_frame st st.
Proof. by repeat split. Qed.

Lemma execute_frame_trans st0 st1 st2 :
  execute_frame st0 st1 → execute_frame st1 st2 → execute_frame st0 st2.
Proof.
  intros (A1 & A2 & A3 & A4 & A5 & A6 & A7 & A8 & A9 & A10 & A11)
         (B1 & B2 & B3 & B4 & B5 & B6 & B7 & B8 & B9 & B10 & B11).
  assert (H7 : ∀ p, same_code (mem st2 p) (mem st0 p) ∧
        Q (mem st2 p) = Q (mem st0 p) ∧
        tom_execute_cycle (mem st2 p) = tom_execute_cycle (mem st0 p)).
  { intros p. destruct (A7 p) as (Ac & Aq & Ae), (B7 p) as (Bc & Bq & Be).
    split; [by eapply same_code_trans|]. split; congruence. }
  unfold execute_frame. repeat split; try congruence; try apply H7; auto.
Qed.

Lemma execute_frame_free_stations x st st' :
  free_stations x st = Ok st' → execute_frame st st'.
Proof.
  intros H. apply free_stations_Ok in H as [[_ ->]|(_ & _ & ->)];
    split_and!; simpl; try done; intros i y; apply free_slot_slot.
Qed.

Lemma execute_frame_doneCount v st : execute_frame st (set_doneCount v st).
Proof. by repeat split. Qed.

Lemma execute_int_loop_frame c l st o oi st' o' oi' :
  execute_int_loop c l (st, o, oi) = Ok (st', o', oi') → execute_frame st st'.
Proof.
  revert st o oi. induction l as [|i l IH]; intros st o oi H; simpl in H.
  - injection H as <- <- <-. apply execute_frame_refl.
  - apply bind_Ok in H as ([[s1 o1] oi1] & H1 & H).
    apply (execute_frame_trans st s1 st'); [|by eapply IH].
    apply execute_int_slot_cases in H1
      as [[[= -> -> ->] _]|[(x & st1 & _ & _ & _ & F & _ & [= -> -> ->])|(x & _ & _ & _ & _ & [= -> -> ->])]];
      try apply execute_frame_refl.
    eapply execute_frame_trans;
      [by eapply execute_frame_free_stations | apply execute_frame_doneCount].
Qed.

Lemma execute_fp_slot_state c a : fst (fst (execute_fp_slot c a)) = fst (fst a).
Proof.
  destruct a as [[st o] oi]. unfold execute_fp_slot.
  destruct (slot (fuFP st) 0); [|done].
  destruct (_ >=? _); [|done]. by destruct (_ || _).
Qed.

Lemma execute_To_CDB_frame c st st' :
  execute_To_CDB c st = Ok st' → execute_frame st st'.
Proof.
  intros H. apply execute_To_CDB_Ok in H as ([[s0 o0] oi0] & st1 & o & oi & Hloop & Hfp & H).
  pose proof (execute_fp_slot_state c (s0, o0, oi0)) as E. rewrite Hfp in E. simpl in E.
  subst s0. apply execute_int_loop_frame in Hloop.
  destruct oi as [w|]; [|by subst].
  destruct H as (st3 & F & ->).
  apply (execute_frame_trans st st1 _ Hloop).
  apply execute_frame_free_stations in F.
  destruct F as (A1 & A2 & A3 & A4 & A5 & A6 & A7 & A8 & A9 & A10 & A11).
  split_and!; try done. intros p.
  destruct (A7 p) as (C & Eq & Ee); simpl in *.
  destruct (decide (w = p)) as [->|Hne];
     [rewrite fn_lookup_insert in * | rewrite fn_lookup_insert_ne in * by done];
     done.
Qed.

(** [CDB_To_retire] leaves the pools, the queue and [fetch_index] alone,
    and in the records everything but the await-slots. *)
Lemma CDB_To_retire_frame c st st' :
  CDB_To_retire c st = Ok st' →
  commonDataBus st' = None ∧
  instr_queue st' = instr_queue st ∧
  instr_queue_size st' = instr_queue_size st ∧ ifq_head st' = ifq_head st ∧
  ifq_tail st' = ifq_tail st ∧ fetch_index st' = fetch_index st ∧
  reservINT st' = reservINT st ∧ reservFP st' = reservFP st ∧
  fuINT st' = fuINT st ∧ fuFP st' = fuFP st ∧
  ∀ p, same_code (mem st' p) (mem st p) ∧
       tom_execute_cycle (mem st' p) = tom_execute_cycle (mem st p).
Proof.
  intros H. apply CDB_To_retire_Ok in H as [[E ->]|(b & mt1 & mt2 & Eb & _ & _ & ->)];
    split_and!; try done; intros p; split_and!; try done; simpl.
  - eapply same_code_trans; apply retire_reserv_frame.
  - destruct (retire_reserv_frame b (reservFP st) (retire_reserv b (reservINT st) (mem st)) p)
      as [_ ->]. apply retire_reserv_frame.
Qed.

Lemma issue_frame_refl st : issue_frame st st.
Proof. by repeat split. Qed.

Lemma issue_frame_trans st0 st1 st2 :
  issue_frame st0 st1 → issue_frame st1 st2 → issue_frame st0 st2.
Proof.
  intros (A1 & A2 & A3 & A4 & A5 & A6 & A7 & A8 & A9 & A10 & A11)
         (B1 & B2 & B3 & B4 & B5 & B6 & B7 & B8 & B9 & B10 & B11).
  assert (H11 : ∀ p, same_code (mem st2 p) (mem st0 p) ∧ Q (mem st2 p) = Q (mem st0 p)).
  { intros p. destruct (A11 p) as (Ac & Aq), (B11 p) as (Bc & Bq).
    split; [by eapply same_code_trans|congruence]. }
  unfold issue_frame. repeat split; try congruence; apply H11.
Qed.

Lemma issue_int_slot_frame c st i : issue_frame st (issue_int_slot c st i).
Proof.
  destruct (issue_int_slot_cases c st i) as [->|(j & x & _ & _ & _ & ->)];
    [apply issue_frame_refl|].
  split_and!; try done; intros p; split_and!; simpl;
    (destruct (decide (x = p)) as [->|Hne];
     [by rewrite fn_lookup_insert | by rewrite fn_lookup_insert_ne]).
Qed.

Lemma issue_fp_slot_frame c st i : issue_frame st (issue_fp_slot c st i).
Proof.
  destruct (issue_fp_slot_cases c st i) as [->|(j & x & _ & _ & _ & ->)];
    [apply issue_frame_refl|].
  split_and!; try done; intros p; split_and!; simpl;
    (destruct (decide (x = p)) as [->|Hne];
     [by rewrite fn_lookup_insert | by rewrite fn_lookup_insert_ne]).
Qed.

Lemma issue_To_execute_frame c st : issue_frame st (issue_To_execute c st).
Proof.
  unfold issue_To_execute.
  apply (fold_left_preserves (issue_frame st)).
  { intros a b Ha. eapply issue_frame_trans; [exact Ha|apply issue_fp_slot_frame]. }
  apply (fold_left_preserves (issue_frame st)).
  { intros a b Ha. eapply issue_frame_trans; [exact Ha|apply issue_int_slot_frame]. }
  apply issue_frame_refl.
Qed.

(** ** Where [doneCount] grows *)

Lemma finished_stores_S st c k :
  finished_stores st c (S k)
  = (finished_stores st c k + if finished_store st c k then 1 else 0)%nat.
Proof.
  unfold finished_stores. rewrite seq_S, List.filter_app, length_app. simpl.
  by destruct (finished_store st c k).
Qed.

Lemma execute_int_slot_count st0 c k a a' :
  cdb_loop_count st0 c k a → execute_int_slot c k a = Ok a' →
  cdb_loop_count st0 c (S k) a'.
Proof.
  destruct a as [[st o] oi]. intros (Em & Eb & Hs & Hd) H.
  assert (Hk : slot (fuINT st) k = slot (fuINT st0) k) by (apply Hs; lia).
  apply execute_int_slot_cases in H
    as [[-> Hno]|[(x & st1 & Ex & Hc & Es & _ & -> & ->)|(x & Ex & Hc & Es & Ho & ->)]];
    unfold cdb_loop_count; rewrite finished_stores_S; unfold finished_store;
    rewrite Hk in *; rewrite Em in *; simpl.
  - split_and!; try done. { intros j Hj. apply Hs. lia. }
    destruct (slot (fuINT st0) k) as [x|]; [|lia].
    destruct (Z.leb_spec (tom_execute_cycle (mem st0 x) + FU_INT_LATENCY) c) as [Hc|Hc];
      simpl; [|lia].
    destruct (Hno x eq_refl Hc) as (-> & _). lia.
  - split_and!; try done.
    + intros j Hj. rewrite <- Hs by lia. apply (free_slot_later _ _ k); [|lia].
      by rewrite Hk.
    + rewrite Ex, Es. destruct (Z.leb_spec (tom_execute_cycle (mem st0 x) + FU_INT_LATENCY) c);
        simpl; lia.
  - split_and!; try done. { intros j Hj. apply Hs. lia. }
    rewrite Ex, Es, andb_false_r. lia.
Qed.

Lemma execute_int_loop_count st0 c n k a a' :
  cdb_loop_count st0 c k a → execute_int_loop c (seq k n) a = Ok a' →
  cdb_loop_count st0 c (k + n) a'.
Proof.
  revert k a. induction n as [|n IH]; intros k a Hinv H; simpl in H.
  - injection H as <-. by rewrite Nat.add_0_r.
  - apply bind_Ok in H as (a1 & H1 & H).
    replace (k + S n)%nat with (S k + n)%nat by lia.
    apply (IH (S k) a1); [|done]. by eapply execute_int_slot_count.
Qed.

Lemma execute_int_loop_bus c st st' o oi :
  execute_int_loop c (seq 0 FU_INT_SIZE) (st, -1, None) = Ok (st', o, oi) →
  commonDataBus st' = commonDataBus st.
Proof.
  intros H.
  apply (execute_int_loop_count st c FU_INT_SIZE 0 (st, -1, None)) in H as (_ & E & _);
    [done|]. split_and!; try done. unfold finished_stores. simpl. lia.
Qed.

(** [execute_To_CDB] counts the stores that have had their latency. *)
Lemma execute_To_CDB_doneCount c st st' :
  execute_To_CDB c st = Ok st' →
  doneCount st' = doneCount st + Z.of_nat (finished_stores st c FU_INT_SIZE).
Proof.
  intros H. apply execute_To_CDB_Ok in H as ([[s0 o0] oi0] & st1 & o & oi & Hloop & Hfp & H).
  pose proof (execute_fp_slot_state c (s0, o0, oi0)) as E. rewrite Hfp in E. simpl in E.
  subst s0.
  apply (execute_int_loop_count st c FU_INT_SIZE 0 (st, -1, None)) in Hloop as (_ & _ & _ & Hd).
  2:{ split_and!; try done. unfold finished_stores. simpl. lia. }
  destruct oi as [w|]; [|by subst].
  destruct H as (st3 & F & ->). simpl.
  by apply free_stations_Ok in F as [[_ ->]|(_ & _ & ->)].
Qed.

(** [CDB_To_retire] counts the instruction on the bus. *)
Lemma CDB_To_retire_doneCount c st st' :
  CDB_To_retire c st = Ok st' →
  doneCount st' = doneCount st + match commonDataBus st with Some _ => 1 | None => 0 end.
Proof.
  intros H. apply CDB_To_retire_Ok in H as [[-> ->]|(b & mt1 & mt2 & -> & _ & _ & ->)];
    simpl; lia.
Qed.

(** [dispatch_To_issue] counts the head of the queue when it is a control
    instruction. *)
Lemma dispatch_To_issue_doneCount c st st' :
  (ifq_head st < INSTR_QUEUE_SIZE)%nat →
  dispatch_To_issue c st = Ok st' →
  (instr_queue_size st = 0%nat ∧ doneCount st' = doneCount st) ∨
  ∃ h, queued st 0 h ∧
       doneCount st' = doneCount st +
         if IS_UNCOND_CTRL (op (mem st h)) || IS_COND_CTRL (op (mem st h)) then 1 else 0.
Proof.
  intros Hhd H. apply dispatch_To_issue_Ok in H as [[? ->]|(h & Hh & H)]; [by left| |done].
  right. exists h. split; [done|]. simpl in H.
  destruct H as [[-> ->]|[(-> & _ & _ & ->)|[(-> & _ & i & _ & H)|[(-> & _ & _ & _ & ->)|(-> & _ & _ & i & _ & H)]]]];
    simpl; try lia;
    apply issue_head_Ok in H as (m & mt & -> & _); simpl; lia.
Qed.

(** [fetch_To_dispatch] counts the traps it skips. *)
Lemma fetch_To_dispatch_doneCount N c st st' :
  length (instr_queue st) = INSTR_QUEUE_SIZE →
  (ifq_tail st < INSTR_QUEUE_SIZE)%nat →
  fetch_To_dispatch N c st = Ok st' →
  doneCount st' = doneCount st + (fetch_index st' - fetch_index st)
                  - (if decide (fetch_index st' = fetch_index st) then 0 else 1) ∧
  fetch_index st <= fetch_index st' ∧
  (∀ p, fetch_index st < p < fetch_index st' → IS_TRAP (op (mem st p)) = true) ∧
  (fetch_index st < fetch_index st' → IS_TRAP (op (mem st (fetch_index st'))) = false).
Proof.
  intros Hlen Htl H.
  apply fetch_To_dispatch_Ok in H
    as [[_ ->]|(new & d & Hsz & Hlt & Hr & Hnt & -> & Htr & ->)]; try done.
  - rewrite decide_True by done. split_and!; intros; lia.
  - simpl. rewrite decide_False by lia. split_and!; solve [done | lia].
Qed.

(** ** The producer-map entry of DNA *)

Lemma reg_read_length (mt mt' : list (option ptr)) r :
  length mt' = length mt → reg_read mt r = None → reg_read mt' r = None.
Proof.
  unfold reg_read. destruct (r <? 0); [done|].
  rewrite !lookup_ge_None. lia.
Qed.

Lemma retire_map_Ok b r mt mt' :
  retire_map b r mt = Ok mt' →
  is_Some (reg_read mt r) ∧ length mt' = length mt ∧
  ((reg_read mt r = Some (Some b) ∧ mt' = reg_write mt r None) ∨
   (reg_read mt r ≠ Some (Some b) ∧ mt' = mt)).
Proof.
  unfold retire_map. destruct (reg_read mt r) as [e|] eqn:E; [|done].
  destruct (ptr_eqb e (Some b)) eqn:Eb; intros [= <-].
  - apply ptr_eqb_eq in Eb as ->. split; [eauto|]. split; [apply reg_write_length|by left].
  - apply ptr_eqb_neq in Eb. split; [eauto|]. split; [done|right]. split; congruence.
Qed.

(** The conditional clear of an entry that holds [NULL] changes nothing. *)
Lemma retire_map_NULL b r mt :
  reg_read mt r = Some None → retire_map b r mt = Ok mt.
Proof. unfold retire_map. by intros ->. Qed.

(** Outside the register file the subscript has no answer. *)
Lemma retire_map_BadReg b r mt :
  reg_read mt r = None → retire_map b r mt = BadReg r.
Proof. unfold retire_map. by intros ->. Qed.

Lemma retire_map_cases b r mt :
  (∃ mt', retire_map b r mt = Ok mt') ∨ retire_map b r mt = BadReg r.
Proof. unfold retire_map. destruct (reg_read mt r); eauto. Qed.

Lemma retire_map_DNA b r mt mt' :
  retire_map b r mt = Ok mt' → DNA_unassigned mt → DNA_unassigned mt'.
Proof.
  intros H Hd e He. apply retire_map_Ok in H as (Hs & _ & [[_ ->]|[_ ->]]); [|by apply Hd].
  destruct (decide (DNA = r)) as [E|Hne].
  - rewrite E, reg_read_write_eq in He by done. congruence.
  - apply reg_read_is_Some in Hs as [? _].
    rewrite reg_read_write_ne in He by done. by apply Hd.
Qed.

Lemma map_operands_DNA instr st st' :
  map_operands instr st = Ok st' →
  reg_read (map_table st') DNA = reg_read (map_table st) DNA.
Proof.
  intros H. rewrite (map_operands_map _ _ _ _ H).
  rewrite decide_False; [done|]. by intros [? _].
Qed.

Lemma CDB_To_retire_DNA c st st' :
  CDB_To_retire c st = Ok st' →
  DNA_unassigned (map_table st) → DNA_unassigned (map_table st').
Proof.
  intros H Hd. apply CDB_To_retire_Ok in H as [[_ ->]|(b & mt1 & mt2 & _ & E1 & E2 & ->)];
    [done|]. simpl. eapply retire_map_DNA; [exact E2|]. by eapply retire_map_DNA.
Qed.

Lemma dispatch_To_issue_DNA c st st' :
  dispatch_To_issue c st = Ok st' →
  reg_read (map_table st') DNA = reg_read (map_table st) DNA.
Proof.
  unfold dispatch_To_issue. destruct (0 <? instr_queue_size st)%nat; [|by intros [= <-]].
  destruct (slot _ _) as [h|]; [|done].
  destruct (_ || _); [by intros [= <-]|].
  destruct (USES_FP_FU _).
  - destruct (first_free _) as [i|]; [|by intros [= <-]].
    unfold issue_head. intros H. by apply map_operands_DNA in H.
  - destruct (USES_INT_FU _); [|done].
    destruct (first_free _) as [i|]; [|by intros [= <-]].
    unfold issue_head. intros H. by apply map_operands_DNA in H.
Qed.

Lemma fetch_To_dispatch_map_table N c st st' :
  fetch_To_dispatch N c st = Ok st' → map_table st' = map_table st.
Proof.
  unfold fetch_To_dispatch. destruct (_ && _); [|by intros [= <-]].
  intros H. apply bind_Ok in H as (st1 & Hf & H).
  unfold fetch in Hf. apply bind_Ok in Hf as ([new st0] & Hl & Hf). injection Hf as <-.
  apply fetch_loop_Ok in Hl as (d & -> & _).
  destruct (slot _ _); [|done]. by injection H as <-.
Qed.

Lemma stage_DNA N c k st st' :
  stage N c k st = Ok st' →
  DNA_unassigned (map_table st) → DNA_unassigned (map_table st').
Proof.
  intros H Hd. destruct k as [|[|[|[|k]]]]; simpl in H.
  - by eapply CDB_To_retire_DNA.
  - apply execute_To_CDB_frame in H as (-> & _). done.
  - injection H as <-. destruct (issue_To_execute_frame c st) as (-> & _). done.
  - intros e He. apply Hd. by rewrite <- (dispatch_To_issue_DNA _ _ _ H).
  - by rewrite (fetch_To_dispatch_map_table _ _ _ _ H).
Qed.

Lemma first_stages_DNA N c k st st' :
  first_stages N c k st = Ok st' →
  DNA_unassigned (map_table st) → DNA_unassigned (map_table st').
Proof.
  revert st'. induction k as [|k IH]; intros st' H Hd; simpl in H.
  - by injection H as <-.
  - apply bind_Ok in H as (s & H1 & H2). eapply stage_DNA; [exact H2|]. by apply IH.
Qed.

Lemma passes_DNA N table n st :
  passes n N table = Ok st → DNA_unassigned (map_table st).
Proof.
  revert st. induction n as [|n IH]; intros st H; simpl in H.
  - injection H as <-. intros e He. simpl in He. unfold reg_read in He.
    destruct (DNA <? 0); [done|]. by apply lookup_replicate in He as [-> _].
  - apply bind_Ok in H as (s & H1 & H2). rewrite stages_first_stages in H2.
    eapply first_stages_DNA; [exact H2|]. by apply IH.
Qed.

(** C9: [CDB_To_retire] subscripts the producer map with both destination
    fields of the instruction on the bus, whatever they hold: it succeeds
    only if both are inside the register file, and with an absent
    destination and DNA outside the register file it faults.  That the
    clear does nothing for an absent destination rests on the entry of DNA
    being [NULL]: [map_operands] never writes that entry, so at every
    point of a run it is [NULL] (when DNA is inside the register file),
    and the conditional clear of a [NULL] entry is no change. *)
Theorem DNA_entry_is_never_assigned N table n k st :
  at_point N table n k st →
  (∀ e, reg_read (map_table st) DNA = Some e → e = None) ∧
  (∀ instr st', map_operands instr st = Ok st' →
     reg_read (map_table st') DNA = reg_read (map_table st) DNA) ∧
  (∀ c b st', commonDataBus st = Some b → CDB_To_retire c st = Ok st' →
     (∀ j, (j < 2)%nat → is_Some (reg_read (map_table st) (at2 (r_out (mem st b)) j))) ∧
     (at2 (r_out (mem st b)) 0 = DNA → at2 (r_out (mem st b)) 1 = DNA →
      map_table st' = map_table st)) ∧
  (∀ b, is_Some (reg_read (map_table st) DNA) →
     retire_map b DNA (map_table st) = Ok (map_table st)) ∧
  (∀ c b j, commonDataBus st = Some b → (j < 2)%nat →
     at2 (r_out (mem st b)) j = DNA → reg_read (map_table st) DNA = None →
     ∃ r, CDB_To_retire c st = BadReg r).
Proof.
  intros (_ & _ & s & Hp & Hk).
  assert (Hd : DNA_unassigned (map_table st)).
  { eapply first_stages_DNA; [exact Hk|]. by eapply passes_DNA. }
  assert (Hnoop : ∀ b, is_Some (reg_read (map_table st) DNA) →
     retire_map b DNA (map_table st) = Ok (map_table st)).
  { intros b [e He]. apply retire_map_NULL. by rewrite He, (Hd e He). }
  split_and!; [exact Hd| |  |exact Hnoop|].
  - intros instr st'. apply map_operands_DNA.
  - intros c b st' Eb H.
    apply CDB_To_retire_Ok in H as [[? _]|(b' & mt1 & mt2 & Eb' & E1 & E2 & ->)];
      [congruence|]. assert (b' = b) as -> by congruence. split.
    + intros [|[|j]] Hj; [| |lia].
      * by apply retire_map_Ok in E1 as (? & _).
      * pose proof E1 as E1'. apply retire_map_Ok in E1' as (_ & Hl & _).
        apply retire_map_Ok in E2 as (Hs & _).
        apply reg_read_is_Some in Hs. apply reg_read_is_Some. by rewrite <- Hl.
    + intros E0 E1'. simpl. rewrite E0 in E1. rewrite E1' in E2.
      pose proof E1 as Hs. apply retire_map_Ok in Hs as (Hs & _).
      rewrite (Hnoop b Hs) in E1. injection E1 as <-.
      rewrite (Hnoop b Hs) in E2. by injection E2 as <-.
  - intros c b j Eb Hj Ej Hn. unfold CDB_To_retire. rewrite Eb.
    destruct j as [|[|j]]; [| |lia].
    + rewrite Ej, (retire_map_BadReg b DNA _ Hn). simpl. eauto.
    + destruct (retire_map_cases b (at2 (r_out (mem st b)) 0) (map_table st))
        as [[mt1 E1]|E1]; rewrite E1; simpl; [|eauto].
      pose proof E1 as E1'. apply retire_map_Ok in E1' as (_ & Hl & _).
      rewrite Ej, (retire_map_BadReg b DNA mt1); [simpl; eauto|].
      by apply (reg_read_length (map_table st)).
Qed.

(** ** Stores *)

Lemma execute_frame_inj_fuINT st0 st :
  execute_frame st0 st → inj_pool (fuINT st0) → inj_pool (fuINT st).
Proof.
  intros (_&_&_&_&_&_&_&Hf&_) Hinj i j x Hi Hj. apply Hf in Hi, Hj. by eapply Hinj.
Qed.

Lemma execute_frame_inj_reservINT st0 st :
  execute_frame st0 st → inj_pool (reservINT st0) → inj_pool (reservINT st).
Proof.
  intros (_&_&_&_&_&_&_&_&_&Hf&_) Hinj i j x Hi Hj. apply Hf in Hi, Hj. by eapply Hinj.
Qed.

Lemma execute_frame_holds_fuINT st0 st x :
  execute_frame st0 st → holds (fuINT st) x → holds (fuINT st0) x.
Proof. intros (_&_&_&_&_&_&_&Hf&_) [i Hi]. exists i. by apply Hf. Qed.

Lemma execute_frame_holds_reservINT st0 st x :
  execute_frame st0 st → holds (reservINT st) x → holds (reservINT st0) x.
Proof. intros (_&_&_&_&_&_&_&_&_&Hf&_) [i Hi]. exists i. by apply Hf. Qed.

Lemma execute_int_slot_stores st0 c k a a' :
  inj_pool (fuINT st0) → inj_pool (reservINT st0) →
  cdb_loop_stores st0 c k a → execute_int_slot c k a = Ok a' →
  cdb_loop_stores st0 c (S k) a'.
Proof.
  destruct a as [[st o] oi]. intros Hif Hir (Em & Hs & Hfr & Hgone) H.
  assert (Hk : slot (fuINT st) k = slot (fuINT st0) k) by (apply Hs; lia).
  apply execute_int_slot_cases in H
    as [[-> Hno]|[(x & st1 & Ex & Hc & Es & F & -> & ->)|(x & Ex & Hc & Es & Ho & ->)]];
    unfold cdb_loop_stores.
  - split_and!; try done. { intros j Hj. apply Hs. lia. }
    intros j x Hj Hfin Hx. destruct (decide (j = k)) as [->|Hne]; [|apply (Hgone j); [lia|done..]].
    exfalso. unfold finished_store in Hfin. rewrite Hx in Hfin.
    apply andb_true_iff in Hfin as [Hc%Z.leb_le Hst].
    rewrite <- Hk in Hx. rewrite <- Em in Hc, Hst.
    destruct (Hno x Hx Hc) as (? & _). congruence.
  - assert (Hfr1 : execute_frame st
              (set_reservINT (free_slot x (reservINT st))
                 (set_fuINT (free_slot x (fuINT st)) st)))
      by (by apply (execute_frame_free_stations x)).
    split_and!; try done.
    + intros j Hj. rewrite <- Hs by lia. apply (free_slot_later _ _ k); [done|lia].
    + eapply execute_frame_trans; [exact Hfr|].
      eapply execute_frame_trans; [exact Hfr1|apply execute_frame_doneCount].
    + intros j y Hj Hfin Hy. simpl. destruct (decide (j = k)) as [->|Hne].
      * rewrite <- Hk, Ex in Hy. injection Hy as <-. split.
        -- apply free_slot_gone. by eapply execute_frame_inj_fuINT.
        -- apply free_slot_gone. by eapply execute_frame_inj_reservINT.
      * destruct (Hgone j y ltac:(lia) Hfin Hy) as [G1 G2].
        split; intros Hh%free_slot_holds; done.
  - split_and!; try done. { intros j Hj. apply Hs. lia. }
    intros j y Hj Hfin Hy. destruct (decide (j = k)) as [->|Hne]; [|apply (Hgone j); [lia|done..]].
    exfalso. unfold finished_store in Hfin. rewrite Hy in Hfin.
    apply andb_true_iff in Hfin as [_ Hst].
    rewrite <- Hk, Ex in Hy. injection Hy as <-. rewrite <- Em in Hst. congruence.
Qed.

Lemma execute_int_loop_stores st0 c n k a a' :
  inj_pool (fuINT st0) → inj_pool (reservINT st0) →
  cdb_loop_stores st0 c k a → execute_int_loop c (seq k n) a = Ok a' →
  cdb_loop_stores st0 c (k + n) a'.
Proof.
  intros Hif Hir. revert k a. induction n as [|n IH]; intros k a Hinv H; simpl in H.
  - injection H as <-. by rewrite Nat.add_0_r.
  - apply bind_Ok in H as (a1 & H1 & H).
    replace (k + S n)%nat with (S k + n)%nat by lia.
    apply (IH (S k) a1); [|done]. by eapply execute_int_slot_stores.
Qed.

(** A store that has had its latency is in no integer unit and no integer
    reservation station after [execute_To_CDB]. *)
Lemma execute_To_CDB_store_gone c st st' i x :
  inj_pool (fuINT st) → inj_pool (reservINT st) →
  execute_To_CDB c st = Ok st' →
  finished_int st c i x → IS_STORE (op (mem st x)) = true →
  ¬ holds (fuINT st') x ∧ ¬ holds (reservINT st') x.
Proof.
  intros Hif Hir H (Hi & Hx & Hc) Hst.
  apply execute_To_CDB_Ok in H as ([[s0 o0] oi0] & st1 & o & oi & Hloop & Hfp & H).
  pose proof (execute_fp_slot_state c (s0, o0, oi0)) as E. rewrite Hfp in E. simpl in E.
  subst s0.
  apply (execute_int_loop_stores st c FU_INT_SIZE 0 (st, -1, None)) in Hloop
    as (_ & _ & _ & Hgone); try done.
  2:{ split_and!; first [done | apply execute_frame_refl | intros j y Hj; lia]. }
  destruct (Hgone i x Hi) as [G1 G2]; [|done|].
  { unfold finished_store. rewrite Hx, Hst, andb_true_r. by apply Z.leb_le. }
  destruct oi as [w|]; [|by subst].
  destruct H as (st3 & F & ->). simpl.
  apply execute_frame_free_stations in F. simpl in F.
  split; intros Hh.
  - apply G1. by apply (execute_frame_holds_fuINT _ _ x) in F.
  - apply G2. by apply (execute_frame_holds_reservINT _ _ x) in F.
Qed.

(** [dispatch_To_issue] and [fetch_To_dispatch] leave the functional
    units, the bus and the execute cycles alone. *)
Lemma dispatch_To_issue_frame c st st' :
  (ifq_head st < INSTR_QUEUE_SIZE)%nat →
  dispatch_To_issue c st = Ok st' →
  fuINT st' = fuINT st ∧ fuFP st' = fuFP st ∧
  commonDataBus st' = commonDataBus st ∧ fetch_index st' = fetch_index st ∧
  ∀ p, same_code (mem st' p) (mem st p) ∧
       tom_execute_cycle (mem st' p) = tom_execute_cycle (mem st p).
Proof.
  intros Hhd H. apply dispatch_To_issue_Ok in H as [[_ ->]|(h & _ & H)]; [done| |done].
  simpl in H.
  destruct H as [[_ ->]|[(_ & _ & _ & ->)|[(_ & _ & i & _ & H)|[(_ & _ & _ & _ & ->)|(_ & _ & _ & i & _ & H)]]]];
    try done; apply issue_head_Ok in H as (m & mt & -> & Hm); by split_and!.
Qed.

Lemma fetch_To_dispatch_frame N c st st' :
  length (instr_queue st) = INSTR_QUEUE_SIZE →
  (ifq_tail st < INSTR_QUEUE_SIZE)%nat →
  fetch_To_dispatch N c st = Ok st' →
  fuINT st' = fuINT st ∧ fuFP st' = fuFP st ∧
  reservINT st' = reservINT st ∧ reservFP st' = reservFP st ∧
  commonDataBus st' = commonDataBus st ∧
  ∀ p, same_code (mem st' p) (mem st p) ∧ Q (mem st' p) = Q (mem st p) ∧
       tom_execute_cycle (mem st' p) = tom_execute_cycle (mem st p).
Proof.
  intros Hlen Htl H.
  apply fetch_To_dispatch_Ok in H as [[_ ->]|(new & d & _ & _ & _ & _ & _ & _ & ->)];
    try done.
  split_and!; try done. intros p. simpl.
  destruct (decide (new = p)) as [->|Hne];
    [by rewrite fn_lookup_insert | by rewrite fn_lookup_insert_ne].
Qed.

Lemma issue_int_slot_timing table c st i :
  (∀ x, holds (fuINT st) x → IS_STORE (op (table x)) = true →
        c < tom_execute_cycle (mem st x) + FU_INT_LATENCY) →
  ∀ x, holds (fuINT (issue_int_slot c st i)) x → IS_STORE (op (table x)) = true →
       c < tom_execute_cycle (mem (issue_int_slot c st i) x) + FU_INT_LATENCY.
Proof.
  intros Ht x. destruct (issue_int_slot_cases c st i) as [->|(j & y & _ & _ & _ & ->)];
    [apply Ht|]. simpl. intros Hx Hst. destruct (decide (y = x)) as [->|Hne].
  - rewrite fn_lookup_insert. simpl. unfold FU_INT_LATENCY. lia.
  - rewrite fn_lookup_insert_ne by done. apply Ht; [|done].
    apply holds_insert in Hx as [[= ?]|Hx]; done.
Qed.

Lemma issue_fp_slot_timing table c st i :
  (∀ x, holds (fuINT st) x → IS_STORE (op (table x)) = true →
        c < tom_execute_cycle (mem st x) + FU_INT_LATENCY) →
  ∀ x, holds (fuINT (issue_fp_slot c st i)) x → IS_STORE (op (table x)) = true →
       c < tom_execute_cycle (mem (issue_fp_slot c st i) x) + FU_INT_LATENCY.
Proof.
  intros Ht x. destruct (issue_fp_slot_cases c st i) as [->|(j & y & _ & _ & _ & ->)];
    [apply Ht|]. simpl. intros Hx Hst. destruct (decide (y = x)) as [->|Hne].
  - rewrite fn_lookup_insert. simpl. unfold FU_INT_LATENCY. lia.
  - rewrite fn_lookup_insert_ne by done. by apply Ht.
Qed.

Lemma store_timing_stage N table c k st st' :
  safe N table st → store_timing table c k st → (k < 5)%nat →
  stage N c k st = Ok st' → store_timing table c (S k) st'.
Proof.
  intros Hs Ht Hk H. destruct k as [|[|[|[|[|k]]]]]; simpl in H; [| | | | |lia];
    unfold store_timing in *; simpl in *.
  - apply CDB_To_retire_frame in H as (_&_&_&_&_&_&_&_&E&_&Hm).
    intros x. rewrite E. destruct (Hm x) as [_ ->]. apply Ht.
  - intros x Hx Hst.
    pose proof (execute_To_CDB_frame _ _ _ H) as Hfr.
    pose proof Hfr as (_&_&_&_&_&_&Hm&_). destruct (Hm x) as (_ & _ & ->).
    pose proof (execute_frame_holds_fuINT _ _ _ Hfr Hx) as [i Hi].
    destruct (Z.lt_ge_cases c (tom_execute_cycle (mem st x) + FU_INT_LATENCY)) as [?|Hc];
      [done|]. exfalso.
    assert (Hfu : (i < FU_INT_SIZE)%nat).
    { apply slot_Some_lt in Hi. by rewrite (safe_len_fuINT _ _ _ Hs) in Hi. }
    destruct (execute_To_CDB_store_gone c st st' i x) as [G _]; try done; try apply Hs.
    destruct (safe_code _ _ _ Hs x) as (-> & _). done.
  - injection H as <-. unfold issue_To_execute.
    apply (fold_left_preserves
             (λ s, ∀ x, holds (fuINT s) x → IS_STORE (op (table x)) = true →
                        c < tom_execute_cycle (mem s x) + FU_INT_LATENCY)).
    { intros a b. apply issue_fp_slot_timing. }
    apply (fold_left_preserves
             (λ s, ∀ x, holds (fuINT s) x → IS_STORE (op (table x)) = true →
                        c < tom_execute_cycle (mem s x) + FU_INT_LATENCY)).
    { intros a b. apply issue_int_slot_timing. }
    exact Ht.
  - apply dispatch_To_issue_frame in H as (E&_&_&_&Hm); [|apply Hs].
    intros x. rewrite E. destruct (Hm x) as [_ ->]. apply Ht.
  - apply fetch_To_dispatch_frame in H as (E&_&_&_&_&Hm);
      [|apply Hs|rewrite (safe_tail _ _ _ Hs); apply queue_mod_lt].
    intros x. rewrite E. destruct (Hm x) as (_ & _ & ->). apply Ht.
Qed.

Lemma store_timing_first_stages N table c k st st' :
  wf_trace N table → c ≠ 0 → safe N table st → store_timing table c 0 st →
  (k <= 5)%nat → first_stages N c k st = Ok st' → store_timing table c k st'.
Proof.
  intros Hwf Hc Hs Ht. revert st'. induction k as [|k IH]; intros st' Hk H; simpl in H.
  - by injection H as <-.
  - apply bind_Ok in H as (s & H1 & H2).
    apply (store_timing_stage N table c k s st'); [|apply IH; [lia|done]|lia|done].
    by apply (safe_first_stages N table c k st s).
Qed.

Lemma store_timing_passes N table n st :
  wf_trace N table → passes n N table = Ok st →
  store_timing table (cycle_after n) 0 st.
Proof.
  intros Hwf. revert st. induction n as [|n IH]; intros st H; simpl in H.
  - injection H as <-. intros x Hx. by apply holds_replicate_None in Hx.
  - apply bind_Ok in H as (s & H1 & H2). rewrite stages_first_stages in H2.
    pose proof (store_timing_first_stages N table (cycle_after n) 5 s st Hwf) as Ht.
    intros x Hx Hst. rewrite cycle_after_S.
    specialize (Ht ltac:(unfold cycle_after; lia) (safe_passes _ _ _ _ Hwf H1)
                   (IH s H1) ltac:(lia) H2 x Hx Hst).
    simpl in *. lia.
Qed.

Lemma store_timing_at_point N table n k st :
  wf_trace N table → at_point N table n k st →
  store_timing table (cycle_after n) k st.
Proof.
  intros Hwf (Hk & _ & s & Hp & H).
  apply (store_timing_first_stages N table (cycle_after n) k s st Hwf); try done.
  - unfold cycle_after. lia.
  - by apply (safe_passes N table n).
  - by apply (store_timing_passes N).
Qed.

Lemma finished_stores_pos st c k i :
  (i < k)%nat → finished_store st c i = true → (1 <= finished_stores st c k)%nat.
Proof.
  intros Hi Hf. unfold finished_stores.
  assert (Hin : In i (List.filter (finished_store st c) (seq 0 k))).
  { apply filter_In. split; [|done]. apply in_seq. lia. }
  destruct (List.filter _ _); [done|]. simpl. lia.
Qed.

(** C6: in a run over a well-formed trace a store is still in its integer
    unit when [execute_To_CDB] begins only in the first cycle in which it
    has had its latency, [cycle = tom_execute_cycle + 4].  That call takes
    it out of its functional unit and its reservation station and counts
    it in [doneCount], and does not put it on the bus; and at no point of
    the run is a store on the bus. *)
Theorem store_retires_at_execute N table n st st' i x :
  wf_trace N table →
  at_point N table n 1 st →
  execute_To_CDB (cycle_after n) st = Ok st' →
  finished_int st (cycle_after n) i x →
  IS_STORE (op (mem st x)) = true →
  cycle_after n = tom_execute_cycle (mem st x) + FU_INT_LATENCY ∧
  ¬ in_FU st' x ∧ ¬ in_RS st' x ∧ ¬ on_bus st' x ∧
  doneCount st' = doneCount st + Z.of_nat (finished_stores st (cycle_after n) FU_INT_SIZE) ∧
  (1 <= finished_stores st (cycle_after n) FU_INT_SIZE)%nat ∧
  ∀ m k s, at_point N table m k s → ¬ on_bus s x.
Proof.
  intros Hwf Hp H Hfin Hst.
  pose proof (safe_at_point _ _ _ _ _ Hwf Hp) as Hs.
  assert (Hs' : safe N table st') by (by eapply safe_execute_To_CDB).
  assert (Hst' : IS_STORE (op (table x)) = true).
  { by destruct (safe_code _ _ _ Hs x) as (<- & _). }
  assert (Hbus : ∀ m k s, at_point N table m k s → ¬ on_bus s x).
  { intros m k s Hps%(safe_at_point N table); [|done]. intros Hb.
    apply (safe_bus_class _ _ _ Hps) in Hb. congruence. }
  assert (Hi : USES_INT_FU (op (table x)) = true) by (by apply IS_STORE_USES_INT_FU).
  destruct (execute_To_CDB_store_gone _ _ _ _ _ (safe_fu_int_inj _ _ _ Hs)
              (safe_rs_int_inj _ _ _ Hs) H Hfin Hst) as [G1 G2].
  assert (Hnfp : ¬ holds (reservFP st') x).
  { intros [E _]%(safe_rs_fp_class _ _ _ Hs'). congruence. }
  split_and!.
  - pose proof (store_timing_at_point _ _ _ _ _ Hwf Hp x) as Ht. simpl in Ht.
    destruct Hfin as (Hlt & Hx & Hc). specialize (Ht ltac:(by exists i) Hst'). lia.
  - intros [Hf|Hf]; [done|]. by apply Hnfp, Hs'.
  - by intros [Hf|Hf].
  - intros Hb. apply (safe_bus_class _ _ _ Hs') in Hb. congruence.
  - by apply execute_To_CDB_doneCount.
  - destruct Hfin as (Hlt & Hx & Hc). apply (finished_stores_pos _ _ _ i); [done|].
    unfold finished_store. rewrite Hx, Hst, andb_true_r. by apply Z.leb_le.
  - exact Hbus.
Qed.

(** ** Every fetched instruction is retired or in flight *)

Lemma occupancy_insert_None (a : list (option ptr)) i x :
  slot a i = Some x → occupancy (<[i := None]> a) = (occupancy a - 1)%nat ∧
                      (1 <= occupancy a)%nat.
Proof.
  revert i. induction a as [|s a IH]; intros i Hi.
  - unfold slot in Hi. by rewrite lookup_nil in Hi.
  - destruct i as [|i]; simpl.
    + unfold slot in Hi. simpl in Hi. subst s. simpl. lia.
    + rewrite slot_cons_S in Hi. destruct (IH i Hi) as [-> ?].
      destruct s; simpl; lia.
Qed.

Lemma occupancy_insert_Some (a : list (option ptr)) i x :
  slot a i = None → (i < length a)%nat →
  occupancy (<[i := Some x]> a) = S (occupancy a).
Proof.
  revert i. induction a as [|s a IH]; intros i Hi Hl; simpl in Hl; [lia|].
  destruct i as [|i]; simpl.
  - unfold slot in Hi. simpl in Hi. by subst s.
  - rewrite slot_cons_S in Hi. rewrite (IH i Hi) by lia. by destruct s.
Qed.

Lemma occupancy_free_slot a x :
  holds a x → occupancy (free_slot x a) = (occupancy a - 1)%nat ∧ (1 <= occupancy a)%nat.
Proof.
  intros [j Hj]. destruct (free_slot_spec x a) as [[Hn _]|(i & Hi & _ & ->)].
  - by destruct (Hn j).
  - by apply (occupancy_insert_None a i x).
Qed.

Lemma occupancy_replicate_None n : occupancy (replicate n None) = 0%nat.
Proof. induction n; simpl; done. Qed.

Lemma occupancy_zero a x : occupancy a = 0%nat → ¬ holds a x.
Proof.
  intros H [i Hi]. revert i Hi. induction a as [|s a IH]; intros i Hi.
  - unfold slot in Hi. by rewrite lookup_nil in Hi.
  - destruct s; simpl in H; [lia|]. destruct i as [|i]; [done|].
    rewrite slot_cons_S in Hi. by apply (IH H i).
Qed.

(** Freeing an occupant of a functional unit takes one instruction out of
    flight. *)
Lemma in_flight_free_stations N table x st st' :
  safe N table st → in_FU st x → free_stations x st = Ok st' →
  in_flight st' = in_flight st - 1.
Proof.
  intros Hs Hx H.
  assert (Hcode : op (mem st x) = op (table x)) by apply Hs.
  assert (Hc : if USES_INT_FU (op (table x)) then holds (reservINT st) x
               else holds (reservFP st) x).
  { destruct Hx as [Hx|Hx].
    - apply Hs in Hx. by rewrite (safe_rs_int_class _ _ _ Hs x Hx).
    - apply Hs in Hx. by destruct (safe_rs_fp_class _ _ _ Hs x Hx) as [-> _]. }
  apply free_stations_Ok in H as [[Ei ->]|(Ei & _ & ->)];
    rewrite Hcode in Ei; rewrite Ei in Hc; unfold in_flight; simpl;
    destruct (occupancy_free_slot _ _ Hc) as [-> ?]; lia.
Qed.

Lemma in_flight_set_doneCount v st : in_flight (set_doneCount v st) = in_flight st.
Proof. done. Qed.

Lemma execute_int_slot_accounted N table c i a a' :
  cdb_loop_safe N table a → execute_int_slot c i a = Ok a' →
  doneCount (fst (fst a')) + in_flight (fst (fst a'))
  = doneCount (fst (fst a)) + in_flight (fst (fst a)) ∧
  doneCount (fst (fst a)) <= doneCount (fst (fst a')).
Proof.
  destruct a as [[st o] oi]. intros [Hs _] H.
  apply execute_int_slot_cases in H
    as [[-> _]|[(x & st1 & Ex & Hc & Es & F & _ & ->)|(x & Ex & Hc & Es & Ho & ->)]];
    simpl; [lia| |lia].
  assert (Hin : in_FU st x) by (left; by exists i).
  rewrite in_flight_set_doneCount, (in_flight_free_stations N table x st st1 Hs Hin F).
  apply free_stations_Ok in F as [[_ ->]|(_ & _ & ->)]; simpl; lia.
Qed.

Lemma execute_int_loop_accounted N table c l a a' :
  cdb_loop_safe N table a → execute_int_loop c l a = Ok a' →
  doneCount (fst (fst a')) + in_flight (fst (fst a'))
  = doneCount (fst (fst a)) + in_flight (fst (fst a)) ∧
  doneCount (fst (fst a)) <= doneCount (fst (fst a')).
Proof.
  revert a. induction l as [|i l IH]; intros a Hs H; simpl in H.
  - injection H as <-. lia.
  - apply bind_Ok in H as (a1 & H1 & H).
    destruct (execute_int_slot_accounted N table c i a a1 Hs H1) as [E1 L1].
    destruct (IH a1 (execute_int_slot_safe _ _ _ _ _ _ Hs H1) H) as [E2 L2]. lia.
Qed.

Lemma in_flight_bus st w :
  commonDataBus st = None →
  in_flight (set_commonDataBus (Some w) st) = in_flight st + 1.
Proof. unfold in_flight. simpl. intros ->. lia. Qed.

Lemma accounted_execute_To_CDB N table c st st' :
  safe N table st → commonDataBus st = None → accounted st →
  execute_To_CDB c st = Ok st' → accounted st'.
Proof.
  intros Hs Hb [Hd Ha] H.
  apply execute_To_CDB_Ok in H as (a & st1 & o & oi & Hloop & Hfp & H).
  assert (Hs0 : cdb_loop_safe N table (st, -1, None)) by (split; [done|intros w [=]]).
  destruct (execute_int_loop_accounted N table c _ _ a Hs0 Hloop) as [E L].
  pose proof (execute_int_loop_safe _ _ _ _ _ _ Hs0 Hloop) as Hsa.
  pose proof (execute_fp_slot_safe N table c a Hsa) as Hs1. rewrite Hfp in Hs1.
  pose proof (execute_fp_slot_state c a) as Est. rewrite Hfp in Est. simpl in Est, E, L.
  rewrite <- Est in E, L. destruct a as [[s0 o0] oi0]. simpl in Est. subst s0.
  pose proof (execute_int_loop_frame _ _ _ _ _ _ _ _ Hloop) as Hfr.
  assert (Hf1 : fetch_index st1 = fetch_index st) by apply Hfr.
  assert (Hb1 : commonDataBus st1 = None).
  { by rewrite (execute_int_loop_bus _ _ _ _ _ Hloop). }
  destruct Hs1 as [Hs1 Hw]. destruct oi as [w|]; [|subst; split; lia].
  destruct H as (st3 & F & ->).
  set (st2 := set_mem (<[w := set_tom_cdb_cycle c (mem st1 w)]> (mem st1)) st1) in *.
  assert (Hs2 : safe N table st2).
  { apply (safe_ext N table st1); try done; intros p; simpl;
      (destruct (decide (w = p)) as [->|Hne];
       [by rewrite fn_lookup_insert | by rewrite fn_lookup_insert_ne]). }
  assert (Hin : in_FU st2 w).
  { destruct (Hw w eq_refl) as [[Hh _]|Hh]; [by left|by right]. }
  pose proof (in_flight_free_stations N table w st2 st3 Hs2 Hin F) as E3.
  assert (Hb3 : commonDataBus st3 = None).
  { by rewrite (free_stations_bus _ _ _ F). }
  assert (Hd3 : doneCount st3 = doneCount st1 ∧ fetch_index st3 = fetch_index st1).
  { by apply free_stations_Ok in F as [[_ ->]|(_ & _ & ->)]. }
  destruct Hd3 as [Hd3 Hf3].
  split; simpl; [lia|]. rewrite (in_flight_bus _ _ Hb3), E3, Hd3, Hf3.
  change (in_flight st2) with (in_flight st1). lia.
Qed.

Lemma accounted_CDB_To_retire c st st' :
  accounted st → CDB_To_retire c st = Ok st' → accounted st'.
Proof.
  intros [Hd Ha] H.
  apply CDB_To_retire_Ok in H as [[_ ->]|(b & mt1 & mt2 & Eb & _ & _ & ->)]; [done|].
  unfold accounted, in_flight in *. rewrite Eb in Ha. simpl. lia.
Qed.

Lemma accounted_issue_To_execute c st :
  accounted st → accounted (issue_To_execute c st).
Proof.
  destruct (issue_To_execute_frame c st) as (_&_&E3&_&_&E6&E7&E8&E9&E10&_).
  unfold accounted, in_flight. by rewrite E3, E6, E7, E8, E9, E10.
Qed.

Lemma accounted_dispatch_To_issue N table c st st' :
  safe N table st → accounted st → dispatch_To_issue c st = Ok st' → accounted st'.
Proof.
  intros Hs [Hd Ha] H.
  apply dispatch_To_issue_Ok in H as [[_ ->]|(h & [Hsz _] & H)]; [done| |apply Hs].
  simpl in H.
  destruct H as [[_ ->]|[(_ & _ & _ & ->)|[(_ & _ & i & Ei & H)|[(_ & _ & _ & _ & ->)|(_ & _ & _ & i & Ei & H)]]]];
    try done.
  - unfold accounted, in_flight in *. simpl. lia.
  - apply issue_head_Ok in H as (m & mt & -> & _).
    pose proof (first_free_firstn _ _ _ Ei) as Hi.
    apply first_free_spec in Ei as [_ Hl]. rewrite length_take in Hl.
    unfold accounted, in_flight in *. simpl.
    rewrite occupancy_insert_Some by (done || lia). lia.
  - apply issue_head_Ok in H as (m & mt & -> & _).
    pose proof (first_free_firstn _ _ _ Ei) as Hi.
    apply first_free_spec in Ei as [_ Hl]. rewrite length_take in Hl.
    unfold accounted, in_flight in *. simpl.
    rewrite occupancy_insert_Some by (done || lia). lia.
Qed.

Lemma accounted_fetch_To_dispatch N table c st st' :
  safe N table st → accounted st → fetch_To_dispatch N c st = Ok st' → accounted st'.
Proof.
  intros Hs [Hd Ha] H.
  apply fetch_To_dispatch_Ok in H as [[_ ->]|(new & d & Hsz & Hlt & Hr & _ & -> & _ & ->)];
    [done| |apply Hs|rewrite (safe_tail _ _ _ Hs); apply queue_mod_lt].
  unfold accounted, in_flight in *. simpl. lia.
Qed.

Lemma accounted_init table : accounted (init_state table).
Proof.
  unfold accounted, in_flight. simpl. lia.
Qed.

(** At every point of a run over a well-formed trace the fetched
    instructions are retired or in flight, and after [CDB_To_retire] the
    bus is empty. *)
Lemma accounted_first_stages N table c k st st' :
  wf_trace N table → c ≠ 0 → safe N table st → accounted st →
  first_stages N c k st = Ok st' → accounted st'.
Proof.
  intros Hwf Hc Hs Ha. revert st'. induction k as [|k IH]; intros st' H; simpl in H.
  - by injection H as <-.
  - apply bind_Ok in H as (s & H1 & H2). specialize (IH s H1).
    pose proof (safe_first_stages N table c k st s Hwf Hc Hs H1) as Hss.
    destruct k as [|[|[|[|k]]]]; simpl in H2.
    + by eapply accounted_CDB_To_retire.
    + apply (accounted_execute_To_CDB N table c s st'); try done.
      simpl in H1. by apply CDB_To_retire_frame in H1 as (? & _).
    + injection H2 as <-. by apply accounted_issue_To_execute.
    + by eapply accounted_dispatch_To_issue.
    + by eapply accounted_fetch_To_dispatch.
Qed.

Lemma accounted_passes N table n st :
  wf_trace N table → passes n N table = Ok st → accounted st.
Proof.
  intros Hwf. revert st. induction n as [|n IH]; intros st H; simpl in H.
  - injection H as <-. apply accounted_init.
  - apply bind_Ok in H as (s & H1 & H2). rewrite stages_first_stages in H2.
    apply (accounted_first_stages N table (cycle_after n) 5 s st); try done.
    + apply cycle_after_pos.
    + by eapply safe_passes.
    + by apply IH.
Qed.

Lemma fetch_index_stage N table c k st st' :
  safe N table st → 0 <= N → fetch_index st <= N →
  stage N c k st = Ok st' → fetch_index st' <= N.
Proof.
  intros Hs HN Hf H. destruct k as [|[|[|[|k]]]]; simpl in H.
  - apply CDB_To_retire_frame in H as (_&_&_&_&_&->&_). done.
  - apply execute_To_CDB_frame in H as (_&_&_&_&_&->&_). done.
  - injection H as <-. destruct (issue_To_execute_frame c st) as (_&_&_&_&_&->&_). done.
  - apply dispatch_To_issue_frame in H as (_&_&_&->&_); [done|apply Hs].
  - apply fetch_To_dispatch_Ok in H as [[_ ->]|(new & d & _ & _ & Hr & _ & _ & _ & ->)];
      [done| |apply Hs|rewrite (safe_tail _ _ _ Hs); apply queue_mod_lt].
    simpl. lia.
Qed.

Lemma fetch_index_first_stages N table c k st st' :
  wf_trace N table → c ≠ 0 → safe N table st → 0 <= N → fetch_index st <= N →
  first_stages N c k st = Ok st' → fetch_index st' <= N.
Proof.
  intros Hwf Hc Hs HN Hf. revert st'. induction k as [|k IH]; intros st' H; simpl in H.
  - by injection H as <-.
  - apply bind_Ok in H as (s & H1 & H2).
    apply (fetch_index_stage N table c k s st'); try done; [|by apply IH].
    by apply (safe_first_stages N table c k st s).
Qed.

Lemma fetch_index_passes N table n st :
  wf_trace N table → 0 <= N → passes n N table = Ok st → fetch_index st <= N.
Proof.
  intros Hwf HN. revert st. induction n as [|n IH]; intros st H; simpl in H.
  - by injection H as <-.
  - apply bind_Ok in H as (s & H1 & H2). rewrite stages_first_stages in H2.
    apply (fetch_index_first_stages N table (cycle_after n) 5 s st); try done.
    + apply cycle_after_pos.
    + by eapply safe_passes.
    + by apply IH.
Qed.

(** ** The claims about runs *)

Lemma at_point_cycle_stage N table n k st :
  at_point N table n (S k) st →
  ∃ s, at_point N table n k s ∧ stage N (cycle_after n) k s = Ok st.
Proof.
  intros (Hk & Hrun & s0 & Hp & H). simpl in H. apply bind_Ok in H as (s & H1 & H2).
  exists s. split; [|done]. split; [lia|]. split; [done|]. by exists s0.
Qed.

(** After [CDB_To_retire] the bus is empty. *)
Lemma at_point_1_bus N table n st :
  at_point N table n 1 st → commonDataBus st = None.
Proof.
  intros (s & _ & H)%at_point_cycle_stage. simpl in H.
  by apply CDB_To_retire_frame in H as (? & _).
Qed.

Lemma safe_wf_in_RS N table st x :
  wf_trace N table → safe N table st → in_RS st x →
  wf_instr (table x) ∧ same_code (mem st x) (table x).
Proof.
  intros [_ Hwf] Hs Hx. split; [|apply Hs]. apply Hwf.
  pose proof (safe_flight_range _ _ _ Hs x (or_introl Hx)). lia.
Qed.

Lemma safe_in_FU_in_RS N table st x : safe N table st → in_FU st x → in_RS st x.
Proof. intros Hs [Hx|Hx]; [left|right]; by apply Hs. Qed.

(** C1: in every cycle of a run over a well-formed trace the bus, which
    [CDB_To_retire] has emptied, receives at most one instruction from
    [execute_To_CDB]: none when no occupant of a functional unit contends,
    and otherwise a contender of lowest program index, the contenders
    being the occupants of the integer and floating-point units that have
    had their latency ([cycle >= tom_execute_cycle + latency]) and are not
    stores.  An occupant of a functional unit has not been on the bus:
    the winner leaves its unit as it takes the bus. *)
Theorem bus_goes_to_oldest_finished N table n st st' :
  wf_trace N table →
  at_point N table n 1 st →
  execute_To_CDB (cycle_after n) st = Ok st' →
  commonDataBus st = None ∧
  (((∀ x, ¬ cdb_candidate st (cycle_after n) x) ∧ commonDataBus st' = None) ∨
   (∃ w, commonDataBus st' = Some w ∧
         cdb_candidate st (cycle_after n) w ∧ ¬ in_FU st' w ∧
         ∀ y, cdb_candidate st (cycle_after n) y →
              index (mem st w) <= index (mem st y))).
Proof.
  intros Hwf Hp H. pose proof (safe_at_point _ _ _ _ _ Hwf Hp) as Hs.
  pose proof (at_point_1_bus _ _ _ _ Hp) as Hb. split; [done|].
  assert (Hs' : safe N table st') by (by eapply safe_execute_To_CDB).
  destruct (execute_To_CDB_winner (cycle_after n) st st') as [[Hn E]|(w & Ew & Cw & Hmin)];
    [| |done| |].
  - intros x [[[i (_ & Hx & _)]|[Hx _]] _].
    + destruct (safe_wf_in_RS N table st x Hwf Hs) as [[] (_ & Ei & _)].
      { eapply safe_in_FU_in_RS; [done|]. left. by exists i. }
      lia.
    + destruct (safe_wf_in_RS N table st x Hwf Hs) as [[] (_ & Ei & _)].
      { eapply safe_in_FU_in_RS; [done|]. right. by exists 0%nat. }
      lia.
  - intros x Hx. assert (Hh : holds (reservFP st) x).
    { apply Hs. by exists 0%nat. }
    apply (safe_rs_fp_class _ _ _ Hs) in Hh as [Hi _].
    destruct (safe_code _ _ _ Hs x) as (-> & _).
    by apply USES_INT_FU_false_not_store.
  - left. split; [done|]. congruence.
  - right. exists w. split; [done|]. split; [done|]. split; [|done].
    intros Hin%(safe_in_FU_in_RS N table); [|done].
    by apply (safe_bus_free _ _ _ Hs' w).
Qed.

(** C3, as the code has it: at every point of a run over a well-formed
    trace an instruction sits in at most one of the queue, the reservation
    stations and the bus; an instruction in a functional unit still holds
    its reservation station, of the same bank, and is neither queued nor
    on the bus; and no instruction holds two slots of a pool. *)
Theorem structures_of_an_instruction N table n k st x :
  wf_trace N table →
  at_point N table n k st →
  ¬ (in_queue st x ∧ in_RS st x) ∧
  ¬ (in_queue st x ∧ on_bus st x) ∧
  ¬ (in_RS st x ∧ on_bus st x) ∧
  (holds (fuINT st) x → holds (reservINT st) x) ∧
  (holds (fuFP st) x → holds (reservFP st) x) ∧
  ¬ (holds (reservINT st) x ∧ holds (reservFP st) x) ∧
  (in_FU st x → ¬ in_queue st x ∧ ¬ on_bus st x) ∧
  inj_pool (reservINT st) ∧ inj_pool (reservFP st) ∧
  inj_pool (fuINT st) ∧ inj_pool (fuFP st) ∧
  (∀ k1 k2, queued st k1 x → queued st k2 x → k1 = k2).
Proof.
  intros Hwf Hp. pose proof (safe_at_point _ _ _ _ _ Hwf Hp) as Hs.
  assert (H1 : ¬ (in_queue st x ∧ in_RS st x)).
  { intros [[k0 Hq] Hr]. pose proof (safe_queue_young _ _ _ Hs k0 x x Hq (or_introl Hr)). lia. }
  assert (H2 : ¬ (in_queue st x ∧ on_bus st x)).
  { intros [[k0 Hq] Hr]. pose proof (safe_queue_young _ _ _ Hs k0 x x Hq (or_intror Hr)). lia. }
  assert (H3 : ¬ (in_RS st x ∧ on_bus st x)).
  { intros [Hr Hb]. by apply (safe_bus_free _ _ _ Hs x). }
  split_and!; try done; try apply Hs.
  - intros [Hi Hf]. apply (safe_rs_int_class _ _ _ Hs) in Hi.
    apply (safe_rs_fp_class _ _ _ Hs) in Hf as [Hf _]. congruence.
  - intros Hf%(safe_in_FU_in_RS N table); [|done]. split; intros ?; [apply H1|apply H3]; done.
  - intros k1 k2 Hq1 Hq2.
    destruct (Nat.lt_trichotomy k1 k2) as [Hlt|[->|Hlt]]; [|done|].
    + pose proof (safe_queue_order _ _ _ Hs k1 k2 x x Hq1 Hq2 Hlt). lia.
    + pose proof (safe_queue_order _ _ _ Hs k2 k1 x x Hq2 Hq1 Hlt). lia.
Qed.

(** ** Points of concrete runs *)

Lemma still_running_spec N table n :
  still_running N table n = true →
  ∀ m s, (1 <= m <= n)%nat → passes m N table = Ok s → is_simulation_done N s = false.
Proof.
  unfold still_running. rewrite forallb_forall. intros H m s Hm Hp.
  specialize (H m). rewrite Hp in H. apply negb_true_iff, H, in_seq. lia.
Qed.

Lemma at_point_intro N table n k st :
  (k <= 5)%nat → still_running N table n = true →
  (do s <- passes n N table; first_stages N (cycle_after n) k s) = Ok st →
  at_point N table n k st.
Proof.
  intros Hk Hr H. apply bind_Ok in H as (s & Hp & Hs).
  split; [done|]. split; [by apply still_running_spec|]. by exists s.
Qed.

Lemma wf_table_of (N : Z) (l : list instruction_t) :
  valid_reg DNA → Forall wf_instr l → N <= Z.of_nat (length l) →
  wf_trace N (table_of l).
Proof.
  intros Hd Hl HN. split; [done|]. intros p Hp. unfold table_of.
  rewrite Forall_forall in Hl. apply Hl, nth_In. lia.
Qed.

(** ** The loop of runTomasulo *)

Lemma passes_S n N table :
  passes (S n) N table = (do s <- passes n N table; stages N (cycle_after n) s).
Proof. done. Qed.

Lemma passes_Ok_le n m N table st :
  passes m N table = Ok st → (n <= m)%nat → ∃ s, passes n N table = Ok s.
Proof.
  revert st. induction m as [|m IH]; intros st H Hn.
  - assert (n = 0%nat) as -> by lia. eauto.
  - destruct (decide (n = S m)) as [->|Hne]; [eauto|].
    simpl in H. apply bind_Ok in H as (s & Hs & _). apply (IH s Hs). lia.
Qed.

(** A loop that returns has made some number [m] of passes, the first
    after which [doneCount] is the instruction count, and returns the
    value of [cycle] after them. *)
Lemma run_loop_sound fuel N table n s r st' :
  passes n N table = Ok s →
  run_loop fuel N (cycle_after n) s = Some (Ok (r, st')) →
  ∃ m, (n < m <= n + fuel)%nat ∧ passes m N table = Ok st' ∧
       r = cycle_after m ∧ doneCount st' = N ∧
       ∀ j s', (n < j < m)%nat → passes j N table = Ok s' → doneCount s' ≠ N.
Proof.
  revert n s. induction fuel as [|fuel IH]; intros n s Hp H; simpl in H; [done|].
  destruct (stages N (cycle_after n) s) as [s1| | | |] eqn:Es; try done.
  assert (Hp1 : passes (S n) N table = Ok s1) by (by rewrite passes_S, Hp).
  unfold is_simulation_done in H. destruct (Z.eqb_spec (doneCount s1) N) as [Hd|Hd].
  - injection H as <- <-. exists (S n).
    split_and!; first [done | lia | by rewrite cycle_after_S | intros; lia].
  - rewrite <- cycle_after_S in H. apply (IH (S n) s1 Hp1) in H
      as (m & Hm & Hpm & -> & Hdm & Hbefore).
    exists m. split_and!; try done; try lia.
    intros j s' Hj Hpj. destruct (decide (j = S n)) as [->|Hne]; [congruence|].
    apply (Hbefore j s'); [lia|done].
Qed.

Lemma run_loop_complete fuel N table n m s st' :
  passes n N table = Ok s → passes m N table = Ok st' →
  (n < m <= n + fuel)%nat → doneCount st' = N →
  (∀ j s', (n < j < m)%nat → passes j N table = Ok s' → doneCount s' ≠ N) →
  run_loop fuel N (cycle_after n) s = Some (Ok (cycle_after m, st')).
Proof.
  revert n s. induction fuel as [|fuel IH]; intros n s Hp Hpm Hm Hd Hbefore; [lia|].
  simpl. destruct (passes_Ok_le (S n) m N table st' Hpm ltac:(lia)) as [s1 Hp1].
  pose proof Hp1 as Hp1'. rewrite passes_S, Hp in Hp1'. simpl in Hp1'. rewrite Hp1'.
  unfold is_simulation_done. destruct (decide (m = S n)) as [->|Hne].
  - assert (s1 = st') as -> by congruence. rewrite Hd, Z.eqb_refl.
    by rewrite cycle_after_S.
  - destruct (Z.eqb_spec (doneCount s1) N) as [E|E].
    + exfalso. apply (Hbefore (S n) s1); [lia|done..].
    + rewrite <- cycle_after_S. apply IH; try done; [lia|].
      intros j s' Hj. apply Hbefore. lia.
Qed.

Lemma runTomasulo_Ok fuel N table r :
  runTomasulo fuel N table = Some (Ok r) ↔
  ∃ st, run_loop fuel N (cycle_after 0) (init_state table) = Some (Ok (r, st)).
Proof.
  unfold runTomasulo. change (cycle_after 0) with 1.
  destruct (run_loop fuel N 1 (init_state table)) as [[[r' st]| | | |]|]; simpl; split;
    try done; try (by intros [? ?]).
  - intros [= <-]. by exists st.
  - intros [st0 [= <- <-]]. done.
Qed.

Lemma counted_at_stage N table c k st st' :
  safe N table st → (k < 5)%nat → stage N c k st = Ok st' →
  doneCount st' = doneCount st + counted_by_stage c k st st' ∧
  (k = 4%nat → ∀ p, fetch_index st < p < fetch_index st' →
               IS_TRAP (op (mem st p)) = true).
Proof.
  intros Hs Hk H. destruct k as [|[|[|[|[|k]]]]]; simpl in H; [| | | | |lia].
  - split; [|done]. by apply (CDB_To_retire_doneCount c).
  - split; [|done]. by apply execute_To_CDB_doneCount.
  - split; [|done]. injection H as <-. simpl.
    destruct (issue_To_execute_frame c st) as (_&_&_&_&_&_&_&_&_&E&_). lia.
  - split; [|done]. simpl.
    apply dispatch_To_issue_doneCount in H as [[E ->]|(h & [Hsz Hh] & ->)]; [| |apply Hs].
    + rewrite E. destruct (slot _ _); simpl; lia.
    + rewrite Nat.add_0_r, Nat.mod_small in Hh by apply Hs. rewrite Hh.
      destruct (Nat.ltb_spec 0 (instr_queue_size st)); [done|lia].
  - apply fetch_To_dispatch_doneCount in H as (-> & Hle & Htr & _);
      [|apply Hs|rewrite (safe_tail _ _ _ Hs); apply queue_mod_lt].
    split; [|done]. simpl. case_decide; lia.
Qed.

Lemma counted_by_stage_nonneg c k st st' : 0 <= counted_by_stage c k st st'.
Proof.
  destruct k as [|[|[|[|k]]]]; simpl; try lia.
  - destruct (commonDataBus st); lia.
  - destruct (slot _ _); [|lia]. destruct (_ && _); lia.
Qed.

(** [doneCount] never goes down in a pass. *)
Lemma first_stages_doneCount_mono N table c j k s sj sk :
  wf_trace N table → c ≠ 0 → safe N table s →
  (j <= k <= 5)%nat →
  first_stages N c j s = Ok sj → first_stages N c k s = Ok sk →
  doneCount sj <= doneCount sk.
Proof.
  intros Hwf Hc Hs Hjk Hj. revert sk. induction k as [|k IH]; intros sk Hk.
  - assert (j = 0%nat) as -> by lia. simpl in Hj, Hk. injection Hj as <-.
    injection Hk as <-. lia.
  - destruct (decide (j = S k)) as [->|Hne]; [rewrite Hj in Hk; injection Hk as <-; lia|].
    simpl in Hk. apply bind_Ok in Hk as (s1 & H1 & H2).
    specialize (IH ltac:(lia) s1 H1).
    pose proof (safe_first_stages N table c k s s1 Hwf Hc Hs H1) as Hs1.
    destruct (counted_at_stage N table c k s1 sk Hs1 ltac:(lia) H2) as [E _].
    pose proof (counted_by_stage_nonneg c k s1 sk). lia.
Qed.

Lemma in_flight_nonneg st : 0 <= in_flight st.
Proof. unfold in_flight. destruct (commonDataBus st); lia. Qed.

(** The loop is left only when the whole trace has been fetched and
    nothing is in flight, after the first pass that ends with [doneCount]
    at the instruction count: a run over a well-formed trace that returns
    has not left an instruction behind. *)
Lemma exit_only_when_drained N table fuel r :
  wf_trace N table → 0 <= N →
  runTomasulo fuel N table = Some (Ok r) →
  ∃ m st, passes m N table = Ok st ∧ r = cycle_after m ∧
          doneCount st = N ∧
          (∀ j s, (1 <= j < m)%nat → passes j N table = Ok s → doneCount s ≠ N) ∧
          fetch_index st = N ∧ instr_queue_size st = 0%nat ∧
          ∀ x, ¬ in_queue st x ∧ ¬ in_RS st x ∧ ¬ in_FU st x ∧ ¬ on_bus st x.
Proof.
  intros Hwf HN H. apply runTomasulo_Ok in H as [st H].
  apply (run_loop_sound fuel N table 0) in H as (m & _ & Hp & -> & Hd & Hbefore); [|done].
  pose proof (accounted_passes _ _ _ _ Hwf Hp) as [_ Ha].
  pose proof (fetch_index_passes _ _ _ _ Hwf HN Hp) as Hf.
  pose proof (safe_passes _ _ _ _ Hwf Hp) as Hs.
  unfold in_flight in Ha.
  assert (Hz : instr_queue_size st = 0%nat ∧ occupancy (reservINT st) = 0%nat ∧
               occupancy (reservFP st) = 0%nat ∧ commonDataBus st = None).
  { destruct (commonDataBus st) as [b|]; [exfalso; lia|]. split_and!; try done; lia. }
  destruct Hz as (Hq & Hi & Hfp & Hb). rewrite Hq, Hi, Hfp, Hb in Ha.
  exists m, st. split_and!; try done; try lia. intros x.
  assert (Hrs : ¬ in_RS st x).
  { intros [Hx|Hx]; [exact (occupancy_zero _ x Hi Hx)|exact (occupancy_zero _ x Hfp Hx)]. }
  split_and!; try done.
  - intros [k [Hk _]]. lia.
  - intros Hx. by apply Hrs, (safe_in_FU_in_RS N table).
  - unfold on_bus. by rewrite Hb.
Qed.

(** ** Traces that end in traps *)

(** When every instruction left in the trace is a trap, the
    [do ... while] loop of [fetch] runs past the last of them and asks
    [get_instr] for the index after the trace. *)
Lemma fetch_loop_past_traps rounds N st :
  0 <= fetch_index st → fetch_index st <= N →
  Z.of_nat rounds = N - fetch_index st →
  (∀ p, fetch_index st < p <= N → IS_TRAP (op (mem st p)) = true) →
  fetch_loop rounds N st = OutOfTrace (N + 1).
Proof.
  revert st. induction rounds as [|rounds IH]; intros st H0 HN Hr Htr; simpl;
    unfold get_instr.
  - assert (fetch_index st = N) as -> by lia.
    destruct (Z.leb_spec 1 (N + 1)); [|lia].
    destruct (Z.leb_spec (N + 1) N); [lia|done].
  - destruct (Z.leb_spec 1 (fetch_index st + 1)); [|lia].
    destruct (Z.leb_spec (fetch_index st + 1) N); [|lia]. simpl.
    rewrite Htr by lia. apply IH; simpl; try lia.
    intros p Hp. apply Htr. lia.
Qed.

Lemma fetch_To_dispatch_past_traps N c st :
  (instr_queue_size st < INSTR_QUEUE_SIZE)%nat →
  0 <= fetch_index st < N →
  (∀ p, fetch_index st < p <= N → IS_TRAP (op (mem st p)) = true) →
  fetch_To_dispatch N c st = OutOfTrace (N + 1).
Proof.
  intros Hsz Hfi Htr. unfold fetch_To_dispatch.
  destruct (Nat.ltb_spec (instr_queue_size st) INSTR_QUEUE_SIZE); [|lia].
  destruct (Z.ltb_spec (fetch_index st) N); [|lia]. simpl.
  unfold fetch. rewrite fetch_loop_past_traps; try done; lia.
Qed.

(** ** The weights of the measure *)

Lemma weight_pos lat t i : 2 <= weight lat t i.
Proof. unfold weight. destruct (_ =? 0); lia. Qed.

Lemma weight_tick lat t i : weight lat (t + 1) i <= weight lat t i.
Proof. unfold weight. destruct (_ =? 0); lia. Qed.

Lemma weight_tick_busy lat t i :
  tom_execute_cycle i ≠ 0 → t < tom_execute_cycle i + lat →
  weight lat (t + 1) i <= weight lat t i - 1.
Proof. unfold weight. destruct (Z.eqb_spec (tom_execute_cycle i) 0); lia. Qed.

Lemma weight_same lat t i j :
  tom_execute_cycle j = tom_execute_cycle i → weight lat t j = weight lat t i.
Proof. unfold weight. by intros ->. Qed.

Lemma weight_start lat c t i :
  c ≠ 0 → tom_execute_cycle i = 0 → c <= t → 0 <= lat <= 9 →
  weight lat t (set_tom_execute_cycle c i) <= weight lat t i - 1.
Proof.
  intros Hc E Ht Hl. unfold weight. rewrite E. destruct i; simpl.
  destruct (Z.eqb_spec c 0); simpl; lia.
Qed.

Lemma holds_cons_here (s : option ptr) a x : s = Some x → holds (s :: a) x.
Proof. intros ->. by exists 0%nat. Qed.

Lemma holds_cons_later (s : option ptr) a x : holds a x → holds (s :: a) x.
Proof. intros [i Hi]. exists (S i). by rewrite slot_cons_S. Qed.

Lemma holds_nil x : ¬ holds [] x.
Proof. intros [i Hi]. unfold slot in Hi. by rewrite lookup_nil in Hi. Qed.

Lemma holds_cons_inv (s : option ptr) a x : holds (s :: a) x → s = Some x ∨ holds a x.
Proof.
  intros [[|i] Hi]; [by left|]. right. exists i. by rewrite slot_cons_S in Hi.
Qed.

Lemma pool_weight_nonneg lat t m a : 0 <= pool_weight lat t m a.
Proof.
  induction a as [|[x|] a IH]; simpl; [lia| |done].
  pose proof (weight_pos lat t (m x)). lia.
Qed.

(** Comparing a pool under two memories and two times, occupant by
    occupant. *)
Lemma pool_weight_le lat t t' m m' a :
  (∀ x, holds a x → weight lat t' (m' x) <= weight lat t (m x)) →
  pool_weight lat t' m' a <= pool_weight lat t m a.
Proof.
  induction a as [|[x|] a IH]; intros H; simpl; [lia| |].
  - pose proof (H x (holds_cons_here _ a x eq_refl)).
    assert (pool_weight lat t' m' a <= pool_weight lat t m a); [|lia].
    apply IH. intros y Hy. apply H. by apply holds_cons_later.
  - apply IH. intros y Hy. apply H. by apply holds_cons_later.
Qed.

Lemma pool_weight_lt lat t t' m m' a x :
  (∀ y, holds a y → weight lat t' (m' y) <= weight lat t (m y)) →
  holds a x → weight lat t' (m' x) <= weight lat t (m x) - 1 →
  pool_weight lat t' m' a <= pool_weight lat t m a - 1.
Proof.
  induction a as [|[y|] a IH]; intros H Hx Hw; simpl.
  - by destruct (holds_nil x).
  - apply holds_cons_inv in Hx as [[= ->]|Hx].
    + assert (pool_weight lat t' m' a <= pool_weight lat t m a); [|lia].
      apply pool_weight_le. intros z Hz. apply H. by apply holds_cons_later.
    + pose proof (H y (holds_cons_here _ a y eq_refl)).
      assert (pool_weight lat t' m' a <= pool_weight lat t m a - 1); [|lia].
      apply IH; [|done..]. intros z Hz. apply H. by apply holds_cons_later.
  - apply holds_cons_inv in Hx as [[=]|Hx].
    apply IH; [|done..]. intros z Hz. apply H. by apply holds_cons_later.
Qed.

Lemma pool_weight_ext lat t m m' a :
  (∀ x, holds a x → tom_execute_cycle (m' x) = tom_execute_cycle (m x)) →
  pool_weight lat t m' a = pool_weight lat t m a.
Proof.
  intros H. apply Z.le_antisymm; apply pool_weight_le; intros x Hx.
  - rewrite (weight_same lat t (m x) (m' x)); [lia|by apply H].
  - rewrite (weight_same lat t (m x) (m' x)); [lia|by apply H].
Qed.

Lemma pool_weight_insert_None lat t m (a : list (option ptr)) i x :
  slot a i = Some x →
  pool_weight lat t m (<[i := None]> a) = pool_weight lat t m a - weight lat t (m x).
Proof.
  revert i. induction a as [|s a IH]; intros i Hi.
  - unfold slot in Hi. by rewrite lookup_nil in Hi.
  - destruct i as [|i]; simpl.
    + unfold slot in Hi. simpl in Hi. subst s. lia.
    + rewrite slot_cons_S in Hi. rewrite (IH i Hi). destruct s; lia.
Qed.

Lemma pool_weight_insert_Some lat t m (a : list (option ptr)) i x :
  slot a i = None → (i < length a)%nat →
  pool_weight lat t m (<[i := Some x]> a) = pool_weight lat t m a + weight lat t (m x).
Proof.
  revert i. induction a as [|s a IH]; intros i Hi Hl; simpl in Hl; [lia|].
  destruct i as [|i]; simpl.
  - unfold slot in Hi. simpl in Hi. subst s. lia.
  - rewrite slot_cons_S in Hi. rewrite (IH i Hi) by lia. destruct s; lia.
Qed.

Lemma pool_weight_free_slot lat t m a x :
  holds a x →
  pool_weight lat t m (free_slot x a) = pool_weight lat t m a - weight lat t (m x).
Proof.
  intros [j Hj]. destruct (free_slot_spec x a) as [[Hn _]|(i & Hi & _ & ->)].
  - by destruct (Hn j).
  - by apply pool_weight_insert_None.
Qed.

Lemma pool_weight_replicate_None lat t m n : pool_weight lat t m (replicate n None) = 0.
Proof. induction n; simpl; done. Qed.

Lemma pool_weight_empty lat t m a :
  (∀ x, ¬ holds a x) → pool_weight lat t m a = 0.
Proof.
  induction a as [|[x|] a IH]; intros H; simpl; [done| |].
  - by destruct (H x (holds_cons_here _ a x eq_refl)).
  - apply IH. intros y Hy. apply (H y). by apply holds_cons_later.
Qed.

Lemma potential_nonneg N t st : fetch_index st <= N → 0 <= potential N t st.
Proof.
  intros H. unfold potential.
  pose proof (pool_weight_nonneg FU_INT_LATENCY t (mem st) (reservINT st)).
  pose proof (pool_weight_nonneg FU_FP_LATENCY t (mem st) (reservFP st)).
  destruct (commonDataBus st); lia.
Qed.

(** Time alone never raises the measure. *)
Lemma potential_tick N t st : potential N (t + 1) st <= potential N t st.
Proof.
  unfold potential.
  assert (pool_weight FU_INT_LATENCY (t + 1) (mem st) (reservINT st)
          <= pool_weight FU_INT_LATENCY t (mem st) (reservINT st))
    by (apply pool_weight_le; intros; apply weight_tick).
  assert (pool_weight FU_FP_LATENCY (t + 1) (mem st) (reservFP st)
          <= pool_weight FU_FP_LATENCY t (mem st) (reservFP st))
    by (apply pool_weight_le; intros; apply weight_tick).
  lia.
Qed.

(** ** What a run needs to go on: the invariant [live] *)

Lemma live_wf_flight N table st p :
  wf_trace N table → live N table st → in_RS st p ∨ on_bus st p → wf_instr (table p).
Proof.
  intros [_ Hwf] Hl Hp. apply Hwf.
  pose proof (safe_flight_range _ _ _ (live_safe _ _ _ Hl) p Hp). lia.
Qed.

(** The producer the map names for a register is no store. *)
Lemma live_map_not_store N table st r p :
  wf_trace N table → live N table st →
  reg_read (map_table st) r = Some (Some p) → IS_STORE (op (table p)) = false.
Proof.
  intros Hwf Hl H. destruct (live_map _ _ _ Hl r p H) as (Hp & Hr & Hout).
  destruct (IS_STORE (op (table p))) eqn:E; [|done].
  pose proof (wf_store _ (live_wf_flight _ _ _ _ Hwf Hl Hp) E) as Eo.
  rewrite Eo in Hout. unfold at2 in Hout. simpl in Hout. by destruct Hout.
Qed.

Lemma live_reg_valid N table st r :
  live N table st → valid_reg r → is_Some (reg_read (map_table st) r).
Proof.
  intros Hl [H0 H1]. apply reg_read_is_Some.
  rewrite (live_map_len _ _ _ Hl). lia.
Qed.

Lemma live_set_doneCount N table v st :
  live N table st → live N table (set_doneCount v st).
Proof.
  intros Hl. constructor; try apply Hl.
  by apply safe_set_doneCount, Hl.
Qed.

(** *** CDB_To_retire *)

Lemma retire_Q_slot_Some b q p : retire_Q_slot b q = Some p → q = Some p ∧ p ≠ b.
Proof.
  unfold retire_Q_slot. destruct q as [z|]; simpl; [|done].
  destruct (Z.eqb_spec z b); [done|]. by intros [= ->].
Qed.

Lemma retire_Q_at3 b i j :
  (j < 3)%nat → at3 (Q (retire_Q b i)) j = retire_Q_slot b (at3 (Q i) j).
Proof. intros Hj. by destruct j as [|[|[|j]]]; [..|lia]. Qed.

(** After the loops of [CDB_To_retire] an await-slot holds what it held
    before, and in the records of the bank not the instruction on the
    bus. *)
Lemma retire_reserv_Q_sub b rs m x j p :
  (j < 3)%nat → at3 (Q (retire_reserv b rs m x)) j = Some p →
  at3 (Q (m x)) j = Some p ∧ (holds rs x → p ≠ b).
Proof.
  intros Hj. revert m. induction rs as [|[y|] rs IH]; intros m H; simpl in H.
  - split; [done|]. intros Hx. by destruct (holds_nil x).
  - destruct (IH _ H) as [H1 H2]. destruct (decide (x = y)) as [->|Hne].
    + rewrite fn_lookup_insert, retire_Q_at3 in H1 by done.
      by apply retire_Q_slot_Some in H1 as [-> ?].
    + rewrite fn_lookup_insert_ne in H1 by done. split; [done|].
      intros Hx. apply holds_cons_inv in Hx as [[= ?]|Hx]; [done|by apply H2].
  - destruct (IH _ H) as [H1 H2]. split; [done|].
    intros Hx. apply holds_cons_inv in Hx as [[=]|Hx]. by apply H2.
Qed.

Lemma retire_reserv_Q_clear b rs m x :
  Q (m x) = (None, None, None) → Q (retire_reserv b rs m x) = (None, None, None).
Proof.
  revert m. induction rs as [|[y|] rs IH]; intros m H; simpl; [done| |by apply IH].
  apply IH. destruct (decide (x = y)) as [->|Hne].
  - rewrite fn_lookup_insert. simpl. by rewrite H.
  - by rewrite fn_lookup_insert_ne.
Qed.

Lemma retire_map_read b r mt mt' r' p :
  retire_map b r mt = Ok mt' → reg_read mt' r' = Some (Some p) →
  reg_read mt r' = Some (Some p) ∧ (r' = r → p ≠ b).
Proof.
  intros H Hr. apply retire_map_Ok in H as (Hs & _ & [[E ->]|[E ->]]).
  - destruct (decide (r' = r)) as [->|Hne].
    + by rewrite reg_read_write_eq in Hr.
    + apply reg_read_is_Some in Hs as [H0 _].
      by rewrite reg_read_write_ne in Hr.
  - split; [done|]. intros -> ->. by rewrite Hr in E.
Qed.

Lemma live_CDB_To_retire N table c st :
  wf_trace N table → live N table st →
  ∃ st', CDB_To_retire c st = Ok st' ∧ live N table st' ∧
         commonDataBus st' = None ∧
         ∀ t, potential N t st'
              = potential N t st - match commonDataBus st with Some _ => 1 | None => 0 end.
Proof.
  intros Hwf Hl. pose proof (live_safe _ _ _ Hl) as Hs.
  destruct (commonDataBus st) as [b|] eqn:Eb.
  2:{ exists st. split_and!; [|done..|intros t; lia].
      unfold CDB_To_retire. by rewrite Eb. }
  assert (Hb : wf_instr (table b)) by (eapply live_wf_flight; eauto).
  assert (Eo : r_out (mem st b) = r_out (table b)) by apply Hs.
  destruct (live_reg_valid _ _ _ (at2 (r_out (mem st b)) 0) Hl) as [e0 E0].
  { rewrite Eo. apply Hb. lia. }
  destruct (retire_map b (at2 (r_out (mem st b)) 0) (map_table st)) as [mt1| | | |] eqn:R0;
    try (unfold retire_map in R0; rewrite E0 in R0; discriminate).
  pose proof (retire_map_Ok _ _ _ _ R0) as (_ & Hlen1 & _).
  assert (is_Some (reg_read mt1 (at2 (r_out (mem st b)) 1))) as [e1 E1].
  { apply reg_read_is_Some. rewrite Hlen1, (live_map_len _ _ _ Hl).
    rewrite Eo. pose proof (wf_r_out _ Hb 1%nat ltac:(lia)) as [? ?]. lia. }
  destruct (retire_map b (at2 (r_out (mem st b)) 1) mt1) as [mt2| | | |] eqn:R1;
    try (unfold retire_map in R1; rewrite E1 in R1; discriminate).
  pose proof (retire_map_Ok _ _ _ _ R1) as (_ & Hlen2 & _).
  assert (Hstep : CDB_To_retire c st = Ok
     (set_doneCount (doneCount st + 1)
        (set_commonDataBus None
           (set_mem (retire_reserv b (reservFP st) (retire_reserv b (reservINT st) (mem st)))
              (set_map_table mt2 st))))).
  { unfold CDB_To_retire. rewrite Eb, R0. cbn [bind]. by rewrite R1. }
  pose proof (safe_CDB_To_retire _ _ _ _ _ Hs Hstep) as Hs'.
  eexists. split; [exact Hstep|]. split_and!; [|done|].
  - constructor; [done|..]; simpl.
    + by rewrite Hlen2, Hlen1, (live_map_len _ _ _ Hl).
    + apply Hl.
    + intros x Hx. destruct (live_pristine _ _ _ Hl x Hx) as [He HQ]. split.
      * rewrite <- He.
        etransitivity; [apply retire_reserv_frame|]. apply retire_reserv_frame.
      * by do 2 apply retire_reserv_Q_clear.
    + intros x Hx Hn. rewrite <- (live_idle _ _ _ Hl x Hx Hn).
      etransitivity; [apply retire_reserv_frame|]. apply retire_reserv_frame.
    + intros x j p Hx Hj HQ.
      apply retire_reserv_Q_sub in HQ as [HQ H2]; [|done].
      apply retire_reserv_Q_sub in HQ as [HQ H1]; [|done].
      destruct (live_Q _ _ _ Hl x j p Hx Hj HQ) as (Hlt & [Hp|Hp] & Hst).
      * split_and!; [done|by left|done].
      * unfold on_bus in Hp. rewrite Eb in Hp. injection Hp as <-.
        destruct Hx as [Hx|Hx]; [by destruct (H1 Hx)|by destruct (H2 Hx)].
    + intros r p Hr.
      apply (retire_map_read _ _ _ _ _ _ R1) in Hr as [Hr H1].
      apply (retire_map_read _ _ _ _ _ _ R0) in Hr as [Hr H0].
      destruct (live_map _ _ _ Hl r p Hr) as ([Hp|Hp] & Hd & Ho).
      * split_and!; [by left|done..].
      * unfold on_bus in Hp. rewrite Eb in Hp. injection Hp as <-.
        rewrite <- Eo in Ho. destruct Ho as [Ho|Ho]; [by destruct (H0 Ho)|by destruct (H1 Ho)].
    + apply Hl.
  - intros t. unfold potential. simpl.
    rewrite !(pool_weight_ext _ t (mem st)
               (retire_reserv b (reservFP st) (retire_reserv b (reservINT st) (mem st)))).
    + rewrite Eb. lia.
    + intros x _. etransitivity; [apply retire_reserv_frame|]. apply retire_reserv_frame.
    + intros x _. etransitivity; [apply retire_reserv_frame|]. apply retire_reserv_frame.
Qed.

(** *** execute_To_CDB *)

Lemma safe_FU_class N table st x :
  safe N table st → in_FU st x →
  (holds (fuINT st) x ∧ holds (reservINT st) x ∧ USES_INT_FU (op (mem st x)) = true) ∨
  (holds (fuFP st) x ∧ holds (reservFP st) x ∧
   USES_INT_FU (op (mem st x)) = false ∧ USES_FP_FU (op (mem st x)) = true).
Proof.
  intros Hs Hx. assert (Hcode : op (mem st x) = op (table x)) by apply Hs.
  rewrite Hcode. destruct Hx as [Hx|Hx].
  - left. pose proof (safe_fu_int_rs _ _ _ Hs x Hx) as Hr.
    split_and!; [done..|]. by apply (safe_rs_int_class _ _ _ Hs).
  - right. pose proof (safe_fu_fp_rs _ _ _ Hs x Hx) as Hr.
    split_and!; [done..| |]; by apply (safe_rs_fp_class _ _ _ Hs).
Qed.

Lemma safe_pools_apart N table st x :
  safe N table st → holds (reservINT st) x → holds (reservFP st) x → False.
Proof.
  intros Hs Hi Hf. pose proof (safe_rs_int_class _ _ _ Hs x Hi).
  destruct (safe_rs_fp_class _ _ _ Hs x Hf). congruence.
Qed.

(** [free_stations] of an occupant of a functional unit goes through,
    and takes exactly this instruction out of its reservation station
    and its unit. *)
Lemma free_stations_members N table x st :
  safe N table st → in_FU st x →
  ∃ st', free_stations x st = Ok st' ∧
    (∀ y, in_RS st' y ↔ in_RS st y ∧ y ≠ x) ∧
    (∀ y, in_FU st' y ↔ in_FU st y ∧ y ≠ x) ∧
    map_table st' = map_table st ∧ instr_queue st' = instr_queue st ∧
    instr_queue_size st' = instr_queue_size st ∧ ifq_head st' = ifq_head st ∧
    fetch_index st' = fetch_index st ∧ mem st' = mem st ∧
    commonDataBus st' = commonDataBus st.
Proof.
  intros Hs Hx.
  destruct (safe_FU_class _ _ _ _ Hs Hx) as [(Hf & Hr & Ei)|(Hf & Hr & Ei & Ef)].
  - eexists. split; [unfold free_stations; by rewrite Ei|].
    split_and!; try done; intros y; unfold in_RS, in_FU; simpl; split.
    + intros [H|H].
      * split; [left; by eapply free_slot_holds|]. intros ->.
        by apply (free_slot_gone x (reservINT st)), H; apply Hs.
      * split; [by right|]. intros ->. by eapply safe_pools_apart.
    + intros [[H|H] Hne]; [left; by apply free_slot_holds_other|by right].
    + intros [H|H].
      * split; [left; by eapply free_slot_holds|]. intros ->.
        by apply (free_slot_gone x (fuINT st)), H; apply Hs.
      * split; [by right|]. intros ->.
        eapply safe_pools_apart; [done..|]. by apply Hs.
    + intros [[H|H] Hne]; [left; by apply free_slot_holds_other|by right].
  - eexists. split; [unfold free_stations; by rewrite Ei, Ef|].
    split_and!; try done; intros y; unfold in_RS, in_FU; simpl; split.
    + intros [H|H].
      * split; [by left|]. intros ->. by eapply safe_pools_apart.
      * split; [right; by eapply free_slot_holds|]. intros ->.
        by apply (free_slot_gone x (reservFP st)), H; apply Hs.
    + intros [[H|H] Hne]; [by left|right; by apply free_slot_holds_other].
    + intros [H|H].
      * split; [by left|]. intros ->.
        eapply safe_pools_apart; [done| |done]. by apply Hs.
      * split; [right; by eapply free_slot_holds|]. intros ->.
        by apply (free_slot_gone x (fuFP st)), H; apply Hs.
    + intros [[H|H] Hne]; [by left|right; by apply free_slot_holds_other].
Qed.

(** An occupant of a functional unit leaves: a store for good, any other
    instruction for the bus. *)
Lemma live_leave N table st st' x :
  wf_trace N table → live N table st → safe N table st' →
  commonDataBus st = None →
  map_table st' = map_table st → instr_queue st' = instr_queue st →
  instr_queue_size st' = instr_queue_size st → ifq_head st' = ifq_head st →
  fetch_index st' = fetch_index st →
  (∀ p, tom_execute_cycle (mem st' p) = tom_execute_cycle (mem st p) ∧
        Q (mem st' p) = Q (mem st p)) →
  (∀ y, in_RS st' y ↔ in_RS st y ∧ y ≠ x) →
  (∀ y, in_FU st' y ↔ in_FU st y ∧ y ≠ x) →
  IS_STORE (op (table x)) = true ∨ commonDataBus st' = Some x →
  live N table st'.
Proof.
  intros Hwf Hl Hs' Eb Emap Eq Esz Ehd Efi Hm HRS HFU Hx.
  assert (Hqd : ∀ k y, queued st' k y ↔ queued st k y).
  { intros k y. unfold queued. by rewrite Eq, Esz, Ehd. }
  assert (Hkeep : ∀ p, in_RS st p → IS_STORE (op (table p)) = false →
                       in_RS st' p ∨ on_bus st' p).
  { intros p Hp Hst. destruct (decide (p = x)) as [->|Hne].
    - right. by destruct Hx as [Hx|Hx]; [congruence|].
    - left. by apply HRS. }
  constructor; [done|..].
  - rewrite Emap. apply Hl.
  - intros k y Hy. apply Hqd in Hy. by apply (live_queue_code _ _ _ Hl k).
  - intros y Hy. destruct (Hm y) as [-> ->]. apply Hl.
    rewrite Efi in Hy. destruct Hy as [[k Hy]|Hy]; [left; exists k; by apply Hqd|by right].
  - intros y Hy Hn. apply HRS in Hy as [Hy Hne]. destruct (Hm y) as [-> _].
    apply (live_idle _ _ _ Hl y Hy). intros HF. apply Hn. by apply HFU.
  - intros y j p Hy Hj HQ. apply HRS in Hy as [Hy Hne].
    destruct (Hm y) as [_ EQ]. rewrite EQ in HQ.
    destruct (live_Q _ _ _ Hl y j p Hy Hj HQ) as (Hlt & [Hp|Hp] & Hst).
    + split_and!; [done|by apply Hkeep|done].
    + unfold on_bus in Hp. congruence.
  - intros r p Hr. rewrite Emap in Hr.
    pose proof (live_map_not_store _ _ _ _ _ Hwf Hl Hr) as Hst.
    destruct (live_map _ _ _ Hl r p Hr) as ([Hp|Hp] & Hd & Ho).
    + split_and!; [by apply Hkeep|done..].
    + unfold on_bus in Hp. congruence.
  - rewrite Efi. apply Hl.
Qed.

Lemma execute_int_slot_live N table c i st o oi :
  wf_trace N table → live N table st → commonDataBus st = None →
  ∃ a', execute_int_slot c i (st, o, oi) = Ok a' ∧
        live N table (fst (fst a')) ∧ commonDataBus (fst (fst a')) = None.
Proof.
  intros Hwf Hl Eb. pose proof (live_safe _ _ _ Hl) as Hs.
  unfold execute_int_slot. destruct (slot (fuINT st) i) as [x|] eqn:Ex; [|by eexists].
  destruct (c >=? _); [|by eexists].
  destruct (IS_STORE (op (mem st x))) eqn:Est.
  2:{ destruct (_ || _); by eexists. }
  assert (Hx : in_FU st x) by (left; by exists i).
  destruct (free_stations_members _ _ _ _ Hs Hx)
    as (st1 & F & HRS & HFU & Emap & Eq & Esz & Ehd & Efi & Em & Eb1).
  rewrite F. cbn [bind]. eexists. split; [done|]. simpl. split; [|congruence].
  apply (live_leave N table st _ x); simpl; try done.
  - eapply safe_set_doneCount, safe_free_stations; eauto.
  - intros p. by rewrite Em.
  - left. assert (Hcode : op (mem st x) = op (table x)) by apply Hs. congruence.
Qed.

Lemma execute_int_loop_live N table c l st o oi :
  wf_trace N table → live N table st → commonDataBus st = None →
  ∃ a', execute_int_loop c l (st, o, oi) = Ok a' ∧
        live N table (fst (fst a')) ∧ commonDataBus (fst (fst a')) = None.
Proof.
  intros Hwf. revert st o oi.
  induction l as [|i l IH]; intros st o oi Hl Eb; cbn [execute_int_loop].
  - by eexists.
  - destruct (execute_int_slot_live N table c i st o oi Hwf Hl Eb)
      as ([[st1 o1] oi1] & -> & Hl1 & Eb1).
    cbn [bind]. by apply IH.
Qed.

Lemma live_execute_To_CDB N table c st :
  wf_trace N table → live N table st → commonDataBus st = None →
  ∃ st', execute_To_CDB c st = Ok st' ∧ live N table st'.
Proof.
  intros Hwf Hl Eb. pose proof (live_safe _ _ _ Hl) as Hs.
  destruct (execute_int_loop_live N table c (seq 0 FU_INT_SIZE) st (-1) None Hwf Hl Eb)
    as ([[st1 o1] oi1] & Hloop & Hl1 & Eb1). simpl in Hl1, Eb1.
  assert (Hsafe1 : cdb_loop_safe N table (execute_fp_slot c (st1, o1, oi1))).
  { apply execute_fp_slot_safe.
    eapply (execute_int_loop_safe N table c _ (st, -1, None)); [|done].
    split; [done|]. by intros w. }
  pose proof (execute_fp_slot_state c (st1, o1, oi1)) as Est.
  destruct (execute_fp_slot c (st1, o1, oi1)) as [[st1' o'] oi'] eqn:Efp.
  simpl in Est. subst st1'. destruct Hsafe1 as [Hs1 Hw].
  destruct oi' as [w|].
  2:{ exists st1. split; [|done]. unfold execute_To_CDB. rewrite Hloop. cbn [bind].
      by rewrite Efp. }
  assert (HwF : in_FU st1 w).
  { destruct (Hw w eq_refl) as [[? _]|?]; [by left|by right]. }
  set (st2 := set_mem (<[w := set_tom_cdb_cycle c (mem st1 w)]> (mem st1)) st1).
  assert (Hm2 : ∀ p, same_code (mem st2 p) (mem st1 p) ∧
                     tom_execute_cycle (mem st2 p) = tom_execute_cycle (mem st1 p) ∧
                     Q (mem st2 p) = Q (mem st1 p)).
  { intros p. simpl. destruct (decide (p = w)) as [->|Hne].
    - rewrite fn_lookup_insert. by destruct (mem st1 w).
    - rewrite fn_lookup_insert_ne by done. split; [apply same_code_refl|done]. }
  assert (Hs2 : safe N table st2).
  { apply (safe_ext N table st1); try done; intros p; apply Hm2. }
  destruct (free_stations_members _ _ _ _ Hs2 HwF)
    as (st3 & F & HRS & HFU & Emap & Eq & Esz & Ehd & Efi & Em & Eb3).
  assert (Hstep : execute_To_CDB c st = Ok (set_commonDataBus (Some w) st3)).
  { unfold execute_To_CDB. rewrite Hloop. cbn [bind]. rewrite Efp.
    fold st2. by rewrite F. }
  eexists. split; [exact Hstep|].
  apply (live_leave N table st1 _ w); simpl; try done.
  - exact (safe_execute_To_CDB N table c st _ Hs Hstep).
  - intros p. rewrite Em. split; apply Hm2.
  - by right.
Qed.

(** *** issue_To_execute *)

(** An occupant of a reservation station starts to execute. *)
Lemma live_start N table st st' x :
  live N table st → safe N table st' → in_RS st x →
  map_table st' = map_table st → instr_queue st' = instr_queue st →
  instr_queue_size st' = instr_queue_size st → ifq_head st' = ifq_head st →
  fetch_index st' = fetch_index st →
  reservINT st' = reservINT st → reservFP st' = reservFP st →
  commonDataBus st' = commonDataBus st →
  (∀ p, Q (mem st' p) = Q (mem st p)) →
  (∀ p, p ≠ x → tom_execute_cycle (mem st' p) = tom_execute_cycle (mem st p)) →
  (∀ y, in_FU st y → in_FU st' y) → in_FU st' x →
  live N table st'.
Proof.
  intros Hl Hs' Hx Emap Eq Esz Ehd Efi Eri Erf Eb HQ He HFU HxF.
  pose proof (live_safe _ _ _ Hl) as Hs.
  assert (Hqd : ∀ k y, queued st' k y ↔ queued st k y).
  { intros k y. unfold queued. by rewrite Eq, Esz, Ehd. }
  assert (HRS : ∀ y, in_RS st' y ↔ in_RS st y).
  { intros y. unfold in_RS. by rewrite Eri, Erf. }
  assert (Hbus : ∀ y, on_bus st' y ↔ on_bus st y).
  { intros y. unfold on_bus. by rewrite Eb. }
  constructor; [done|..].
  - rewrite Emap. apply Hl.
  - intros k y Hy. apply Hqd in Hy. by apply (live_queue_code _ _ _ Hl k).
  - intros y Hy. rewrite Efi in Hy.
    assert (Hy' : in_queue st y ∨ fetch_index st < y <= N).
    { destruct Hy as [[k Hy]|Hy]; [left; exists k; by apply Hqd|by right]. }
    assert (y ≠ x).
    { intros ->. pose proof (safe_flight_range _ _ _ Hs x (or_introl Hx)).
      destruct Hy' as [[k Hy']|Hy']; [|lia].
      pose proof (safe_queue_young _ _ _ Hs k x x Hy' (or_introl Hx)). lia. }
    rewrite HQ, He by done. by apply Hl.
  - intros y Hy Hn. assert (y ≠ x) by (by intros ->).
    rewrite He by done. apply (live_idle _ _ _ Hl y); [by apply HRS|].
    intros HF. by apply Hn, HFU.
  - intros y j p Hy Hj Hq. rewrite HQ in Hq. apply HRS in Hy.
    destruct (live_Q _ _ _ Hl y j p Hy Hj Hq) as (? & Hp & ?).
    split_and!; [done| |done]. rewrite HRS, Hbus. done.
  - intros r p Hr. rewrite Emap in Hr.
    destruct (live_map _ _ _ Hl r p Hr) as (Hp & ? & ?).
    split_and!; [|done..]. rewrite HRS, Hbus. done.
  - rewrite Efi. apply Hl.
Qed.

Lemma lookup_Some_None_slot (a : list (option ptr)) i :
  a !! i = Some None → slot a i = None ∧ (i < length a)%nat.
Proof.
  intros H. split; [unfold slot; by rewrite H|]. by eapply lookup_lt_Some.
Qed.

Lemma slot_insert_here (a : list (option ptr)) i v :
  (i < length a)%nat → slot (<[i := v]> a) i = v.
Proof. intros H. rewrite slot_insert. by rewrite decide_True. Qed.

Lemma live_issue_int_slot N table c st i :
  c ≠ 0 → live N table st → live N table (issue_int_slot c st i).
Proof.
  intros Hc Hl. pose proof (live_safe _ _ _ Hl) as Hs.
  pose proof (safe_issue_int_slot N table c st i Hc Hs) as Hs'.
  destruct (issue_int_slot_cases c st i) as [->|(j & x & Efu & Eo & Ex & E)]; [done|].
  rewrite E in Hs' |- *. apply lookup_Some_None_slot in Efu as [Efu Hi].
  apply (live_start N table st _ x); simpl; try done.
  - left. by exists j.
  - intros p. destruct (decide (p = x)) as [->|Hne].
    + rewrite fn_lookup_insert. by destruct (mem st x).
    + by rewrite fn_lookup_insert_ne.
  - intros p Hne. by rewrite fn_lookup_insert_ne.
  - intros y [Hy|Hy]; [left|by right]. simpl. by apply holds_insert_mono.
  - left. exists i. simpl. by apply slot_insert_here.
Qed.

Lemma live_issue_fp_slot N table c st i :
  c ≠ 0 → live N table st → live N table (issue_fp_slot c st i).
Proof.
  intros Hc Hl. pose proof (live_safe _ _ _ Hl) as Hs.
  pose proof (safe_issue_fp_slot N table c st i Hc Hs) as Hs'.
  destruct (issue_fp_slot_cases c st i) as [->|(j & x & Efu & Eo & Ex & E)]; [done|].
  rewrite E in Hs' |- *. apply lookup_Some_None_slot in Efu as [Efu Hi].
  apply (live_start N table st _ x); simpl; try done.
  - right. by exists j.
  - intros p. destruct (decide (p = x)) as [->|Hne].
    + rewrite fn_lookup_insert. by destruct (mem st x).
    + by rewrite fn_lookup_insert_ne.
  - intros p Hne. by rewrite fn_lookup_insert_ne.
  - intros y [Hy|Hy]; [by left|right]. simpl. by apply holds_insert_mono.
  - right. exists i. simpl. by apply slot_insert_here.
Qed.

Lemma live_issue_To_execute N table c st :
  c ≠ 0 → live N table st → live N table (issue_To_execute c st).
Proof.
  intros Hc Hl. unfold issue_To_execute.
  apply (fold_left_preserves (live N table)).
  { intros. by apply live_issue_fp_slot. }
  apply (fold_left_preserves (live N table)); [|done].
  intros. by apply live_issue_int_slot.
Qed.

(** *** dispatch_To_issue *)

Lemma map_source_total instr i mt m :
  is_Some (reg_read mt (at3 (r_in (m instr)) i)) →
  ∃ m', map_source instr i mt m = Ok m'.
Proof.
  intros [e E]. unfold map_source. destruct (_ =? DNA); [by eexists|].
  rewrite E. by eexists.
Qed.

Lemma map_dest_total instr i m mt :
  is_Some (reg_read mt (at2 (r_out (m instr)) i)) →
  ∃ mt', map_dest instr i m mt = Ok mt' ∧ length mt' = length mt.
Proof.
  intros [e E]. unfold map_dest. destruct (_ =? DNA); [by eexists|].
  rewrite E. eexists. split; [done|]. apply reg_write_length.
Qed.

Lemma map_operands_length instr st st' :
  map_operands instr st = Ok st' → length (map_table st') = length (map_table st).
Proof.
  intros H. apply map_operands_eq in H as (m1 & m2 & m3 & mt1 & mt2 & _ & _ & _ & D0 & D1 & ->).
  simpl. apply map_dest_eq in D0 as [[_ ->]|(_ & _ & ->)];
    apply map_dest_eq in D1 as [[_ ->]|(_ & _ & ->)];
    by rewrite ?reg_write_length.
Qed.

(** [map_operands] goes through when the register ids of the instruction
    fit the producer map. *)
Lemma map_operands_total instr st :
  (∀ j, (j < 3)%nat → is_Some (reg_read (map_table st) (at3 (r_in (mem st instr)) j))) →
  (∀ j, (j < 2)%nat → is_Some (reg_read (map_table st) (at2 (r_out (mem st instr)) j))) →
  ∃ st', map_operands instr st = Ok st'.
Proof.
  intros Hin Hout. unfold map_operands.
  destruct (map_source_total instr 0 (map_table st) (mem st)) as [m1 E1]; [apply Hin; lia|].
  rewrite E1. cbn [bind].
  pose proof (map_source_frame _ _ _ _ _ E1) as (_ & _ & _ & Ei1 & Eo1 & _).
  destruct (map_source_total instr 1 (map_table st) m1) as [m2 E2];
    [rewrite Ei1; apply Hin; lia|].
  rewrite E2. cbn [bind].
  pose proof (map_source_frame _ _ _ _ _ E2) as (_ & _ & _ & Ei2 & Eo2 & _).
  destruct (map_source_total instr 2 (map_table st) m2) as [m3 E3];
    [rewrite Ei2, Ei1; apply Hin; lia|].
  rewrite E3. cbn [bind].
  pose proof (map_source_frame _ _ _ _ _ E3) as (_ & _ & _ & Ei3 & Eo3 & _).
  assert (Eo : r_out (m3 instr) = r_out (mem st instr)) by congruence.
  destruct (map_dest_total instr 0 m3 (map_table st)) as (mt1 & D0 & L0);
    [rewrite Eo; apply Hout; lia|].
  rewrite D0. cbn [bind].
  destruct (map_dest_total instr 1 m3 mt1) as (mt2 & D1 & L1).
  { rewrite Eo. apply reg_read_is_Some. rewrite L0. apply reg_read_is_Some, Hout. lia. }
  rewrite D1. cbn [bind]. by eexists.
Qed.

Lemma live_pop_head N table st :
  live N table st → (0 < instr_queue_size st)%nat → live N table (pop_head st).
Proof.
  intros Hl Hsz. constructor; try apply Hl.
  - by apply safe_pop_head; [apply Hl|].
  - intros k x Hx. apply queued_pop_head in Hx; [|done].
    by apply (live_queue_code _ _ _ Hl (S k)).
  - intros x Hx. apply Hl. destruct Hx as [[k Hx]|Hx]; [left|by right].
    apply queued_pop_head in Hx; [|done]. by exists (S k).
Qed.

(** The head of the queue enters a reservation station. *)
Lemma live_admit N table c st str st' h :
  wf_trace N table → live N table st → queued st 0 h → safe N table st' →
  map_table str = map_table st → instr_queue str = instr_queue st →
  instr_queue_size str = instr_queue_size st → ifq_head str = ifq_head st →
  fetch_index str = fetch_index st → mem str = mem st →
  commonDataBus str = commonDataBus st →
  (∀ y, in_RS str y ↔ in_RS st y ∨ y = h) →
  (∀ y, in_FU str y ↔ in_FU st y) →
  issue_head c h str = Ok st' →
  live N table st'.
Proof.
  intros Hwf Hl Hh Hs' Emap Eq Esz Ehd Efi Em Eb HRS HFU H.
  pose proof (live_safe _ _ _ Hl) as Hs.
  destruct (safe_queue_head_fresh _ _ _ _ Hs Hh) as (HhRS & Hhbus & Hyoung & Hsz).
  unfold issue_head in H.
  set (st2 := set_queue _ _ _ _ _) in H.
  pose proof (map_operands_frame _ _ _ H) as (Hoth & _ & _ & _ & _ & _ & _ & Eex & _).
  pose proof (map_operands_length _ _ _ H) as Hlen.
  pose proof (λ j, map_operands_Q _ _ _ j H) as HQ.
  pose proof (λ r, map_operands_map _ _ _ r H) as Hmap.
  apply map_operands_eq in H as (m1 & m2 & m3 & mt1 & mt2 & _ & _ & _ & _ & _ & E').
  assert (Hh2 : mem st2 h = set_tom_issue_cycle c (mem st h)).
  { unfold st2. simpl. by rewrite fn_lookup_insert, Em. }
  assert (Hoth' : ∀ p, p ≠ h → mem st' p = mem st p).
  { intros p Hne. rewrite (Hoth p Hne). unfold st2. simpl.
    by rewrite fn_lookup_insert_ne, Em. }
  assert (Hex : ∀ p, tom_execute_cycle (mem st' p) = tom_execute_cycle (mem st p)).
  { intros p. destruct (decide (p = h)) as [->|Hne]; [|by rewrite Hoth'].
    rewrite Eex, Hh2. by destruct (mem st h). }
  assert (Hqd : ∀ k y, queued st' k y ↔ queued st (S k) y).
  { intros k y. rewrite <- queued_pop_head by done. rewrite E'.
    unfold queued, st2. simpl. by rewrite Eq, Esz, Ehd. }
  assert (HRS' : ∀ y, in_RS st' y ↔ in_RS st y ∨ y = h).
  { intros y. rewrite <- HRS. by rewrite E'. }
  assert (HFU' : ∀ y, in_FU st' y ↔ in_FU st y).
  { intros y. rewrite <- HFU. by rewrite E'. }
  assert (Hbus' : ∀ y, on_bus st' y ↔ on_bus st y).
  { intros y. unfold on_bus. rewrite <- Eb. by rewrite E'. }
  assert (Efi' : fetch_index st' = fetch_index st) by (by rewrite E', <- Efi).
  assert (Hmt2 : map_table st2 = map_table st) by done.
  assert (Hwfh : wf_instr (table h)).
  { destruct Hwf as [_ Hwf]. apply Hwf.
    pose proof (safe_queue_range _ _ _ Hs 0%nat h Hh). lia. }
  assert (Hcode : same_code (mem st h) (table h)) by apply Hs.
  constructor; [done|..].
  - rewrite Hlen, Hmt2. apply Hl.
  - intros k y Hy. apply Hqd in Hy. by apply (live_queue_code _ _ _ Hl (S k)).
  - intros y Hy. rewrite Efi' in Hy.
    assert (Hy' : in_queue st y ∨ fetch_index st < y <= N).
    { destruct Hy as [[k Hy]|Hy]; [left; exists (S k); by apply Hqd|by right]. }
    assert (y ≠ h).
    { intros ->. destruct Hy as [[k Hy]|Hy].
      - apply Hqd in Hy.
        pose proof (safe_queue_order _ _ _ Hs 0%nat (S k) h h Hh Hy). lia.
      - pose proof (safe_queue_range _ _ _ Hs 0%nat h Hh). lia. }
    rewrite Hoth' by done. by apply Hl.
  - intros y Hy Hn. rewrite Hex. apply HRS' in Hy as [Hy| ->].
    + apply (live_idle _ _ _ Hl y Hy). intros HF. by apply Hn, HFU'.
    + apply Hl. left. by exists 0%nat.
  - intros y j p Hy Hj Hq.
    assert (Hgoal : p < y ∧ (in_RS st p ∨ on_bus st p) ∧ IS_STORE (op (table p)) = false).
    { apply HRS' in Hy as [Hy|Ey].
      - assert (y ≠ h) by (by intros ->).
        rewrite Hoth' in Hq by done. by apply (live_Q _ _ _ Hl y j p).
      - subst y. specialize (HQ j Hj). rewrite Hh2 in HQ.
        assert (Ein : r_in (set_tom_issue_cycle c (mem st h)) = r_in (mem st h))
          by (by destruct (mem st h)).
        assert (EQ : Q (set_tom_issue_cycle c (mem st h)) = Q (mem st h))
          by (by destruct (mem st h)).
        rewrite Ein, EQ in HQ. case_decide as Hd.
        + destruct (live_pristine _ _ _ Hl h) as [_ EQh]; [left; by exists 0%nat|].
          rewrite EQh in HQ. rewrite Hq in HQ.
          by destruct j as [|[|[|j]]]; [..|lia].
        + rewrite Hmt2, Hq in HQ.
          pose proof (live_map_not_store _ _ _ _ _ Hwf Hl HQ) as Hst.
          destruct (live_map _ _ _ Hl _ p HQ) as (Hp & _ & _).
          split_and!; [|done..]. by apply (safe_queue_young _ _ _ Hs 0%nat h p). }
    destruct Hgoal as (? & Hp & ?). split_and!; [done| |done].
    rewrite HRS', Hbus'. tauto.
  - intros r p Hr. rewrite Hmap in Hr. rewrite Hh2 in Hr.
    assert (Eout : r_out (set_tom_issue_cycle c (mem st h)) = r_out (table h)).
    { destruct Hcode as (_ & _ & _ & <-). by destruct (mem st h). }
    rewrite Eout in Hr. case_decide as Hd.
    + injection Hr as <-. destruct Hd as [Hd Ho].
      split_and!; [|done..]. left. apply HRS'. by right.
    + rewrite Hmt2 in Hr. destruct (live_map _ _ _ Hl r p Hr) as (Hp & ? & ?).
      split_and!; [|done..]. rewrite HRS', Hbus'. tauto.
  - rewrite Efi'. apply Hl.
Qed.

Lemma queued_head_slot N table st h :
  safe N table st → queued st 0 h → slot (instr_queue st) (ifq_head st) = Some h.
Proof.
  intros Hs [_ H]. rewrite Nat.add_0_r, Nat.mod_small in H; [done|apply Hs].
Qed.

Lemma issue_head_total N table c st str h :
  wf_trace N table → live N table st → queued st 0 h →
  map_table str = map_table st → mem str = mem st →
  ∃ st', issue_head c h str = Ok st'.
Proof.
  intros Hwf Hl Hh Emap Em. pose proof (live_safe _ _ _ Hl) as Hs.
  assert (Hwfh : wf_instr (table h)).
  { destruct Hwf as [_ Hwf]. apply Hwf.
    pose proof (safe_queue_range _ _ _ Hs 0%nat h Hh). lia. }
  destruct (safe_code _ _ _ Hs h) as (_ & _ & Ein & Eout).
  unfold issue_head. apply map_operands_total; simpl; intros j Hj;
    rewrite fn_lookup_insert, Emap, Em;
    apply (live_reg_valid N table st _ Hl).
  - replace (r_in (set_tom_issue_cycle c (mem st h))) with (r_in (table h))
      by (rewrite <- Ein; by destruct (mem st h)).
    by apply Hwfh.
  - replace (r_out (set_tom_issue_cycle c (mem st h))) with (r_out (table h))
      by (rewrite <- Eout; by destruct (mem st h)).
    by apply Hwfh.
Qed.

Lemma live_dispatch_To_issue N table c st :
  wf_trace N table → live N table st →
  ∃ st', dispatch_To_issue c st = Ok st' ∧ live N table st'.
Proof.
  intros Hwf Hl. pose proof (live_safe _ _ _ Hl) as Hs.
  destruct (instr_queue_size st) as [|n] eqn:Esz.
  { exists st. split; [|done]. unfold dispatch_To_issue. by rewrite Esz. }
  destruct (safe_queue_full _ _ _ Hs 0%nat) as [h Hh]; [lia|].
  pose proof (queued_head_slot _ _ _ _ Hs Hh) as Eh.
  assert (Hwfh : wf_instr (table h)).
  { destruct Hwf as [_ Hwf']. apply Hwf'.
    pose proof (safe_queue_range _ _ _ Hs 0%nat h Hh). lia. }
  assert (Eop : op (mem st h) = op (table h)) by apply Hs.
  pose proof (live_queue_code _ _ _ Hl 0%nat h Hh) as Htrap.
  pose proof (wf_class _ Hwfh) as Hclass. rewrite Htrap in Hclass. simpl in Hclass.
  assert (Hstep : ∃ st', dispatch_To_issue c st = Ok st').
  { unfold dispatch_To_issue. rewrite Esz, Eh. simpl. rewrite Eop.
    destruct (IS_UNCOND_CTRL (op (table h)) || IS_COND_CTRL (op (table h))) eqn:Ectl;
      [by eexists|].
    destruct (USES_FP_FU (op (table h))) eqn:Efp.
    { destruct (first_free _) as [i|]; [|by eexists].
      by apply (issue_head_total N table c st _ h). }
    destruct (USES_INT_FU (op (table h))) eqn:Eint; [|done].
    destruct (first_free _) as [i|]; [|by eexists].
    by apply (issue_head_total N table c st _ h). }
  destruct Hstep as [st' Hstep]. exists st'. split; [done|].
  pose proof (safe_dispatch_To_issue _ _ _ _ _ Hwf Hs Hstep) as Hs'.
  destruct (dispatch_To_issue_Ok c st st' (safe_head _ _ _ Hs) Hstep)
    as [[E _]|(h' & Hh' & Hcases)]; [lia|].
  assert (h' = h) as ->.
  { pose proof (queued_head_slot _ _ _ _ Hs Hh'). congruence. }
  destruct (safe_queue_head_fresh _ _ _ _ Hs Hh) as (HhRS & Hhbus & Hyoung & Hsz).
  simpl in Hcases.
  destruct Hcases as [[_ ->]|[(_ & _ & _ & ->)|[(_ & _ & i & Ei & H)|
                     [(_ & _ & _ & _ & ->)|(_ & _ & _ & i & Ei & H)]]]]; try done.
  - by apply live_set_doneCount, live_pop_head.
  - pose proof (first_free_firstn _ _ _ Ei) as Esl.
    apply (live_admit N table c st _ st' h Hwf Hl Hh Hs') in H; try done.
    intros y. unfold in_RS. simpl. split.
    + intros [Hy|Hy]; [by left; left|].
      apply holds_insert in Hy as [[= ->]|Hy]; [by right|by left; right].
    + intros [[Hy|Hy]| ->]; [by left|right; by apply holds_insert_mono|].
      right. exists i. apply slot_insert_here.
      apply first_free_spec in Ei as [_ Hi]. rewrite length_firstn in Hi. lia.
  - pose proof (first_free_firstn _ _ _ Ei) as Esl.
    apply (live_admit N table c st _ st' h Hwf Hl Hh Hs') in H; try done.
    intros y. unfold in_RS. simpl. split.
    + intros [Hy|Hy]; [|by left; right].
      apply holds_insert in Hy as [[= ->]|Hy]; [by right|by left; left].
    + intros [[Hy|Hy]| ->]; [left; by apply holds_insert_mono|by right|].
      left. exists i. apply slot_insert_here.
      apply first_free_spec in Ei as [_ Hi]. rewrite length_firstn in Hi. lia.
Qed.

(** *** fetch_To_dispatch *)

(** The loop of [fetch] finds an instruction when the trace still holds
    one that is no trap. *)
Lemma fetch_loop_total rounds N st :
  0 <= fetch_index st < N → Z.of_nat rounds = N - fetch_index st →
  IS_TRAP (op (mem st N)) = false →
  ∃ a, fetch_loop rounds N st = Ok a.
Proof.
  revert st. induction rounds as [|r IH]; intros st Hf Hr Ht; [lia|].
  cbn [fetch_loop]. unfold get_instr. simpl.
  destruct (Z.leb_spec 1 (fetch_index st + 1)); [|lia].
  destruct (Z.leb_spec (fetch_index st + 1) N); [|lia]. simpl.
  destruct (IS_TRAP (op (mem st (fetch_index st + 1)))) eqn:E; [|by eexists].
  assert (fetch_index st + 1 ≠ N) by (intros E'; rewrite E' in E; congruence).
  apply IH; simpl; [lia..|done].
Qed.

(** [fetch_To_dispatch] keeps the invariant. *)
Lemma live_fetch_To_dispatch_Ok N table c st st' :
  live N table st → fetch_To_dispatch N c st = Ok st' → live N table st'.
Proof.
  intros Hl Hstep. pose proof (live_safe _ _ _ Hl) as Hs.
  pose proof (live_fetch _ _ _ Hl) as Hfi.
  assert (Htl : (ifq_tail st < INSTR_QUEUE_SIZE)%nat).
  { rewrite (safe_tail _ _ _ Hs). apply queue_mod_lt. }
  pose proof (safe_fetch_To_dispatch _ _ _ _ _ Hs Hstep) as Hs'.
  destruct (fetch_To_dispatch_Ok N c st st' (safe_len_queue _ _ _ Hs) Htl Hstep)
    as [[_ ->]|(new & d & Hsz & Hnew & Hrange & Htrap & _ & _ & E)]; [done|].
  assert (Hm : ∀ p, tom_execute_cycle (mem st' p) = tom_execute_cycle (mem st p) ∧
                    Q (mem st' p) = Q (mem st p)).
  { intros p. rewrite E. simpl. destruct (decide (p = new)) as [->|Hne].
    - rewrite fn_lookup_insert. by destruct (mem st new).
    - by rewrite fn_lookup_insert_ne. }
  assert (Hqd : ∀ k y, queued st' k y ↔
                       queued st k y ∨ (k = instr_queue_size st ∧ y = new)).
  { intros k y. rewrite <- queued_push_tail; [by rewrite E|apply Hs|done|apply Hs]. }
  assert (HRS : ∀ y, in_RS st' y ↔ in_RS st y) by (by rewrite E).
  assert (HFU : ∀ y, in_FU st' y ↔ in_FU st y) by (by rewrite E).
  assert (Hbus : ∀ y, on_bus st' y ↔ on_bus st y) by (by rewrite E).
  assert (Efi : fetch_index st' = new) by (by rewrite E).
  assert (Emap : map_table st' = map_table st) by (by rewrite E).
  constructor; [done|..].
  - rewrite Emap. apply Hl.
  - intros k y Hy. apply Hqd in Hy as [Hy|[_ ->]].
    + by apply (live_queue_code _ _ _ Hl k).
    + assert (Eop : op (mem st new) = op (table new)) by apply Hs. congruence.
  - intros y Hy. destruct (Hm y) as [-> ->]. apply Hl.
    destruct Hy as [[k Hy]|Hy].
    + apply Hqd in Hy as [Hy|[_ ->]]; [left; by exists k|right; lia].
    + right. lia.
  - intros y Hy Hn. destruct (Hm y) as [-> _].
    apply (live_idle _ _ _ Hl y); [by apply HRS|]. intros HF. by apply Hn, HFU.
  - intros y j p Hy Hj Hq. destruct (Hm y) as [_ EQ]. rewrite EQ in Hq.
    apply HRS in Hy. destruct (live_Q _ _ _ Hl y j p Hy Hj Hq) as (? & Hp & ?).
    split_and!; [done| |done]. by rewrite HRS, Hbus.
  - intros r p Hr. rewrite Emap in Hr.
    destruct (live_map _ _ _ Hl r p Hr) as (Hp & ? & ?).
    split_and!; [|done..]. by rewrite HRS, Hbus.
  - lia.
Qed.

Lemma live_fetch_To_dispatch N table c st :
  wf_trace N table → ends_outside_trap N table → live N table st →
  ∃ st', fetch_To_dispatch N c st = Ok st' ∧ live N table st'.
Proof.
  intros Hwf [HN Hend] Hl. pose proof (live_safe _ _ _ Hl) as Hs.
  pose proof (live_fetch _ _ _ Hl) as Hfi.
  assert (Htl : (ifq_tail st < INSTR_QUEUE_SIZE)%nat).
  { rewrite (safe_tail _ _ _ Hs). apply queue_mod_lt. }
  assert (Hstep : ∃ st', fetch_To_dispatch N c st = Ok st').
  { unfold fetch_To_dispatch.
    destruct ((instr_queue_size st <? INSTR_QUEUE_SIZE)%nat && (fetch_index st <? N)) eqn:Ec;
      [|by eexists].
    apply andb_true_iff in Ec as [_ Ec]. apply Z.ltb_lt in Ec.
    destruct (fetch_loop_total (Z.to_nat (N - fetch_index st)) N st) as [[new st1] F];
      [lia|lia| |].
    { assert (Eop : op (mem st N) = op (table N)) by apply Hs.
      rewrite Eop. apply Hend. lia. }
    unfold fetch. rewrite F. cbn [bind].
    apply fetch_loop_Ok in F as (d & -> & _). simpl.
    rewrite slot_insert_here by (by rewrite (safe_len_queue _ _ _ Hs)).
    by eexists. }
  destruct Hstep as [st' Hstep]. exists st'. split; [done|].
  by apply (live_fetch_To_dispatch_Ok N table c st).
Qed.

(** *** Every stage goes through *)

Lemma live_init N table :
  wf_trace N table → 0 <= N → live N table (init_state table).
Proof.
  intros [_ Hwf] HN. constructor; simpl.
  - apply safe_init.
  - apply length_replicate.
  - intros k x [Hk _]. simpl in Hk. lia.
  - intros x [[k [Hk _]]|Hx]; [simpl in Hk; lia|].
    destruct (Hwf x ltac:(lia)) as [HQ He _ _ _ _ _ _]. done.
  - intros x [Hx|Hx]; by destruct (holds_replicate_None _ _ Hx).
  - intros x j p [Hx|Hx]; by destruct (holds_replicate_None _ _ Hx).
  - intros r p Hr. unfold reg_read in Hr. destruct (r <? 0); [done|].
    apply lookup_replicate in Hr as [? _]. done.
  - lia.
Qed.

Lemma live_stage N table c k st :
  wf_trace N table → ends_outside_trap N table → c ≠ 0 →
  live N table st → (k = 1%nat → commonDataBus st = None) →
  ∃ st', stage N c k st = Ok st' ∧ live N table st' ∧
         (k = 0%nat → commonDataBus st' = None).
Proof.
  intros Hwf Hend Hc Hl Hb. destruct k as [|[|[|[|k]]]]; simpl.
  - destruct (live_CDB_To_retire N table c st Hwf Hl) as (st' & E & Hl' & Eb & _).
    by exists st'.
  - destruct (live_execute_To_CDB N table c st Hwf Hl (Hb eq_refl)) as (st' & E & Hl').
    by exists st'.
  - eexists. split; [done|]. split; [by apply live_issue_To_execute|done].
  - destruct (live_dispatch_To_issue N table c st Hwf Hl) as (st' & E & Hl').
    by exists st'.
  - destruct (live_fetch_To_dispatch N table c st Hwf Hend Hl) as (st' & E & Hl').
    by exists st'.
Qed.

(** ** The measure never rises within a cycle *)

Lemma slot_nil i : slot [] i = None.
Proof. unfold slot. by rewrite lookup_nil. Qed.

Lemma pool_weight_sub lat t m a a' :
  (∀ i y, slot a' i = Some y → slot a i = Some y) →
  pool_weight lat t m a' <= pool_weight lat t m a.
Proof.
  revert a. induction a' as [|s a' IH]; intros a H; [apply pool_weight_nonneg|].
  destruct a as [|s0 a].
  - rewrite pool_weight_empty; [done|]. intros y [i Hi].
    apply H in Hi. by rewrite slot_nil in Hi.
  - assert (pool_weight lat t m a' <= pool_weight lat t m a).
    { apply IH. intros i y Hy. apply (H (S i) y). by rewrite slot_cons_S. }
    destruct s as [y|]; simpl.
    + specialize (H 0%nat y eq_refl). unfold slot in H. simpl in H. subst s0. lia.
    + destruct s0; [|done]. pose proof (weight_pos lat t (m p)). lia.
Qed.

Lemma pool_weight_sub_at lat t m x i a a' :
  (∀ j y, slot a' j = Some y → slot a j = Some y) →
  slot a i = Some x → slot a' i = None →
  pool_weight lat t m a' <= pool_weight lat t m a - weight lat t (m x).
Proof.
  revert a a'. induction i as [|i IH]; intros a a' H Hi Hi'.
  - destruct a as [|s0 a]; [by rewrite slot_nil in Hi|].
    unfold slot in Hi. simpl in Hi. subst s0. simpl.
    assert (pool_weight lat t m (tail a') <= pool_weight lat t m a).
    { apply pool_weight_sub. intros j y Hy. apply (H (S j) y).
      destruct a' as [|s a']; [by rewrite slot_nil in Hy|]. by rewrite slot_cons_S. }
    destruct a' as [|s a']; simpl in *; [lia|].
    unfold slot in Hi'. simpl in Hi'. subst s. lia.
  - destruct a as [|s0 a]; [by rewrite slot_nil in Hi|].
    rewrite slot_cons_S in Hi.
    assert (pool_weight lat t m (tail a') <= pool_weight lat t m a - weight lat t (m x)).
    { apply IH; [|done|].
      - intros j y Hy. apply (H (S j) y).
        destruct a' as [|s a']; [by rewrite slot_nil in Hy|]. by rewrite slot_cons_S.
      - destruct a' as [|s a']; [apply slot_nil|]. by rewrite slot_cons_S in Hi'. }
    destruct a' as [|s a']; simpl in *.
    + destruct s0; [|lia]. pose proof (weight_pos lat t (m p)). lia.
    + destruct s as [y|].
      * specialize (H 0%nat y eq_refl). unfold slot in H. simpl in H. subst s0. lia.
      * destruct s0; [|lia]. pose proof (weight_pos lat t (m p)). lia.
Qed.

Lemma pool_weight_sub_gone lat t m a a' x :
  (∀ i y, slot a' i = Some y → slot a i = Some y) →
  holds a x → ¬ holds a' x →
  pool_weight lat t m a' <= pool_weight lat t m a - weight lat t (m x).
Proof.
  intros H [i Hi] Hn. apply (pool_weight_sub_at lat t m x i); [done..|].
  destruct (slot a' i) as [y|] eqn:E; [|done].
  pose proof (H i y E). destruct Hn. exists i. congruence.
Qed.

(** What [execute_To_CDB] hands to the bus, for sound structures. *)
Lemma safe_execute_To_CDB_winner N table c st st' :
  wf_trace N table → safe N table st → execute_To_CDB c st = Ok st' →
  ((∀ x, ¬ cdb_candidate st c x) ∧ commonDataBus st' = commonDataBus st) ∨
  (∃ w, commonDataBus st' = Some w ∧ cdb_candidate st c w).
Proof.
  intros Hwf Hs H.
  destruct (execute_To_CDB_winner c st st') as [?|(w & Ew & Cw & _)];
    [| |done|by left|right; by exists w].
  - intros x [[[i (_ & Hx & _)]|[Hx _]] _].
    + destruct (safe_wf_in_RS N table st x Hwf Hs) as [[] (_ & Ei & _)].
      { eapply safe_in_FU_in_RS; [done|]. left. by exists i. }
      lia.
    + destruct (safe_wf_in_RS N table st x Hwf Hs) as [[] (_ & Ei & _)].
      { eapply safe_in_FU_in_RS; [done|]. right. by exists 0%nat. }
      lia.
  - intros x Hx. assert (Hh : holds (reservFP st) x).
    { apply Hs. by exists 0%nat. }
    apply (safe_rs_fp_class _ _ _ Hs) in Hh as [Hi _].
    destruct (safe_code _ _ _ Hs x) as (-> & _).
    by apply USES_INT_FU_false_not_store.
Qed.

(** [execute_To_CDB] lowers the measure when an occupant of a functional
    unit has had its latency. *)
Lemma potential_execute_To_CDB N table c st st' t :
  wf_trace N table → safe N table st → commonDataBus st = None →
  execute_To_CDB c st = Ok st' →
  potential N t st' <= potential N t st ∧
  (∀ x, (∃ i, finished_int st c i x) ∨ finished_fp st c x →
        potential N t st' <= potential N t st - 1).
Proof.
  intros Hwf Hs Eb H.
  pose proof (safe_execute_To_CDB _ _ _ _ _ Hs H) as Hs'.
  pose proof (execute_To_CDB_frame _ _ _ H)
    as (_ & _ & Esz & _ & _ & Efi & Hm & _ & _ & Hri & Hrf).
  assert (Ei : pool_weight FU_INT_LATENCY t (mem st') (reservINT st')
               = pool_weight FU_INT_LATENCY t (mem st) (reservINT st')).
  { apply pool_weight_ext. intros x _. apply Hm. }
  assert (Ef : pool_weight FU_FP_LATENCY t (mem st') (reservFP st')
               = pool_weight FU_FP_LATENCY t (mem st) (reservFP st')).
  { apply pool_weight_ext. intros x _. apply Hm. }
  pose proof (pool_weight_sub FU_INT_LATENCY t (mem st) _ _ Hri) as Li.
  pose proof (pool_weight_sub FU_FP_LATENCY t (mem st) _ _ Hrf) as Lf.
  assert (Hgone : ∀ x, in_RS st x → ¬ in_RS st' x →
            pool_weight FU_INT_LATENCY t (mem st) (reservINT st')
            + pool_weight FU_FP_LATENCY t (mem st) (reservFP st')
            <= pool_weight FU_INT_LATENCY t (mem st) (reservINT st)
               + pool_weight FU_FP_LATENCY t (mem st) (reservFP st) - 2).
  { intros x [Hx|Hx] Hn.
    - pose proof (pool_weight_sub_gone FU_INT_LATENCY t (mem st) _ _ x Hri Hx
                    (λ H', Hn (or_introl H'))).
      pose proof (weight_pos FU_INT_LATENCY t (mem st x)). lia.
    - pose proof (pool_weight_sub_gone FU_FP_LATENCY t (mem st) _ _ x Hrf Hx
                    (λ H', Hn (or_intror H'))).
      pose proof (weight_pos FU_FP_LATENCY t (mem st x)). lia. }
  unfold potential. rewrite Ei, Ef, Esz, Efi, Eb.
  destruct (safe_execute_To_CDB_winner _ _ _ _ _ Hwf Hs H) as [[Hn E]|(w & Ew & Cw)].
  - rewrite E, Eb. split; [lia|]. intros x Hx.
    assert (Hst : IS_STORE (op (mem st x)) = true).
    { destruct (IS_STORE (op (mem st x))) eqn:E'; [done|]. by destruct (Hn x). }
    destruct Hx as [[i Hx]|[Hx _]].
    + destruct (execute_To_CDB_store_gone c st st' i x) as [_ Hg];
        [apply Hs|apply Hs|done..|].
      assert (HxR : holds (reservINT st) x).
      { apply Hs. destruct Hx as (_ & Hx & _). by exists i. }
      pose proof (pool_weight_sub_gone FU_INT_LATENCY t (mem st) _ _ x Hri HxR Hg).
      pose proof (weight_pos FU_INT_LATENCY t (mem st x)). lia.
    + assert (Hh : holds (reservFP st) x) by (apply Hs; by exists 0%nat).
      apply (safe_rs_fp_class _ _ _ Hs) in Hh as [Hi _].
      destruct (safe_code _ _ _ Hs x) as (Eop & _). rewrite Eop in Hst.
      apply IS_STORE_USES_INT_FU in Hst. congruence.
  - rewrite Ew.
    assert (HwR : in_RS st w).
    { apply (safe_in_FU_in_RS N table); [done|].
      destruct Cw as [[[i (_ & Hw & _)]|[Hw _]] _]; [left; by exists i|right; by exists 0%nat]. }
    specialize (Hgone w HwR (safe_bus_free _ _ _ Hs' w Ew)).
    split; [lia|]. intros. lia.
Qed.

(** Without such an occupant the stage leaves the variables alone. *)
Lemma execute_To_CDB_idle c st :
  (∀ i x, slot (fuINT st) i = Some x →
          c < tom_execute_cycle (mem st x) + FU_INT_LATENCY) →
  (∀ x, slot (fuFP st) 0 = Some x → c < tom_execute_cycle (mem st x) + FU_FP_LATENCY) →
  execute_To_CDB c st = Ok st.
Proof.
  intros Hi Hf.
  assert (Hslot : ∀ i, execute_int_slot c i (st, -1, None) = Ok (st, -1, None)).
  { intros i. unfold execute_int_slot. destruct (slot (fuINT st) i) as [x|] eqn:E; [|done].
    specialize (Hi i x E). destruct (Z.geb_spec c (tom_execute_cycle (mem st x) + FU_INT_LATENCY));
      [lia|done]. }
  assert (Hloop : ∀ l, execute_int_loop c l (st, -1, None) = Ok (st, -1, None)).
  { induction l as [|i l IH]; [done|]. cbn [execute_int_loop]. rewrite Hslot. by cbn [bind]. }
  unfold execute_To_CDB. rewrite Hloop. cbn [bind]. unfold execute_fp_slot.
  destruct (slot (fuFP st) 0) as [x|] eqn:E; [|done].
  specialize (Hf x eq_refl).
  destruct (Z.geb_spec c (tom_execute_cycle (mem st x) + FU_FP_LATENCY)); [lia|done].
Qed.

(** An instruction that starts to execute lowers the measure. *)
Lemma potential_start N t c st st' x :
  c ≠ 0 → c <= t → tom_execute_cycle (mem st x) = 0 →
  fetch_index st' = fetch_index st → instr_queue_size st' = instr_queue_size st →
  reservINT st' = reservINT st → reservFP st' = reservFP st →
  commonDataBus st' = commonDataBus st →
  mem st' = <[x := set_tom_execute_cycle c (mem st x)]> (mem st) →
  potential N t st' <= potential N t st ∧
  (in_RS st x → potential N t st' <= potential N t st - 1).
Proof.
  intros Hc Ht E Efi Esz Eri Erf Eb Em. unfold potential.
  rewrite Efi, Esz, Eri, Erf, Eb, Em.
  set (m' := <[x := set_tom_execute_cycle c (mem st x)]> (mem st)).
  assert (Hx : ∀ lat, 0 <= lat <= 9 → weight lat t (m' x) <= weight lat t (mem st x) - 1).
  { intros lat Hlat. unfold m'. rewrite fn_lookup_insert. by apply weight_start. }
  assert (Hw : ∀ lat, 0 <= lat <= 9 → ∀ y, weight lat t (m' y) <= weight lat t (mem st y)).
  { intros lat Hlat y. destruct (decide (y = x)) as [->|Hne].
    - specialize (Hx lat Hlat). lia.
    - unfold m'. rewrite fn_lookup_insert_ne by done. lia. }
  assert (Hi : 0 <= FU_INT_LATENCY <= 9) by (unfold FU_INT_LATENCY; lia).
  assert (Hf : 0 <= FU_FP_LATENCY <= 9) by (unfold FU_FP_LATENCY; lia).
  pose proof (pool_weight_le FU_INT_LATENCY t t (mem st) m' (reservINT st)
                (λ y _, Hw _ Hi y)) as Li.
  pose proof (pool_weight_le FU_FP_LATENCY t t (mem st) m' (reservFP st)
                (λ y _, Hw _ Hf y)) as Lf.
  split; [lia|]. intros [H|H].
  - pose proof (pool_weight_lt FU_INT_LATENCY t t (mem st) m' (reservINT st) x
                  (λ y _, Hw _ Hi y) H (Hx _ Hi)). lia.
  - pose proof (pool_weight_lt FU_FP_LATENCY t t (mem st) m' (reservFP st) x
                  (λ y _, Hw _ Hf y) H (Hx _ Hf)). lia.
Qed.

Lemma potential_issue_int_slot N t c st i :
  c ≠ 0 → c <= t → potential N t (issue_int_slot c st i) <= potential N t st.
Proof.
  intros Hc Ht.
  destruct (issue_int_slot_cases c st i) as [->|(j & x & _ & Eo & Ex & ->)]; [done|].
  apply oldest_rs_int_Some in Eo as (_ & Hr & _). rewrite Ex in Hr.
  apply ready_Some in Hr as [He _].
  by apply (potential_start N t c st _ x).
Qed.

Lemma potential_issue_fp_slot N t c st i :
  c ≠ 0 → c <= t → potential N t (issue_fp_slot c st i) <= potential N t st.
Proof.
  intros Hc Ht.
  destruct (issue_fp_slot_cases c st i) as [->|(j & x & _ & Eo & Ex & ->)]; [done|].
  apply oldest_rs_fp_Some in Eo as (_ & Hr & _). rewrite Ex in Hr.
  apply ready_Some in Hr as [He _].
  by apply (potential_start N t c st _ x).
Qed.

(** A free unit takes a ready instruction of its bank. *)
Lemma potential_issue_int_slot_starts N t c st i x :
  c ≠ 0 → c <= t → length (reservINT st) = RESERV_INT_SIZE →
  fuINT st !! i = Some None → holds (reservINT st) x → ready (mem st) (Some x) = true →
  potential N t (issue_int_slot c st i) <= potential N t st - 1.
Proof.
  intros Hc Ht Hlen Efu [j0 Hx] Hr. unfold issue_int_slot. rewrite Efu.
  destruct (oldest_rs_int (mem st) (reservINT st)) as [j|] eqn:Eo.
  - apply oldest_rs_int_Some in Eo as (_ & Hj & _).
    destruct (ready_occupied _ _ Hj) as [y Ey]. rewrite Ey in Hj |- *.
    apply ready_Some in Hj as [He _].
    apply (potential_start N t c st _ y); try done. left. by exists j.
  - pose proof (proj1 (oldest_rs_int_None _ _) Eo j0) as Hn.
    rewrite Hx, Hr in Hn. rewrite <- Hlen in Hn.
    by specialize (Hn (slot_Some_lt _ _ _ Hx)).
Qed.

Lemma potential_issue_fp_slot_starts N t c st i x :
  c ≠ 0 → c <= t → length (reservFP st) = RESERV_FP_SIZE →
  fuFP st !! i = Some None → holds (reservFP st) x → ready (mem st) (Some x) = true →
  potential N t (issue_fp_slot c st i) <= potential N t st - 1.
Proof.
  intros Hc Ht Hlen Efu [j0 Hx] Hr. unfold issue_fp_slot. rewrite Efu.
  destruct (oldest_rs_fp (mem st) (reservFP st)) as [j|] eqn:Eo.
  - apply oldest_rs_fp_Some in Eo as (_ & Hj & _).
    destruct (ready_occupied _ _ Hj) as [y Ey]. rewrite Ey in Hj |- *.
    apply ready_Some in Hj as [He _].
    apply (potential_start N t c st _ y); try done. right. by exists j.
  - pose proof (proj1 (oldest_rs_fp_None _ _) Eo j0) as Hn.
    rewrite Hx, Hr in Hn. rewrite <- Hlen in Hn.
    by specialize (Hn (slot_Some_lt _ _ _ Hx)).
Qed.

Lemma issue_To_execute_slots c st :
  issue_To_execute c st
  = issue_fp_slot c (issue_int_slot c (issue_int_slot c st 0) 1) 0.
Proof. done. Qed.

Lemma potential_issue_To_execute N t c st :
  c ≠ 0 → c <= t → potential N t (issue_To_execute c st) <= potential N t st.
Proof.
  intros Hc Ht. rewrite issue_To_execute_slots.
  pose proof (potential_issue_int_slot N t c st 0 Hc Ht).
  pose proof (potential_issue_int_slot N t c (issue_int_slot c st 0) 1 Hc Ht).
  pose proof (potential_issue_fp_slot N t c
                (issue_int_slot c (issue_int_slot c st 0) 1) 0 Hc Ht).
  lia.
Qed.

(** The integer units leave the floating-point bank alone. *)
Lemma issue_int_slot_fp c st i :
  fuFP (issue_int_slot c st i) = fuFP st ∧
  ∀ p, ¬ holds (reservINT st) p →
       tom_execute_cycle (mem (issue_int_slot c st i) p) = tom_execute_cycle (mem st p).
Proof.
  destruct (issue_int_slot_cases c st i) as [->|(j & x & _ & _ & Ex & ->)]; [done|].
  split; [done|]. intros p Hp. simpl. rewrite fn_lookup_insert_ne; [done|].
  intros ->. apply Hp. by exists j.
Qed.

Lemma empty_unit_slot (a : list (option ptr)) i :
  (i < length a)%nat → (∀ y, ¬ holds a y) → a !! i = Some None.
Proof.
  intros Hi Hn. destruct (lookup_lt_is_Some_2 a i Hi) as [s Es].
  destruct s as [y|]; [|done]. destruct (Hn y). exists i. unfold slot. by rewrite Es.
Qed.

(** With the units empty, a ready instruction makes [issue_To_execute]
    lower the measure. *)
Lemma potential_issue_To_execute_starts N table t c st x :
  c ≠ 0 → c <= t → safe N table st → (∀ y, ¬ in_FU st y) →
  in_RS st x → ready (mem st) (Some x) = true →
  potential N t (issue_To_execute c st) <= potential N t st - 1.
Proof.
  intros Hc Ht Hs Hn Hx Hr. rewrite issue_To_execute_slots.
  set (s1 := issue_int_slot c st 0). set (s2 := issue_int_slot c s1 1).
  pose proof (potential_issue_int_slot N t c st 0 Hc Ht) as L1. fold s1 in L1.
  pose proof (potential_issue_int_slot N t c s1 1 Hc Ht) as L2. fold s2 in L2.
  pose proof (potential_issue_fp_slot N t c s2 0 Hc Ht) as L3.
  destruct Hx as [Hx|Hx].
  - assert (potential N t s1 <= potential N t st - 1); [|lia].
    apply (potential_issue_int_slot_starts N t c st 0 x); try done; [apply Hs|].
    apply empty_unit_slot.
    + rewrite (safe_len_fuINT _ _ _ Hs). unfold FU_INT_SIZE. lia.
    + intros y Hy. apply (Hn y). by left.
  - assert (potential N t (issue_fp_slot c s2 0) <= potential N t s2 - 1); [|lia].
    pose proof (issue_int_slot_frame c st 0) as F1. fold s1 in F1.
    pose proof (issue_int_slot_frame c s1 1) as F2. fold s2 in F2.
    pose proof (issue_frame_trans _ _ _ F1 F2)
      as (_ & _ & _ & _ & _ & _ & Eri & Erf & _ & _ & Hm).
    destruct F1 as (_ & _ & _ & _ & _ & _ & Eri1 & _).
    destruct (issue_int_slot_fp c st 0) as [Ef1 He1]. fold s1 in Ef1, He1.
    destruct (issue_int_slot_fp c s1 1) as [Ef2 He2]. fold s2 in Ef2, He2.
    assert (Hxi : ¬ holds (reservINT st) x).
    { intros Hi. by apply (safe_pools_apart N table st x). }
    apply (potential_issue_fp_slot_starts N t c s2 0 x); try done.
    + rewrite Erf. apply Hs.
    + rewrite Ef2, Ef1. apply empty_unit_slot.
      * rewrite (safe_len_fuFP _ _ _ Hs). unfold FU_FP_SIZE. lia.
      * intros y Hy. apply (Hn y). by right.
    + by rewrite Erf.
    + apply ready_Some in Hr as [He HQ]. unfold ready.
      destruct (Hm x) as [_ ->]. rewrite HQ.
      rewrite He2, He1, He by (by rewrite ?Eri1). done.
Qed.

Lemma first_free_empty n a :
  (0 < n)%nat → (0 < length a)%nat → (∀ y, ¬ holds a y) → first_free (firstn n a) ≠ None.
Proof.
  intros Hn Hl He H. pose proof (first_free_None _ H 0%nat) as Hx.
  rewrite length_take in Hx. destruct Hx as [x Hx]; [lia|].
  unfold slot in Hx. rewrite lookup_take_lt in Hx by lia.
  destruct (He x). by exists 0%nat.
Qed.

(** [dispatch_To_issue] lowers the measure unless the queue is empty or
    the head has to wait for a reservation station. *)
Lemma potential_dispatch_To_issue N table c st st' t :
  live N table st → dispatch_To_issue c st = Ok st' →
  potential N t st' <= potential N t st ∧
  ((0 < instr_queue_size st)%nat → (∀ y, ¬ in_RS st y) →
   potential N t st' <= potential N t st - 1).
Proof.
  intros Hl H. pose proof (live_safe _ _ _ Hl) as Hs.
  destruct (dispatch_To_issue_Ok c st st' (safe_head _ _ _ Hs) H)
    as [[E ->]|(h & Hh & Hcases)]; [split; [lia|intros; lia]|].
  assert (Hsz : (0 < instr_queue_size st)%nat) by apply Hh.
  assert (Hw : ∀ lat, weight lat t (mem st h) = 12).
  { intros lat. unfold weight.
    destruct (live_pristine _ _ _ Hl h) as [-> _]; [left; by exists 0%nat|done]. }
  simpl in Hcases.
  destruct Hcases as [[_ ->]|[(_ & _ & Ef & ->)|[(_ & _ & i & Ei & Hi)|
                     [(_ & _ & _ & Ef & ->)|(_ & _ & _ & i & Ei & Hi)]]]].
  - unfold potential. simpl. split; [lia|intros; lia].
  - split; [lia|]. intros _ Hn. destruct (first_free_empty RESERV_FP_SIZE (reservFP st)).
    + unfold RESERV_FP_SIZE. lia.
    + rewrite (safe_len_reservFP _ _ _ Hs). unfold RESERV_FP_SIZE. lia.
    + intros y Hy. apply (Hn y). by right.
    + done.
  - pose proof (first_free_firstn _ _ _ Ei) as Esl.
    apply first_free_spec in Ei as [_ Hlt]. rewrite length_take in Hlt.
    apply issue_head_Ok in Hi as (m & mt & -> & Hm). unfold potential. simpl.
    rewrite (pool_weight_ext _ t (mem st) m (reservINT st)) by (intros; apply Hm).
    rewrite (pool_weight_ext _ t (mem st) m (<[i:=Some h]> (reservFP st)))
      by (intros; apply Hm).
    rewrite pool_weight_insert_Some, Hw by (done || lia).
    split; [lia|intros; lia].
  - split; [lia|]. intros _ Hn. destruct (first_free_empty RESERV_INT_SIZE (reservINT st)).
    + unfold RESERV_INT_SIZE. lia.
    + rewrite (safe_len_reservINT _ _ _ Hs). unfold RESERV_INT_SIZE. lia.
    + intros y Hy. apply (Hn y). by left.
    + done.
  - pose proof (first_free_firstn _ _ _ Ei) as Esl.
    apply first_free_spec in Ei as [_ Hlt]. rewrite length_take in Hlt.
    apply issue_head_Ok in Hi as (m & mt & -> & Hm). unfold potential. simpl.
    rewrite (pool_weight_ext _ t (mem st) m (<[i:=Some h]> (reservINT st)))
      by (intros; apply Hm).
    rewrite (pool_weight_ext _ t (mem st) m (reservFP st)) by (intros; apply Hm).
    rewrite pool_weight_insert_Some, Hw by (done || lia).
    split; [lia|intros; lia].
Qed.

(** [fetch_To_dispatch] lowers the measure when it fetches. *)
Lemma potential_fetch_To_dispatch N table c st st' t :
  safe N table st → fetch_To_dispatch N c st = Ok st' →
  potential N t st' <= potential N t st ∧
  ((instr_queue_size st < INSTR_QUEUE_SIZE)%nat → fetch_index st < N →
   potential N t st' <= potential N t st - 1).
Proof.
  intros Hs H.
  assert (Htl : (ifq_tail st < INSTR_QUEUE_SIZE)%nat).
  { rewrite (safe_tail _ _ _ Hs). apply queue_mod_lt. }
  destruct (fetch_To_dispatch_Ok N c st st' (safe_len_queue _ _ _ Hs) Htl H)
    as [[Hc ->]|(new & d & Hsz & Hnew & Hrange & _ & _ & _ & ->)].
  - split; [lia|]. intros. lia.
  - unfold potential. simpl.
    set (m := <[new := set_tom_dispatch_cycle c (mem st new)]> (mem st)).
    assert (Hm : ∀ p, tom_execute_cycle (m p) = tom_execute_cycle (mem st p)).
    { intros p. unfold m. destruct (decide (p = new)) as [->|Hne].
      - rewrite fn_lookup_insert. by destruct (mem st new).
      - by rewrite fn_lookup_insert_ne. }
    rewrite (pool_weight_ext _ t (mem st) m (reservINT st)) by (intros; apply Hm).
    rewrite (pool_weight_ext _ t (mem st) m (reservFP st)) by (intros; apply Hm).
    split; [lia|intros; lia].
Qed.

(** No stage raises the measure. *)
Lemma potential_stage N table c k st st' t :
  wf_trace N table → c ≠ 0 → c <= t → live N table st →
  (k = 1%nat → commonDataBus st = None) →
  stage N c k st = Ok st' → potential N t st' <= potential N t st.
Proof.
  intros Hwf Hc Ht Hl Hb H. pose proof (live_safe _ _ _ Hl) as Hs.
  destruct k as [|[|[|[|k]]]]; simpl in H.
  - destruct (live_CDB_To_retire N table c st Hwf Hl) as (s & E & _ & _ & Hp).
    rewrite E in H. injection H as <-. rewrite Hp. destruct (commonDataBus st); lia.
  - by apply (potential_execute_To_CDB N table c st st' t Hwf Hs (Hb eq_refl) H).
  - injection H as <-. by apply potential_issue_To_execute.
  - by apply (potential_dispatch_To_issue N table c st st' t).
  - by apply (potential_fetch_To_dispatch N table c st st' t).
Qed.

(** ** Every cycle lowers the measure: the loop comes to its exit *)

Lemma pool_min_dec (a : list (option ptr)) :
  (∀ y, ¬ holds a y) ∨ ∃ x, holds a x ∧ ∀ y, holds a y → x <= y.
Proof.
  induction a as [|s a IH]; [left; apply holds_nil|].
  destruct s as [z|], IH as [He|(x & Hx & Hmin)].
  - right. exists z. split; [by apply holds_cons_here|].
    intros y Hy. apply holds_cons_inv in Hy as [[= ->]|Hy]; [lia|by destruct (He y)].
  - right. exists (Z.min z x). split.
    + destruct (Z.min_spec z x) as [[_ ->]|[_ ->]];
        [by apply holds_cons_here|by apply holds_cons_later].
    + intros y Hy. apply holds_cons_inv in Hy as [[= ->]|Hy]; [lia|].
      specialize (Hmin y Hy). lia.
  - left. intros y Hy. apply holds_cons_inv in Hy as [[=]|Hy]. by apply (He y).
  - right. exists x. split; [by apply holds_cons_later|].
    intros y Hy. apply holds_cons_inv in Hy as [[=]|Hy]. by apply Hmin.
Qed.

Lemma RS_min_dec st :
  (∀ y, ¬ in_RS st y) ∨ ∃ x, in_RS st x ∧ ∀ y, in_RS st y → x <= y.
Proof.
  destruct (pool_min_dec (reservINT st)) as [Hi|(xi & Hxi & Hmi)],
           (pool_min_dec (reservFP st)) as [Hf|(xf & Hxf & Hmf)].
  - left. intros y [H|H]; [by apply (Hi y)|by apply (Hf y)].
  - right. exists xf. split; [by right|].
    intros y [H|H]; [by destruct (Hi y)|by apply Hmf].
  - right. exists xi. split; [by left|].
    intros y [H|H]; [by apply Hmi|by destruct (Hf y)].
  - right. exists (Z.min xi xf). split.
    + destruct (Z.min_spec xi xf) as [[_ ->]|[_ ->]]; [by left|by right].
    + intros y [H|H]; [specialize (Hmi y H)|specialize (Hmf y H)]; lia.
Qed.

Lemma FU_empty_dec st : (∀ y, ¬ in_FU st y) ∨ ∃ x, in_FU st x.
Proof.
  destruct (pool_min_dec (fuINT st)) as [Hi|(xi & Hxi & _)]; [|right; exists xi; by left].
  destruct (pool_min_dec (fuFP st)) as [Hf|(xf & Hxf & _)]; [|right; exists xf; by right].
  left. intros y [H|H]; [by apply (Hi y)|by apply (Hf y)].
Qed.

Lemma pool_finished_dec lat c (m : ptr → instruction_t) (a : list (option ptr)) :
  (∃ i x, slot a i = Some x ∧ tom_execute_cycle (m x) + lat <= c) ∨
  (∀ i x, slot a i = Some x → c < tom_execute_cycle (m x) + lat).
Proof.
  induction a as [|s a IH].
  { right. intros i x H. by rewrite slot_nil in H. }
  destruct IH as [(i & x & Hi & Hx)|Hn].
  { left. exists (S i), x. by rewrite slot_cons_S. }
  destruct s as [z|].
  - destruct (Z_le_gt_dec (tom_execute_cycle (m z) + lat) c) as [Hz|Hz].
    + left. by exists 0%nat, z.
    + right. intros [|i] x H.
      * unfold slot in H. simpl in H. injection H as <-. lia.
      * rewrite slot_cons_S in H. by apply (Hn i).
  - right. intros [|i] x H; [done|]. rewrite slot_cons_S in H. by apply (Hn i).
Qed.

Lemma occupancy_empty a : (∀ y, ¬ holds a y) → occupancy a = 0%nat.
Proof.
  induction a as [|[x|] a IH]; intros H; simpl; [done| |].
  - by destruct (H x (holds_cons_here _ a x eq_refl)).
  - apply IH. intros y Hy. apply (H y). by apply holds_cons_later.
Qed.

(** With the units and the bus empty, the oldest occupant of the
    reservation stations is ready: what it could wait for is older and
    still in a station. *)
Lemma live_oldest_ready N table st x :
  live N table st → commonDataBus st = None → (∀ y, ¬ in_FU st y) →
  in_RS st x → (∀ y, in_RS st y → x <= y) → ready (mem st) (Some x) = true.
Proof.
  intros Hl Eb Hn Hx Hmin. unfold ready.
  rewrite (live_idle _ _ _ Hl x Hx (Hn x)).
  assert (HQ : ∀ j, (j < 3)%nat → at3 (Q (mem st x)) j = None).
  { intros j Hj. destruct (at3 (Q (mem st x)) j) as [p|] eqn:E; [|done].
    destruct (live_Q _ _ _ Hl x j p Hx Hj E) as (Hlt & [Hp|Hp] & _).
    - specialize (Hmin p Hp). lia.
    - unfold on_bus in Hp. congruence. }
  by rewrite !HQ by lia.
Qed.

(** An instruction still executing comes one cycle nearer to its end. *)
Lemma potential_tick_busy N table c st x :
  safe N table st → in_FU st x →
  (∀ i y, slot (fuINT st) i = Some y → c < tom_execute_cycle (mem st y) + FU_INT_LATENCY) →
  (∀ i y, slot (fuFP st) i = Some y → c < tom_execute_cycle (mem st y) + FU_FP_LATENCY) →
  potential N (c + 1) st <= potential N c st - 1.
Proof.
  intros Hs Hx Hi Hf. unfold potential.
  pose proof (safe_fu_exec _ _ _ Hs x Hx) as He.
  assert (Li : pool_weight FU_INT_LATENCY (c + 1) (mem st) (reservINT st)
               <= pool_weight FU_INT_LATENCY c (mem st) (reservINT st))
    by (apply pool_weight_le; intros; apply weight_tick).
  assert (Lf : pool_weight FU_FP_LATENCY (c + 1) (mem st) (reservFP st)
               <= pool_weight FU_FP_LATENCY c (mem st) (reservFP st))
    by (apply pool_weight_le; intros; apply weight_tick).
  destruct Hx as [Hx|Hx].
  - assert (pool_weight FU_INT_LATENCY (c + 1) (mem st) (reservINT st)
            <= pool_weight FU_INT_LATENCY c (mem st) (reservINT st) - 1); [|lia].
    apply (pool_weight_lt _ _ _ _ _ _ x); [intros; apply weight_tick|by apply Hs|].
    destruct Hx as [i Hx]. apply weight_tick_busy; [done|by apply (Hi i)].
  - assert (pool_weight FU_FP_LATENCY (c + 1) (mem st) (reservFP st)
            <= pool_weight FU_FP_LATENCY c (mem st) (reservFP st) - 1); [|lia].
    apply (pool_weight_lt _ _ _ _ _ _ x); [intros; apply weight_tick|by apply Hs|].
    destruct Hx as [i Hx]. apply weight_tick_busy; [done|by apply (Hi i) || by apply (Hf i)].
Qed.

(** One pass through the loop body, begun with instructions left to
    retire, goes through and lowers the measure: the bus is emptied, or a
    unit is freed, or an instruction comes nearer to the end of its
    latency, or one starts to execute, or the head of the queue is
    dispatched, or an instruction is fetched. *)
Lemma cycle_progress N table c st :
  wf_trace N table → ends_outside_trap N table → c ≠ 0 →
  live N table st → accounted st → doneCount st ≠ N →
  ∃ st', stages N c st = Ok st' ∧ live N table st' ∧
         potential N (c + 1) st' <= potential N c st - 1.
Proof.
  intros Hwf Hend Hc Hl Ha Hd. pose proof (live_safe _ _ _ Hl) as Hs.
  destruct (live_CDB_To_retire N table c st Hwf Hl) as (s1 & E1 & Hl1 & Eb1 & P1).
  destruct (live_execute_To_CDB N table c s1 Hwf Hl1 Eb1) as (s2 & E2 & Hl2).
  pose proof (live_issue_To_execute N table c s2 Hc Hl2) as Hl3.
  destruct (live_dispatch_To_issue N table c (issue_To_execute c s2) Hwf Hl3)
    as (s4 & E4 & Hl4).
  destruct (live_fetch_To_dispatch N table c s4 Hwf Hend Hl4) as (s5 & E5 & Hl5).
  exists s5. split.
  { unfold stages. rewrite E1. cbn [bind]. rewrite E2. cbn [bind]. by rewrite E4. }
  split; [done|].
  assert (Mono : ∀ t, c <= t →
    potential N t s5 <= potential N t s4 ∧
    potential N t s4 <= potential N t (issue_To_execute c s2) ∧
    potential N t (issue_To_execute c s2) <= potential N t s2 ∧
    potential N t s2 <= potential N t s1 ∧
    potential N t s1 <= potential N t st).
  { intros t Ht. split_and!.
    - by apply (potential_fetch_To_dispatch N table c s4 s5 t (live_safe _ _ _ Hl4) E5).
    - by apply (potential_dispatch_To_issue N table c _ s4 t Hl3 E4).
    - by apply potential_issue_To_execute.
    - by apply (potential_execute_To_CDB N table c s1 s2 t Hwf (live_safe _ _ _ Hl1) Eb1 E2).
    - rewrite P1. destruct (commonDataBus st); lia. }
  destruct (Mono c ltac:(lia)) as (M5 & M4 & M3 & M2 & M1).
  pose proof (potential_tick N c s5) as T5.
  destruct (commonDataBus st) as [b|] eqn:Eb.
  { specialize (P1 c). lia. }
  assert (s1 = st) as ->.
  { unfold CDB_To_retire in E1. rewrite Eb in E1. by injection E1. }
  destruct (pool_finished_dec FU_INT_LATENCY c (mem st) (fuINT st))
    as [(i & x & Hi & Hx)|Hni].
  { destruct (potential_execute_To_CDB N table c st s2 c Hwf Hs Eb E2) as [_ Hstrict].
    assert (finished_int st c i x).
    { split_and!; [|done..]. rewrite <- (safe_len_fuINT _ _ _ Hs). by eapply slot_Some_lt. }
    specialize (Hstrict x (or_introl (ex_intro _ i H))). lia. }
  destruct (pool_finished_dec FU_FP_LATENCY c (mem st) (fuFP st))
    as [(i & x & Hi & Hx)|Hnf].
  { destruct (potential_execute_To_CDB N table c st s2 c Hwf Hs Eb E2) as [_ Hstrict].
    assert (i = 0%nat) as ->.
    { pose proof (slot_Some_lt _ _ _ Hi) as Hlt.
      rewrite (safe_len_fuFP _ _ _ Hs) in Hlt. unfold FU_FP_SIZE in Hlt. lia. }
    specialize (Hstrict x (or_intror (conj Hi Hx))). lia. }
  assert (s2 = st) as ->.
  { rewrite execute_To_CDB_idle in E2; [by injection E2|done|]. intros. by apply (Hnf 0%nat). }
  destruct (FU_empty_dec st) as [Hfu|[x Hx]].
  2:{ pose proof (potential_tick_busy N table c st x Hs Hx Hni Hnf).
      destruct (Mono (c + 1) ltac:(lia)) as (? & ? & ? & ? & ?). lia. }
  destruct (RS_min_dec st) as [Hrs|(x & Hx & Hmin)].
  2:{ pose proof (potential_issue_To_execute_starts N table c c st x Hc ltac:(lia) Hs Hfu Hx
                    (live_oldest_ready N table st x Hl Eb Hfu Hx Hmin)). lia. }
  pose proof (issue_To_execute_frame c st)
    as (_ & _ & Esz3 & _ & _ & Efi3 & Eri3 & Erf3 & _).
  assert (Hrs3 : ∀ y, ¬ in_RS (issue_To_execute c st) y).
  { intros y. unfold in_RS. rewrite Eri3, Erf3. apply Hrs. }
  destruct (instr_queue_size st) as [|n] eqn:Esz.
  2:{ destruct (potential_dispatch_To_issue N table c _ s4 c Hl3 E4) as [_ Hstrict].
      specialize (Hstrict ltac:(rewrite Esz3; lia) Hrs3). lia. }
  assert (Hfi : fetch_index st < N).
  { destruct Ha as [_ Ha]. unfold in_flight in Ha. rewrite Esz, Eb in Ha.
    rewrite !occupancy_empty in Ha.
    - pose proof (live_fetch _ _ _ Hl). lia.
    - intros y Hy. apply (Hrs y). by right.
    - intros y Hy. apply (Hrs y). by left. }
  assert (s4 = issue_To_execute c st) as ->.
  { unfold dispatch_To_issue in E4. rewrite Esz3 in E4. simpl in E4. by injection E4. }
  destruct (potential_fetch_To_dispatch N table c _ s5 c (live_safe _ _ _ Hl3) E5)
    as [_ Hstrict].
  rewrite Esz3, Efi3 in Hstrict.
  specialize (Hstrict ltac:(unfold INSTR_QUEUE_SIZE; lia) Hfi). lia.
Qed.

(** The loop, begun after [n] passes with instructions left to retire,
    comes to its exit. *)
Lemma run_loop_terminates N table bound :
  wf_trace N table → ends_outside_trap N table →
  ∀ n st, passes n N table = Ok st → live N table st → doneCount st ≠ N →
          potential N (cycle_after n) st <= Z.of_nat bound →
          ∃ fuel r st', run_loop fuel N (cycle_after n) st = Some (Ok (r, st')).
Proof.
  intros Hwf Hend. induction bound as [|bound IH]; intros n st Hp Hl Hd Hb.
  - destruct (cycle_progress N table (cycle_after n) st Hwf Hend (cycle_after_pos n) Hl
                (accounted_passes _ _ _ _ Hwf Hp) Hd) as (st' & E & Hl' & Hlt).
    pose proof (potential_nonneg N (cycle_after n + 1) st'
                  (proj2 (live_fetch _ _ _ Hl'))). lia.
  - destruct (cycle_progress N table (cycle_after n) st Hwf Hend (cycle_after_pos n) Hl
                (accounted_passes _ _ _ _ Hwf Hp) Hd) as (st' & E & Hl' & Hlt).
    destruct (is_simulation_done N st') eqn:Edone.
    + exists 1%nat. eexists _, st'. cbn [run_loop]. by rewrite E, Edone.
    + assert (Hp' : passes (S n) N table = Ok st').
      { rewrite passes_S, Hp. by cbn [bind]. }
      destruct (IH (S n) st' Hp' Hl') as (fuel & r & s & Hrun).
      * unfold is_simulation_done in Edone. by apply Z.eqb_neq in Edone.
      * rewrite cycle_after_S. lia.
      * exists (S fuel), r, s. cbn [run_loop]. rewrite E, Edone.
        by rewrite <- cycle_after_S.
Qed.

(** A run over a well-formed trace that does not end in a trap returns. *)
Lemma runTomasulo_terminates N table :
  wf_trace N table → ends_outside_trap N table →
  ∃ fuel r, runTomasulo fuel N table = Some (Ok r).
Proof.
  intros Hwf Hend. destruct (decide (N = 0)) as [->|HN].
  - exists 1%nat, 2. reflexivity.
  - destruct (run_loop_terminates N table
                (Z.to_nat (potential N (cycle_after 0) (init_state table))) Hwf Hend
                0%nat (init_state table)) as (fuel & r & st' & H).
    + done.
    + apply live_init; [done|apply Hend].
    + simpl. congruence.
    + lia.
    + exists fuel, r. apply runTomasulo_Ok. by exists st'.
Qed.

(** ** The value returned *)

(** C4, as the code has it: [runTomasulo] returns [r] exactly when the
    loop makes some number [m] of passes, [m] being the first pass after
    which the number of retired instructions [doneCount] equals the
    instruction count, and [r] is the value of the counter [cycle] after
    those passes.  [doneCount] grows in four places only: by the
    instruction on the bus in [CDB_To_retire], by the stores that have
    had their latency in [execute_To_CDB], by a control instruction at
    the head of the queue in [dispatch_To_issue], and by the traps
    skipped in [fetch_To_dispatch].  The counter is incremented at the
    end of a pass, before the exit test: the value returned is one more
    than the value [cycle] has in the stage call that takes [doneCount]
    to the instruction count.  The run over a well-formed trace that
    does not end in a trap does return. *)
Theorem returned_value_is_cycle_at_exit N table :
  (∀ fuel r,
     runTomasulo fuel N table = Some (Ok r) ↔
     ∃ m st, (1 <= m <= fuel)%nat ∧ passes m N table = Ok st ∧ doneCount st = N ∧
             (∀ j s, (1 <= j < m)%nat → passes j N table = Ok s → doneCount s ≠ N) ∧
             r = cycle_after m) ∧
  (∀ n k st st',
     wf_trace N table → at_point N table n k st → (k < 5)%nat →
     stage N (cycle_after n) k st = Ok st' →
     doneCount st' = doneCount st + counted_by_stage (cycle_after n) k st st' ∧
     (k = 4%nat → ∀ p, fetch_index st < p < fetch_index st' →
                  IS_TRAP (op (mem st p)) = true)) ∧
  (∀ fuel r n k st st',
     wf_trace N table →
     runTomasulo fuel N table = Some (Ok r) →
     at_point N table n k st → (k < 5)%nat →
     stage N (cycle_after n) k st = Ok st' →
     doneCount st ≠ N → doneCount st' = N →
     r = cycle_after n + 1) ∧
  (wf_trace N table → ends_outside_trap N table →
   ∃ fuel r, runTomasulo fuel N table = Some (Ok r)).
Proof.
  assert (HA : ∀ fuel r,
     runTomasulo fuel N table = Some (Ok r) ↔
     ∃ m st, (1 <= m <= fuel)%nat ∧ passes m N table = Ok st ∧ doneCount st = N ∧
             (∀ j s, (1 <= j < m)%nat → passes j N table = Ok s → doneCount s ≠ N) ∧
             r = cycle_after m).
  { intros fuel r. rewrite runTomasulo_Ok. split.
    + intros [st H]. apply (run_loop_sound fuel N table 0) in H
        as (m & Hm & Hp & -> & Hd & Hbefore); [|done].
      exists m, st. split_and!; first [done | lia | intros j s Hj; apply Hbefore; lia].
    + intros (m & st & Hm & Hp & Hd & Hbefore & ->). exists st.
      apply (run_loop_complete fuel N table 0 m);
        first [done | lia | intros j s Hj; apply Hbefore; lia]. }
  split_and!; [exact HA| | |by apply runTomasulo_terminates].
  - intros n k st st' Hwf Hp Hk H.
    apply (counted_at_stage N table); try done. by eapply safe_at_point.
  - intros fuel r n k st st' Hwf Hr Hp Hk H Hne Hd.
    apply HA in Hr as (m & sm & Hm & Hpm & Hdm & Hbefore & ->).
    destruct Hp as (_ & Hrun & s & Hps & Hst).
    assert (Hnm : (n < m)%nat).
    { destruct (decide (n < m)%nat) as [|Hge]; [done|]. exfalso.
      destruct (decide (m = 0%nat)) as [->|]; [lia|].
      specialize (Hrun m sm ltac:(lia) Hpm). unfold is_simulation_done in Hrun.
      apply Z.eqb_neq in Hrun. done. }
    destruct (passes_Ok_le (S n) m N table sm Hpm ltac:(lia)) as [s5 Hp5].
    pose proof Hp5 as Hp5'. rewrite passes_S, Hps in Hp5'. simpl in Hp5'.
    rewrite stages_first_stages in Hp5'.
    pose proof (safe_passes _ _ _ _ Hwf Hps) as Hs.
    assert (Hk1 : first_stages N (cycle_after n) (S k) s = Ok st').
    { simpl. by rewrite Hst. }
    pose proof (first_stages_doneCount_mono N table (cycle_after n) (S k) 5 s st' s5
                  Hwf (cycle_after_pos n) Hs ltac:(lia) Hk1 Hp5') as Hmono.
    pose proof (accounted_passes _ _ _ _ Hwf Hp5) as [H0 Hacc].
    pose proof (accounted_passes _ _ _ _ Hwf Hps) as [H0s _].
    assert (HN : 0 <= N).
    { pose proof (first_stages_doneCount_mono N table (cycle_after n) 0 (S k) s s st'
                    Hwf (cycle_after_pos n) Hs ltac:(lia) eq_refl Hk1). lia. }
    pose proof (fetch_index_passes _ _ _ _ Hwf HN Hp5) as Hfi.
    pose proof (in_flight_nonneg s5).
    assert (Hd5 : doneCount s5 = N) by lia.
    assert (m = S n) as ->.
    { destruct (decide (m = S n)) as [|Hne']; [done|]. exfalso.
      apply (Hbefore (S n) s5); [lia|done..]. }
    by rewrite cycle_after_S.
Qed.

(** C10: with an instruction count of 0 the loop still makes one pass, in
    which each of the five stage calls leaves the variables as they are,
    and [runTomasulo] returns 2.  In general the value returned is one
    more than the value [cycle] has in the pass during which [doneCount]
    reaches the instruction count, and so at least 2; the run over a
    well-formed trace that does not end in a trap returns such a
    value. *)
Theorem returned_value_is_one_past_last_cycle N table :
  (∀ fuel, runTomasulo (S fuel) 0 table = Some (Ok 2)) ∧
  (∀ k, (k < 5)%nat → stage 0 1 k (init_state table) = Ok (init_state table)) ∧
  (∀ fuel r,
     runTomasulo fuel N table = Some (Ok r) →
     2 <= r ∧
     ∃ m s st, cycle_after m = r - 1 ∧
               passes m N table = Ok s ∧ stages N (r - 1) s = Ok st ∧
               (N ≠ 0 → doneCount s ≠ N) ∧ doneCount st = N) ∧
  (wf_trace N table → ends_outside_trap N table →
   ∃ fuel r, runTomasulo fuel N table = Some (Ok r) ∧ 2 <= r).
Proof.
  assert (Hst : ∀ k, (k < 5)%nat → stage 0 1 k (init_state table) = Ok (init_state table)).
  { intros [|[|[|[|[|k]]]]] Hk; first [reflexivity | lia]. }
  assert (Hret : ∀ fuel r, runTomasulo fuel N table = Some (Ok r) → 2 <= r).
  { intros fuel r H. apply runTomasulo_Ok in H as [st H].
    apply (run_loop_sound fuel N table 0) in H as (m & Hm & _ & -> & _); [|done].
    unfold cycle_after. lia. }
  split_and!; [|done| |].
  3:{ intros Hwf Hend. destruct (runTomasulo_terminates N table Hwf Hend) as (fuel & r & H).
      exists fuel, r. split; [done|]. by apply (Hret fuel). }
  - intros fuel. apply runTomasulo_Ok. exists (init_state table).
    assert (Hs1 : stages 0 1 (init_state table) = Ok (init_state table)) by reflexivity.
    change (cycle_after 0) with 1. cbn [run_loop]. by rewrite Hs1.
  - intros fuel r H. apply runTomasulo_Ok in H as [st H].
    apply (run_loop_sound fuel N table 0) in H as (m & Hm & Hp & -> & Hd & Hbefore); [|done].
    split; [unfold cycle_after; lia|].
    destruct m as [|m]; [lia|]. pose proof Hp as Hp'.
    rewrite passes_S in Hp'. apply bind_Ok in Hp' as (s & Hs & Hst').
    exists m, s, st. rewrite cycle_after_S. split_and!; try done; [lia| |].
    + by replace (cycle_after m + 1 - 1) with (cycle_after m) by lia.
    + intros HN. destruct m as [|m].
      * injection Hs as <-. simpl. congruence.
      * apply (Hbefore (S m)); [lia|done].
Qed.

(** * Further properties of the stages and of runs *)

(** ** The invariants at every point of a run *)

Lemma live_stage_Ok N table c k st st' :
  wf_trace N table → c ≠ 0 → live N table st →
  (k = 1%nat → commonDataBus st = None) →
  stage N c k st = Ok st' → live N table st'.
Proof.
  intros Hwf Hc Hl Hb H. destruct k as [|[|[|[|k]]]]; simpl in H.
  - destruct (live_CDB_To_retire N table c st Hwf Hl) as (s & E & Hl' & _).
    rewrite E in H. by injection H as <-.
  - destruct (live_execute_To_CDB N table c st Hwf Hl (Hb eq_refl)) as (s & E & Hl').
    rewrite E in H. by injection H as <-.
  - injection H as <-. by apply live_issue_To_execute.
  - destruct (live_dispatch_To_issue N table c st Hwf Hl) as (s & E & Hl').
    rewrite E in H. by injection H as <-.
  - by apply (live_fetch_To_dispatch_Ok N table c st).
Qed.

Lemma live_first_stages N table c k st st' :
  wf_trace N table → c ≠ 0 → live N table st →
  first_stages N c k st = Ok st' →
  live N table st' ∧ (k = 1%nat → commonDataBus st' = None).
Proof.
  intros Hwf Hc Hl. revert st'. induction k as [|k IH]; intros st' H; simpl in H.
  - injection H as <-. split; [done|lia].
  - apply bind_Ok in H as (s & H1 & H2). destruct (IH s H1) as [Hls Hbs]. split.
    + by apply (live_stage_Ok N table c k s).
    + intros [= ->]. simpl in H2. by apply CDB_To_retire_frame in H2 as [? _].
Qed.

Lemma live_passes N table n st :
  wf_trace N table → 0 <= N → passes n N table = Ok st → live N table st.
Proof.
  intros Hwf HN. revert st. induction n as [|n IH]; intros st H; simpl in H.
  - injection H as <-. by apply live_init.
  - apply bind_Ok in H as (s & H1 & H2). rewrite stages_first_stages in H2.
    apply (live_first_stages N table (cycle_after n) 5 s st); try done.
    + apply cycle_after_pos.
    + by apply IH.
Qed.

Lemma live_at_point N table n k st :
  wf_trace N table → 0 <= N → at_point N table n k st → live N table st.
Proof.
  intros Hwf HN (_ & _ & s & Hp & H).
  apply (live_first_stages N table (cycle_after n) k s st); try done.
  - apply cycle_after_pos.
  - by apply (live_passes N table n).
Qed.

Lemma accounted_at_point N table n k st :
  wf_trace N table → at_point N table n k st → accounted st.
Proof.
  intros Hwf (_ & _ & s & Hp & H).
  apply (accounted_first_stages N table (cycle_after n) k s st); try done.
  - apply cycle_after_pos.
  - by apply (safe_passes N table n).
  - by apply (accounted_passes N table n).
Qed.

Lemma holds_dec (a : list (option ptr)) x : holds a x ∨ ¬ holds a x.
Proof.
  induction a as [|s a IH]; [right; apply holds_nil|].
  destruct IH as [IH|IH]; [left; by apply holds_cons_later|].
  destruct s as [y|].
  - destruct (decide (y = x)) as [->|Hne]; [left; by apply holds_cons_here|].
    right. intros H. apply holds_cons_inv in H as [[= ?]|H]; done.
  - right. intros H. apply holds_cons_inv in H as [[=]|H]. done.
Qed.

Lemma in_FU_dec st x : in_FU st x ∨ ¬ in_FU st x.
Proof.
  destruct (holds_dec (fuINT st) x) as [?|Hi]; [left; by left|].
  destruct (holds_dec (fuFP st) x) as [?|Hf]; [left; by right|].
  right. by intros [?|?].
Qed.

(** ** What the stages write *)

Lemma retire_reserv_other b rs m x :
  ¬ holds rs x → retire_reserv b rs m x = m x.
Proof.
  revert m. induction rs as [|[y|] rs IH]; intros m Hx; simpl; [done| |].
  - rewrite IH by (intros H; apply Hx; by apply holds_cons_later).
    rewrite fn_lookup_insert_ne; [done|]. intros ->. apply Hx. by apply holds_cons_here.
  - apply IH. intros H. apply Hx. by apply holds_cons_later.
Qed.

Lemma retire_Q_stamps b i :
  same_stamps (retire_Q b i) i ∧ tom_cdb_cycle (retire_Q b i) = tom_cdb_cycle i.
Proof. by destruct i. Qed.

Lemma retire_reserv_stamps b rs m p :
  same_stamps (retire_reserv b rs m p) (m p) ∧
  tom_cdb_cycle (retire_reserv b rs m p) = tom_cdb_cycle (m p).
Proof.
  revert m. induction rs as [|[y|] rs IH]; intros m; simpl; [done| |apply IH].
  destruct (IH (<[y := retire_Q b (m y)]> m)) as [(E1 & E2 & E3) E4].
  unfold same_stamps. rewrite E1, E2, E3, E4.
  destruct (decide (p = y)) as [->|Hne].
  - rewrite fn_lookup_insert. by destruct (m y).
  - by rewrite fn_lookup_insert_ne.
Qed.

(** Exactly the await-slots that name [b] are cleared in the records of a
    bank. *)
Lemma retire_Q_slot_spec b q :
  retire_Q_slot b q = if decide (q = Some b) then None else q.
Proof.
  unfold retire_Q_slot. destruct (decide (q = Some b)) as [->|Hne].
  - simpl. by rewrite Z.eqb_refl.
  - destruct q as [z|]; simpl; [|done].
    destruct (Z.eqb_spec z b); [congruence|done].
Qed.

Lemma retire_Q_slot_idem b q : retire_Q_slot b (retire_Q_slot b q) = retire_Q_slot b q.
Proof.
  rewrite !retire_Q_slot_spec. destruct (decide (q = Some b)) as [H|H].
  - by destruct (decide (None = Some b)).
  - by destruct (decide (q = Some b)).
Qed.

Lemma retire_reserv_Q_slots b rs m x j :
  (j < 3)%nat →
  at3 (Q (retire_reserv b rs m x)) j = at3 (Q (m x)) j ∨
  at3 (Q (retire_reserv b rs m x)) j = retire_Q_slot b (at3 (Q (m x)) j).
Proof.
  intros Hj. revert m. induction rs as [|[y|] rs IH]; intros m; simpl; [by left| |apply IH].
  destruct (decide (x = y)) as [->|Hne].
  - destruct (IH (<[y := retire_Q b (m y)]> m)) as [E|E]; rewrite E;
      rewrite fn_lookup_insert, retire_Q_at3 by done; [by right|].
    right. apply retire_Q_slot_idem.
  - destruct (IH (<[y := retire_Q b (m y)]> m)) as [E|E]; rewrite E;
      rewrite fn_lookup_insert_ne by done; [by left|by right].
Qed.

Lemma retire_reserv_Q_held b rs m x j :
  (j < 3)%nat → holds rs x →
  at3 (Q (retire_reserv b rs m x)) j = retire_Q_slot b (at3 (Q (m x)) j).
Proof.
  intros Hj. revert m. induction rs as [|[y|] rs IH]; intros m Hx; simpl.
  - by destruct (holds_nil x).
  - destruct (decide (x = y)) as [->|Hne].
    + destruct (retire_reserv_Q_slots b rs (<[y := retire_Q b (m y)]> m) y j Hj) as [E|E];
        rewrite E, fn_lookup_insert, retire_Q_at3 by done; [done|].
      apply retire_Q_slot_idem.
    + apply holds_cons_inv in Hx as [[= ?]|Hx]; [done|].
      rewrite IH by done. by rewrite fn_lookup_insert_ne.
  - apply holds_cons_inv in Hx as [[=]|Hx]. by apply IH.
Qed.

(** [execute_To_CDB] writes one field of one record: [tom_cdb_cycle] of
    the instruction it puts on the bus. *)
Lemma execute_To_CDB_mem c st st' :
  execute_To_CDB c st = Ok st' →
  (mem st' = mem st ∧ commonDataBus st' = commonDataBus st) ∨
  (∃ w, commonDataBus st' = Some w ∧
        mem st' = <[w := set_tom_cdb_cycle c (mem st w)]> (mem st)).
Proof.
  intros H. apply execute_To_CDB_Ok in H as (a & st1 & o & oi & Hloop & Hfp & H).
  destruct a as [[sa oa] oia].
  pose proof (execute_int_loop_count st c FU_INT_SIZE 0 (st, -1, None) (sa, oa, oia)) as Hc.
  destruct Hc as (Em & Eb & _); [|done|].
  { split_and!; try done. unfold finished_stores. simpl. lia. }
  pose proof (execute_fp_slot_state c (sa, oa, oia)) as Est. rewrite Hfp in Est.
  simpl in Est. subst st1. destruct oi as [w|].
  - right. destruct H as (st3 & F & ->). exists w. split; [done|].
    apply free_stations_Ok in F as [[_ ->]|(_ & _ & ->)]; simpl; by rewrite Em.
  - left. by subst st'.
Qed.

(** What the two reservation-station branches of [dispatch_To_issue] do
    once the head [h] has its slot, [str] being the variables with the
    slot written. *)
Lemma issue_head_shape c h st str st' :
  map_table str = map_table st → instr_queue str = instr_queue st →
  instr_queue_size str = instr_queue_size st → ifq_head str = ifq_head st →
  mem str = mem st →
  issue_head c h str = Ok st' →
  instr_queue st' = instr_queue st ∧
  instr_queue_size st' = (instr_queue_size st - 1)%nat ∧
  ifq_head st' = ((ifq_head st + 1) `mod` INSTR_QUEUE_SIZE)%nat ∧
  ifq_tail st' = ifq_tail str ∧
  reservINT st' = reservINT str ∧ reservFP st' = reservFP str ∧
  fuINT st' = fuINT str ∧ fuFP st' = fuFP str ∧
  commonDataBus st' = commonDataBus str ∧ fetch_index st' = fetch_index str ∧
  doneCount st' = doneCount str ∧
  (∀ p, p ≠ h → mem st' p = mem st p) ∧
  same_code (mem st' h) (mem st h) ∧
  tom_dispatch_cycle (mem st' h) = tom_dispatch_cycle (mem st h) ∧
  tom_issue_cycle (mem st' h) = c ∧
  tom_execute_cycle (mem st' h) = tom_execute_cycle (mem st h) ∧
  tom_cdb_cycle (mem st' h) = tom_cdb_cycle (mem st h) ∧
  (∀ j, (j < 3)%nat →
     if decide (at3 (r_in (mem st h)) j = DNA)
     then at3 (Q (mem st' h)) j = at3 (Q (mem st h)) j
     else reg_read (map_table st) (at3 (r_in (mem st h)) j)
          = Some (at3 (Q (mem st' h)) j)) ∧
  (∀ r, reg_read (map_table st') r =
        if decide (r ≠ DNA ∧ (r = at2 (r_out (mem st h)) 0 ∨ r = at2 (r_out (mem st h)) 1))
        then Some (Some h) else reg_read (map_table st) r).
Proof.
  intros Emap Eq Esz Ehd Em H. unfold issue_head in H.
  set (st2 := set_queue _ _ _ _ _) in H.
  pose proof (map_operands_frame _ _ _ H)
    as (Hoth & Eop & Eix & Ein & Eout & Edc & Eic & Eex & Ecdb).
  pose proof (λ j, map_operands_Q _ _ _ j H) as HQ.
  pose proof (λ r, map_operands_map _ _ _ r H) as Hmap.
  apply map_operands_eq in H as (m1 & m2 & m3 & mt1 & mt2 & _ & _ & _ & _ & _ & E').
  assert (Hh2 : mem st2 h = set_tom_issue_cycle c (mem st h)).
  { unfold st2. simpl. by rewrite fn_lookup_insert, Em. }
  rewrite Hh2 in *.
  assert (Hf : ∀ i, op (set_tom_issue_cycle c i) = op i ∧
                    index (set_tom_issue_cycle c i) = index i ∧
                    r_in (set_tom_issue_cycle c i) = r_in i ∧
                    r_out (set_tom_issue_cycle c i) = r_out i ∧
                    Q (set_tom_issue_cycle c i) = Q i) by (by intros []).
  destruct (Hf (mem st h)) as (F1 & F2 & F3 & F4 & F5).
  split_and!; try (by rewrite E'; unfold st2; simpl; rewrite ?Eq, ?Esz, ?Ehd).
  - intros p Hne. rewrite (Hoth p Hne). unfold st2. simpl.
    by rewrite fn_lookup_insert_ne, Em.
  - unfold same_code. by rewrite Eop, Eix, Ein, Eout, F1, F2, F3, F4.
  - rewrite Edc. by destruct (mem st h).
  - rewrite Eic. by destruct (mem st h).
  - rewrite Eex. by destruct (mem st h).
  - rewrite Ecdb. by destruct (mem st h).
  - intros j Hj. specialize (HQ j Hj). rewrite F3, F5 in HQ.
    replace (map_table st2) with (map_table st) in HQ by (by rewrite <- Emap). done.
  - intros r. rewrite Hmap, F4.
    replace (map_table st2) with (map_table st) by (by rewrite <- Emap). done.
Qed.

(** [dispatch_To_issue], for sound structures: nothing changes, or the
    head of the queue is a control instruction and is counted, or the head
    enters a reservation station. *)
Lemma dispatch_To_issue_admits N table c st st' :
  safe N table st → dispatch_To_issue c st = Ok st' →
  (st' = st ∧
   (instr_queue_size st = 0%nat ∨
    ∃ h, queued st 0 h ∧
         IS_UNCOND_CTRL (op (mem st h)) || IS_COND_CTRL (op (mem st h)) = false ∧
         ((USES_FP_FU (op (mem st h)) = true ∧
           first_free (firstn RESERV_FP_SIZE (reservFP st)) = None) ∨
          (USES_FP_FU (op (mem st h)) = false ∧
           first_free (firstn RESERV_INT_SIZE (reservINT st)) = None)))) ∨
  (∃ h, queued st 0 h ∧
        IS_UNCOND_CTRL (op (mem st h)) || IS_COND_CTRL (op (mem st h)) = true ∧
        st' = set_doneCount (doneCount st + 1) (pop_head st)) ∨
  (∃ h, queued st 0 h ∧
        IS_UNCOND_CTRL (op (mem st h)) || IS_COND_CTRL (op (mem st h)) = false ∧
        (∀ k y, queued st' k y ↔ queued st (S k) y) ∧
        (∀ y, in_RS st' y ↔ in_RS st y ∨ y = h) ∧
        fuINT st' = fuINT st ∧ fuFP st' = fuFP st ∧
        commonDataBus st' = commonDataBus st ∧ fetch_index st' = fetch_index st ∧
        doneCount st' = doneCount st ∧
        instr_queue_size st' = (instr_queue_size st - 1)%nat ∧
        (∀ p, p ≠ h → mem st' p = mem st p) ∧
        same_code (mem st' h) (mem st h) ∧
        tom_dispatch_cycle (mem st' h) = tom_dispatch_cycle (mem st h) ∧
        tom_issue_cycle (mem st' h) = c ∧
        tom_execute_cycle (mem st' h) = tom_execute_cycle (mem st h) ∧
        (∀ j, (j < 3)%nat →
           if decide (at3 (r_in (mem st h)) j = DNA)
           then at3 (Q (mem st' h)) j = at3 (Q (mem st h)) j
           else reg_read (map_table st) (at3 (r_in (mem st h)) j)
                = Some (at3 (Q (mem st' h)) j)) ∧
        (∀ r, reg_read (map_table st') r =
              if decide (r ≠ DNA ∧ (r = at2 (r_out (mem st h)) 0
                                    ∨ r = at2 (r_out (mem st h)) 1))
              then Some (Some h) else reg_read (map_table st) r)).
Proof.
  intros Hs H.
  destruct (dispatch_To_issue_Ok c st st' (safe_head _ _ _ Hs) H)
    as [[E ->]|(h & Hh & Hcases)]; [left; split; [done|by left]|].
  destruct (safe_queue_head_fresh _ _ _ _ Hs Hh) as (_ & _ & _ & Hsz).
  simpl in Hcases.
  destruct Hcases as [[Ec ->]|[(Ec & Ef & En & ->)|[(Ec & _ & i & Ei & Hi)|
                     [(Ec & Ef & _ & En & ->)|(Ec & _ & _ & i & Ei & Hi)]]]].
  { right. left. by exists h. }
  { left. split; [done|]. right. exists h. split_and!; [done..|]. by left. }
  2:{ left. split; [done|]. right. exists h. split_and!; [done..|]. by right. }
  - right. right. exists h. pose proof (first_free_firstn _ _ _ Ei) as Esl.
    apply first_free_spec in Ei as [_ Hlt]. rewrite length_take in Hlt.
    apply (issue_head_shape c h st) in Hi
      as (Eq & Esz & Ehd & _ & Eri & Erf & Efi & Eff & Eb & Efx & Ed & Hoth & Hrest);
      try done.
    simpl in Eri, Erf, Efi, Eff, Eb, Efx, Ed.
    split_and!; try done; try apply Hrest.
    + intros k y. rewrite <- queued_pop_head by done.
      unfold queued, pop_head. simpl. by rewrite Eq, Esz, Ehd.
    + intros y. unfold in_RS. rewrite Eri, Erf. split.
      * intros [Hy|Hy]; [by left; left|].
        apply holds_insert in Hy as [[= ->]|Hy]; [by right|by left; right].
      * intros [[Hy|Hy]| ->]; [by left|right; by apply holds_insert_mono|].
        right. exists i. apply slot_insert_here. lia.
  - right. right. exists h. pose proof (first_free_firstn _ _ _ Ei) as Esl.
    apply first_free_spec in Ei as [_ Hlt]. rewrite length_take in Hlt.
    apply (issue_head_shape c h st) in Hi
      as (Eq & Esz & Ehd & _ & Eri & Erf & Efi & Eff & Eb & Efx & Ed & Hoth & Hrest);
      try done.
    simpl in Eri, Erf, Efi, Eff, Eb, Efx, Ed.
    split_and!; try done; try apply Hrest.
    + intros k y. rewrite <- queued_pop_head by done.
      unfold queued, pop_head. simpl. by rewrite Eq, Esz, Ehd.
    + intros y. unfold in_RS. rewrite Eri, Erf. split.
      * intros [Hy|Hy]; [|by left; right].
        apply holds_insert in Hy as [[= ->]|Hy]; [by right|by left; left].
      * intros [[Hy|Hy]| ->]; [left; by apply holds_insert_mono|by right|].
        left. exists i. apply slot_insert_here. lia.
Qed.

(** ** What the pointers stand for: the invariant [orderly] *)

Lemma orderly_CDB_To_retire table c st st' :
  orderly table st → CDB_To_retire c st = Ok st' → orderly table st'.
Proof.
  intros Ho H.
  apply CDB_To_retire_Ok in H as [[_ ->]|(b & mt1 & mt2 & Eb & R0 & R1 & ->)]; [done|].
  constructor; simpl.
  - intros x Hx. do 2 apply retire_reserv_Q_clear. by apply Ho.
  - intros x [Hx|Hx]; [|done]. apply Ho. by left.
  - intros x j p Hx Hj HQ.
    apply retire_reserv_Q_sub in HQ as [HQ _]; [|done].
    apply retire_reserv_Q_sub in HQ as [HQ _]; [|done].
    by apply (ord_Q _ _ Ho x j p).
  - intros r p y Hr [Hy|Hy] Hw; [|done].
    apply (retire_map_read _ _ _ _ _ _ R1) in Hr as [Hr _].
    apply (retire_map_read _ _ _ _ _ _ R0) in Hr as [Hr _].
    apply (ord_map _ _ Ho r p y Hr); [by left|done].
Qed.

(** What is in a station or on the bus after [execute_To_CDB] was so
    before. *)
Lemma execute_To_CDB_in_flight N table c st st' y :
  wf_trace N table → safe N table st → execute_To_CDB c st = Ok st' →
  in_RS st' y ∨ on_bus st' y → in_RS st y ∨ on_bus st y.
Proof.
  intros Hwf Hs H [Hy|Hy].
  - left. pose proof (execute_To_CDB_frame _ _ _ H)
      as (_ & _ & _ & _ & _ & _ & _ & _ & _ & Hri & Hrf).
    destruct Hy as [[i Hy]|[i Hy]]; [left|right]; exists i; auto.
  - destruct (safe_execute_To_CDB_winner _ _ _ _ _ Hwf Hs H) as [[_ E]|(w & Ew & Cw)].
    + right. unfold on_bus in *. congruence.
    + left. unfold on_bus in Hy. rewrite Ew in Hy. injection Hy as <-.
      apply (safe_in_FU_in_RS N table); [done|].
      destruct Cw as [[[i (_ & Hw & _)]|[Hw _]] _]; [left; by exists i|right; by exists 0%nat].
Qed.

Lemma orderly_execute_To_CDB N table c st st' :
  wf_trace N table → safe N table st → orderly table st →
  execute_To_CDB c st = Ok st' → orderly table st'.
Proof.
  intros Hwf Hs Ho H.
  pose proof (execute_To_CDB_frame _ _ _ H)
    as (Emap & _ & _ & _ & _ & _ & Hm & Hfi & Hff & Hri & Hrf).
  pose proof (λ y, execute_To_CDB_in_flight N table c st st' y Hwf Hs H) as Hsub.
  assert (HRS : ∀ y, in_RS st' y → in_RS st y).
  { intros y [[i Hy]|[i Hy]]; [left|right]; exists i; auto. }
  constructor.
  - intros x Hx. destruct (Hm x) as (_ & -> & _). apply Ho.
    destruct Hx as [[i Hx]|[i Hx]]; [left|right]; exists i; auto.
  - intros x Hx. by apply Ho, Hsub.
  - intros x j p Hx Hj HQ. destruct (Hm x) as (_ & EQ & _). rewrite EQ in HQ.
    apply (ord_Q _ _ Ho x j p); auto.
  - intros r p y Hr Hy Hw. rewrite Emap in Hr.
    apply (ord_map _ _ Ho r p y Hr); auto.
Qed.

Lemma orderly_issue_int_slot table c st i :
  orderly table st → orderly table (issue_int_slot c st i).
Proof.
  intros Ho.
  destruct (issue_int_slot_cases c st i) as [->|(j & x & _ & Eo & Ex & ->)]; [done|].
  apply oldest_rs_int_Some in Eo as (_ & Hr & _). rewrite Ex in Hr.
  apply ready_Some in Hr as [_ HQx].
  assert (HQ : ∀ p, Q ((<[x := set_tom_execute_cycle c (mem st x)]> (mem st)) p)
                    = Q (mem st p)).
  { intros p. destruct (decide (p = x)) as [->|Hne].
    - rewrite fn_lookup_insert. by destruct (mem st x).
    - by rewrite fn_lookup_insert_ne. }
  constructor; simpl.
  - intros y Hy. rewrite HQ. destruct Hy as [Hy|Hy]; simpl in Hy.
    + apply holds_insert in Hy as [[= ->]|Hy]; [done|]. apply Ho. by left.
    + apply Ho. by right.
  - apply Ho.
  - intros y k p Hy Hk Hq. rewrite HQ in Hq. by apply (ord_Q _ _ Ho y k p).
  - apply Ho.
Qed.

Lemma orderly_issue_fp_slot table c st i :
  orderly table st → orderly table (issue_fp_slot c st i).
Proof.
  intros Ho.
  destruct (issue_fp_slot_cases c st i) as [->|(j & x & _ & Eo & Ex & ->)]; [done|].
  apply oldest_rs_fp_Some in Eo as (_ & Hr & _). rewrite Ex in Hr.
  apply ready_Some in Hr as [_ HQx].
  assert (HQ : ∀ p, Q ((<[x := set_tom_execute_cycle c (mem st x)]> (mem st)) p)
                    = Q (mem st p)).
  { intros p. destruct (decide (p = x)) as [->|Hne].
    - rewrite fn_lookup_insert. by destruct (mem st x).
    - by rewrite fn_lookup_insert_ne. }
  constructor; simpl.
  - intros y Hy. rewrite HQ. destruct Hy as [Hy|Hy]; simpl in Hy.
    + apply Ho. by left.
    + apply holds_insert in Hy as [[= ->]|Hy]; [done|]. apply Ho. by right.
  - apply Ho.
  - intros y k p Hy Hk Hq. rewrite HQ in Hq. by apply (ord_Q _ _ Ho y k p).
  - apply Ho.
Qed.

Lemma orderly_issue_To_execute table c st :
  orderly table st → orderly table (issue_To_execute c st).
Proof.
  intros Ho. unfold issue_To_execute.
  apply (fold_left_preserves (orderly table)).
  { intros. by apply orderly_issue_fp_slot. }
  apply (fold_left_preserves (orderly table)); [|done].
  intros. by apply orderly_issue_int_slot.
Qed.

Lemma orderly_dispatch_To_issue N table c st st' :
  wf_trace N table → live N table st → orderly table st →
  dispatch_To_issue c st = Ok st' → orderly table st'.
Proof.
  intros Hwf Hl Ho H. pose proof (live_safe _ _ _ Hl) as Hs.
  destruct (dispatch_To_issue_admits N table c st st' Hs H)
    as [[-> _]|[(h & Hh & _ & ->)|(h & Hh & _ & Hqd & HRS & Efi & Eff & Eb & _ & _ & _ &
                                 Hoth & Hcode & _ & _ & _ & HQ & Hmap)]]; [done| |].
  { constructor; apply Ho. }
  destruct (safe_queue_head_fresh _ _ _ _ Hs Hh) as (HhRS & Hhbus & _ & _).
  destruct (safe_code _ _ _ Hs h) as (_ & _ & Ein & Eout).
  assert (HFU : ∀ y, in_FU st' y ↔ in_FU st y).
  { intros y. unfold in_FU. by rewrite Efi, Eff. }
  assert (Hbus : ∀ y, on_bus st' y ↔ on_bus st y).
  { intros y. unfold on_bus. by rewrite Eb. }
  constructor.
  - intros x Hx. apply HFU in Hx.
    assert (x ≠ h).
    { intros ->. by apply HhRS, (safe_in_FU_in_RS N table). }
    rewrite Hoth by done. by apply Ho.
  - intros x [Hx|Hx].
    + apply HRS in Hx as [Hx| ->]; [apply Ho; by left|].
      by apply (live_queue_code _ _ _ Hl 0%nat).
    + apply Ho. right. by apply Hbus.
  - intros x j p Hx Hj Hq. apply HRS in Hx as [Hx| ->].
    + assert (x ≠ h) by (by intros ->).
      rewrite Hoth in Hq by done. by apply (ord_Q _ _ Ho x j p).
    + specialize (HQ j Hj). rewrite Ein in HQ. case_decide as Hd.
      * destruct (live_pristine _ _ _ Hl h) as [_ EQh]; [left; by exists 0%nat|].
        rewrite EQh, Hq in HQ. by destruct j as [|[|[|j]]]; [..|lia].
      * rewrite Hq in HQ. destruct (live_map _ _ _ Hl _ p HQ) as (_ & ? & ?). done.
  - intros r p y Hr Hy Hw. rewrite Hmap, Eout in Hr.
    assert (Hy' : (in_RS st y ∨ on_bus st y) ∨ y = h).
    { destruct Hy as [Hy|Hy]; [apply HRS in Hy as [?|?]; [by left; left|by right]|].
      left. right. by apply Hbus. }
    case_decide as Hd.
    + injection Hr as <-. destruct Hy' as [Hy'| ->]; [|lia].
      pose proof (safe_queue_young _ _ _ Hs 0%nat h y Hh Hy'). lia.
    + destruct Hy' as [Hy'| ->]; [by apply (ord_map _ _ Ho r p y)|].
      by destruct Hd.
Qed.

Lemma orderly_fetch_To_dispatch N table c st st' :
  safe N table st → orderly table st →
  fetch_To_dispatch N c st = Ok st' → orderly table st'.
Proof.
  intros Hs Ho H.
  assert (Htl : (ifq_tail st < INSTR_QUEUE_SIZE)%nat).
  { rewrite (safe_tail _ _ _ Hs). apply queue_mod_lt. }
  pose proof (fetch_To_dispatch_frame N c st st' (safe_len_queue _ _ _ Hs) Htl H)
    as (Efi & Eff & Eri & Erf & Eb & Hm).
  pose proof (fetch_To_dispatch_map_table _ _ _ _ H) as Emap.
  assert (HRS : ∀ y, in_RS st' y ↔ in_RS st y).
  { intros y. unfold in_RS. by rewrite Eri, Erf. }
  assert (Hbus : ∀ y, on_bus st' y ↔ on_bus st y).
  { intros y. unfold on_bus. by rewrite Eb. }
  constructor.
  - intros x Hx. destruct (Hm x) as (_ & -> & _). apply Ho.
    unfold in_FU in *. by rewrite Efi, Eff in Hx.
  - intros x Hx. apply Ho. by rewrite HRS, Hbus in Hx.
  - intros x j p Hx Hj Hq. destruct (Hm x) as (_ & EQ & _). rewrite EQ in Hq.
    apply (ord_Q _ _ Ho x j p); [by apply HRS|done..].
  - intros r p y Hr Hy Hw. rewrite Emap in Hr. rewrite HRS, Hbus in Hy.
    by apply (ord_map _ _ Ho r p y).
Qed.

Lemma orderly_init table : orderly table (init_state table).
Proof.
  constructor; simpl.
  - intros x [Hx|Hx]; by destruct (holds_replicate_None _ _ Hx).
  - intros x [[Hx|Hx]|Hx]; [by destruct (holds_replicate_None _ _ Hx)..|done].
  - intros x j p [Hx|Hx]; by destruct (holds_replicate_None _ _ Hx).
  - intros r p y Hr. unfold reg_read in Hr. destruct (r <? 0); [done|].
    apply lookup_replicate in Hr as [? _]. done.
Qed.

Lemma orderly_stage N table c k st st' :
  wf_trace N table → live N table st → orderly table st →
  stage N c k st = Ok st' → orderly table st'.
Proof.
  intros Hwf Hl Ho H. pose proof (live_safe _ _ _ Hl) as Hs.
  destruct k as [|[|[|[|k]]]]; simpl in H.
  - by apply (orderly_CDB_To_retire table c st).
  - by apply (orderly_execute_To_CDB N table c st).
  - injection H as <-. by apply orderly_issue_To_execute.
  - by apply (orderly_dispatch_To_issue N table c st).
  - by apply (orderly_fetch_To_dispatch N table c st).
Qed.

Lemma orderly_first_stages N table c k st st' :
  wf_trace N table → c ≠ 0 → live N table st → orderly table st →
  first_stages N c k st = Ok st' → orderly table st'.
Proof.
  intros Hwf Hc Hl Ho. revert st'. induction k as [|k IH]; intros st' H; simpl in H.
  - by injection H as <-.
  - apply bind_Ok in H as (s & H1 & H2).
    destruct (live_first_stages N table c k st s Hwf Hc Hl H1) as [Hls _].
    apply (orderly_stage N table c k s); auto.
Qed.

Lemma orderly_passes N table n st :
  wf_trace N table → 0 <= N → passes n N table = Ok st → orderly table st.
Proof.
  intros Hwf HN. revert st. induction n as [|n IH]; intros st H; simpl in H.
  - injection H as <-. apply orderly_init.
  - apply bind_Ok in H as (s & H1 & H2). rewrite stages_first_stages in H2.
    apply (orderly_first_stages N table (cycle_after n) 5 s st); try done.
    + apply cycle_after_pos.
    + by apply (live_passes N table n).
    + by apply IH.
Qed.

Lemma orderly_at_point N table n k st :
  wf_trace N table → 0 <= N → at_point N table n k st → orderly table st.
Proof.
  intros Hwf HN (_ & _ & s & Hp & H).
  apply (orderly_first_stages N table (cycle_after n) k s st); try done.
  - apply cycle_after_pos.
  - by apply (live_passes N table n).
  - by apply (orderly_passes N table n).
Qed.

(** ** The cycles recorded in the records: the invariant [timed] *)

Lemma timed_weaken c k k' st :
  (k <= k')%nat → (k = 0%nat → k' = 0%nat ∨ commonDataBus st = None) →
  timed c k st → timed c k' st.
Proof.
  intros Hk H0 (Hq & Hr & Hf & Hb). split_and!.
  - intros x Hx. specialize (Hq x Hx). repeat case_decide; lia.
  - intros x Hx. specialize (Hr x Hx). repeat case_decide; lia.
  - intros x Hx. specialize (Hf x Hx). repeat case_decide; lia.
  - intros x Hx. specialize (Hb x Hx).
    destruct (decide (k = 0%nat)) as [->|Hne].
    + destruct (H0 eq_refl) as [->|E]; [done|]. unfold on_bus in Hx. congruence.
    + repeat case_decide; lia.
Qed.

(** The invariant read in a state that holds no more instructions and has
    the same cycles in their records. *)
Lemma timed_sub c k st st' :
  (∀ x, in_queue st' x → in_queue st x) → (∀ x, in_RS st' x → in_RS st x) →
  (∀ x, in_FU st' x → in_FU st x) → (∀ x, on_bus st' x → on_bus st x) →
  (∀ x, in_queue st x ∨ in_RS st x ∨ on_bus st x →
        same_stamps (mem st' x) (mem st x) ∧
        tom_cdb_cycle (mem st' x) = tom_cdb_cycle (mem st x) ∧
        op (mem st' x) = op (mem st x)) →
  (∀ x, in_FU st x → in_RS st x) →
  timed c k st → timed c k st'.
Proof.
  intros Sq Sr Sf Sb Hm Hfr (Hq & Hr & Hf & Hb). split_and!.
  - intros x Hx%Sq. destruct (Hm x) as ((-> & _) & _); [by left|]. by apply Hq.
  - intros x Hx%Sr. destruct (Hm x) as ((-> & -> & _) & _); [by right; left|]. by apply Hr.
  - intros x Hx%Sf. destruct (Hm x) as ((_ & -> & ->) & _); [right; left; by apply Hfr|].
    by apply Hf.
  - intros x Hx%Sb. destruct (Hm x) as ((-> & -> & ->) & -> & ->); [by right; right|].
    by apply Hb.
Qed.

Lemma timed_CDB_To_retire N table c st st' :
  safe N table st → timed c 0 st → CDB_To_retire c st = Ok st' → timed c 1 st'.
Proof.
  intros Hs Ht H. pose proof (CDB_To_retire_frame _ _ _ H) as (Eb & _).
  apply (timed_weaken c 0 1); [lia|by right|].
  apply CDB_To_retire_Ok in H as [[_ ->]|(b & mt1 & mt2 & _ & _ & _ & ->)]; [done|].
  apply (timed_sub c 0 st); try done.
  - intros x _. simpl.
    destruct (retire_reserv_stamps b (reservFP st)
                (retire_reserv b (reservINT st) (mem st)) x) as [S1 C1].
    destruct (retire_reserv_stamps b (reservINT st) (mem st) x) as [S2 C2].
    destruct (retire_reserv_frame b (reservFP st)
                (retire_reserv b (reservINT st) (mem st)) x) as [(O1 & _) _].
    destruct (retire_reserv_frame b (reservINT st) (mem st) x) as [(O2 & _) _].
    unfold same_stamps in *. destruct S1 as (? & ? & ?), S2 as (? & ? & ?).
    split_and!; congruence.
  - intros x. by apply (safe_in_FU_in_RS N table).
Qed.

Lemma latency_of_unit N table st x :
  safe N table st →
  (holds (fuINT st) x → latency_of (op (mem st x)) = FU_INT_LATENCY) ∧
  (holds (fuFP st) x → latency_of (op (mem st x)) = FU_FP_LATENCY).
Proof.
  intros Hs. unfold latency_of. split; intros Hx.
  - destruct (safe_FU_class N table st x Hs (or_introl Hx)) as [(_ & _ & ->)|(_ & Hr & _)];
      [done|].
    destruct (safe_pools_apart N table st x Hs); [by apply Hs|done].
  - destruct (safe_FU_class N table st x Hs (or_intror Hx)) as [(_ & Hr & _)|(_ & _ & -> & _)];
      [|done].
    destruct (safe_pools_apart N table st x Hs); [done|by apply Hs].
Qed.

Lemma timed_execute_To_CDB N table c st st' :
  wf_trace N table → safe N table st → timed c 1 st →
  execute_To_CDB c st = Ok st' → timed c 2 st'.
Proof.
  intros Hwf Hs Ht H.
  pose proof (execute_To_CDB_frame _ _ _ H)
    as (_ & Eq & Esz & Ehd & _ & _ & _ & Hfi & Hff & Hri & Hrf).
  assert (Sq : ∀ x, in_queue st' x → in_queue st x).
  { intros x [k Hx]. exists k. unfold queued in *. by rewrite Eq, Esz, Ehd in Hx. }
  assert (Sr : ∀ x, in_RS st' x → in_RS st x).
  { intros y [[i Hy]|[i Hy]]; [left|right]; exists i; auto. }
  assert (Sf : ∀ x, in_FU st' x → in_FU st x).
  { intros y [[i Hy]|[i Hy]]; [left|right]; exists i; auto. }
  assert (Hm : ∀ x, same_stamps (mem st' x) (mem st x) ∧ op (mem st' x) = op (mem st x) ∧
                    (¬ on_bus st' x → tom_cdb_cycle (mem st' x) = tom_cdb_cycle (mem st x))).
  { intros x. destruct (execute_To_CDB_mem _ _ _ H) as [[-> _]|(w & Ew & ->)]; [done|].
    destruct (decide (x = w)) as [->|Hne].
    - rewrite fn_lookup_insert. split_and!; [by destruct (mem st w)..|].
      intros Hn. by destruct Hn.
    - by rewrite fn_lookup_insert_ne. }
  destruct Ht as (Hq & Hr & Hf & Hb). split_and!.
  - intros x Hx%Sq. destruct (Hm x) as ((-> & _) & _). specialize (Hq x Hx).
    repeat case_decide; lia.
  - intros x Hx%Sr. destruct (Hm x) as ((-> & -> & _) & _). specialize (Hr x Hx).
    repeat case_decide; lia.
  - intros x Hx%Sf. destruct (Hm x) as ((_ & -> & ->) & _). specialize (Hf x Hx).
    repeat case_decide; lia.
  - intros x Hx. destruct (Hm x) as ((-> & -> & ->) & -> & _).
    destruct (safe_execute_To_CDB_winner _ _ _ _ _ Hwf Hs H) as [[_ E]|(w & Ew & Cw)].
    + assert (Hx' : on_bus st x) by (unfold on_bus in *; congruence).
      destruct (execute_To_CDB_mem _ _ _ H) as [[-> _]|(w & Ew & _)].
      * specialize (Hb x Hx'). repeat case_decide; lia.
      * specialize (Hb x Hx'). unfold on_bus in Hx. rewrite Ew in Hx. injection Hx as <-.
        destruct (execute_To_CDB_mem _ _ _ H) as [[Em _]|(w' & Ew' & Em)].
        -- rewrite Em. repeat case_decide; lia.
        -- assert (w' = w) as -> by congruence. rewrite Em, fn_lookup_insert.
           replace (tom_cdb_cycle (set_tom_cdb_cycle c (mem st w))) with c
             by (by destruct (mem st w)).
           repeat case_decide; lia.
    + unfold on_bus in Hx. rewrite Ew in Hx. injection Hx as <-.
      assert (HwF : in_FU st w).
      { destruct Cw as [[[i (_ & Hw & _)]|[Hw _]] _]; [left; by exists i|right; by exists 0%nat]. }
      pose proof (safe_in_FU_in_RS N table st w Hs HwF) as HwR.
      specialize (Hr w HwR). specialize (Hf w HwF).
      destruct (latency_of_unit N table st w Hs) as [Li Lf].
      assert (Hlat : tom_execute_cycle (mem st w) + latency_of (op (mem st w)) <= c).
      { destruct Cw as [[[i (_ & Hw & Hc)]|[Hw Hc]] _].
        - rewrite Li; [done|by exists i].
        - rewrite Lf; [done|by exists 0%nat]. }
      destruct (execute_To_CDB_mem _ _ _ H) as [[_ E]|(w' & Ew' & Em)].
      * destruct (safe_bus_free _ _ _ Hs w); [unfold on_bus; congruence|done].
      * assert (w' = w) as -> by congruence. rewrite Em, fn_lookup_insert.
        replace (tom_cdb_cycle (set_tom_cdb_cycle c (mem st w))) with c
          by (by destruct (mem st w)).
        repeat case_decide; lia.
Qed.

(** One round of the loops of [issue_To_execute]: the instruction that
    starts has been in its station since an earlier cycle. *)
Lemma timed_start N table c st st' x :
  safe N table st → in_RS st x →
  instr_queue st' = instr_queue st → instr_queue_size st' = instr_queue_size st →
  ifq_head st' = ifq_head st →
  reservINT st' = reservINT st → reservFP st' = reservFP st →
  commonDataBus st' = commonDataBus st →
  mem st' = <[x := set_tom_execute_cycle c (mem st x)]> (mem st) →
  (∀ y, in_FU st' y → in_FU st y ∨ y = x) →
  timed c 3 st ∧ (∀ y, in_RS st y → tom_issue_cycle (mem st y) < c) →
  timed c 3 st' ∧ (∀ y, in_RS st' y → tom_issue_cycle (mem st' y) < c).
Proof.
  intros Hs Hx Eq Esz Ehd Eri Erf Eb Em HFU [(Hq & Hr & Hf & Hb) Hlt].
  assert (Hm : ∀ p, tom_dispatch_cycle (mem st' p) = tom_dispatch_cycle (mem st p) ∧
                    tom_issue_cycle (mem st' p) = tom_issue_cycle (mem st p) ∧
                    tom_cdb_cycle (mem st' p) = tom_cdb_cycle (mem st p) ∧
                    op (mem st' p) = op (mem st p) ∧
                    (p ≠ x → tom_execute_cycle (mem st' p) = tom_execute_cycle (mem st p)) ∧
                    (p = x → tom_execute_cycle (mem st' p) = c)).
  { intros p. rewrite Em. destruct (decide (p = x)) as [->|Hne].
    - rewrite fn_lookup_insert. by destruct (mem st x).
    - by rewrite fn_lookup_insert_ne. }
  assert (HRS : ∀ y, in_RS st' y ↔ in_RS st y).
  { intros y. unfold in_RS. by rewrite Eri, Erf. }
  split; [split_and!|].
  - intros y [k Hy]. destruct (Hm y) as (-> & _). apply Hq. exists k.
    unfold queued in *. by rewrite Eq, Esz, Ehd in Hy.
  - intros y Hy%HRS. destruct (Hm y) as (-> & -> & _). by apply Hr.
  - intros y Hy. destruct (Hm y) as (_ & -> & _ & _ & Hne & He).
    destruct (decide (y = x)) as [->|Hyx].
    + rewrite (He eq_refl). specialize (Hlt x Hx). repeat case_decide; lia.
    + rewrite (Hne Hyx). apply Hf. by destruct (HFU y Hy).
  - intros y Hy. assert (Hy' : on_bus st y) by (unfold on_bus in *; congruence).
    assert (y ≠ x) by (intros ->; by apply (safe_bus_free _ _ _ Hs x)).
    destruct (Hm y) as (-> & -> & -> & -> & Hne & _). rewrite (Hne H). by apply Hb.
  - intros y Hy%HRS. destruct (Hm y) as (_ & -> & _). by apply Hlt.
Qed.

Lemma timed_issue_To_execute N table c st :
  c ≠ 0 → safe N table st → timed c 2 st → timed c 3 (issue_To_execute c st).
Proof.
  intros Hc Hs Ht.
  set (P := λ s, safe N table s ∧ timed c 3 s ∧
                 ∀ y, in_RS s y → tom_issue_cycle (mem s y) < c).
  assert (HP : P st).
  { split; [done|]. split; [by apply (timed_weaken c 2 3); [lia|lia|]|].
    intros y Hy. destruct Ht as (_ & Hr & _). specialize (Hr y Hy).
    repeat case_decide; lia. }
  assert (Hi : ∀ s i, P s → P (issue_int_slot c s i)).
  { intros s i (Hss & Hts). split; [by apply safe_issue_int_slot|].
    destruct (issue_int_slot_cases c s i) as [->|(j & x & Efu & _ & Ex & ->)]; [done|].
    apply (timed_start N table c s _ x); try done.
    - left. by exists j.
    - intros y [Hy|Hy]; simpl in Hy; [|left; by right].
      apply holds_insert in Hy as [[= ->]|Hy]; [by right|left; by left]. }
  assert (Hf : ∀ s i, P s → P (issue_fp_slot c s i)).
  { intros s i (Hss & Hts). split; [by apply safe_issue_fp_slot|].
    destruct (issue_fp_slot_cases c s i) as [->|(j & x & Efu & _ & Ex & ->)]; [done|].
    apply (timed_start N table c s _ x); try done.
    - right. by exists j.
    - intros y [Hy|Hy]; simpl in Hy; [left; by left|].
      apply holds_insert in Hy as [[= ->]|Hy]; [by right|left; by right]. }
  unfold issue_To_execute.
  apply (fold_left_preserves P _ (seq 0 FU_FP_SIZE)); [apply Hf|].
  by apply (fold_left_preserves P _ (seq 0 FU_INT_SIZE)); [apply Hi|].
Qed.

Lemma timed_dispatch_To_issue N table c st st' :
  safe N table st → timed c 3 st → dispatch_To_issue c st = Ok st' → timed c 4 st'.
Proof.
  intros Hs Ht H.
  destruct (dispatch_To_issue_admits N table c st st' Hs H)
    as [[-> _]|[(h & Hh & _ & ->)|(h & Hh & _ & Hqd & HRS & Efi & Eff & Eb & _ & _ & _ &
                                 Hoth & Hcode & Edc & Eic & Eex & _)]].
  - by apply (timed_weaken c 3 4); [lia|lia|].
  - apply (timed_weaken c 3 4); [lia|lia|].
    destruct (safe_queue_head_fresh _ _ _ _ Hs Hh) as (_ & _ & _ & Hsz).
    apply (timed_sub c 3 st); try done.
    + intros x [k Hx]. apply queued_pop_head in Hx; [|done]. by exists (S k).
    + intros x. by apply (safe_in_FU_in_RS N table).
  - destruct (safe_queue_head_fresh _ _ _ _ Hs Hh) as (HhRS & Hhbus & _ & _).
    destruct Ht as (Hq & Hr & Hf & Hb).
    assert (Hhq : in_queue st h) by (by exists 0%nat).
    split_and!.
    + intros x [k Hx]. apply Hqd in Hx.
      assert (x ≠ h).
      { intros ->. pose proof (safe_queue_order _ _ _ Hs 0%nat (S k) h h Hh Hx). lia. }
      rewrite Hoth by done. specialize (Hq x (ex_intro _ (S k) Hx)).
      repeat case_decide; lia.
    + intros x Hx. apply HRS in Hx as [Hx| ->].
      * assert (x ≠ h) by (by intros ->). rewrite Hoth by done.
        specialize (Hr x Hx). repeat case_decide; lia.
      * rewrite Edc, Eic. specialize (Hq h Hhq). repeat case_decide; lia.
    + intros x Hx. assert (Hx' : in_FU st x) by (unfold in_FU in *; by rewrite <- Efi, <- Eff).
      assert (x ≠ h) by (intros ->; by apply HhRS, (safe_in_FU_in_RS N table)).
      rewrite Hoth by done. specialize (Hf x Hx'). repeat case_decide; lia.
    + intros x Hx. assert (Hx' : on_bus st x) by (unfold on_bus in *; congruence).
      assert (x ≠ h) by (by intros ->). rewrite Hoth by done.
      specialize (Hb x Hx'). repeat case_decide; lia.
Qed.

Lemma timed_fetch_To_dispatch N table c st st' :
  1 <= c → safe N table st → timed c 4 st →
  fetch_To_dispatch N c st = Ok st' → timed c 5 st'.
Proof.
  intros Hc Hs Ht H.
  assert (Htl : (ifq_tail st < INSTR_QUEUE_SIZE)%nat).
  { rewrite (safe_tail _ _ _ Hs). apply queue_mod_lt. }
  destruct (fetch_To_dispatch_Ok N c st st' (safe_len_queue _ _ _ Hs) Htl H)
    as [[_ ->]|(new & d & Hsz & Hnew & Hrange & _ & _ & _ & E)].
  { by apply (timed_weaken c 4 5); [lia|lia|]. }
  assert (Hqd : ∀ k y, queued st' k y ↔
                       queued st k y ∨ (k = instr_queue_size st ∧ y = new)).
  { intros k y. rewrite <- queued_push_tail; [by rewrite E|apply Hs|done|apply Hs]. }
  assert (Hoth : ∀ p, p ≠ new → mem st' p = mem st p).
  { intros p Hne. rewrite E. simpl. by rewrite fn_lookup_insert_ne. }
  assert (Hold : ∀ x, in_queue st x ∨ in_RS st x ∨ on_bus st x → x ≠ new).
  { intros x [[k Hx]|Hx] ->.
    - pose proof (safe_queue_range _ _ _ Hs k new Hx). lia.
    - pose proof (safe_flight_range _ _ _ Hs new Hx). lia. }
  destruct Ht as (Hq & Hr & Hf & Hb). split_and!.
  - intros x [k Hx]. apply Hqd in Hx as [Hx|[_ ->]].
    + rewrite Hoth by (apply Hold; left; by exists k).
      specialize (Hq x (ex_intro _ k Hx)). repeat case_decide; lia.
    + rewrite E. simpl. rewrite fn_lookup_insert.
      replace (tom_dispatch_cycle (set_tom_dispatch_cycle c (mem st new))) with c
        by (by destruct (mem st new)).
      repeat case_decide; lia.
  - intros x Hx. assert (Hx' : in_RS st x) by (by rewrite E in Hx).
    rewrite Hoth by (apply Hold; by right; left).
    specialize (Hr x Hx'). repeat case_decide; lia.
  - intros x Hx. assert (Hx' : in_FU st x) by (by rewrite E in Hx).
    rewrite Hoth by (apply Hold; right; left; by apply (safe_in_FU_in_RS N table)).
    specialize (Hf x Hx'). repeat case_decide; lia.
  - intros x Hx. assert (Hx' : on_bus st x) by (by rewrite E in Hx).
    rewrite Hoth by (apply Hold; by right; right).
    specialize (Hb x Hx'). repeat case_decide; lia.
Qed.

(** From the end of a pass to the start of the next. *)
Lemma timed_next_pass c st : timed c 5 st → timed (c + 1) 0 st.
Proof.
  intros (Hq & Hr & Hf & Hb). split_and!.
  - intros x Hx. specialize (Hq x Hx). repeat case_decide; lia.
  - intros x Hx. specialize (Hr x Hx). repeat case_decide; lia.
  - intros x Hx. specialize (Hf x Hx). repeat case_decide; lia.
  - intros x Hx. specialize (Hb x Hx). repeat case_decide; lia.
Qed.

Lemma timed_init table : timed 1 0 (init_state table).
Proof.
  split_and!.
  - intros x [k [Hk _]]. simpl in Hk. lia.
  - intros x [Hx|Hx]; by destruct (holds_replicate_None _ _ Hx).
  - intros x [Hx|Hx]; by destruct (holds_replicate_None _ _ Hx).
  - intros x Hx. done.
Qed.

Lemma timed_stage N table c k st st' :
  wf_trace N table → 1 <= c → safe N table st → (k < 5)%nat →
  timed c k st → stage N c k st = Ok st' → timed c (S k) st'.
Proof.
  intros Hwf Hc Hs Hk Ht H. destruct k as [|[|[|[|k]]]]; simpl in H.
  5: assert (k = 0%nat) as -> by lia.
  - by apply (timed_CDB_To_retire N table c st).
  - by apply (timed_execute_To_CDB N table c st).
  - injection H as <-. apply (timed_issue_To_execute N table); [lia|done..].
  - by apply (timed_dispatch_To_issue N table c st).
  - by apply (timed_fetch_To_dispatch N table c st).
Qed.

Lemma timed_first_stages N table c k st st' :
  wf_trace N table → 1 <= c → safe N table st → (k <= 5)%nat →
  timed c 0 st → first_stages N c k st = Ok st' → timed c k st'.
Proof.
  intros Hwf Hc Hs Hk Ht. revert st'. induction k as [|k IH]; intros st' H; simpl in H.
  - by injection H as <-.
  - apply bind_Ok in H as (s & H1 & H2).
    apply (timed_stage N table c k s st' Hwf Hc); [|lia|apply IH; [lia|done]|done].
    apply (safe_first_stages N table c k st s); [done|lia|done..].
Qed.

Lemma timed_passes N table n st :
  wf_trace N table → passes n N table = Ok st → timed (cycle_after n) 0 st.
Proof.
  intros Hwf. revert st. induction n as [|n IH]; intros st H; simpl in H.
  - injection H as <-. apply timed_init.
  - apply bind_Ok in H as (s & H1 & H2). rewrite stages_first_stages in H2.
    rewrite cycle_after_S. apply timed_next_pass.
    apply (timed_first_stages N table (cycle_after n) 5 s st); try done.
    + unfold cycle_after. lia.
    + by apply (safe_passes N table n).
    + by apply IH.
Qed.

Lemma timed_at_point N table n k st :
  wf_trace N table → at_point N table n k st → timed (cycle_after n) k st.
Proof.
  intros Hwf (Hk & _ & s & Hp & H).
  apply (timed_first_stages N table (cycle_after n) k s st); try done.
  - unfold cycle_after. lia.
  - by apply (safe_passes N table n).
  - by apply (timed_passes N table n).
Qed.

(** ** Lemmas on single stages *)

(** The loop of [fetch] either stops at an instruction of the trace or,
    when only traps are left, asks for the instruction after the trace. *)
Lemma fetch_loop_cases rounds N st :
  0 <= fetch_index st → Z.of_nat rounds = N - fetch_index st →
  (∃ a, fetch_loop rounds N st = Ok a) ∨
  (fetch_loop rounds N st = OutOfTrace (N + 1) ∧
   ∀ p, fetch_index st < p <= N → IS_TRAP (op (mem st p)) = true).
Proof.
  revert st. induction rounds as [|r IH]; intros st Hf Hr.
  - right. split; [|intros p Hp; lia]. simpl. unfold get_instr. simpl.
    assert (fetch_index st = N) as -> by lia.
    destruct (Z.leb_spec (N + 1) N); [lia|]. by rewrite andb_false_r.
  - cbn [fetch_loop]. unfold get_instr. simpl.
    destruct (Z.leb_spec 1 (fetch_index st + 1)); [|lia].
    destruct (Z.leb_spec (fetch_index st + 1) N); [|lia]. simpl.
    destruct (IS_TRAP (op (mem st (fetch_index st + 1)))) eqn:E; [|left; by eexists].
    destruct (IH (set_doneCount (doneCount st + 1) (set_fetch_index (fetch_index st + 1) st)))
      as [?|[Ho Htr]]; simpl; [lia|lia|by left|].
    right. split; [done|]. intros p Hp. simpl in Htr.
    destruct (decide (p = fetch_index st + 1)) as [->|Hne]; [done|]. apply Htr. lia.
Qed.

Lemma retire_map_spec b r0 mt mt1 r :
  retire_map b r0 mt = Ok mt1 →
  reg_read mt1 r = if decide (r = r0 ∧ reg_read mt r = Some (Some b))
                   then Some None else reg_read mt r.
Proof.
  intros H. apply retire_map_Ok in H as (Hs & _ & [[E ->]|[E ->]]).
  - destruct (decide (r = r0)) as [->|Hne].
    + rewrite reg_read_write_eq by done. by rewrite decide_True.
    + apply reg_read_is_Some in Hs as [H0 _]. rewrite reg_read_write_ne by done.
      rewrite decide_False; [done|]. by intros [? _].
  - rewrite decide_False; [done|]. intros [-> ?]. done.
Qed.

(** With [bound] at least the measure, the loop comes to its exit within
    [bound] passes. *)
Lemma run_loop_within N table bound :
  wf_trace N table → ends_outside_trap N table →
  ∀ n st, passes n N table = Ok st → live N table st → doneCount st ≠ N →
          potential N (cycle_after n) st <= Z.of_nat bound →
          ∃ r st', run_loop bound N (cycle_after n) st = Some (Ok (r, st')) ∧
                   cycle_after n + 1 <= r <= cycle_after n + Z.of_nat bound.
Proof.
  intros Hwf Hend. induction bound as [|bound IH]; intros n st Hp Hl Hd Hb.
  - destruct (cycle_progress N table (cycle_after n) st Hwf Hend (cycle_after_pos n) Hl
                (accounted_passes _ _ _ _ Hwf Hp) Hd) as (st' & E & Hl' & Hlt).
    pose proof (potential_nonneg N (cycle_after n + 1) st'
                  (proj2 (live_fetch _ _ _ Hl'))). lia.
  - destruct (cycle_progress N table (cycle_after n) st Hwf Hend (cycle_after_pos n) Hl
                (accounted_passes _ _ _ _ Hwf Hp) Hd) as (st' & E & Hl' & Hlt).
    cbn [run_loop]. rewrite E.
    destruct (is_simulation_done N st') eqn:Edone.
    + exists (cycle_after n + 1), st'. split; [done|lia].
    + assert (Hp' : passes (S n) N table = Ok st').
      { rewrite passes_S, Hp. by cbn [bind]. }
      destruct (IH (S n) st' Hp' Hl') as (r & s & Hrun & Hr).
      * unfold is_simulation_done in Edone. by apply Z.eqb_neq in Edone.
      * rewrite cycle_after_S. lia.
      * exists r, s. split; [by rewrite <- cycle_after_S|].
        rewrite cycle_after_S in Hr. lia.
Qed.

(** ** Properties of runs *)

(** X1: at every point of a run over a well-formed trace the instruction
    queue is a sound circular buffer that holds the fetched instructions
    in program order: its size is within the array, [ifq_tail] is
    [ifq_head] plus the size modulo the array size, every position from
    the head up to the size holds an instruction, the positions in the
    trace grow from head to tail, and every instruction in a reservation
    station or on the bus is older than every queued one. *)
Theorem queue_holds_program_order N table n k st :
  wf_trace N table → at_point N table n k st →
  (instr_queue_size st <= INSTR_QUEUE_SIZE)%nat ∧
  (ifq_head st < INSTR_QUEUE_SIZE)%nat ∧
  ifq_tail st = ((ifq_head st + instr_queue_size st) `mod` INSTR_QUEUE_SIZE)%nat ∧
  (∀ j, (j < instr_queue_size st)%nat → ∃ x, queued st j x) ∧
  (∀ j1 j2 x1 x2, queued st j1 x1 → queued st j2 x2 → (j1 < j2)%nat → x1 < x2) ∧
  (∀ j x, queued st j x → 1 <= x <= fetch_index st ∧ x <= N) ∧
  (∀ j x y, queued st j x → in_RS st y ∨ on_bus st y → y < x).
Proof.
  intros Hwf Hp. pose proof (safe_at_point _ _ _ _ _ Hwf Hp) as Hs.
  split_and!; apply Hs.
Qed.

(** X2: at every point of a run over a well-formed trace every fetched
    instruction is counted once: [doneCount] plus the number of queued
    instructions, of occupied reservation stations and of instructions on
    the bus is [fetch_index]; so [doneCount] is never above the number of
    instructions fetched, nor this above the instruction count. *)
Theorem fetched_instructions_are_accounted N table n k st :
  wf_trace N table → 0 <= N → at_point N table n k st →
  0 <= doneCount st ∧
  doneCount st + Z.of_nat (instr_queue_size st)
  + Z.of_nat (occupancy (reservINT st)) + Z.of_nat (occupancy (reservFP st))
  + match commonDataBus st with Some _ => 1 | None => 0 end = fetch_index st ∧
  doneCount st <= fetch_index st ∧ fetch_index st <= N.
Proof.
  intros Hwf HN Hp. destruct (accounted_at_point _ _ _ _ _ Hwf Hp) as [H0 Ha].
  pose proof (live_fetch _ _ _ (live_at_point _ _ _ _ _ Hwf HN Hp)) as Hf.
  unfold in_flight in Ha. split_and!; [done|lia| |lia].
  destruct (commonDataBus st); lia.
Qed.

(** X3: in a run over a well-formed trace no stage call fails but
    [fetch_To_dispatch], and this in one way only: no [assert(false)] is
    reached, no NULL head or tail of the queue is dereferenced and
    [map_table] is never subscripted outside the register file; the call
    of [fetch_To_dispatch] fails exactly by asking for the instruction
    after the trace, when there is room in the queue and all the
    instructions left are traps. *)
Theorem stages_fail_only_by_fetching_beyond_trace N table n k st :
  wf_trace N table → 0 <= N → at_point N table n k st → (k < 5)%nat →
  (∃ st', stage N (cycle_after n) k st = Ok st') ∨
  (k = 4%nat ∧ stage N (cycle_after n) k st = OutOfTrace (N + 1) ∧
   (instr_queue_size st < INSTR_QUEUE_SIZE)%nat ∧ fetch_index st < N ∧
   ∀ p, fetch_index st < p <= N → IS_TRAP (op (table p)) = true).
Proof.
  intros Hwf HN Hp Hk. pose proof (live_at_point _ _ _ _ _ Hwf HN Hp) as Hl.
  pose proof (live_safe _ _ _ Hl) as Hs.
  destruct k as [|[|[|[|k]]]].
  - left. destruct (live_CDB_To_retire N table (cycle_after n) st Hwf Hl) as (s & E & _).
    by exists s.
  - left. destruct (live_execute_To_CDB N table (cycle_after n) st Hwf Hl) as (s & E & _).
    { by apply (at_point_1_bus N table n). }
    by exists s.
  - left. by eexists.
  - left. destruct (live_dispatch_To_issue N table (cycle_after n) st Hwf Hl) as (s & E & _).
    by exists s.
  - assert (k = 0%nat) as -> by lia. simpl. unfold fetch_To_dispatch.
    destruct (Nat.ltb_spec (instr_queue_size st) INSTR_QUEUE_SIZE) as [Hsz|Hsz];
      [|left; by eexists].
    destruct (Z.ltb_spec (fetch_index st) N) as [Hfi|Hfi]; [|left; by eexists].
    simpl. pose proof (live_fetch _ _ _ Hl) as Hf. unfold fetch.
    destruct (fetch_loop_cases (Z.to_nat (N - fetch_index st)) N st)
      as [[[new st1] F]|[F Htr]]; [lia|lia| |].
    + left. rewrite F. cbn [bind].
      apply fetch_loop_Ok in F as (d & -> & _). simpl.
      rewrite slot_insert_here; [by eexists|].
      rewrite (safe_len_queue _ _ _ Hs), (safe_tail _ _ _ Hs). apply queue_mod_lt.
    + right. rewrite F. split_and!; try done. intros p Hp'.
      assert (Eop : op (mem st p) = op (table p)) by apply Hs.
      rewrite <- Eop. by apply Htr.
Qed.

(** X4: at every point of a run over a well-formed trace an await-slot
    [Q[j]] of an instruction in a reservation station names an older
    instruction that is itself still in a reservation station or on the
    bus, is not a store and writes the source register [r_in[j]]: no
    await-slot is left pointing at an instruction that has retired, so
    every waiting instruction is woken up. *)
Theorem await_slots_name_older_writers N table n k st x j p :
  wf_trace N table → 0 <= N → at_point N table n k st →
  in_RS st x → (j < 3)%nat → at3 (Q (mem st x)) j = Some p →
  p < x ∧ (in_RS st p ∨ on_bus st p) ∧
  IS_STORE (op (table p)) = false ∧
  at3 (r_in (table x)) j ≠ DNA ∧
  (at3 (r_in (table x)) j = at2 (r_out (table p)) 0 ∨
   at3 (r_in (table x)) j = at2 (r_out (table p)) 1).
Proof.
  intros Hwf HN Hp Hx Hj HQ.
  destruct (live_Q _ _ _ (live_at_point _ _ _ _ _ Hwf HN Hp) x j p Hx Hj HQ)
    as (? & ? & ?).
  destruct (ord_Q _ _ (orderly_at_point _ _ _ _ _ Hwf HN Hp) x j p Hx Hj HQ) as [? ?].
  done.
Qed.

(** X5: at every point of a run over a well-formed trace the producer
    [map_table] names for a register is an instruction still in a
    reservation station or on the bus that writes this register, which is
    not DNA, is not a store, and is the youngest such writer in flight: a
    later reader waits for the last write before it. *)
Theorem producer_map_names_youngest_writer N table n k st r p :
  wf_trace N table → 0 <= N → at_point N table n k st →
  reg_read (map_table st) r = Some (Some p) →
  (in_RS st p ∨ on_bus st p) ∧ writes (table p) r ∧
  IS_STORE (op (table p)) = false ∧
  ∀ y, in_RS st y ∨ on_bus st y → writes (table y) r → y <= p.
Proof.
  intros Hwf HN Hp Hr. pose proof (live_at_point _ _ _ _ _ Hwf HN Hp) as Hl.
  destruct (live_map _ _ _ Hl r p Hr) as (? & ? & ?).
  split_and!; [done|by split|by apply (live_map_not_store N table st r)|].
  intros y Hy Hw.
  by apply (ord_map _ _ (orderly_at_point _ _ _ _ _ Hwf HN Hp) r p y).
Qed.

(** X6: at every point of a run over a well-formed trace the field
    [tom_execute_cycle] tells which occupants of the reservation stations
    execute: it is not 0 exactly for those in a functional unit, and
    these wait for no producer (all three await-slots are NULL); a queued
    instruction has no execute cycle and empty await-slots. *)
Theorem executing_instructions_wait_for_nothing N table n k st x :
  wf_trace N table → 0 <= N → at_point N table n k st →
  (in_RS st x → (in_FU st x ↔ tom_execute_cycle (mem st x) ≠ 0)) ∧
  (in_FU st x → in_RS st x ∧ Q (mem st x) = (None, None, None)) ∧
  (in_queue st x →
   tom_execute_cycle (mem st x) = 0 ∧ Q (mem st x) = (None, None, None)).
Proof.
  intros Hwf HN Hp. pose proof (live_at_point _ _ _ _ _ Hwf HN Hp) as Hl.
  pose proof (live_safe _ _ _ Hl) as Hs. split_and!.
  - intros Hx. split; [by apply (safe_fu_exec _ _ _ Hs)|].
    intros He. destruct (in_FU_dec st x) as [?|Hn]; [done|].
    by destruct He; apply (live_idle _ _ _ Hl).
  - intros Hx. split; [by apply (safe_in_FU_in_RS N table)|].
    by apply (ord_quiet _ _ (orderly_at_point _ _ _ _ _ Hwf HN Hp)).
  - intros Hx. apply (live_pristine _ _ _ Hl). by left.
Qed.

(** X7: at every point of a run over a well-formed trace no trap is in
    the queue, in a reservation station, in a functional unit or on the
    bus: [fetch] hands no trap to the queue. *)
Theorem traps_stay_out_of_the_pipeline N table n k st x :
  wf_trace N table → 0 <= N → at_point N table n k st →
  in_queue st x ∨ in_RS st x ∨ in_FU st x ∨ on_bus st x →
  IS_TRAP (op (table x)) = false ∧ IS_TRAP (op (mem st x)) = false.
Proof.
  intros Hwf HN Hp Hx. pose proof (live_at_point _ _ _ _ _ Hwf HN Hp) as Hl.
  pose proof (live_safe _ _ _ Hl) as Hs.
  pose proof (orderly_at_point _ _ _ _ _ Hwf HN Hp) as Ho.
  assert (Eop : op (mem st x) = op (table x)) by apply Hs. rewrite Eop.
  assert (IS_TRAP (op (table x)) = false); [|done].
  destruct Hx as [[j Hx]|[Hx|[Hx|Hx]]].
  - by apply (live_queue_code _ _ _ Hl j).
  - apply (ord_code _ _ Ho). by left.
  - apply (ord_code _ _ Ho). left. by apply (safe_in_FU_in_RS N table).
  - apply (ord_code _ _ Ho). by right.
Qed.

(** X8: at every point of a run over a well-formed trace the cycles
    recorded in the records grow with the stages, none of which takes
    less than a cycle: a queued instruction has a dispatch cycle; one in a
    reservation station was issued after its dispatch cycle; one in a
    functional unit began to execute after its issue cycle; and the
    instruction on the bus took it when the latency of its unit (4 for
    the integer units, 9 for the floating-point unit) had passed since
    its execute cycle.  No recorded cycle is later than the current
    one. *)
Theorem recorded_cycles_increase N table n k st x :
  wf_trace N table → at_point N table n k st →
  (in_queue st x → 1 <= tom_dispatch_cycle (mem st x) <= cycle_after n) ∧
  (in_RS st x →
   1 <= tom_dispatch_cycle (mem st x) < tom_issue_cycle (mem st x) ∧
   tom_issue_cycle (mem st x) <= cycle_after n) ∧
  (in_FU st x →
   tom_dispatch_cycle (mem st x) < tom_issue_cycle (mem st x) ∧
   tom_issue_cycle (mem st x) < tom_execute_cycle (mem st x) ∧
   tom_execute_cycle (mem st x) <= cycle_after n) ∧
  (on_bus st x →
   1 <= tom_dispatch_cycle (mem st x) < tom_issue_cycle (mem st x) ∧
   tom_issue_cycle (mem st x) < tom_execute_cycle (mem st x) ∧
   tom_execute_cycle (mem st x) + latency_of (op (mem st x))
     <= tom_cdb_cycle (mem st x) ∧
   tom_cdb_cycle (mem st x) = (if decide (k = 0)%nat then cycle_after n - 1
                               else cycle_after n)).
Proof.
  intros Hwf Hp. pose proof (safe_at_point _ _ _ _ _ Hwf Hp) as Hs.
  destruct (timed_at_point _ _ _ _ _ Hwf Hp) as (Hq & Hr & Hf & Hb). split_and!.
  - intros Hx. specialize (Hq x Hx). repeat case_decide; lia.
  - intros Hx. specialize (Hr x Hx). repeat case_decide; lia.
  - intros Hx. specialize (Hf x Hx).
    specialize (Hr x (safe_in_FU_in_RS N table st x Hs Hx)). repeat case_decide; lia.
  - intros Hx. by apply Hb.
Qed.

(** X9: the run over a well-formed trace of [N >= 1] instructions that
    does not end in a trap returns within [14 * N] passes of the loop:
    the value returned is at most [14 * N + 1]. *)
Theorem run_returns_within_14_cycles_per_instruction N table :
  wf_trace N table → ends_outside_trap N table → 1 <= N →
  ∃ r, runTomasulo (Z.to_nat (14 * N)) N table = Some (Ok r) ∧
       2 <= r <= 14 * N + 1.
Proof.
  intros Hwf Hend HN.
  destruct (run_loop_within N table (Z.to_nat (14 * N)) Hwf Hend 0%nat (init_state table))
    as (r & st' & H & Hr).
  - done.
  - apply live_init; [done|lia].
  - simpl. lia.
  - unfold potential. simpl. lia.
  - exists r. split.
    + apply runTomasulo_Ok. by exists st'.
    + unfold cycle_after in Hr. lia.
Qed.

(** ** Properties of single stages *)

Lemma issued_refl c st : issued c st st.
Proof. unfold issued. split_and!; auto. Qed.

Lemma issued_trans c st s1 s2 :
  issue_frame st s1 → issued c st s1 → issued c s1 s2 → issued c st s2.
Proof.
  intros (_ & _ & _ & _ & _ & _ & Eri & Erf & _ & _ & Hm)
         (A1 & A2 & A3 & A4) (B1 & B2 & B3 & B4).
  unfold issued. split_and!; [auto..| |].
  - intros x Hx. destruct (B3 x Hx) as [H1|(Hr & He & HQ & Hc)].
    + destruct (A3 x H1) as [?|(Hr & He & HQ & Hc)]; [by left|].
      right. split_and!; [done..|]. destruct (B4 x) as [->|[_ ->]]; done.
    + right. destruct (Hm x) as [_ EQ]. rewrite EQ in HQ.
      unfold in_RS in Hr. rewrite Eri, Erf in Hr.
      split_and!; [done| |done..]. destruct (A4 x) as [E|[E _]]; congruence.
  - intros p. destruct (B4 p) as [E2|[E2 E2']], (A4 p) as [E1|[E1 E1']].
    + left. congruence.
    + right. split; congruence.
    + right. split; congruence.
    + right. split; congruence.
Qed.

Lemma issued_int_slot c st i : issued c st (issue_int_slot c st i).
Proof.
  destruct (issue_int_slot_cases c st i) as [->|(j & x & Efu & Eo & Ex & ->)];
    [apply issued_refl|].
  apply lookup_Some_None_slot in Efu as [Efu Hi].
  apply oldest_rs_int_Some in Eo as (_ & Hr & _). rewrite Ex in Hr.
  apply ready_Some in Hr as [He HQ].
  unfold issued. simpl. split_and!; [|done| |].
  - intros i' y Hy. rewrite slot_insert. case_decide as Hd; [|done].
    destruct Hd as [-> _]. congruence.
  - intros y [Hy|Hy]; simpl in Hy; [|left; by right].
    apply holds_insert in Hy as [[= <-]|Hy]; [|left; by left].
    right. split_and!; [left; by exists j|done..|].
    rewrite fn_lookup_insert. by destruct (mem st x).
  - intros p. destruct (decide (p = x)) as [->|Hne].
    + right. split; [done|]. rewrite fn_lookup_insert. by destruct (mem st x).
    + left. by rewrite fn_lookup_insert_ne.
Qed.

Lemma issued_fp_slot c st i : issued c st (issue_fp_slot c st i).
Proof.
  destruct (issue_fp_slot_cases c st i) as [->|(j & x & Efu & Eo & Ex & ->)];
    [apply issued_refl|].
  apply lookup_Some_None_slot in Efu as [Efu Hi].
  apply oldest_rs_fp_Some in Eo as (_ & Hr & _). rewrite Ex in Hr.
  apply ready_Some in Hr as [He HQ].
  unfold issued. simpl. split_and!; [done| | |].
  - intros i' y Hy. rewrite slot_insert. case_decide as Hd; [|done].
    destruct Hd as [-> _]. congruence.
  - intros y [Hy|Hy]; simpl in Hy; [left; by left|].
    apply holds_insert in Hy as [[= <-]|Hy]; [|left; by right].
    right. split_and!; [right; by exists j|done..|].
    rewrite fn_lookup_insert. by destruct (mem st x).
  - intros p. destruct (decide (p = x)) as [->|Hne].
    + right. split; [done|]. rewrite fn_lookup_insert. by destruct (mem st x).
    + left. by rewrite fn_lookup_insert_ne.
Qed.

(** X10: [CDB_To_retire] with an empty bus changes nothing.  With [b] on
    the bus it empties the bus and counts [b]; in the records of the
    occupants of the reservation stations it clears exactly the
    await-slots that name [b]; in [map_table] it clears exactly the
    entries of the two destination registers of [b] that still name [b];
    and it writes nothing else. *)
Theorem CDB_To_retire_clears_what_names_the_bus c st :
  (commonDataBus st = None → CDB_To_retire c st = Ok st) ∧
  ∀ b st',
    commonDataBus st = Some b → CDB_To_retire c st = Ok st' →
    commonDataBus st' = None ∧ doneCount st' = doneCount st + 1 ∧
    instr_queue st' = instr_queue st ∧ instr_queue_size st' = instr_queue_size st ∧
    ifq_head st' = ifq_head st ∧ ifq_tail st' = ifq_tail st ∧
    reservINT st' = reservINT st ∧ reservFP st' = reservFP st ∧
    fuINT st' = fuINT st ∧ fuFP st' = fuFP st ∧ fetch_index st' = fetch_index st ∧
    (∀ x j, in_RS st x → (j < 3)%nat →
       at3 (Q (mem st' x)) j
       = if decide (at3 (Q (mem st x)) j = Some b) then None else at3 (Q (mem st x)) j) ∧
    (∀ x, ¬ in_RS st x → mem st' x = mem st x) ∧
    (∀ x, same_code (mem st' x) (mem st x) ∧ same_stamps (mem st' x) (mem st x) ∧
          tom_cdb_cycle (mem st' x) = tom_cdb_cycle (mem st x)) ∧
    (∀ r, reg_read (map_table st') r
          = if decide (reg_read (map_table st) r = Some (Some b) ∧
                       (r = at2 (r_out (mem st b)) 0 ∨ r = at2 (r_out (mem st b)) 1))
            then Some None else reg_read (map_table st) r).
Proof.
  split; [intros Eb; unfold CDB_To_retire; by rewrite Eb|].
  intros b st' Eb H.
  apply CDB_To_retire_Ok in H as [[E _]|(b' & mt1 & mt2 & Eb' & R0 & R1 & ->)]; [congruence|].
  assert (b' = b) as -> by congruence. simpl.
  set (m1 := retire_reserv b (reservINT st) (mem st)).
  split_and!; try done.
  - intros x j Hx Hj. rewrite <- retire_Q_slot_spec. destruct Hx as [Hx|Hx].
    + destruct (retire_reserv_Q_slots b (reservFP st) m1 x j Hj) as [E|E]; rewrite E;
        unfold m1; rewrite retire_reserv_Q_held by done; [done|].
      apply retire_Q_slot_idem.
    + rewrite retire_reserv_Q_held by done.
      destruct (retire_reserv_Q_slots b (reservINT st) (mem st) x j Hj) as [E|E];
        unfold m1; rewrite E; [done|]. apply retire_Q_slot_idem.
  - intros x Hx. rewrite retire_reserv_other by (intros ?; apply Hx; by right).
    unfold m1. apply retire_reserv_other. intros ?. apply Hx. by left.
  - intros x.
    destruct (retire_reserv_stamps b (reservFP st) m1 x) as [(S1 & S2 & S3) C1].
    destruct (retire_reserv_stamps b (reservINT st) (mem st) x) as [(T1 & T2 & T3) C2].
    destruct (retire_reserv_frame b (reservFP st) m1 x) as [F1 _].
    destruct (retire_reserv_frame b (reservINT st) (mem st) x) as [F2 _].
    fold m1 in T1, T2, T3, C2, F2. split_and!.
    + by apply (same_code_trans _ (m1 x)).
    + unfold same_stamps. split_and!; congruence.
    + congruence.
  - intros r. rewrite (retire_map_spec _ _ _ _ r R1), (retire_map_spec _ _ _ _ r R0).
    repeat case_decide; try done; first [exfalso; tauto | intuition congruence].
Qed.

(** X11: [free_stations] clears the slot of the instruction in the
    functional units and in the reservation stations of the bank its
    opcode asks for, the integer bank first, and nothing else: when no
    instruction occupies two slots of a pool, the instruction is gone from
    both pools of the bank, every other occupant keeps its slot, and the
    other bank, the queue, the bus, the map and the records are as
    before.  For an opcode that asks for neither kind of unit the
    assertion fails. *)
Theorem free_stations_frees_one_instruction x st :
  (USES_INT_FU (op (mem st x)) = false → USES_FP_FU (op (mem st x)) = false →
   free_stations x st = AssertFail) ∧
  ∀ st',
    inj_pool (fuINT st) → inj_pool (reservINT st) →
    inj_pool (fuFP st) → inj_pool (reservFP st) →
    free_stations x st = Ok st' →
    (if USES_INT_FU (op (mem st x))
     then ¬ holds (fuINT st') x ∧ ¬ holds (reservINT st') x ∧
          fuFP st' = fuFP st ∧ reservFP st' = reservFP st
     else ¬ holds (fuFP st') x ∧ ¬ holds (reservFP st') x ∧
          fuINT st' = fuINT st ∧ reservINT st' = reservINT st) ∧
    (∀ i y, y ≠ x →
       (slot (fuINT st') i = Some y ↔ slot (fuINT st) i = Some y) ∧
       (slot (reservINT st') i = Some y ↔ slot (reservINT st) i = Some y) ∧
       (slot (fuFP st') i = Some y ↔ slot (fuFP st) i = Some y) ∧
       (slot (reservFP st') i = Some y ↔ slot (reservFP st) i = Some y)) ∧
    length (fuINT st') = length (fuINT st) ∧
    length (reservINT st') = length (reservINT st) ∧
    length (fuFP st') = length (fuFP st) ∧
    length (reservFP st') = length (reservFP st) ∧
    doneCount st' = doneCount st ∧ instr_queue st' = instr_queue st ∧
    instr_queue_size st' = instr_queue_size st ∧ ifq_head st' = ifq_head st ∧
    ifq_tail st' = ifq_tail st ∧ commonDataBus st' = commonDataBus st ∧
    map_table st' = map_table st ∧ fetch_index st' = fetch_index st ∧
    mem st' = mem st.
Proof.
  split.
  { intros Ei Ef. unfold free_stations. by rewrite Ei, Ef. }
  intros st' I1 I2 I3 I4 H.
  assert (Hsl : ∀ a i y, y ≠ x → slot (free_slot x a) i = Some y ↔ slot a i = Some y).
  { intros a i y Hne. split; [apply free_slot_slot|]. intros Hy. by apply free_slot_other. }
  apply free_stations_Ok in H as [[Ei ->]|(Ei & Ef & ->)]; rewrite Ei; simpl.
  - split_and!; try done; try apply free_slot_length.
    + by apply free_slot_gone.
    + by apply free_slot_gone.
    + intros i y Hne. split_and!; try done; by apply Hsl.
  - split_and!; try done; try apply free_slot_length.
    + by apply free_slot_gone.
    + by apply free_slot_gone.
    + intros i y Hne. split_and!; try done; by apply Hsl.
Qed.

(** X12: [issue_To_execute] never takes an instruction out of a
    functional unit: an occupied unit keeps its occupant.  An instruction
    it puts into a unit was in a reservation station with no execute
    cycle and three empty await-slots, and gets the current cycle as its
    execute cycle; no other execute cycle is written, and the stations,
    the queue, the map, the bus and [doneCount] are as before. *)
Theorem issue_To_execute_fills_free_units_only c st :
  (∀ i x, slot (fuINT st) i = Some x → slot (fuINT (issue_To_execute c st)) i = Some x) ∧
  (∀ i x, slot (fuFP st) i = Some x → slot (fuFP (issue_To_execute c st)) i = Some x) ∧
  (∀ x, in_FU (issue_To_execute c st) x →
        in_FU st x ∨
        (in_RS st x ∧ tom_execute_cycle (mem st x) = 0 ∧
         Q (mem st x) = (None, None, None) ∧
         tom_execute_cycle (mem (issue_To_execute c st) x) = c)) ∧
  (∀ p, tom_execute_cycle (mem (issue_To_execute c st) p) = tom_execute_cycle (mem st p) ∨
        (tom_execute_cycle (mem st p) = 0 ∧
         tom_execute_cycle (mem (issue_To_execute c st) p) = c)) ∧
  reservINT (issue_To_execute c st) = reservINT st ∧
  reservFP (issue_To_execute c st) = reservFP st ∧
  instr_queue (issue_To_execute c st) = instr_queue st ∧
  instr_queue_size (issue_To_execute c st) = instr_queue_size st ∧
  ifq_head (issue_To_execute c st) = ifq_head st ∧
  ifq_tail (issue_To_execute c st) = ifq_tail st ∧
  map_table (issue_To_execute c st) = map_table st ∧
  commonDataBus (issue_To_execute c st) = commonDataBus st ∧
  doneCount (issue_To_execute c st) = doneCount st ∧
  fetch_index (issue_To_execute c st) = fetch_index st ∧
  ∀ p, same_code (mem (issue_To_execute c st) p) (mem st p) ∧
       Q (mem (issue_To_execute c st) p) = Q (mem st p).
Proof.
  assert (Hi : issued c st (issue_To_execute c st)).
  { rewrite issue_To_execute_slots.
    set (s1 := issue_int_slot c st 0). set (s2 := issue_int_slot c s1 1).
    pose proof (issue_int_slot_frame c st 0) as F1. fold s1 in F1.
    pose proof (issue_int_slot_frame c s1 1) as F2. fold s2 in F2.
    apply (issued_trans c st s2); [by apply (issue_frame_trans _ s1)| |apply issued_fp_slot].
    apply (issued_trans c st s1); [done|apply issued_int_slot..]. }
  destruct Hi as (A1 & A2 & A3 & A4).
  destruct (issue_To_execute_frame c st)
    as (E1 & E2 & E3 & E4 & E5 & E6 & E7 & E8 & E9 & E10 & Hm).
  split_and!; done.
Qed.

(** X13: in a run over a well-formed trace [dispatch_To_issue] takes the
    head of the queue or nothing.  It changes nothing when the queue is
    empty or when all reservation stations of the bank the head asks for
    are occupied, whatever the other bank holds.  Otherwise the head, and
    only it, leaves the queue, whose other instructions keep their
    order: a control instruction is counted and enters no station; any
    other head is written into a station of its bank with the current
    cycle as its issue cycle, and no other record is written. *)
Theorem dispatch_To_issue_takes_the_head_or_nothing N table n st st' :
  wf_trace N table → at_point N table n 3 st →
  dispatch_To_issue (cycle_after n) st = Ok st' →
  (st' = st ∧
   (instr_queue_size st = 0%nat ∨
    ∃ h, queued st 0 h ∧
         ((USES_FP_FU (op (table h)) = true ∧
           ∀ i, (i < RESERV_FP_SIZE)%nat → ∃ y, slot (reservFP st) i = Some y) ∨
          (USES_FP_FU (op (table h)) = false ∧
           ∀ i, (i < RESERV_INT_SIZE)%nat → ∃ y, slot (reservINT st) i = Some y)))) ∨
  (∃ h, queued st 0 h ∧
        (∀ j y, queued st' j y ↔ queued st (S j) y) ∧
        instr_queue_size st' = (instr_queue_size st - 1)%nat ∧
        fuINT st' = fuINT st ∧ fuFP st' = fuFP st ∧
        commonDataBus st' = commonDataBus st ∧ fetch_index st' = fetch_index st ∧
        (∀ p, p ≠ h → mem st' p = mem st p) ∧
        ((IS_UNCOND_CTRL (op (table h)) || IS_COND_CTRL (op (table h)) = true ∧
          doneCount st' = doneCount st + 1 ∧
          reservINT st' = reservINT st ∧ reservFP st' = reservFP st ∧
          map_table st' = map_table st ∧ mem st' = mem st) ∨
         (IS_UNCOND_CTRL (op (table h)) || IS_COND_CTRL (op (table h)) = false ∧
          doneCount st' = doneCount st ∧
          (∀ y, in_RS st' y ↔ in_RS st y ∨ y = h) ∧
          (USES_FP_FU (op (table h)) = true → holds (reservFP st') h) ∧
          (USES_FP_FU (op (table h)) = false → holds (reservINT st') h) ∧
          tom_issue_cycle (mem st' h) = cycle_after n ∧
          tom_dispatch_cycle (mem st' h) = tom_dispatch_cycle (mem st h)))).
Proof.
  intros Hwf Hp H. pose proof (safe_at_point _ _ _ _ _ Hwf Hp) as Hs.
  pose proof (safe_dispatch_To_issue _ _ _ _ _ Hwf Hs H) as Hs'.
  assert (Hfull : ∀ m a, length a = m → first_free (firstn m a) = None →
                         ∀ i, (i < m)%nat → ∃ y, slot a i = Some y).
  { intros m a Hlen Hn i Hi. destruct (first_free_None _ Hn i) as [y Hy].
    - rewrite length_take. lia.
    - exists y. unfold slot in *. by rewrite lookup_take_lt in Hy by lia. }
  destruct (dispatch_To_issue_admits N table _ st st' Hs H)
    as [[-> Hst]|[(h & Hh & Ec & ->)|(h & Hh & Ec & Hqd & HRS & Efi & Eff & Eb & Efx & Ed &
                                       Esz & Hoth & _ & Edc & Eic & _)]].
  - left. split; [done|]. destruct Hst as [?|(h & Hh & _ & Hb)]; [by left|].
    right. exists h. split; [done|].
    assert (Eop : op (mem st h) = op (table h)) by apply Hs. rewrite Eop in Hb.
    destruct Hb as [[Ef Hn]|[Ef Hn]]; [left|right]; (split; [done|]).
    + apply Hfull; [apply Hs|done].
    + apply Hfull; [apply Hs|done].
  - right. exists h. destruct (safe_queue_head_fresh _ _ _ _ Hs Hh) as (_ & _ & _ & Hsz).
    assert (Eop : op (mem st h) = op (table h)) by apply Hs. rewrite Eop in Ec.
    split_and!; try done.
    + intros j y. by apply queued_pop_head.
    + by left.
  - right. exists h.
    assert (Eop : op (mem st h) = op (table h)) by apply Hs. rewrite Eop in Ec.
    assert (Hh' : in_RS st' h) by (apply HRS; by right).
    assert (Hwfh : wf_instr (table h)).
    { destruct Hwf as [_ Hwf']. apply Hwf'.
      pose proof (safe_queue_range _ _ _ Hs 0%nat h Hh). lia. }
    split_and!; try done. right. split_and!; try done.
    + intros Ef. destruct Hh' as [Hi|?]; [|done].
      pose proof (safe_rs_int_class _ _ _ Hs' h Hi) as Ei.
      pose proof (wf_one_unit _ Hwfh) as Hone. rewrite Ei, Ef in Hone. done.
    + intros Ef. destruct Hh' as [?|Hf]; [done|].
      destruct (safe_rs_fp_class _ _ _ Hs' h Hf). congruence.
Qed.

(** X14: in a run over a well-formed trace [fetch_To_dispatch] changes
    nothing when the queue is full or the whole trace has been fetched.
    Otherwise, if it returns, it has put at the tail of the queue the
    first instruction after [fetch_index] that is no trap, with the
    current cycle as its dispatch cycle, has set [fetch_index] to it and
    has counted the traps before it; the other records, the stations, the
    units, the bus and the map are as before. *)
Theorem fetch_To_dispatch_enqueues_next_instruction N table n st st' :
  wf_trace N table → at_point N table n 4 st →
  fetch_To_dispatch N (cycle_after n) st = Ok st' →
  (st' = st ∧
   ((INSTR_QUEUE_SIZE <= instr_queue_size st)%nat ∨ N <= fetch_index st)) ∨
  (∃ new,
     (instr_queue_size st < INSTR_QUEUE_SIZE)%nat ∧
     fetch_index st < new <= N ∧ fetch_index st' = new ∧
     IS_TRAP (op (table new)) = false ∧
     (∀ p, fetch_index st < p < new → IS_TRAP (op (table p)) = true) ∧
     doneCount st' = doneCount st + (new - fetch_index st - 1) ∧
     instr_queue_size st' = S (instr_queue_size st) ∧
     (∀ j y, queued st' j y ↔ queued st j y ∨ (j = instr_queue_size st ∧ y = new)) ∧
     tom_dispatch_cycle (mem st' new) = cycle_after n ∧
     (∀ p, p ≠ new → mem st' p = mem st p) ∧
     reservINT st' = reservINT st ∧ reservFP st' = reservFP st ∧
     fuINT st' = fuINT st ∧ fuFP st' = fuFP st ∧
     commonDataBus st' = commonDataBus st ∧ map_table st' = map_table st).
Proof.
  intros Hwf Hp H. pose proof (safe_at_point _ _ _ _ _ Hwf Hp) as Hs.
  assert (Htl : (ifq_tail st < INSTR_QUEUE_SIZE)%nat).
  { rewrite (safe_tail _ _ _ Hs). apply queue_mod_lt. }
  destruct (fetch_To_dispatch_Ok N _ st st' (safe_len_queue _ _ _ Hs) Htl H)
    as [[Hc ->]|(new & d & Hsz & Hnew & Hrange & Htrap & -> & Htraps & ->)]; [by left|].
  right. exists new.
  assert (Hop : ∀ p, op (mem st p) = op (table p)) by (intros p; apply Hs).
  split_and!; try done; simpl.
  - lia.
  - by rewrite <- Hop.
  - intros p Hp'. rewrite <- Hop. by apply Htraps.
  - lia.
  - intros j y. apply queued_push_tail; [apply Hs|done|apply Hs].
  - rewrite fn_lookup_insert. by destruct (mem st new).
  - intros p Hne. by rewrite fn_lookup_insert_ne.
Qed.

(** ** Who leaves the functional units, and who stays *)

Lemma execute_int_slot_keeps c i st o oi a' j y :
  execute_int_slot c i (st, o, oi) = Ok a' →
  ¬ (holds (fuINT st) y ∧ tom_execute_cycle (mem st y) + FU_INT_LATENCY <= c ∧
     IS_STORE (op (mem st y)) = true) →
  mem (fst (fst a')) = mem st ∧
  fuFP (fst (fst a')) = fuFP st ∧ reservFP (fst (fst a')) = reservFP st ∧
  (holds (fuINT (fst (fst a'))) y → holds (fuINT st) y) ∧
  (slot (fuINT st) j = Some y → slot (fuINT (fst (fst a'))) j = Some y) ∧
  (slot (reservINT st) j = Some y → slot (reservINT (fst (fst a'))) j = Some y).
Proof.
  intros H Hy.
  apply execute_int_slot_cases in H
    as [[-> _]|[(x & st1 & Ex & Hc & Es & _ & -> & ->)|(x & _ & _ & _ & _ & ->)]];
    simpl; [done| |done].
  assert (y ≠ x).
  { intros ->. apply Hy. split; [by exists i|done]. }
  split_and!; try done.
  - apply free_slot_holds.
  - intros Hs. by apply free_slot_other.
  - intros Hs. by apply free_slot_other.
Qed.

Lemma execute_int_loop_keeps c l st o oi a' j y :
  execute_int_loop c l (st, o, oi) = Ok a' →
  ¬ (holds (fuINT st) y ∧ tom_execute_cycle (mem st y) + FU_INT_LATENCY <= c ∧
     IS_STORE (op (mem st y)) = true) →
  mem (fst (fst a')) = mem st ∧
  fuFP (fst (fst a')) = fuFP st ∧ reservFP (fst (fst a')) = reservFP st ∧
  (slot (fuINT st) j = Some y → slot (fuINT (fst (fst a'))) j = Some y) ∧
  (slot (reservINT st) j = Some y → slot (reservINT (fst (fst a'))) j = Some y).
Proof.
  revert st o oi. induction l as [|i l IH]; intros st o oi H Hy; cbn [execute_int_loop] in H.
  - by injection H as <-.
  - apply bind_Ok in H as ([[s1 o1] oi1] & H1 & H2).
    destruct (execute_int_slot_keeps c i st o oi _ j y H1 Hy) as (Em & Ef & Er & Hh & Hi & Hr).
    simpl in Em, Ef, Er, Hh, Hi, Hr.
    destruct (IH s1 o1 oi1 H2) as (Em' & Ef' & Er' & Hi' & Hr').
    { rewrite Em. intros (Hy1 & Hy2). apply Hy. split; [by apply Hh|done]. }
    split_and!; [congruence..|auto|auto].
Qed.

(** Who stays in the units and the stations through [execute_To_CDB]. *)
Lemma execute_To_CDB_keeps c st st' j y :
  execute_To_CDB c st = Ok st' →
  ¬ on_bus st' y →
  ¬ (holds (fuINT st) y ∧ tom_execute_cycle (mem st y) + FU_INT_LATENCY <= c ∧
     IS_STORE (op (mem st y)) = true) →
  (slot (fuINT st) j = Some y → slot (fuINT st') j = Some y) ∧
  (slot (fuFP st) j = Some y → slot (fuFP st') j = Some y) ∧
  (slot (reservINT st) j = Some y → slot (reservINT st') j = Some y) ∧
  (slot (reservFP st) j = Some y → slot (reservFP st') j = Some y) ∧
  mem st' y = mem st y.
Proof.
  intros H Hb Hy.
  assert (Hmem : mem st' y = mem st y).
  { destruct (execute_To_CDB_mem _ _ _ H) as [[-> _]|(w & Ew & ->)]; [done|].
    rewrite fn_lookup_insert_ne; [done|]. by intros ->. }
  apply execute_To_CDB_Ok in H as (a & st1 & o & oi & Hloop & Hfp & H).
  destruct a as [[sa oa] oia].
  destruct (execute_int_loop_keeps c _ st (-1) None _ j y Hloop Hy)
    as (Em & Ef & Er & Hi & Hr). simpl in Em, Ef, Er, Hi, Hr.
  pose proof (execute_fp_slot_state c (sa, oa, oia)) as Est. rewrite Hfp in Est.
  simpl in Est. subst st1. destruct oi as [w|].
  2:{ subst st'. split_and!; [done| |done| |done]; congruence. }
  destruct H as (st3 & F & ->).
  assert (y ≠ w) by (by intros ->).
  apply free_stations_Ok in F as [[_ ->]|(_ & _ & ->)]; simpl.
  - split_and!; [| |  | |done].
    + intros Hs. apply free_slot_other; [by apply Hi|done].
    + by rewrite Ef.
    + intros Hs. apply free_slot_other; [by apply Hr|done].
    + by rewrite Er.
  - split_and!; [| | | |done].
    + done.
    + rewrite Ef. intros Hs. by apply free_slot_other.
    + done.
    + rewrite Er. intros Hs. by apply free_slot_other.
Qed.

(** X15: [execute_To_CDB] takes out of the functional units and the
    reservation stations only the stores in an integer unit that have
    had their latency and the instruction it puts on the bus.  Every
    other occupant, in particular an instruction that has had its latency
    and lost the bus to an older one, keeps its unit, its station and its
    record, and contends again in the next cycle. *)
Theorem execute_To_CDB_keeps_the_losers c st st' j y :
  execute_To_CDB c st = Ok st' →
  ¬ on_bus st' y →
  ¬ (holds (fuINT st) y ∧ tom_execute_cycle (mem st y) + FU_INT_LATENCY <= c ∧
     IS_STORE (op (mem st y)) = true) →
  (slot (fuINT st) j = Some y → slot (fuINT st') j = Some y) ∧
  (slot (fuFP st) j = Some y → slot (fuFP st') j = Some y) ∧
  (slot (reservINT st) j = Some y → slot (reservINT st') j = Some y) ∧
  (slot (reservFP st) j = Some y → slot (reservFP st') j = Some y) ∧
  mem st' y = mem st y.
Proof.
  apply execute_To_CDB_keeps.
Qed.

(** ** What the bus carries *)

(** A property all five stages keep holds at every point of a run. *)
Lemma at_point_invariant N table (P : state → Prop) :
  wf_trace N table →
  P (init_state table) →
  (∀ c k st st', c ≠ 0 → safe N table st → P st → stage N c k st = Ok st' → P st') →
  ∀ n k st, at_point N table n k st → P st.
Proof.
  intros Hwf H0 Hstep.
  assert (Hfs : ∀ c k s st, c ≠ 0 → safe N table s → P s →
                            first_stages N c k s = Ok st → P st).
  { intros c k s st Hc Hs HP. revert st. induction k as [|k IH]; intros st H; simpl in H.
    - by injection H as <-.
    - apply bind_Ok in H as (s1 & H1 & H2).
      apply (Hstep c k s1 st Hc); [|by apply IH|done].
      by apply (safe_first_stages N table c k s). }
  assert (Hps : ∀ n s, passes n N table = Ok s → P s).
  { induction n as [|n IH]; intros s H; simpl in H.
    - by injection H as <-.
    - apply bind_Ok in H as (s1 & H1 & H2). rewrite stages_first_stages in H2.
      apply (Hfs (cycle_after n) 5%nat s1 s); [apply cycle_after_pos| |by apply IH|done].
      by apply (safe_passes N table n). }
  intros n k st (_ & _ & s & Hp & H).
  apply (Hfs (cycle_after n) k s st); [apply cycle_after_pos| |by apply (Hps n)|done].
  by apply (safe_passes N table n).
Qed.

(** X16: at every point of a run over a well-formed trace the
    instruction on the bus is one for which the macro [WRITES_CDB] holds:
    an integer computation, a load or a floating-point computation.
    Stores, control instructions and traps never reach the bus. *)
Theorem bus_carries_only_result_writers N table n k st x :
  wf_trace N table → at_point N table n k st → on_bus st x →
  WRITES_CDB (op (table x)) = true ∧ WRITES_CDB (op (mem st x)) = true.
Proof.
  intros Hwf Hp Hx. pose proof (safe_at_point _ _ _ _ _ Hwf Hp) as Hs.
  assert (Eop : op (mem st x) = op (table x)) by apply Hs. rewrite Eop.
  assert (WRITES_CDB (op (table x)) = true); [|done].
  pose proof (safe_bus_class _ _ _ Hs x Hx) as Hst.
  assert (Hc : USES_INT_FU (op (table x)) || USES_FP_FU (op (table x)) = true).
  { revert x Hx Eop Hst.
    apply (at_point_invariant N table
             (λ s, ∀ x, on_bus s x → op (mem s x) = op (table x) →
                        IS_STORE (op (table x)) = false →
                        USES_INT_FU (op (table x)) || USES_FP_FU (op (table x)) = true)
             Hwf) with (n := n) (k := k); [done| |done].
    clear. intros c k st st' Hc Hs HP H x Hx Eop _.
    assert (Hkeep : commonDataBus st' = commonDataBus st →
                    USES_INT_FU (op (table x)) || USES_FP_FU (op (table x)) = true).
    { intros E. apply HP; [unfold on_bus in *; congruence|apply Hs|].
      apply (safe_bus_class _ _ _ Hs). unfold on_bus in *. congruence. }
    destruct k as [|[|[|[|k]]]]; simpl in H.
    - apply CDB_To_retire_frame in H as (E & _). unfold on_bus in Hx. congruence.
    - destruct (execute_To_CDB_mem _ _ _ H) as [[_ E]|(w & Ew & _)]; [by apply Hkeep|].
      unfold on_bus in Hx. rewrite Ew in Hx. injection Hx as <-.
      pose proof H as H'. apply execute_To_CDB_Ok in H' as (a & st1 & o & oi & Hloop & Hfp & H').
      destruct a as [[sa oa] oia].
      assert (Hsa : cdb_loop_safe N table (execute_fp_slot c (sa, oa, oia))).
      { apply execute_fp_slot_safe.
        eapply (execute_int_loop_safe N table c _ (st, -1, None)); [|done].
        split; [done|]. by intros ?. }
      rewrite Hfp in Hsa. destruct Hsa as [Hs1 Hw]. destruct oi as [w'|].
      + destruct H' as (st3 & F & ->). simpl in Ew. injection Ew as ->.
        assert (HwF : in_FU st1 w).
        { destruct (Hw w eq_refl) as [[? _]|?]; [by left|by right]. }
        destruct (safe_FU_class N table st1 w Hs1 HwF) as [(_ & _ & E)|(_ & _ & _ & E)];
          destruct (safe_code _ _ _ Hs1 w) as (Eo & _); rewrite Eo in E; rewrite E;
          [done|by rewrite orb_true_r].
      + subst st'.
        pose proof (execute_fp_slot_state c (sa, oa, oia)) as Est. rewrite Hfp in Est.
        simpl in Est. subst st1.
        pose proof (execute_int_loop_bus c st sa oa oia Hloop) as Eb.
        apply Hkeep. done.
    - injection H as <-. apply Hkeep.
      by destruct (issue_To_execute_frame c st) as (_ & _ & _ & _ & _ & _ & _ & _ & E & _).
    - apply (dispatch_To_issue_frame c st st' (safe_head _ _ _ Hs)) in H as (_ & _ & E & _).
      by apply Hkeep.
    - assert (Htl : (ifq_tail st < INSTR_QUEUE_SIZE)%nat).
      { rewrite (safe_tail _ _ _ Hs). apply queue_mod_lt. }
      apply (fetch_To_dispatch_frame N c st st' (safe_len_queue _ _ _ Hs) Htl) in H
        as (_ & _ & _ & _ & E & _).
      by apply Hkeep. }
  unfold WRITES_CDB. unfold USES_INT_FU, USES_FP_FU in Hc.
  destruct (IS_ICOMP (op (table x))), (IS_LOAD (op (table x))), (IS_FCOMP (op (table x)));
    simpl in *; try done. by rewrite Hst in Hc.
Qed.

(** ** [issue_To_execute] leaves no ready instruction behind *)

Lemma ready_after_start c m x y :
  c ≠ 0 →
  ready (<[x := set_tom_execute_cycle c (m x)]> m) (Some y) = true →
  ready m (Some y) = true.
Proof.
  intros Hc. unfold ready. destruct (decide (y = x)) as [->|Hne].
  - rewrite fn_lookup_insert.
    replace (tom_execute_cycle (set_tom_execute_cycle c (m x))) with c by (by destruct (m x)).
    destruct (Z.eqb_spec c 0); done.
  - by rewrite fn_lookup_insert_ne.
Qed.

Lemma issue_int_slot_ready c st i y :
  c ≠ 0 → ready (mem (issue_int_slot c st i)) (Some y) = true →
  ready (mem st) (Some y) = true.
Proof.
  intros Hc.
  destruct (issue_int_slot_cases c st i) as [->|(j & x & _ & _ & _ & ->)]; [done|].
  simpl. by apply ready_after_start.
Qed.

Lemma issue_fp_slot_ready c st i y :
  c ≠ 0 → ready (mem (issue_fp_slot c st i)) (Some y) = true →
  ready (mem st) (Some y) = true.
Proof.
  intros Hc.
  destruct (issue_fp_slot_cases c st i) as [->|(j & x & _ & _ & _ & ->)]; [done|].
  simpl. by apply ready_after_start.
Qed.

Lemma issue_int_slot_idle c st i x :
  (i < length (fuINT st))%nat → length (reservINT st) = RESERV_INT_SIZE →
  slot (fuINT (issue_int_slot c st i)) i = None →
  holds (reservINT st) x → ready (mem (issue_int_slot c st i)) (Some x) = false.
Proof.
  intros Hi Hlen Hn [j Hx]. unfold issue_int_slot in *.
  destruct (lookup_lt_is_Some_2 (fuINT st) i Hi) as [v Ev]. rewrite Ev in *.
  destruct v as [y|].
  { unfold slot in Hn. by rewrite Ev in Hn. }
  destruct (oldest_rs_int (mem st) (reservINT st)) as [o|] eqn:Eo.
  - apply oldest_rs_int_Some in Eo as (_ & Hr & _).
    destruct (ready_occupied _ _ Hr) as [z Ez]. rewrite Ez in *.
    simpl in Hn. by rewrite slot_insert_here in Hn.
  - pose proof (proj1 (oldest_rs_int_None _ _) Eo j) as Hnr.
    rewrite Hx in Hnr. apply Hnr. rewrite <- Hlen. by eapply slot_Some_lt.
Qed.

Lemma issue_fp_slot_idle c st i x :
  (i < length (fuFP st))%nat → length (reservFP st) = RESERV_FP_SIZE →
  slot (fuFP (issue_fp_slot c st i)) i = None →
  holds (reservFP st) x → ready (mem (issue_fp_slot c st i)) (Some x) = false.
Proof.
  intros Hi Hlen Hn [j Hx]. unfold issue_fp_slot in *.
  destruct (lookup_lt_is_Some_2 (fuFP st) i Hi) as [v Ev]. rewrite Ev in *.
  destruct v as [y|].
  { unfold slot in Hn. by rewrite Ev in Hn. }
  destruct (oldest_rs_fp (mem st) (reservFP st)) as [o|] eqn:Eo.
  - apply oldest_rs_fp_Some in Eo as (_ & Hr & _).
    destruct (ready_occupied _ _ Hr) as [z Ez]. rewrite Ez in *.
    simpl in Hn. by rewrite slot_insert_here in Hn.
  - pose proof (proj1 (oldest_rs_fp_None _ _) Eo j) as Hnr.
    rewrite Hx in Hnr. apply Hnr. rewrite <- Hlen. by eapply slot_Some_lt.
Qed.

Lemma issue_int_slot_length c st i :
  length (fuINT (issue_int_slot c st i)) = length (fuINT st) ∧
  length (fuFP (issue_int_slot c st i)) = length (fuFP st).
Proof.
  destruct (issue_int_slot_cases c st i) as [->|(j & x & _ & _ & _ & ->)]; [done|].
  simpl. by rewrite length_insert.
Qed.

(** X17: [issue_To_execute], called with a cycle other than 0, leaves no
    ready instruction behind while a unit of its bank is free: if an
    integer unit is free after the call, no occupant of the integer
    reservation stations is ready (no execute cycle yet and three empty
    await-slots), and so for the floating-point unit and its stations. *)
Theorem issue_To_execute_leaves_no_ready_instruction_idle c st :
  c ≠ 0 →
  length (fuINT st) = FU_INT_SIZE → length (fuFP st) = FU_FP_SIZE →
  length (reservINT st) = RESERV_INT_SIZE → length (reservFP st) = RESERV_FP_SIZE →
  (∀ i x, (i < FU_INT_SIZE)%nat → slot (fuINT (issue_To_execute c st)) i = None →
          holds (reservINT st) x → ready (mem (issue_To_execute c st)) (Some x) = false) ∧
  (∀ x, slot (fuFP (issue_To_execute c st)) 0 = None →
        holds (reservFP st) x → ready (mem (issue_To_execute c st)) (Some x) = false).
Proof.
  intros Hc Li Lf Lri Lrf. rewrite issue_To_execute_slots.
  set (s1 := issue_int_slot c st 0). set (s2 := issue_int_slot c s1 1).
  pose proof (issue_int_slot_frame c st 0) as F1. fold s1 in F1.
  pose proof (issue_int_slot_frame c s1 1) as F2. fold s2 in F2.
  pose proof (issue_fp_slot_frame c s2 0) as F3.
  destruct F1 as (_ & _ & _ & _ & _ & _ & Ri1 & Rf1 & _).
  destruct F2 as (_ & _ & _ & _ & _ & _ & Ri2 & Rf2 & _).
  destruct (issue_int_slot_length c st 0) as [Li1 Lf1]. fold s1 in Li1, Lf1.
  destruct (issue_int_slot_length c s1 1) as [Li2 Lf2]. fold s2 in Li2, Lf2.
  destruct (issued_int_slot c s1 1) as (A1 & _). fold s2 in A1.
  destruct (issued_fp_slot c s2 0) as (B1 & _).
  assert (Hnot : ∀ b, b ≠ true → b = false) by (by intros []).
  split.
  - intros i x Hi Hn Hx. apply Hnot. intros Hr.
    apply issue_fp_slot_ready in Hr; [|done].
    assert (Hn2 : slot (fuINT s2) i = None).
    { destruct (slot (fuINT s2) i) as [y|] eqn:E; [|done]. by rewrite (B1 i y E) in Hn. }
    destruct i as [|[|i]]; [| |unfold FU_INT_SIZE in Hi; lia].
    + apply issue_int_slot_ready in Hr; [|done]. fold s1 in Hr.
      assert (Hn1 : slot (fuINT s1) 0 = None).
      { destruct (slot (fuINT s1) 0) as [y|] eqn:E; [|done]. by rewrite (A1 _ y E) in Hn2. }
      assert (E : ready (mem s1) (Some x) = false); [|congruence].
      apply issue_int_slot_idle; try done.
      rewrite Li. unfold FU_INT_SIZE. lia.
    + assert (E : ready (mem s2) (Some x) = false); [|congruence].
      apply issue_int_slot_idle.
      * rewrite Li1, Li. unfold FU_INT_SIZE. lia.
      * by rewrite Ri1.
      * done.
      * by rewrite Ri1.
  - intros x Hn Hx. apply issue_fp_slot_idle; try done.
    + rewrite Lf2, Lf1, Lf. unfold FU_FP_SIZE. lia.
    + by rewrite Rf2, Rf1.
    + by rewrite Rf2, Rf1.
Qed.

(** ** The records the run leaves *)

(** Induction over the points of a run. *)
Lemma at_point_stages_ind N table (P : nat → nat → state → Prop) :
  P 0%nat 0%nat (init_state table) →
  (∀ n k st st', (k < 5)%nat → at_point N table n k st → P n k st →
                 stage N (cycle_after n) k st = Ok st' → P n (S k) st') →
  (∀ n st, at_point N table n 5 st → P n 5%nat st → P (S n) 0%nat st) →
  ∀ n k st, at_point N table n k st → P n k st.
Proof.
  intros H0 Hstage Hpass. induction n as [|n IHn].
  - induction k as [|k IHk]; intros st Hp.
    + destruct Hp as (_ & _ & s & Hs & H). simpl in Hs, H. congruence.
    + pose proof Hp as (Hk & _). apply at_point_cycle_stage in Hp as (s & Hp & H).
      apply (Hstage 0%nat k s st); [lia|done|by apply IHk|done].
  - induction k as [|k IHk]; intros st Hp.
    + assert (Hp5 : at_point N table n 5 st).
      { destruct Hp as (_ & Hrun & s & Hs & H). simpl in H. injection H as ->.
        simpl in Hs. apply bind_Ok in Hs as (s1 & H1 & H2).
        rewrite stages_first_stages in H2.
        split; [lia|]. split; [|by exists s1].
        intros m s' Hm. apply Hrun. lia. }
      apply Hpass; [done|by apply IHn].
    + pose proof Hp as (Hk & _). apply at_point_cycle_stage in Hp as (s & Hp & H).
      apply (Hstage (S n) k s st); [lia|done|by apply IHk|done].
Qed.

Lemma in_queue_same st st' x :
  instr_queue st' = instr_queue st → instr_queue_size st' = instr_queue_size st →
  ifq_head st' = ifq_head st → in_queue st' x ↔ in_queue st x.
Proof. intros E1 E2 E3. unfold in_queue, queued. by rewrite E1, E2, E3. Qed.

Lemma in_RS_same st st' x :
  reservINT st' = reservINT st → reservFP st' = reservFP st →
  in_RS st' x ↔ in_RS st x.
Proof. intros E1 E2. unfold in_RS. by rewrite E1, E2. Qed.

Lemma safe_queue_not_flight N table st x :
  safe N table st → in_queue st x → ¬ (in_RS st x ∨ on_bus st x).
Proof.
  intros Hs [k Hk] H. pose proof (safe_queue_young _ _ _ Hs k x x Hk H). lia.
Qed.

Lemma flight_touched N table st x :
  safe N table st → orderly table st → in_RS st x ∨ on_bus st x →
  ¬ (x < 1 ∨ fetch_index st < x ∨ IS_TRAP (op (table x)) = true).
Proof.
  intros Hs Ho Hx. pose proof (safe_flight_range _ _ _ Hs x Hx) as [Hr _].
  pose proof (ord_code _ _ Ho x Hx) as Ht. intros [?|[?|?]]; [lia|lia|congruence].
Qed.

Lemma queued_touched N table st x :
  live N table st → in_queue st x →
  ¬ (x < 1 ∨ fetch_index st < x ∨ IS_TRAP (op (table x)) = true).
Proof.
  intros Hl [k Hk]. pose proof (safe_queue_range _ _ _ (live_safe _ _ _ Hl) k x Hk) as [Hr _].
  pose proof (live_queue_code _ _ _ Hl k x Hk) as Ht.
  intros [?|[?|?]]; [lia|lia|congruence].
Qed.

Lemma queued_0_unique st x y : queued st 0 x → queued st 0 y → x = y.
Proof. intros [_ Hx] [_ Hy]. congruence. Qed.

Lemma done_record_later c c' t i : c <= c' → done_record c t i → done_record c' t i.
Proof.
  intros Hc (H1 & H2 & H3 & H). split_and!; try done.
  destruct (IS_UNCOND_CTRL (op t) || IS_COND_CTRL (op t)).
  - split; [lia|apply H].
  - destruct H as (H4 & H5 & H). split_and!; try done.
    destruct (IS_STORE (op t)); destruct H as [Ha Hb]; (split; first [lia|done]).
Qed.

Lemma results_next_pass table c st : results table c st → results table (c + 1) st.
Proof.
  intros [R0 R1 R2 R3 R4]. split; try done.
  intros x H1 H2 H3 H4 H5. apply (done_record_later c); [lia|]. by apply R4.
Qed.

Lemma results_init table : results table 1 (init_state table).
Proof.
  split.
  - done.
  - intros x [k [Hk _]]. simpl in Hk. lia.
  - intros x [Hx|Hx]; by destruct (holds_replicate_None _ _ Hx).
  - intros x Hx. done.
  - intros x Hx. simpl in Hx. lia.
Qed.

(** [CDB_To_retire] writes await-slots of occupants of the stations only. *)
Lemma CDB_To_retire_records c st st' :
  CDB_To_retire c st = Ok st' →
  (∀ x, ¬ in_RS st x → mem st' x = mem st x) ∧
  (∀ x, same_stamps (mem st' x) (mem st x) ∧
        tom_cdb_cycle (mem st' x) = tom_cdb_cycle (mem st x)).
Proof.
  intros H.
  apply CDB_To_retire_Ok in H as [[_ ->]|(b & mt1 & mt2 & _ & _ & _ & ->)]; [done|].
  simpl. set (m1 := retire_reserv b (reservINT st) (mem st)). split.
  - intros x Hx. rewrite retire_reserv_other by (intros ?; apply Hx; by right).
    unfold m1. apply retire_reserv_other. intros ?. apply Hx. by left.
  - intros x.
    destruct (retire_reserv_stamps b (reservFP st) m1 x) as [(S1 & S2 & S3) C1].
    destruct (retire_reserv_stamps b (reservINT st) (mem st) x) as [(T1 & T2 & T3) C2].
    fold m1 in T1, T2, T3, C2. unfold same_stamps. split_and!; congruence.
Qed.

Lemma results_CDB_To_retire N table c st st' :
  wf_trace N table → safe N table st → orderly table st → timed c 0 st →
  results table c st → CDB_To_retire c st = Ok st' → results table c st'.
Proof.
  intros Hwf Hs Ho Ht [R0 R1 R2 R3 R4] H.
  pose proof (CDB_To_retire_frame _ _ _ H)
    as (Eb & Eq & Esz & Ehd & _ & Efi & Eri & Erf & _ & _ & _).
  pose proof (CDB_To_retire_records _ _ _ H) as [Hoth Hst].
  assert (HQ : ∀ x, in_queue st' x ↔ in_queue st x) by (intros x; by apply in_queue_same).
  assert (HR : ∀ x, in_RS st' x ↔ in_RS st x) by (intros x; by apply in_RS_same).
  split.
  - intros x Hx. rewrite Efi in Hx. rewrite Hoth; [by apply R0|].
    intros Hr. by apply (flight_touched N table st x Hs Ho (or_introl Hr)).
  - intros x Hx%HQ. rewrite Hoth; [by apply R1|].
    intros Hr. by apply (safe_queue_not_flight N table st x Hs Hx); left.
  - intros x Hx%HR. destruct (Hst x) as [_ ->]. by apply R2.
  - intros x Hx. unfold on_bus in Hx. congruence.
  - intros x Hf Htr Hnq Hnr _. rewrite Efi in Hf. rewrite HQ in Hnq. rewrite HR in Hnr.
    rewrite Hoth by done.
    destruct (decide (commonDataBus st = Some x)) as [Hb|Hb]; [|by apply R4].
    destruct Ht as (_ & _ & _ & Tb). destruct (Tb x Hb) as (T1 & T2 & T3 & T4).
    destruct (R3 x Hb) as [Q1 Q2].
    pose proof (safe_bus_class _ _ _ Hs x Hb) as Hst'.
    destruct (safe_code _ _ _ Hs x) as (Eo & Ec).
    split_and!; [by apply Hs|done|lia|]. rewrite Q2, Hst'. rewrite Eo in T3.
    rewrite T4. case_decide; [|done]. lia.
Qed.

Lemma results_execute_To_CDB N table c st st' :
  wf_trace N table → safe N table st → orderly table st → timed c 1 st →
  commonDataBus st = None →
  results table c st → execute_To_CDB c st = Ok st' → results table c st'.
Proof.
  intros Hwf Hs Ho Ht Hb [R0 R1 R2 R3 R4] H.
  pose proof (execute_To_CDB_frame _ _ _ H)
    as (_ & Eq & Esz & Ehd & _ & Efi & _ & _ & _ & Sri & Srf).
  pose proof (safe_execute_To_CDB N table c st st' Hs H) as Hs'.
  assert (HQ : ∀ x, in_queue st' x ↔ in_queue st x) by (intros x; by apply in_queue_same).
  assert (HR : ∀ x, in_RS st' x → in_RS st x).
  { intros x [[i Hx]|[i Hx]]; [left|right]; exists i; auto. }
  assert (Hmem : ∀ x, ¬ on_bus st' x → mem st' x = mem st x).
  { intros x Hx. destruct (execute_To_CDB_mem _ _ _ H) as [[-> _]|(w & Ew & ->)]; [done|].
    rewrite fn_lookup_insert_ne; [done|]. by intros ->. }
  assert (Hbus : ∀ x, on_bus st' x →
                      in_FU st x ∧ mem st' x = set_tom_cdb_cycle c (mem st x)).
  { intros x Hx. destruct (execute_To_CDB_mem _ _ _ H) as [[_ E]|(w & Ew & Em)].
    { unfold on_bus in Hx. congruence. }
    unfold on_bus in Hx. rewrite Ew in Hx. injection Hx as ->.
    rewrite Em, fn_lookup_insert. split; [|done].
    destruct (safe_execute_To_CDB_winner _ _ _ _ _ Hwf Hs H) as [[_ E]|(w & Ew' & Cw)];
      [congruence|].
    assert (w = x) as -> by congruence.
    destruct Cw as [[[i (_ & Hw & _)]|[Hw _]] _]; [left; by exists i|right; by exists 0%nat]. }
  assert (Hbr : ∀ x, on_bus st' x → in_RS st x).
  { intros x Hx. apply (safe_in_FU_in_RS N table); [done|]. by apply Hbus. }
  split.
  - intros x Hx. rewrite Efi in Hx. rewrite Hmem; [by apply R0|].
    intros Hx'. by apply (flight_touched N table st x Hs Ho (or_introl (Hbr x Hx'))).
  - intros x Hx%HQ. rewrite Hmem; [by apply R1|].
    intros Hx'. apply (safe_queue_not_flight N table st x Hs Hx). left. by apply Hbr.
  - intros x Hx. rewrite Hmem; [by apply R2, HR|].
    intros Hx'. by apply (safe_bus_free _ _ _ Hs' x Hx').
  - intros x Hx. destruct (Hbus x Hx) as [Hf ->]. split.
    + replace (Q (set_tom_cdb_cycle c (mem st x))) with (Q (mem st x)) by (by destruct (mem st x)).
      by apply Ho.
    + apply R2. by apply (safe_in_FU_in_RS N table).
  - intros x Hf Htr Hnq Hnr Hnb. rewrite Efi in Hf. rewrite HQ in Hnq.
    rewrite Hmem by done.
    assert (Hdec : in_RS st x ∨ ¬ in_RS st x).
    { destruct (holds_dec (reservINT st) x); [left; by left|].
      destruct (holds_dec (reservFP st) x); [left; by right|]. right. by intros [?|?]. }
    destruct Hdec as [Hr|Hr].
    2:{ apply R4; try done. unfold on_bus. congruence. }
    assert (Hfin : holds (fuINT st) x ∧ tom_execute_cycle (mem st x) + FU_INT_LATENCY <= c ∧
                   IS_STORE (op (mem st x)) = true).
    { destruct (holds_dec (fuINT st) x) as [Hh|Hh].
      2:{ exfalso. apply Hnr. destruct Hr as [[j Hr]|[j Hr]]; [left|right]; exists j;
          apply (execute_To_CDB_keeps c st st' j x H Hnb); tauto. }
      destruct (Z_le_dec (tom_execute_cycle (mem st x) + FU_INT_LATENCY) c) as [Hc|Hc].
      2:{ exfalso. apply Hnr. destruct Hr as [[j Hr]|[j Hr]]; [left|right]; exists j;
          apply (execute_To_CDB_keeps c st st' j x H Hnb); tauto. }
      destruct (IS_STORE (op (mem st x))) eqn:Est; [done|].
      exfalso. apply Hnr. destruct Hr as [[j Hr]|[j Hr]]; [left|right]; exists j;
        apply (execute_To_CDB_keeps c st st' j x H Hnb); try done;
        intros (_ & _ & ?); congruence. }
    destruct Hfin as (Hh & Hc & Est).
    destruct Ht as (_ & Tr & Tf & _).
    destruct (Tr x Hr) as [T1 _]. destruct (Tf x (or_introl Hh)) as [T2 _].
    destruct (R2 x Hr) as [C1 C2].
    destruct (safe_code _ _ _ Hs x) as (Eo & Ec). rewrite Eo in Est.
    split_and!; [by apply Hs|apply Ho; by left|lia|]. rewrite C2, Est.
    split_and!; try done; lia.
Qed.

(** [issue_To_execute] writes execute cycles of occupants of the stations
    only. *)
Lemma issue_int_slot_records c st i x :
  mem (issue_int_slot c st i) x = mem st x ∨
  (in_RS st x ∧ mem (issue_int_slot c st i) x = set_tom_execute_cycle c (mem st x)).
Proof.
  destruct (issue_int_slot_cases c st i) as [->|(j & y & _ & _ & Hy & ->)]; [by left|].
  simpl. destruct (decide (x = y)) as [->|Hne].
  - right. rewrite fn_lookup_insert. split; [left; by exists j|done].
  - left. by rewrite fn_lookup_insert_ne.
Qed.

Lemma issue_fp_slot_records c st i x :
  mem (issue_fp_slot c st i) x = mem st x ∨
  (in_RS st x ∧ mem (issue_fp_slot c st i) x = set_tom_execute_cycle c (mem st x)).
Proof.
  destruct (issue_fp_slot_cases c st i) as [->|(j & y & _ & _ & Hy & ->)]; [by left|].
  simpl. destruct (decide (x = y)) as [->|Hne].
  - right. rewrite fn_lookup_insert. split; [right; by exists j|done].
  - left. by rewrite fn_lookup_insert_ne.
Qed.

Lemma issue_To_execute_records c st x :
  mem (issue_To_execute c st) x = mem st x ∨
  (in_RS st x ∧ mem (issue_To_execute c st) x = set_tom_execute_cycle c (mem st x)).
Proof.
  rewrite issue_To_execute_slots.
  set (s1 := issue_int_slot c st 0). set (s2 := issue_int_slot c s1 1).
  pose proof (issue_int_slot_frame c st 0) as F1. fold s1 in F1.
  pose proof (issue_int_slot_frame c s1 1) as F2. fold s2 in F2.
  destruct F1 as (_ & _ & _ & _ & _ & _ & Ri1 & Rf1 & _).
  destruct F2 as (_ & _ & _ & _ & _ & _ & Ri2 & Rf2 & _).
  assert (Hidem : ∀ i, set_tom_execute_cycle c (set_tom_execute_cycle c i)
                       = set_tom_execute_cycle c i) by (by intros []).
  assert (H1 : mem s1 x = mem st x ∨
               (in_RS st x ∧ mem s1 x = set_tom_execute_cycle c (mem st x)))
    by apply issue_int_slot_records.
  assert (H2 : mem s2 x = mem st x ∨
               (in_RS st x ∧ mem s2 x = set_tom_execute_cycle c (mem st x))).
  { destruct (issue_int_slot_records c s1 1 x) as [E|[Hr E]]; fold s2 in E.
    - rewrite E. exact H1.
    - right. unfold in_RS in Hr. rewrite Ri1, Rf1 in Hr. split; [done|].
      rewrite E. destruct H1 as [->|[_ ->]]; [done|apply Hidem]. }
  destruct (issue_fp_slot_records c s2 0 x) as [E|[Hr E]].
  - rewrite E. exact H2.
  - right. unfold in_RS in Hr. rewrite Ri2, Rf2, Ri1, Rf1 in Hr. split; [done|].
    rewrite E. destruct H2 as [->|[_ ->]]; [done|apply Hidem].
Qed.

Lemma results_issue_To_execute N table c st :
  safe N table st → orderly table st →
  results table c st → results table c (issue_To_execute c st).
Proof.
  intros Hs Ho [R0 R1 R2 R3 R4].
  destruct (issue_To_execute_frame c st)
    as (_ & Eq & Esz & Ehd & _ & Efi & Eri & Erf & Eb & _ & _).
  set (st' := issue_To_execute c st) in *.
  assert (HQ : ∀ x, in_queue st' x ↔ in_queue st x) by (intros x; by apply in_queue_same).
  assert (HR : ∀ x, in_RS st' x ↔ in_RS st x) by (intros x; by apply in_RS_same).
  assert (Hmem : ∀ x, ¬ in_RS st x → mem st' x = mem st x).
  { intros x Hx. by destruct (issue_To_execute_records c st x) as [E|[? _]]. }
  split.
  - intros x Hx. rewrite Efi in Hx. rewrite Hmem; [by apply R0|].
    intros Hr. by apply (flight_touched N table st x Hs Ho (or_introl Hr)).
  - intros x Hx%HQ. rewrite Hmem; [by apply R1|].
    intros Hr. by apply (safe_queue_not_flight N table st x Hs Hx); left.
  - intros x Hx%HR. destruct (R2 x Hx) as [C1 C2]. split; [|done].
    destruct (issue_To_execute_records c st x) as [E|[_ E]]; fold st' in E; rewrite E;
      [done|]. rewrite <- C1. by destruct (mem st x).
  - intros x Hx. unfold on_bus in Hx. rewrite Eb in Hx.
    rewrite Hmem; [by apply R3|]. by apply (safe_bus_free _ _ _ Hs).
  - intros x Hf Htr Hnq Hnr Hnb. rewrite Efi in Hf. rewrite HQ in Hnq. rewrite HR in Hnr.
    unfold on_bus in Hnb. rewrite Eb in Hnb. rewrite Hmem by done. by apply R4.
Qed.

(** [dispatch_To_issue] writes no bus cycle. *)
Lemma dispatch_To_issue_cdb N table c st st' x :
  safe N table st → dispatch_To_issue c st = Ok st' →
  tom_cdb_cycle (mem st' x) = tom_cdb_cycle (mem st x).
Proof.
  intros Hs H.
  destruct (dispatch_To_issue_Ok c st st' (safe_head _ _ _ Hs) H)
    as [[E ->]|(h & Hh & Hcases)]; [done|].
  simpl in Hcases.
  destruct Hcases as [[Ec ->]|[(Ec & Ef & En & ->)|[(Ec & _ & i & Ei & Hi)|
                     [(Ec & Ef & _ & En & ->)|(Ec & _ & _ & i & Ei & Hi)]]]]; try done.
  - apply (issue_head_shape c h st) in Hi
      as (_ & _ & _ & _ & _ & _ & _ & _ & _ & _ & _ & Hoth & _ & _ & _ & _ & Ecdb & _);
      try done.
    destruct (decide (x = h)) as [->|Hne]; [done|by rewrite Hoth].
  - apply (issue_head_shape c h st) in Hi
      as (_ & _ & _ & _ & _ & _ & _ & _ & _ & _ & _ & Hoth & _ & _ & _ & _ & Ecdb & _);
      try done.
    destruct (decide (x = h)) as [->|Hne]; [done|by rewrite Hoth].
Qed.

Lemma results_dispatch_To_issue N table c st st' :
  wf_trace N table → live N table st → orderly table st → timed c 3 st →
  results table c st → dispatch_To_issue c st = Ok st' → results table c st'.
Proof.
  intros Hwf Hl Ho Ht [R0 R1 R2 R3 R4] H.
  pose proof (live_safe _ _ _ Hl) as Hs.
  pose proof (λ x, dispatch_To_issue_cdb N table c st st' x Hs H) as Hcdb.
  destruct (dispatch_To_issue_admits N table c st st' Hs H)
    as [[-> _]|[(h & Hh & Ec & ->)|(h & Hh & Ec & HQ & HR & _ & _ & Eb & Efi & _ & _ &
                                    Hoth & Hcode & _)]].
  - by split.
  - assert (Hsz : (0 < instr_queue_size st)%nat) by (destruct Hh; lia).
    assert (HQ : ∀ k y, queued (set_doneCount (doneCount st + 1) (pop_head st)) k y
                        ↔ queued st (S k) y).
    { intros k y. by rewrite <- queued_pop_head. }
    destruct (safe_code _ _ _ Hs h) as (Eo & _). rewrite Eo in Ec.
    split; simpl.
    + done.
    + intros x [k Hk%HQ]. apply R1. by exists (S k).
    + done.
    + done.
    + intros x Hf Htr Hnq Hnr Hnb.
      destruct (decide (x = h)) as [->|Hne].
      * destruct Ht as (Tq & _). destruct (Tq h (ex_intro _ 0%nat Hh)) as [T1 T2].
        case_decide; [|lia].
        split_and!; [by apply Hs|by apply Hl; left; exists 0%nat|done|].
        rewrite Ec. split; [done|]. apply R1. by exists 0%nat.
      * apply R4; try done. intros [[|k] Hk].
        -- by apply Hne, (queued_0_unique st).
        -- apply Hnq. exists k. by apply HQ.
  - destruct (safe_code _ _ _ Hs h) as (Eo & _). rewrite Eo in Ec.
    assert (Hhq : in_queue st h) by (by exists 0%nat).
    assert (Hlater : ∀ k y, queued st (S k) y → y ≠ h).
    { intros k y Hy ->. pose proof (safe_queue_order _ _ _ Hs 0%nat (S k) h h Hh Hy). lia. }
    split.
    + intros x Hx. rewrite Efi in Hx. rewrite Hoth; [by apply R0|].
      intros ->. by apply (queued_touched N table st h Hl Hhq).
    + intros x [k Hk%HQ]. rewrite Hoth by (by apply (Hlater k)).
      apply R1. by exists (S k).
    + intros x Hx. rewrite Hcdb. apply HR in Hx as [Hx| ->]; [by apply R2|].
      split; [|done]. rewrite (R1 h Hhq). by destruct (table h).
    + intros x Hx. unfold on_bus in Hx. rewrite Eb in Hx.
      rewrite Hoth; [by apply R3|]. intros ->.
      apply (safe_queue_not_flight N table st h Hs Hhq). by right.
    + intros x Hf Htr Hnq Hnr Hnb. rewrite Efi in Hf.
      unfold on_bus in Hnb. rewrite Eb in Hnb.
      assert (Hne : x ≠ h). { intros ->. apply Hnr, HR. by right. }
      rewrite Hoth by done. apply R4; try done.
      * intros [[|k] Hk]; [by apply Hne, (queued_0_unique st)|].
        apply Hnq. exists k. by apply HQ.
      * intros Hr. apply Hnr, HR. by left.
Qed.

Lemma results_fetch_To_dispatch N table c st st' :
  wf_trace N table → live N table st → orderly table st →
  results table c st → fetch_To_dispatch N c st = Ok st' → results table c st'.
Proof.
  intros Hwf Hl Ho [R0 R1 R2 R3 R4] H.
  pose proof (live_safe _ _ _ Hl) as Hs.
  assert (Htl : (ifq_tail st < INSTR_QUEUE_SIZE)%nat).
  { rewrite (safe_tail _ _ _ Hs). apply queue_mod_lt. }
  apply (fetch_To_dispatch_Ok N c st st' (safe_len_queue _ _ _ Hs) Htl) in H
    as [[_ ->]|(new & d & Hsz & Hlt & Hnew & Htrap & _ & Htraps & ->)]; [by split|].
  destruct (safe_code _ _ _ Hs new) as (Eo & _). rewrite Eo in Htrap.
  assert (HQ : ∀ k y, queued (set_mem (<[new := set_tom_dispatch_cycle c (mem st new)]> (mem st))
                                (set_doneCount d (set_fetch_index new (push_tail new st)))) k y
                      ↔ queued st k y ∨ (k = instr_queue_size st ∧ y = new)).
  { intros k y. rewrite <- (queued_push_tail st new k y); [done|apply Hs..|done|apply Hs]. }
  assert (Hold : ∀ x, in_queue st x ∨ in_RS st x ∨ on_bus st x → x ≠ new).
  { intros x [[k Hk]|Hx] ->.
    - pose proof (safe_queue_range _ _ _ Hs k new Hk). lia.
    - pose proof (safe_flight_range _ _ _ Hs new Hx). lia. }
  split; simpl.
  - intros x Hx. rewrite fn_lookup_insert_ne.
    + apply R0. destruct Hx as [?|[?|?]]; [by left|right; left; lia|by right; right].
    + intros ->. destruct Hx as [?|[?|?]]; [lia|lia|congruence].
  - intros x [k [Hk|[-> ->]]%HQ].
    + rewrite fn_lookup_insert_ne by (symmetry; apply Hold; left; by exists k).
      apply R1. by exists k.
    + rewrite fn_lookup_insert. rewrite (R0 new) by (right; left; lia).
      by destruct (table new).
  - intros x Hx. rewrite fn_lookup_insert_ne by (symmetry; apply Hold; by right; left).
    by apply R2.
  - intros x Hx. rewrite fn_lookup_insert_ne by (symmetry; apply Hold; by right; right).
    by apply R3.
  - intros x Hf Htr Hnq Hnr Hnb.
    assert (Hne : x ≠ new).
    { intros ->. apply Hnq. exists (instr_queue_size st). apply HQ. by right. }
    rewrite fn_lookup_insert_ne by done.
    assert (x <= fetch_index st).
    { destruct (Z_le_dec x (fetch_index st)) as [|Hgt]; [done|].
      destruct (safe_code _ _ _ Hs x) as (Eox & _).
      rewrite <- Eox, Htraps in Htr; [done|lia]. }
    apply R4; try done; [lia|].
    intros [k Hk]. apply Hnq. exists k. apply HQ. by left.
Qed.

Lemma results_at_point N table n k st :
  wf_trace N table → 0 <= N → at_point N table n k st →
  results table (cycle_after n) st.
Proof.
  intros Hwf HN.
  apply (at_point_stages_ind N table (λ n _ st, results table (cycle_after n) st)).
  - apply results_init.
  - clear n k st. intros n k st st' Hk Hp HR H.
    pose proof (live_at_point _ _ _ _ _ Hwf HN Hp) as Hl.
    pose proof (live_safe _ _ _ Hl) as Hs.
    pose proof (orderly_at_point _ _ _ _ _ Hwf HN Hp) as Ho.
    pose proof (timed_at_point _ _ _ _ _ Hwf Hp) as Ht.
    destruct k as [|[|[|[|k]]]]; simpl in H.
    + by apply (results_CDB_To_retire N table _ st).
    + apply (results_execute_To_CDB N table _ st); try done.
      by apply (at_point_1_bus N table n).
    + injection H as <-. by apply (results_issue_To_execute N table).
    + by apply (results_dispatch_To_issue N table _ st).
    + by apply (results_fetch_To_dispatch N table _ st).
  - clear n k st. intros n st _ HR. rewrite cycle_after_S. by apply results_next_pass.
Qed.

(** X18: at every point of a run over a well-formed trace the record of
    an instruction that has been fetched, is no trap and has left the
    queue, the stations and the bus holds what the simulator found for
    it, and its await-slots are empty.  A control instruction has been
    given a dispatch cycle before the current cycle and nothing else.
    Any other instruction has dispatch, issue and execute cycles that
    grow in this order; a store has had the latency of the integer units
    and no bus cycle has been written for it; any other instruction took
    the bus when the latency of its unit had passed since its execute
    cycle, in a cycle before the current one. *)
Theorem records_of_finished_instructions N table n k st x :
  wf_trace N table → 0 <= N → at_point N table n k st →
  1 <= x <= fetch_index st → IS_TRAP (op (table x)) = false →
  ¬ in_queue st x → ¬ in_RS st x → ¬ on_bus st x →
  same_code (mem st x) (table x) ∧ Q (mem st x) = (None, None, None) ∧
  1 <= tom_dispatch_cycle (mem st x) ∧
  if IS_UNCOND_CTRL (op (table x)) || IS_COND_CTRL (op (table x))
  then tom_dispatch_cycle (mem st x) < cycle_after n ∧
       mem st x = set_tom_dispatch_cycle (tom_dispatch_cycle (mem st x)) (table x)
  else tom_dispatch_cycle (mem st x) < tom_issue_cycle (mem st x) ∧
       tom_issue_cycle (mem st x) < tom_execute_cycle (mem st x) ∧
       if IS_STORE (op (table x))
       then tom_execute_cycle (mem st x) + FU_INT_LATENCY <= cycle_after n ∧
            tom_cdb_cycle (mem st x) = tom_cdb_cycle (table x)
       else tom_execute_cycle (mem st x) + latency_of (op (table x))
              <= tom_cdb_cycle (mem st x) ∧
            tom_cdb_cycle (mem st x) < cycle_after n.
Proof.
  intros Hwf HN Hp Hf Htr Hnq Hnr Hnb.
  by apply (res_done table (cycle_after n) st (results_at_point N table n k st Hwf HN Hp)).
Qed.

(** X19: at every point of a run over a well-formed trace a record is
    written only as its instruction advances: the records of the traps,
    of the instructions not yet fetched and of everything outside the
    fetched part of the trace are as the trace gave them; a queued
    instruction has been given a dispatch cycle and nothing else; and no
    bus cycle has been written for an occupant of a reservation station,
    which is never a control instruction. *)
Theorem records_are_written_as_instructions_advance N table n k st x :
  wf_trace N table → 0 <= N → at_point N table n k st →
  (x < 1 ∨ fetch_index st < x ∨ IS_TRAP (op (table x)) = true → mem st x = table x) ∧
  (in_queue st x →
   mem st x = set_tom_dispatch_cycle (tom_dispatch_cycle (mem st x)) (table x)) ∧
  (in_RS st x →
   tom_cdb_cycle (mem st x) = tom_cdb_cycle (table x) ∧
   IS_UNCOND_CTRL (op (table x)) || IS_COND_CTRL (op (table x)) = false).
Proof.
  intros Hwf HN Hp.
  destruct (results_at_point N table n k st Hwf HN Hp) as [R0 R1 R2 _ _].
  split_and!; [apply R0|apply R1|apply R2].
Qed.

(** X20: when the run over a well-formed trace returns [r], the variables
    are those after [r - 1] passes of the loop, and every record of the
    trace holds the result of the simulation: the record of a trap is as
    the trace gave it; a control instruction has been given a dispatch
    cycle and nothing else; any other instruction has dispatch, issue and
    execute cycles that grow in this order, a store without a bus cycle
    written, any other instruction with a bus cycle not earlier than its
    execute cycle plus the latency of its unit; all await-slots are
    empty and every recorded cycle is before [r]. *)
Theorem records_after_the_run fuel N table r :
  wf_trace N table → 0 <= N → runTomasulo fuel N table = Some (Ok r) →
  ∃ st, passes (Z.to_nat (r - 1)) N table = Ok st ∧
        ∀ x, 1 <= x <= N →
             if IS_TRAP (op (table x)) then mem st x = table x
             else done_record r (table x) (mem st x).
Proof.
  intros Hwf HN H.
  destruct (exit_only_when_drained N table fuel r Hwf HN H)
    as (m & st & Hp & -> & Hd & Hbefore & Hfi & _ & Hempty).
  exists st. split.
  { replace (Z.to_nat (cycle_after m - 1)) with m by (unfold cycle_after; lia). done. }
  assert (HR : results table (cycle_after m) st).
  { destruct m as [|m].
    - simpl in Hp. injection Hp as <-. apply results_init.
    - rewrite cycle_after_S. apply results_next_pass.
      apply (results_at_point N table m 5 st Hwf HN).
      simpl in Hp. apply bind_Ok in Hp as (s1 & H1 & H2). rewrite stages_first_stages in H2.
      split; [lia|]. split; [|by exists s1].
      intros j s Hj Hs. unfold is_simulation_done.
      destruct (Z.eqb_spec (doneCount s) N) as [E|E]; [|done].
      exfalso. apply (Hbefore j s); [lia|done..]. }
  intros x Hx. destruct (IS_TRAP (op (table x))) eqn:Et.
  - apply (res_untouched _ _ _ HR). by right; right.
  - destruct (Hempty x) as (Hq & Hr & _ & Hb).
    apply (res_done _ _ _ HR); try done. lia.
Qed.

(** ** Program order *)

Lemma in_order_init table : in_order table 1 0 (init_state table).
Proof. split; intros; simpl in *; lia. Qed.

Lemma in_order_next_pass table c st : in_order table c 5 st → in_order table (c + 1) 0 st.
Proof.
  intros [B1 B2 O1 O2]. split; [| |done|done].
  - intros x Hx Ht. specialize (B1 x Hx Ht). repeat case_decide; lia.
  - intros x Hx Ht Hc Hq. specialize (B2 x Hx Ht Hc Hq). repeat case_decide; lia.
Qed.

(** A stage that writes no dispatch or issue cycle and leaves the queue
    and [fetch_index] alone. *)
Lemma in_order_quiet table c k st st' :
  (S k <= 3)%nat →
  instr_queue st' = instr_queue st → instr_queue_size st' = instr_queue_size st →
  ifq_head st' = ifq_head st → fetch_index st' = fetch_index st →
  (∀ x, tom_dispatch_cycle (mem st' x) = tom_dispatch_cycle (mem st x) ∧
        tom_issue_cycle (mem st' x) = tom_issue_cycle (mem st x)) →
  in_order table c k st → in_order table c (S k) st'.
Proof.
  intros Hk Eq Esz Ehd Efi Hst [B1 B2 O1 O2].
  assert (HQ : ∀ x, in_queue st' x ↔ in_queue st x) by (intros x; by apply in_queue_same).
  split.
  - intros x Hx Ht. rewrite Efi in Hx. destruct (Hst x) as [-> _].
    specialize (B1 x Hx Ht). repeat case_decide; first [done|lia].
  - intros x Hx Ht Hc Hq. rewrite Efi in Hx. rewrite HQ in Hq. destruct (Hst x) as [_ ->].
    specialize (B2 x Hx Ht Hc Hq). repeat case_decide; first [done|lia].
  - intros x y H1 H2 H3 Hx Hy. rewrite Efi in H3.
    destruct (Hst x) as [-> _], (Hst y) as [-> _]. by apply O1.
  - intros x y H1 H2 H3 Hx Hy Cx Cy Hq. rewrite Efi in H3. rewrite !HQ in *.
    destruct (Hst x) as [_ ->], (Hst y) as [_ ->]. by apply O2.
Qed.

Lemma in_order_dispatch_To_issue N table c st st' :
  live N table st → in_order table c 3 st →
  dispatch_To_issue c st = Ok st' → in_order table c 4 st'.
Proof.
  intros Hl [B1 B2 O1 O2] H. pose proof (live_safe _ _ _ Hl) as Hs.
  assert (Hweak : in_order table c 4 st).
  { split; [|intros x Hx Ht Hc Hq; specialize (B2 x Hx Ht Hc Hq)|done|done].
    - intros x Hx Ht. specialize (B1 x Hx Ht). repeat case_decide; first [done|lia].
    - repeat case_decide; first [done|lia]. }
  destruct (dispatch_To_issue_admits N table c st st' Hs H)
    as [[-> _]|[(h & Hh & Ec & ->)|(h & Hh & Ec & HQ & _ & _ & _ & _ & Efi & _ & _ &
                                    Hoth & _ & Ed & Ei & _)]]; [done| |].
  - assert (Hsz : (0 < instr_queue_size st)%nat) by (destruct Hh; lia).
    assert (HQ : ∀ k y, queued (set_doneCount (doneCount st + 1) (pop_head st)) k y
                        ↔ queued st (S k) y).
    { intros k y. by rewrite <- queued_pop_head. }
    destruct (safe_code _ _ _ Hs h) as (Eo & _). rewrite Eo in Ec.
    assert (Hout : ∀ x, x ≠ h →
                        ¬ in_queue (set_doneCount (doneCount st + 1) (pop_head st)) x →
                        ¬ in_queue st x).
    { intros x Hne Hq [[|k] Hk]; [by apply Hne, (queued_0_unique st)|].
      apply Hq. exists k. by apply HQ. }
    assert (Hin : ∀ x, in_queue (set_doneCount (doneCount st + 1) (pop_head st)) x →
                       in_queue st x).
    { intros x [k Hk%HQ]. by exists (S k). }
    split; simpl.
    + apply Hweak.
    + intros x Hx Ht Hc Hq. apply (io_issued _ _ _ _ Hweak); try done.
      apply Hout; [|done]. intros ->. congruence.
    + done.
    + intros x y H1 H2 H3 Hx Hy Cx Cy Hq.
      destruct (O2 x y) as [Hqx Hlt]; try done.
      { apply Hout; [|done]. intros ->. congruence. }
      split; [|done]. intros Hq'. by apply Hqx, Hin.
  - destruct (safe_code _ _ _ Hs h) as (Eo & _). rewrite Eo in Ec.
    assert (Hout : ∀ x, x ≠ h → ¬ in_queue st' x → ¬ in_queue st x).
    { intros x Hne Hq [[|k] Hk]; [by apply Hne, (queued_0_unique st)|].
      apply Hq. exists k. by apply HQ. }
    assert (Hin : ∀ x, in_queue st' x → in_queue st x).
    { intros x [k Hk%HQ]. by exists (S k). }
    assert (Hdisp : ∀ x, tom_dispatch_cycle (mem st' x) = tom_dispatch_cycle (mem st x)).
    { intros x. destruct (decide (x = h)) as [->|Hne]; [done|by rewrite Hoth]. }
    assert (Hbefore : ∀ x, x < h → ¬ in_queue st x).
    { intros x Hx [[|k] Hk].
      - pose proof (queued_0_unique st x h Hk Hh). lia.
      - pose proof (safe_queue_order _ _ _ Hs 0%nat (S k) h x Hh Hk). lia. }
    split.
    + intros x Hx Ht. rewrite Efi in Hx. rewrite Hdisp. by apply (io_dispatched _ _ _ _ Hweak).
    + intros x Hx Ht Hc Hq. rewrite Efi in Hx.
      destruct (decide (x = h)) as [->|Hne]; [rewrite Ei; repeat case_decide; lia|].
      rewrite Hoth by done.
      pose proof (B2 x Hx Ht Hc (Hout x Hne Hq)) as Hb. repeat case_decide; lia.
    + intros x y H1 H2 H3 Hx Hy. rewrite Efi in H3. rewrite !Hdisp. by apply O1.
    + intros x y H1 H2 H3 Hx Hy Cx Cy Hq. rewrite Efi in H3.
      destruct (decide (y = h)) as [->|Hne].
      * pose proof (Hbefore x H2) as Hqx. split; [by intros ?%Hin|].
        rewrite Ei, Hoth by lia.
        assert (Hxf : 1 <= x <= fetch_index st) by lia.
        pose proof (B2 x Hxf Hx Cx Hqx) as Hb. repeat case_decide; lia.
      * destruct (O2 x y) as [Hqx Hlt]; try done; [by apply Hout|].
        split; [by intros ?%Hin|].
        assert (x ≠ h). { intros ->. apply Hqx. by exists 0%nat. }
        by rewrite !Hoth.
Qed.

Lemma in_order_fetch_To_dispatch N table c st st' :
  live N table st → in_order table c 4 st →
  fetch_To_dispatch N c st = Ok st' → in_order table c 5 st'.
Proof.
  intros Hl [B1 B2 O1 O2] H. pose proof (live_safe _ _ _ Hl) as Hs.
  assert (Hweak : in_order table c 5 st).
  { split; [|intros x Hx Ht Hc Hq; specialize (B2 x Hx Ht Hc Hq)|done|done].
    - intros x Hx Ht. specialize (B1 x Hx Ht). repeat case_decide; first [done|lia].
    - repeat case_decide; first [done|lia]. }
  assert (Htl : (ifq_tail st < INSTR_QUEUE_SIZE)%nat).
  { rewrite (safe_tail _ _ _ Hs). apply queue_mod_lt. }
  apply (fetch_To_dispatch_Ok N c st st' (safe_len_queue _ _ _ Hs) Htl) in H
    as [[_ ->]|(new & d & Hsz & Hlt & Hnew & Htrap & _ & Htraps & ->)]; [done|].
  assert (HQ : ∀ k y, queued (set_mem (<[new := set_tom_dispatch_cycle c (mem st new)]> (mem st))
                                (set_doneCount d (set_fetch_index new (push_tail new st)))) k y
                      ↔ queued st k y ∨ (k = instr_queue_size st ∧ y = new)).
  { intros k y. rewrite <- (queued_push_tail st new k y); [done|apply Hs..|done|apply Hs]. }
  assert (Hfetched : ∀ x, 1 <= x <= new → IS_TRAP (op (table x)) = false → x ≠ new →
                          1 <= x <= fetch_index st).
  { intros x Hx Ht Hne. destruct (Z_le_dec x (fetch_index st)) as [|Hgt]; [lia|].
    destruct (safe_code _ _ _ Hs x) as (Eox & _).
    rewrite <- Eox, Htraps in Ht; [done|lia]. }
  assert (Hnewd : tom_dispatch_cycle (set_tom_dispatch_cycle c (mem st new)) = c)
    by (by destruct (mem st new)).
  assert (Hnewq : in_queue (set_mem (<[new := set_tom_dispatch_cycle c (mem st new)]> (mem st))
                              (set_doneCount d (set_fetch_index new (push_tail new st)))) new).
  { exists (instr_queue_size st). apply HQ. by right. }
  assert (Hin : ∀ x, in_queue st x →
                     in_queue (set_mem (<[new := set_tom_dispatch_cycle c (mem st new)]> (mem st))
                                (set_doneCount d (set_fetch_index new (push_tail new st)))) x).
  { intros x [k Hk]. exists k. apply HQ. by left. }
  assert (Hback : ∀ x, x ≠ new →
                     in_queue (set_mem (<[new := set_tom_dispatch_cycle c (mem st new)]> (mem st))
                                (set_doneCount d (set_fetch_index new (push_tail new st)))) x →
                     in_queue st x).
  { intros x Hne [k [Hk|[_ ->]]%HQ]; [by exists k|done]. }
  split; simpl.
  - intros x Hx Ht.
    destruct (decide (x = new)) as [->|Hne].
    + rewrite fn_lookup_insert, Hnewd. repeat case_decide; lia.
    + rewrite fn_lookup_insert_ne by done.
      pose proof (B1 x (Hfetched x Hx Ht Hne) Ht) as Hb. repeat case_decide; lia.
  - intros x Hx Ht Hc Hq.
    assert (Hne : x ≠ new) by (by intros ->).
    rewrite fn_lookup_insert_ne by done.
    assert (Hqx : ¬ in_queue st x) by (by intros ?%Hin).
    pose proof (B2 x (Hfetched x Hx Ht Hne) Ht Hc Hqx) as Hb. repeat case_decide; lia.
  - intros x y H1 H2 H3 Hx Hy.
    assert (Hxf : 1 <= x <= fetch_index st) by (apply Hfetched; [lia|done|lia]).
    rewrite (fn_lookup_insert_ne _ new x) by lia.
    destruct (decide (y = new)) as [->|Hne].
    + rewrite fn_lookup_insert, Hnewd. pose proof (B1 x Hxf Hx) as Hb.
      repeat case_decide; lia.
    + rewrite fn_lookup_insert_ne by done.
      apply O1; try done. apply (Hfetched y); [lia|done..].
  - intros x y H1 H2 H3 Hx Hy Cx Cy Hq.
    assert (Hne : y ≠ new) by (by intros ->).
    assert (Hyf : 1 <= y <= fetch_index st) by (apply Hfetched; [lia|done..]).
    rewrite !fn_lookup_insert_ne by lia.
    destruct (O2 x y) as [Hqx Hlt']; try done; [lia|by intros ?%Hin|].
    split; [|done]. intros Hq'. apply Hqx, Hback; [lia|done].
Qed.

Lemma in_order_at_point N table n k st :
  wf_trace N table → 0 <= N → at_point N table n k st →
  in_order table (cycle_after n) k st.
Proof.
  intros Hwf HN.
  apply (at_point_stages_ind N table (λ n k st, in_order table (cycle_after n) k st)).
  - apply in_order_init.
  - clear n k st. intros n k st st' Hk Hp HI H.
    pose proof (live_at_point _ _ _ _ _ Hwf HN Hp) as Hl.
    pose proof (live_safe _ _ _ Hl) as Hs.
    destruct k as [|[|[|[|k]]]]; simpl in H.
    + pose proof (CDB_To_retire_frame _ _ _ H)
        as (_ & Eq & Esz & Ehd & _ & Efi & _).
      apply (in_order_quiet table _ 0 st st'); try done; [lia|].
      intros x. destruct (proj2 (CDB_To_retire_records _ _ _ H) x) as [(E1 & E2 & _) _].
      by split.
    + pose proof (execute_To_CDB_frame _ _ _ H) as (_ & Eq & Esz & Ehd & _ & Efi & _).
      apply (in_order_quiet table _ 1 st st'); try done; [lia|].
      intros x. destruct (execute_To_CDB_mem _ _ _ H) as [[-> _]|(w & _ & ->)]; [done|].
      destruct (decide (x = w)) as [->|Hne];
        [rewrite fn_lookup_insert; by destruct (mem st w)|by rewrite fn_lookup_insert_ne].
    + injection H as <-.
      destruct (issue_To_execute_frame (cycle_after n) st)
        as (_ & Eq & Esz & Ehd & _ & Efi & _).
      apply (in_order_quiet table _ 2 st); try done.
      intros x. destruct (issue_To_execute_records (cycle_after n) st x) as [->|[_ ->]];
        [done|by destruct (mem st x)].
    + by apply (in_order_dispatch_To_issue N table _ st).
    + assert (k = 0%nat) as -> by lia.
      by apply (in_order_fetch_To_dispatch N table _ st).
  - clear n k st. intros n st _ HI. rewrite cycle_after_S. by apply in_order_next_pass.
Qed.

(** X21: at every point of a run over a well-formed trace the fetched
    instructions that are no traps have dispatch cycles that grow with
    their place in the trace, so no two of them were fetched in the same
    cycle; and those of them that are no control instructions leave the
    queue in the order of the trace and have issue cycles that grow with
    it: the reservation stations are entered in program order, by at most
    one instruction in a cycle. *)
Theorem dispatch_and_issue_follow_program_order N table n k st x y :
  wf_trace N table → 0 <= N → at_point N table n k st →
  1 <= x → x < y → y <= fetch_index st →
  IS_TRAP (op (table x)) = false → IS_TRAP (op (table y)) = false →
  tom_dispatch_cycle (mem st x) < tom_dispatch_cycle (mem st y) ∧
  (IS_UNCOND_CTRL (op (table x)) || IS_COND_CTRL (op (table x)) = false →
   IS_UNCOND_CTRL (op (table y)) || IS_COND_CTRL (op (table y)) = false →
   ¬ in_queue st y →
   ¬ in_queue st x ∧ tom_issue_cycle (mem st x) < tom_issue_cycle (mem st y)).
Proof.
  intros Hwf HN Hp H1 H2 H3 Hx Hy.
  destruct (in_order_at_point N table n k st Hwf HN Hp) as [_ _ O1 O2].
  split; [by apply O1|]. intros Cx Cy Hq. by apply O2.
Qed.

End Properties.


(** * The theorems at concrete inputs *)

(** Well-formedness of a concrete record, field by field. *)
Ltac wf_fresh :=
  split;
  [ reflexivity | reflexivity | vm_compute; discriminate
  | reflexivity | reflexivity
  | intros [|[|[|j]]] Hj; [| | |lia]; vm_compute; (split; [discriminate|reflexivity])
  | intros [|[|j]] Hj; [| |lia]; vm_compute; (split; [discriminate|reflexivity])
  | first [ reflexivity | intros Hst; vm_compute in Hst; discriminate ] ].

Ltac wf_concrete :=
  apply (@wf_table_of pisa);
  [ vm_compute; split; [discriminate|reflexivity]
  | try unfold trace_mix; try unfold trace_one;
    try unfold trace_branch; try unfold trace_contend;
    try unfold trace_trap; try unfold trace_ends_in_trap;
    repeat (apply List.Forall_cons; [wf_fresh|]); apply List.Forall_nil
  | vm_compute; discriminate ].

Ltac at_concrete_point :=
  apply (@at_point_intro pisa);
  [ lia | vm_compute; reflexivity | vm_compute; reflexivity ].

Lemma wf_trace_mix : @wf_trace pisa 5 (table_of trace_mix).
Proof. wf_concrete. Qed.

Lemma wf_trace_one : @wf_trace pisa 1 (table_of trace_one).
Proof. wf_concrete. Qed.

(** In cycle 7 of the run over [trace_mix] instruction 1 has had its four
    cycles and takes the bus. *)
Lemma bus_goes_to_oldest_finished_witness :
  @wf_trace pisa 5 (table_of trace_mix) ∧
  @at_point pisa 5 (table_of trace_mix) 6 1 (point_state 5 trace_mix 6 1) ∧
  @execute_To_CDB pisa (cycle_after 6) (point_state 5 trace_mix 6 1)
    = Ok (point_state 5 trace_mix 6 2) ∧
  (commonDataBus (point_state 5 trace_mix 6 1) = None ∧
   (((∀ x, ¬ @cdb_candidate pisa (point_state 5 trace_mix 6 1) (cycle_after 6) x) ∧
     commonDataBus (point_state 5 trace_mix 6 2) = None) ∨
    (∃ w, commonDataBus (point_state 5 trace_mix 6 2) = Some w ∧
          @cdb_candidate pisa (point_state 5 trace_mix 6 1) (cycle_after 6) w ∧
          ¬ in_FU (point_state 5 trace_mix 6 2) w ∧
          ∀ y, @cdb_candidate pisa (point_state 5 trace_mix 6 1) (cycle_after 6) y →
               index (mem (point_state 5 trace_mix 6 1) w)
               <= index (mem (point_state 5 trace_mix 6 1) y)))).
Proof.
  assert (Hwf : @wf_trace pisa 5 (table_of trace_mix)) by wf_concrete.
  assert (Hp : @at_point pisa 5 (table_of trace_mix) 6 1 (point_state 5 trace_mix 6 1))
    by at_concrete_point.
  assert (He : @execute_To_CDB pisa (cycle_after 6) (point_state 5 trace_mix 6 1)
               = Ok (point_state 5 trace_mix 6 2)) by (vm_compute; reflexivity).
  split; [exact Hwf|]. split; [exact Hp|]. split; [exact He|].
  exact (@bus_goes_to_oldest_finished pisa 5 (table_of trace_mix) 6 _ _ Hwf Hp He).
Defined.

(** C3 as stated fails: in cycle 3 of the run over [trace_one], after
    [issue_To_execute], instruction 1 sits in a reservation station and in
    a functional unit. *)
Lemma one_structure_counterexample :
  @wf_trace pisa 1 (table_of trace_one) ∧
  @at_point pisa 1 (table_of trace_one) 2 3 (point_state 1 trace_one 2 3) ∧
  ¬ in_at_most_one_structure (point_state 1 trace_one 2 3) 1.
Proof.
  split; [wf_concrete|]. split; [at_concrete_point|].
  intros (_ & _ & _ & H & _). apply H. split; left; by exists 0%nat.
Qed.

Lemma structures_of_an_instruction_witness :
  @wf_trace pisa 1 (table_of trace_one) ∧
  @at_point pisa 1 (table_of trace_one) 2 3 (point_state 1 trace_one 2 3) ∧
  (holds (fuINT (point_state 1 trace_one 2 3)) 1 →
   holds (reservINT (point_state 1 trace_one 2 3)) 1).
Proof.
  assert (Hwf : @wf_trace pisa 1 (table_of trace_one)) by wf_concrete.
  assert (Hp : @at_point pisa 1 (table_of trace_one) 2 3 (point_state 1 trace_one 2 3))
    by at_concrete_point.
  split; [exact Hwf|]. split; [exact Hp|].
  exact (proj1 (proj2 (proj2 (proj2
    (@structures_of_an_instruction pisa 1 (table_of trace_one) 2 3 _ 1 Hwf Hp))))).
Defined.

Lemma map_operands_records_prior_producer_witness :
  @map_operands pisa 2 (point_state 5 trace_mix 2 3)
    = Ok (the_state (@map_operands pisa 2 (point_state 5 trace_mix 2 3))) ∧
  at3 (Q (mem (the_state (@map_operands pisa 2 (point_state 5 trace_mix 2 3))) 2)) 0
    = Some 1 ∧
  reg_read (map_table (the_state (@map_operands pisa 2 (point_state 5 trace_mix 2 3)))) 3
    = Some (Some 2).
Proof.
  assert (H : @map_operands pisa 2 (point_state 5 trace_mix 2 3)
    = Ok (the_state (@map_operands pisa 2 (point_state 5 trace_mix 2 3))))
    by (vm_compute; reflexivity).
  split; [exact H|].
  destruct (@map_operands_records_prior_producer pisa 2 _ _ H) as (HQ & _ & HD & _).
  split.
  - specialize (HQ 0%nat ltac:(lia) ltac:(vm_compute; discriminate)).
    vm_compute in HQ. vm_compute. congruence.
  - exact (HD 0%nat ltac:(lia) ltac:(vm_compute; discriminate)).
Defined.

(** The integer scan prefers the lower index, the floating-point scan the
    lower dispatch cycle, and with equal dispatch cycles the later slot. *)
Lemma oldest_ready_selection_witness :
  oldest_rs_int
    (table_of [fresh OP_ICOMP 7 (0, 0) (0, 0, 0); fresh OP_ICOMP 4 (0, 0) (0, 0, 0)])
    [Some 1; None; Some 2; None] = Some 2%nat ∧
  slot_index
    (table_of [fresh OP_ICOMP 7 (0, 0) (0, 0, 0); fresh OP_ICOMP 4 (0, 0) (0, 0, 0)])
    [Some 1; None; Some 2; None] 2
  <= slot_index
    (table_of [fresh OP_ICOMP 7 (0, 0) (0, 0, 0); fresh OP_ICOMP 4 (0, 0) (0, 0, 0)])
    [Some 1; None; Some 2; None] 0 ∧
  oldest_rs_fp
    (table_of [fresh OP_FCOMP 1 (0, 0) (0, 0, 0); fresh OP_FCOMP 2 (0, 0) (0, 0, 0)])
    [Some 1; Some 2] = Some 1%nat.
Proof.
  assert (H : oldest_rs_int
    (table_of [fresh OP_ICOMP 7 (0, 0) (0, 0, 0); fresh OP_ICOMP 4 (0, 0) (0, 0, 0)])
    [Some 1; None; Some 2; None] = Some 2%nat) by reflexivity.
  split; [exact H|]. split; [|reflexivity].
  destruct (oldest_ready_selection
    (table_of [fresh OP_ICOMP 7 (0, 0) (0, 0, 0); fresh OP_ICOMP 4 (0, 0) (0, 0, 0)])
    [Some 1; None; Some 2; None] []) as (Hi & _).
  destruct (Hi 2%nat H) as (_ & _ & Hmin).
  apply (Hmin 0%nat); [vm_compute; lia|reflexivity].
Defined.

(** In cycle 17 of the run over [trace_mix] the store, which started in
    cycle 13, leaves its unit and its station and is counted. *)
Lemma store_retires_at_execute_witness :
  @wf_trace pisa 5 (table_of trace_mix) ∧
  @at_point pisa 5 (table_of trace_mix) 16 1 (point_state 5 trace_mix 16 1) ∧
  @execute_To_CDB pisa (cycle_after 16) (point_state 5 trace_mix 16 1)
    = Ok (point_state 5 trace_mix 16 2) ∧
  finished_int (point_state 5 trace_mix 16 1) (cycle_after 16) 0 3 ∧
  @IS_STORE pisa (op (mem (point_state 5 trace_mix 16 1) 3)) = true ∧
  cycle_after 16 = tom_execute_cycle (mem (point_state 5 trace_mix 16 1) 3) + FU_INT_LATENCY ∧
  ¬ in_FU (point_state 5 trace_mix 16 2) 3 ∧
  ¬ in_RS (point_state 5 trace_mix 16 2) 3 ∧
  ¬ on_bus (point_state 5 trace_mix 16 2) 3 ∧
  doneCount (point_state 5 trace_mix 16 2) = doneCount (point_state 5 trace_mix 16 1) + 1.
Proof.
  assert (Hwf : @wf_trace pisa 5 (table_of trace_mix)) by wf_concrete.
  assert (Hp : @at_point pisa 5 (table_of trace_mix) 16 1 (point_state 5 trace_mix 16 1))
    by at_concrete_point.
  assert (He : @execute_To_CDB pisa (cycle_after 16) (point_state 5 trace_mix 16 1)
               = Ok (point_state 5 trace_mix 16 2)) by (vm_compute; reflexivity).
  assert (Hf : finished_int (point_state 5 trace_mix 16 1) (cycle_after 16) 0 3).
  { split; [vm_compute; lia|]. split; [reflexivity|]. vm_compute. discriminate. }
  assert (Hs : @IS_STORE pisa (op (mem (point_state 5 trace_mix 16 1) 3)) = true)
    by reflexivity.
  destruct (@store_retires_at_execute pisa 5 (table_of trace_mix) 16 _ _ 0%nat 3
              Hwf Hp He Hf Hs) as (H1 & H2 & H3 & H4 & H5 & _).
  split_and!; first [done | rewrite H5; reflexivity].
Defined.

Lemma DNA_entry_is_never_assigned_witness :
  @at_point pisa 5 (table_of trace_mix) 6 1 (point_state 5 trace_mix 6 1) ∧
  ∀ e, @reg_read (map_table (point_state 5 trace_mix 6 1)) (@DNA pisa) = Some e → e = None.
Proof.
  assert (Hp : @at_point pisa 5 (table_of trace_mix) 6 1 (point_state 5 trace_mix 6 1))
    by at_concrete_point.
  split; [exact Hp|].
  exact (proj1 (@DNA_entry_is_never_assigned pisa 5 (table_of trace_mix) 6 1 _ Hp)).
Defined.

(** C4 as stated fails: in the run over one branch the count reaches 1 in
    [dispatch_To_issue] of the pass with [cycle = 2], and the value
    returned is 3. *)
Lemma returned_value_counterexample :
  @wf_trace pisa 1 (table_of trace_branch) ∧
  ¬ @returns_cycle_of_last_retirement pisa 1 (table_of trace_branch).
Proof.
  split; [wf_concrete|]. intros H.
  assert (Hr : @runTomasulo pisa 10 1 (table_of trace_branch) = Some (Ok 3))
    by (vm_compute; reflexivity).
  assert (Hp : @at_point pisa 1 (table_of trace_branch) 1 3 (point_state 1 trace_branch 1 3))
    by at_concrete_point.
  assert (Hs : @stage pisa 1 (cycle_after 1) 3 (point_state 1 trace_branch 1 3)
               = Ok (point_state 1 trace_branch 1 4)) by (vm_compute; reflexivity).
  specialize (H 10%nat 3 1%nat 3%nat _ _ Hr Hp ltac:(lia) Hs).
  vm_compute in H. specialize (H ltac:(discriminate) eq_refl). discriminate.
Qed.

(** The run over [trace_mix] returns 18: the store, the last instruction
    to be counted, is counted in [execute_To_CDB] of the pass with
    [cycle = 17]. *)
Lemma returned_value_is_cycle_at_exit_witness :
  @wf_trace pisa 5 (table_of trace_mix) ∧
  @runTomasulo pisa 20 5 (table_of trace_mix) = Some (Ok 18) ∧
  @at_point pisa 5 (table_of trace_mix) 16 1 (point_state 5 trace_mix 16 1) ∧
  @stage pisa 5 (cycle_after 16) 1 (point_state 5 trace_mix 16 1)
    = Ok (point_state 5 trace_mix 16 2) ∧
  doneCount (point_state 5 trace_mix 16 1) ≠ 5 ∧
  doneCount (point_state 5 trace_mix 16 2) = 5 ∧
  18 = cycle_after 16 + 1.
Proof.
  assert (Hwf : @wf_trace pisa 5 (table_of trace_mix)) by wf_concrete.
  assert (H : @runTomasulo pisa 20 5 (table_of trace_mix) = Some (Ok 18))
    by (vm_compute; reflexivity).
  assert (Hp : @at_point pisa 5 (table_of trace_mix) 16 1 (point_state 5 trace_mix 16 1))
    by at_concrete_point.
  assert (Hs : @stage pisa 5 (cycle_after 16) 1 (point_state 5 trace_mix 16 1)
               = Ok (point_state 5 trace_mix 16 2)) by (vm_compute; reflexivity).
  assert (Hn : doneCount (point_state 5 trace_mix 16 1) ≠ 5) by (vm_compute; discriminate).
  assert (Hd : doneCount (point_state 5 trace_mix 16 2) = 5) by reflexivity.
  split; [exact Hwf|]. split; [exact H|]. split; [exact Hp|]. split; [exact Hs|].
  split; [exact Hn|]. split; [exact Hd|].
  exact (proj1 (proj2 (proj2 (@returned_value_is_cycle_at_exit pisa 5 (table_of trace_mix))))
           20%nat 18 16%nat 1%nat _ _ Hwf H Hp ltac:(lia) Hs Hn Hd).
Defined.

Lemma returned_value_is_one_past_last_cycle_witness :
  @runTomasulo pisa 20 5 (table_of trace_mix) = Some (Ok 18) ∧ 2 <= 18.
Proof.
  assert (H : @runTomasulo pisa 20 5 (table_of trace_mix) = Some (Ok 18))
    by (vm_compute; reflexivity).
  split; [exact H|].
  exact (proj1 (proj1 (proj2 (proj2
    (@returned_value_is_one_past_last_cycle pisa 5 (table_of trace_mix)))) 20%nat 18 H)).
Defined.

(** * Traces that end in a trap *)

(** C8 fails on the code: when [fetch_To_dispatch] finds room in the
    queue and instructions left in the trace, and all of these are traps,
    [fetch] counts them and then asks [get_instr] for the instruction
    after the last one.  On the trace that is one trap, which is
    well-formed, the first pass asks for instruction 2 of a trace of one
    instruction. *)
Theorem fetch_asks_beyond_the_trace :
  (∀ (M : Machine) N c st,
     (instr_queue_size st < INSTR_QUEUE_SIZE)%nat →
     0 <= fetch_index st < N →
     (∀ p, fetch_index st < p <= N → IS_TRAP (op (mem st p)) = true) →
     fetch_To_dispatch N c st = OutOfTrace (N + 1)) ∧
  @wf_trace pisa 1 (table_of trace_trap) ∧
  (∀ fuel, @runTomasulo pisa (S fuel) 1 (table_of trace_trap) = Some (OutOfTrace 2)).
Proof.
  split_and!.
  - intros M N c st Hsz Hfi Htraps. by apply fetch_To_dispatch_past_traps.
  - wf_concrete.
  - intros fuel. reflexivity.
Qed.

(** The first call of [fetch_To_dispatch] in the run over that trace. *)
Lemma fetch_asks_beyond_the_trace_witness :
  @fetch_To_dispatch pisa 1 1 (@init_state pisa (table_of trace_trap)) = OutOfTrace (1 + 1).
Proof.
  apply (proj1 fetch_asks_beyond_the_trace pisa 1 1 (@init_state pisa (table_of trace_trap))).
  - simpl. unfold INSTR_QUEUE_SIZE. lia.
  - simpl. lia.
  - intros p Hp. simpl in Hp. assert (p = 1) as -> by lia. reflexivity.
Defined.

(** C2: the run over a well-formed trace that does not end in a trap
    comes to the loop exit, and a run that comes to the exit has not left
    the loop before [doneCount] was the instruction count, the whole
    trace was fetched and nothing was left in the queue, the stations,
    the units or on the bus.  On a trace that ends in a trap the code
    fails the claim: on a trace of two instructions that ends in a trap
    the run does not come to the loop exit; in the second pass [fetch]
    skips the trap and asks for instruction 3, when one instruction is
    counted and the other is still in its reservation station. *)
Theorem run_comes_to_exit_unless_trace_ends_in_trap :
  (∀ (M : Machine) N table,
     wf_trace N table →
     (ends_outside_trap N table → ∃ fuel r, runTomasulo fuel N table = Some (Ok r)) ∧
     (∀ fuel r,
        0 <= N → runTomasulo fuel N table = Some (Ok r) →
        ∃ m st, passes m N table = Ok st ∧ r = cycle_after m ∧
                doneCount st = N ∧
                (∀ j s, (1 <= j < m)%nat → passes j N table = Ok s → doneCount s ≠ N) ∧
                fetch_index st = N ∧ instr_queue_size st = 0%nat ∧
                ∀ x, ¬ in_queue st x ∧ ¬ in_RS st x ∧ ¬ in_FU st x ∧ ¬ on_bus st x)) ∧
  (∀ fuel, @runTomasulo pisa (S (S fuel)) 2 (table_of trace_ends_in_trap)
           = Some (OutOfTrace 3)) ∧
  @wf_trace pisa 2 (table_of trace_ends_in_trap) ∧
  @first_stages pisa 2 (cycle_after 1) 4 (point_state 2 trace_ends_in_trap 1 0)
    = Ok (point_state 2 trace_ends_in_trap 1 4) ∧
  doneCount (point_state 2 trace_ends_in_trap 1 4) = 0 ∧
  in_RS (point_state 2 trace_ends_in_trap 1 4) 1 ∧
  @fetch_To_dispatch pisa 2 (cycle_after 1) (point_state 2 trace_ends_in_trap 1 4)
    = OutOfTrace 3.
Proof.
  split.
  { intros M N table Hwf. split.
    - by apply runTomasulo_terminates.
    - intros fuel r HN H. by apply (exit_only_when_drained N table fuel r). }
  split_and!; try reflexivity; [wf_concrete|]. left. by exists 0%nat.
Qed.

(** The run over [trace_mix], which ends in a branch, comes to the exit. *)
Lemma run_comes_to_exit_unless_trace_ends_in_trap_witness :
  @wf_trace pisa 5 (table_of trace_mix) ∧
  @ends_outside_trap pisa 5 (table_of trace_mix) ∧
  ∃ fuel r, @runTomasulo pisa fuel 5 (table_of trace_mix) = Some (Ok r).
Proof.
  assert (Hwf : @wf_trace pisa 5 (table_of trace_mix)) by wf_concrete.
  assert (Hend : @ends_outside_trap pisa 5 (table_of trace_mix)).
  { split; [lia|]. intros _. reflexivity. }
  split; [exact Hwf|]. split; [exact Hend|].
  exact (proj1 (proj1 run_comes_to_exit_unless_trace_ends_in_trap
                  pisa 5 (table_of trace_mix) Hwf) Hend).
Defined.
